(** * weakai: the convolution layer of [neuralnet] and the block checker of
    [rnn/rnntest], embedded in Rocq.

    Go values are modelled as follows.
    - [int] is a 64-bit integer: a [Z] with the wrap-around written out
      ([wrap], [int_add], [int_sub], [int_mul], [int_neg], [int_quo]).
    - [float64] is Rocq's primitive binary64 [float]; [+], [*], [-], [math.Abs],
      [math.IsNaN] and [>] are the IEEE 754 operations of [PrimFloat].
    - a run-time panic is a value of [panic]; a function that may panic
      returns a [Res].
    - a slice is a list; a slice that the code compares with [nil] is an
      [option] of a list ([None] is [nil]).
    - [*autofunc.Variable] is an [autofunc_Variable]: the address that gives the pointer
      its identity, and the vector it holds.
    - [autofunc.Gradient], [autofunc.RGradient] and [autofunc.RVector] are Go
      maps keyed by variable identity: a [gmap] from addresses to vectors,
      under an [option] whose [None] is the nil map.  Code that adds in place
      into a map entry's vector is a state transformer on the map. *)

From Stdlib Require Import ZArith List Lia Bool.
From Stdlib Require Import Floats.
From stdpp Require Import gmap list.

Local Open Scope Z_scope.

(** ** Go's [int] *)

Definition min_int : Z := - 2 ^ 63.
Definition max_int : Z := 2 ^ 63 - 1.

Definition wrap (z : Z) : Z := (z + 2 ^ 63) mod 2 ^ 64 - 2 ^ 63.

Definition is_int (z : Z) : Prop := min_int <= z <= max_int.

Definition int_add (a b : Z) : Z := wrap (a + b).
Definition int_sub (a b : Z) : Z := wrap (a - b).
Definition int_mul (a b : Z) : Z := wrap (a * b).
Definition int_neg (a : Z) : Z := wrap (- a).

(** ** Panics and results *)

Inductive panic : Set :=
  | uninitPanicMessage      (* panic(uninitPanicMessage) *)
  | integer_divide_by_zero  (* runtime error of [/] *)
  | index_out_of_range      (* runtime error of [s[i]] *)
  | nil_dereference         (* runtime error of a field read through nil *)
  | makeslice_len           (* runtime error of [make] with a negative length *)
  | blas_panic              (* blas64 refusing its arguments *)
  | tensor_precondition.    (* a Tensor3 operation used outside its contract *)

Inductive Res (A : Type) : Type :=
  | Ok (a : A)
  | Panic (p : panic).
Arguments Ok {A} a.
Arguments Panic {A} p.

#[global] Instance res_ret : MRet Res := fun A a => Ok a.
#[global] Instance res_bind : MBind Res := fun A B k m =>
  match m with
  | Ok a => k a
  | Panic p => Panic p
  end.

(** Go's [a / b] on [int]: truncated towards zero, a panic when [b] is 0. *)
Definition int_quo (a b : Z) : Res Z :=
  if b =? 0 then Panic integer_divide_by_zero else Ok (wrap (Z.quot a b)).

(** [for i := 0; i < n; i++ { s = body i s }] *)
Fixpoint for_from {S : Type} (i : Z) (n : nat) (body : Z -> S -> Res S) (s : S)
  : Res S :=
  match n with
  | O => Ok s
  | Datatypes.S n' => s' ← body i s; for_from (i + 1) n' body s'
  end.

Definition for_upto {S : Type} (n : Z) (body : Z -> S -> Res S) (s : S) : Res S :=
  for_from 0 (Z.to_nat n) body s.

(** [for i, a := range l { s = body i a s }] *)
Fixpoint for_range_from {A S : Type} (i : Z) (l : list A)
  (body : Z -> A -> S -> Res S) (s : S) : Res S :=
  match l with
  | [] => Ok s
  | a :: l' => s' ← body i a s; for_range_from (i + 1) l' body s'
  end.

Definition for_range {A S : Type} (l : list A) (body : Z -> A -> S -> Res S)
  (s : S) : Res S :=
  for_range_from 0 l body s.

(** ** Slices of [float64] *)

Abbreviation Vec := (list float).

Definition zeros (n : nat) : Vec := replicate n 0%float.

(** [v[i]] as an expression. *)
Definition index {A} (l : list A) (i : Z) : Res A :=
  if i <? 0 then Panic index_out_of_range
  else match l !! Z.to_nat i with
       | Some a => Ok a
       | None => Panic index_out_of_range
       end.

(** [v[i] = a]. *)
Definition assign {A} (l : list A) (i : Z) (a : A) : Res (list A) :=
  if (0 <=? i) && (i <? Z.of_nat (length l)) then Ok (<[Z.to_nat i := a]> l)
  else Panic index_out_of_range.

(** The element at a flat index, 0 outside the vector (used only under a
    bounds check). *)
Definition data_at (l : Vec) (i : Z) : float :=
  if i <? 0 then 0%float else default 0%float (l !! Z.to_nat i).

(** [make(linalg.Vector, n)] *)
Definition make_vec (n : Z) : Res Vec :=
  if n <? 0 then Panic makeslice_len else Ok (zeros (Z.to_nat n)).

(** The list [f 0; f 1; ...; f (n-1)]. *)
Definition tabulate (n : nat) (f : Z -> float) : Vec :=
  (fun i => f (Z.of_nat i)) <$> seq 0 n.

(** ** The dense-vector collaborator (gonum's blas64, increments 1)

    [Dot n x y] is the sum of [x[i] * y[i]] for [i < n], accumulated from 0 in
    index order; [Axpy n alpha x y] is [y[i] += alpha * x[i]] for [i < n].
    Both panic on a negative [n] or a vector shorter than [n]. *)

Definition dot_sum (x y : Vec) : float :=
  fold_left (fun acc p => (acc + fst p * snd p)%float) (zip x y) 0%float.

Definition Dot (n : Z) (x y : Vec) : Res float :=
  if (n <? 0) || (Z.of_nat (length x) <? n) || (Z.of_nat (length y) <? n)
  then Panic blas_panic
  else Ok (dot_sum (take (Z.to_nat n) x) (take (Z.to_nat n) y)).

Definition axpy_elems (alpha : float) (x y : Vec) : Vec :=
  zip_with (fun xi yi => (yi + alpha * xi)%float) x y.

Definition Axpy (n : Z) (alpha : float) (x y : Vec) : Res Vec :=
  if (n <? 0) || (Z.of_nat (length x) <? n) || (Z.of_nat (length y) <? n)
  then Panic blas_panic
  else Ok (axpy_elems alpha (take (Z.to_nat n) x) (take (Z.to_nat n) y)
           ++ drop (Z.to_nat n) y).

(** ** Tensor3

    The file that declares [Tensor3] is not among the sources; the
    definitions of this part follow the specification, sections 3 and 4.1. *)

Record Tensor3 : Type := mkTensor3 {
  Width : Z;
  Height : Z;
  Depth : Z;
  Data : Vec
}.

(** Modelled from the spec: the invariant of Tensor3, "backing length always
    equals width x height x depth", with no negative dimension. *)
Definition tensor_ok (t : Tensor3) : bool :=
  (0 <=? Width t) && (0 <=? Height t) && (0 <=? Depth t)
  && (Z.of_nat (length (Data t)) =? Width t * Height t * Depth t).

(** Modelled from the spec: NewTensor3, a tensor of the given dimensions over
    a zeroed backing vector of length width x height x depth. *)
Definition NewTensor3 (width height depth : Z) : Res Tensor3 :=
  data ← make_vec (width * height * depth);
  Ok (mkTensor3 width height depth data).

(** Modelled from the spec: the flattening of Tensor3,
    "index = depth*(y*width+x) + z" (channel-minor). *)
Definition flat_index (t : Tensor3) (x y z : Z) : Z :=
  Depth t * (y * Width t + x) + z.

(** Modelled from the spec: the coordinates that [flat_index] sends to the
    flat index [n], in a tensor of the given width and depth. *)
Definition coords (width depth : Z) (n : Z) : Z * Z * Z :=
  ((n / depth) mod width, (n / depth) / width, n mod depth).

(** Modelled from the spec: Tensor3.Get, the addressed read. *)
Definition Get (t : Tensor3) (x y z : Z) : Res float :=
  index (Data t) (flat_index t x y z).

(** Modelled from the spec: Tensor3.Set, the addressed write. *)
Definition SetAt (t : Tensor3) (x y z : Z) (v : float) : Res Tensor3 :=
  data ← assign (Data t) (flat_index t x y z) v;
  Ok (mkTensor3 (Width t) (Height t) (Depth t) data).

(** Modelled from the spec: Tensor3.Crop, "copies a rectangular, depth-full
    sub-region into a smaller destination tensor of matching
    width/height/depth"; a window that leaves the source, or tensors that
    break the Tensor3 invariant, are "a fatal precondition failure".  The
    result is the destination after the copy. *)
Definition Crop (t : Tensor3) (x y : Z) (t1 : Tensor3) : Res Tensor3 :=
  if tensor_ok t && tensor_ok t1 && (Depth t1 =? Depth t)
     && (0 <=? x) && (x + Width t1 <=? Width t)
     && (0 <=? y) && (y + Height t1 <=? Height t)
  then Ok (mkTensor3 (Width t1) (Height t1) (Depth t1)
             (tabulate (length (Data t1)) (fun n =>
                let '(i, j, k) := coords (Width t1) (Depth t1) n in
                data_at (Data t) (flat_index t (x + i) (y + j) k))))
  else Panic tensor_precondition.

(** What Tensor3.MulAdd does with arguments of which its specification says
    nothing.  The file that declares [Tensor3] is not among the sources, and
    section 4.1 words MulAdd for a source that lies inside the receiver at
    the offset.  For a negative offset and for a source that reaches beyond
    the receiver (section 9 leaves the question open) the answer is a
    parameter of the model. *)
Abbreviation MulAdd_unspecified :=
  (Tensor3 -> Z -> Z -> Tensor3 -> float -> Res Tensor3).

(** Modelled from the spec: Tensor3.MulAdd, "adds scalar * sourceTensor into
    the region of self starting at the given offset": where the region of
    the size of [t1] that starts at [(x, y)] lies inside [t], the element of
    [t1] at [(i, j, k)] is scaled by [s] and added to the element of [t] at
    [(x + i, y + j, k)], and the result is [t] after the additions.  In
    every other case the result is what [beyond] answers. *)
Definition MulAdd (beyond : MulAdd_unspecified) (t : Tensor3) (x y : Z)
  (t1 : Tensor3) (s : float) : Res Tensor3 :=
  if tensor_ok t && tensor_ok t1 && (Depth t =? Depth t1)
     && (0 <=? x) && (x + Width t1 <=? Width t)
     && (0 <=? y) && (y + Height t1 <=? Height t)
  then Ok (mkTensor3 (Width t) (Height t) (Depth t)
             (tabulate (length (Data t)) (fun n =>
                let '(i, j, k) := coords (Width t) (Depth t) n in
                let v := data_at (Data t) n in
                if (0 <=? i - x) && (i - x <? Width t1)
                   && (0 <=? j - y) && (j - y <? Height t1)
                then (v + s * data_at (Data t1) (flat_index t1 (i - x) (j - y) k))%float
                else v)))
  else beyond t x y t1 s.

(** ** autofunc: variables, gradient maps and graph nodes *)

(** [*autofunc.Variable]: [addr] is the pointer (the identity that keys the
    gradient maps), [Vector] the vector of the variable it points to. *)
Record autofunc_Variable : Type := mkVariable {
  addr : positive;
  Vector : Vec
}.

(** [map[*autofunc.Variable]linalg.Vector]: [autofunc.Gradient],
    [autofunc.RGradient] and [autofunc.RVector].  [None] is the nil map.  An
    entry holds the vector [autofunc.NewGradient] made for its key, which is
    never nil; so [m[v] == nil] holds exactly when [v] is no key of [m]. *)
Abbreviation VarMap := (option (gmap positive (list float))).

(** [m[v]], for a pointer [v] that may be nil (nil is never a key). *)
Definition map_index (m : VarMap) (v : option autofunc_Variable) : option Vec :=
  m' ← m; v' ← v; m' !! addr v'.

(** The key set of a map; a nil map has none. *)
Definition keys (m : VarMap) : gset positive :=
  match m with
  | Some m' => dom m'
  | None => ∅
  end.

(** [len(m)] *)
Definition map_len (m : VarMap) : Z :=
  match m with
  | Some m' => Z.of_nat (size m')
  | None => 0
  end.

(** Code that runs against mutable state [S] and may panic: the state it
    leaves behind, also when it panics, and its result. *)
Definition Acc (S A : Type) : Type := S -> S * Res A.

#[global] Instance acc_ret {S} : MRet (Acc S) := fun A a s => (s, Ok a).
#[global] Instance acc_bind {S} : MBind (Acc S) := fun A B k m s =>
  match m s with
  | (s', Ok a) => k a s'
  | (s', Panic p) => (s', Panic p)
  end.

(** A computation that does not touch the state. *)
Definition pure {S A} (r : Res A) : Acc S A := fun s => (s, r).

(** A read of the state. *)
Definition get_state {S} : Acc S S := fun s => (s, Ok s).

(** [for i := 0; i < n; i++] with loop-carried locals [l], against state. *)
Fixpoint forA_from {S L : Type} (i : Z) (n : nat) (body : Z -> L -> Acc S L)
  (l : L) : Acc S L :=
  match n with
  | O => mret l
  | Datatypes.S n' => l' ← body i l; forA_from (i + 1) n' body l'
  end.

Definition forA_upto {S L : Type} (n : Z) (body : Z -> L -> Acc S L) (l : L)
  : Acc S L :=
  forA_from 0 (Z.to_nat n) body l.

(** [for i, a := range xs] with loop-carried locals [l], against state. *)
Fixpoint forA_range_from {S A L : Type} (i : Z) (xs : list A)
  (body : Z -> A -> L -> Acc S L) (l : L) : Acc S L :=
  match xs with
  | [] => mret l
  | a :: xs' => l' ← body i a l; forA_range_from (i + 1) xs' body l'
  end.

Definition forA_range {S A L : Type} (xs : list A)
  (body : Z -> A -> L -> Acc S L) (l : L) : Acc S L :=
  forA_range_from 0 xs body l.

(** In-place update of the vector stored under key [k]: what a write through
    a slice that shares its storage with the map entry does.  The map itself
    is not assigned to: no entry is added or removed. *)
Definition update_entry (k : positive) (f : Vec -> Res Vec) : Acc VarMap unit :=
  fun m =>
    match m with
    | Some m' =>
        match m' !! k with
        | Some v =>
            match f v with
            | Ok v' => (Some (<[k := v']> m'), Ok tt)
            | Panic p => (m, Panic p)
            end
        | None => (m, Ok tt)
        end
    | None => (m, Ok tt)
    end.

(** The two maps of a dual backward pass: the RGradient and the Gradient. *)
Definition on_rgrad {A} (m : Acc VarMap A) : Acc (VarMap * VarMap) A :=
  fun s => let '(rg, r) := m (fst s) in ((rg, snd s), r).
Definition on_grad {A} (m : Acc VarMap A) : Acc (VarMap * VarMap) A :=
  fun s => let '(g, r) := m (snd s) in ((fst s, g), r).

(** [autofunc.Result], the interface of a graph node: its methods. *)
Record Result : Type := mkResult {
  Output : Vec;
  Constant : VarMap -> bool;
  PropagateGradient : Vec -> Acc VarMap unit
}.

(** [autofunc.RResult]; the state of [PropagateRGradient] is the pair of its
    [rgrad] and [grad] arguments. *)
Record RResult : Type := mkRResult {
  RResult_Output : Vec;
  ROutput : Vec;
  RResult_Constant : VarMap -> VarMap -> bool;
  PropagateRGradient : Vec -> Vec -> Acc (VarMap * VarMap) unit
}.

(** ** ConvLayer *)

Record ConvLayer : Type := mkConvLayer {
  FilterCount : Z;
  FilterWidth : Z;
  FilterHeight : Z;
  Stride : Z;
  InputWidth : Z;
  InputHeight : Z;
  InputDepth : Z;
  Filters : option (list Tensor3);
  FilterVars : option (list autofunc_Variable);
  Biases : option autofunc_Variable
}.

(** The elements a [range] over a slice visits; none for nil. *)
Definition elems {A} (s : option (list A)) : list A := default [] s.

Definition OutputWidth (c : ConvLayer) : Res Z :=
  q ← int_quo (int_sub (InputWidth c) (FilterWidth c)) (Stride c);
  let w := int_add 1 q in
  if w <? 0 then Ok 0 else Ok w.

Definition OutputHeight (c : ConvLayer) : Res Z :=
  q ← int_quo (int_sub (InputHeight c) (FilterHeight c)) (Stride c);
  let h := int_add 1 q in
  if h <? 0 then Ok 0 else Ok h.

Definition OutputDepth (c : ConvLayer) : Z := FilterCount c.

Definition inputToTensor (c : ConvLayer) (input : Vec) : Tensor3 :=
  mkTensor3 (InputWidth c) (InputHeight c) (InputDepth c) input.

Definition outputToTensor (c : ConvLayer) (out : Vec) : Res Tensor3 :=
  w ← OutputWidth c;
  h ← OutputHeight c;
  Ok (mkTensor3 w h (OutputDepth c) out).

Definition filterToTensor (c : ConvLayer) (filter : Vec) : Tensor3 :=
  mkTensor3 (FilterWidth c) (FilterHeight c) (InputDepth c) filter.

(** [c.Biases.Vector[z]] *)
Definition bias_at (c : ConvLayer) (z : Z) : Res float :=
  match Biases c with
  | Some b => index (Vector b) z
  | None => Panic nil_dereference
  end.

(** The locals of [convolve] that its loops write: [croppedInput] and
    [outTensor]. *)
Definition convolve (c : ConvLayer) (input : Vec) : Res Tensor3 :=
  let inTensor := inputToTensor c input in
  croppedInput ← NewTensor3 (FilterWidth c) (FilterHeight c) (InputDepth c);
  ow ← OutputWidth c;
  oh ← OutputHeight c;
  outTensor ← NewTensor3 ow oh (OutputDepth c);
  '(_, outTensor) ←
    for_upto (Height outTensor) (fun y st =>
      let inputY := int_mul y (Stride c) in
      for_upto (Width outTensor) (fun x '(croppedInput, outTensor) =>
        let inputX := int_mul x (Stride c) in
        croppedInput ← Crop inTensor inputX inputY croppedInput;
        outTensor ←
          for_range (elems (Filters c)) (fun z filter outTensor =>
            dot ← Dot (Z.of_nat (length (Data filter))) (Data filter)
                      (Data croppedInput);
            b ← bias_at c z;
            SetAt outTensor x y z (dot + b)%float) outTensor;
        Ok (croppedInput, outTensor)) st)
      (croppedInput, outTensor);
  Ok outTensor.

(** [filtersR]: the R-direction of each filter variable as a tensor, nil
    for a variable without one. *)
Definition filtersR (c : ConvLayer) (v : VarMap) : list (option Tensor3) :=
  (fun filterVar =>
     match map_index v (Some filterVar) with
     | None => None
     | Some data => Some (filterToTensor c data)
     end) <$> elems (FilterVars c).

Definition convolveR (c : ConvLayer) (v : VarMap) (input inputR : Vec)
  : Res Tensor3 :=
  let inTensor := inputToTensor c input in
  let inTensorR := inputToTensor c inputR in
  croppedInput ← NewTensor3 (FilterWidth c) (FilterHeight c) (InputDepth c);
  croppedInputR ← NewTensor3 (FilterWidth c) (FilterHeight c) (InputDepth c);
  ow ← OutputWidth c;
  oh ← OutputHeight c;
  outTensor ← NewTensor3 ow oh (OutputDepth c);
  let filtersR := filtersR c v in
  let biasR := map_index v (Biases c) in
  '(_, _, outTensor) ←
    for_upto (Height outTensor) (fun y st =>
      let inputY := int_mul y (Stride c) in
      for_upto (Width outTensor) (fun x '(croppedInput, croppedInputR, outTensor) =>
        let inputX := int_mul x (Stride c) in
        croppedInput ← Crop inTensor inputX inputY croppedInput;
        croppedInputR ← Crop inTensorR inputX inputY croppedInputR;
        outTensor ←
          for_range (elems (Filters c)) (fun z filter outTensor =>
            convolution ← Dot (Z.of_nat (length (Data filter))) (Data filter)
                              (Data croppedInputR);
            rfilter ← index filtersR z;
            convolution ←
              match rfilter with
              | Some rfilter =>
                  d ← Dot (Z.of_nat (length (Data rfilter))) (Data rfilter)
                          (Data croppedInput);
                  Ok (convolution + d)%float
              | None => Ok convolution
              end;
            convolution ←
              match biasR with
              | Some biasR => b ← index biasR z; Ok (convolution + b)%float
              | None => Ok convolution
              end;
            SetAt outTensor x y z convolution) outTensor;
        Ok (croppedInput, croppedInputR, outTensor)) st)
      (croppedInput, croppedInputR, outTensor);
  Ok outTensor.

(** [c.Filters == nil || c.Biases == nil || c.FilterVars == nil] *)
Definition uninitialized (c : ConvLayer) : bool :=
  negb (bool_decide (is_Some (Filters c)))
  || negb (bool_decide (is_Some (Biases c)))
  || negb (bool_decide (is_Some (FilterVars c))).

(** [Parameters]: [make] gives a slice of nil pointers, [res[0] = c.Biases]
    writes its first element, and [copy(res[1:], c.FilterVars)] overwrites
    as many elements of [res[1:]] as both slices have. *)
Definition copy_into {A} (dst src : list A) : list A :=
  take (length dst) src ++ drop (length src) dst.

Definition Parameters (c : ConvLayer) : Res (list (option autofunc_Variable)) :=
  if uninitialized c then Panic uninitPanicMessage
  else
    let res := replicate (S (length (elems (FilterVars c)))) None in
    res ← assign res 0 (Biases c);
    Ok (take 1 res ++ copy_into (drop 1 res) (Some <$> elems (FilterVars c))).

(** The node [Apply] returns. *)
Record convLayerResult : Type := mkConvLayerResult {
  OutputTensor : Tensor3;
  Input : Result;
  Layer : ConvLayer
}.

Definition Apply (c : ConvLayer) (input : Result) : Res convLayerResult :=
  if uninitialized c then Panic uninitPanicMessage
  else
    out ← convolve c (Output input);
    Ok (mkConvLayerResult out input c).

(** The node [ApplyR] returns. *)
Record convLayerRResult : Type := mkConvLayerRResult {
  R_OutputTensor : Tensor3;
  ROutputTensor : Tensor3;
  R_Input : RResult;
  R_Layer : ConvLayer;
  RV : VarMap
}.

Definition ApplyR (c : ConvLayer) (v : VarMap) (input : RResult)
  : Res convLayerRResult :=
  if uninitialized c then Panic uninitPanicMessage
  else
    out ← convolve c (RResult_Output input);
    outR ← convolveR c v (RResult_Output input) (ROutput input);
    Ok (mkConvLayerRResult out outR input c v).

(** ** The backward passes of the convolution

    [gradsFromMap] hands out the bias accumulator and one tensor per filter
    variable, each sharing its storage with the entry of the map it was read
    from.  Such a shared vector is held here by the key of its entry, and a
    write through it is an [update_entry] of the map. *)

Definition gradsFromMap (c : ConvLayer) (m : VarMap)
  : option positive * list (option positive) :=
  match m with
  | None => (None, (fun _ => None) <$> elems (FilterVars c))
  | Some _ =>
      (match map_index m (Biases c) with
       | Some _ => addr <$> Biases c
       | None => None
       end,
       (fun v =>
          match map_index m (Some v) with
          | None => None
          | Some _ => Some (addr v)
          end) <$> elems (FilterVars c))
  end.

(** [v[z] += s] *)
Definition add_at (z : Z) (s : float) (v : Vec) : Res Vec :=
  old ← index v z;
  assign v z (old + s)%float.

(** [blas64.Axpy(len(dest.Data), sumPartial, inTens, dest)] on the vector
    [dest] of a filter's gradient tensor, [inTens] being the cropped input. *)
Definition axpy_into (sumPartial : float) (src : Tensor3) (dest : Vec) : Res Vec :=
  Axpy (Z.of_nat (length dest)) sumPartial (Data src) dest.

(** [filterGrad.MulAdd(-inputX, -inputY, inputTensor, sumPartial)] on the
    vector of the tensor [filterGrad = filterToTensor(gradVec)]. *)
Definition muladd_into (beyond : MulAdd_unspecified) (c : ConvLayer)
  (inputX inputY : Z) (src : Tensor3) (sumPartial : float) (gradVec : Vec)
  : Res Vec :=
  t ← MulAdd beyond (filterToTensor c gradVec) (int_neg inputX)
             (int_neg inputY) src sumPartial;
  Ok (Data t).

(** A write through an optional shared vector: nothing when it is nil. *)
Definition update_opt (k : option positive) (f : Vec -> Res Vec) : Acc VarMap unit :=
  match k with
  | Some k => update_entry k f
  | None => mret tt
  end.

Definition zero_data (t : Tensor3) : Tensor3 :=
  mkTensor3 (Width t) (Height t) (Depth t) (zeros (length (Data t))).

(** The loop nest of [convLayerResult.PropagateGradient].  Its locals are
    [croppedInput] and, when the input is not constant, the pair
    [(tempInputGrad, inputGrad)], which the code allocates together. *)
Definition propagate_loops (beyond : MulAdd_unspecified) (layer : ConvLayer)
  (outputTensor inputTensor downstreamTensor : Tensor3) (biasGrad : option positive)
  (filterGrads : list (option positive))
  (locals : Tensor3 * option (Tensor3 * Tensor3))
  : Acc VarMap (Tensor3 * option (Tensor3 * Tensor3)) :=
  forA_upto (Height outputTensor) (fun y st =>
    let inputY := int_mul y (Stride layer) in
    forA_upto (Width outputTensor) (fun x '(croppedInput, grads) =>
      let inputX := int_mul x (Stride layer) in
      let grads :=
        (fun '(tempInputGrad, inputGrad) => (zero_data tempInputGrad, inputGrad))
          <$> grads in
      croppedInput ← pure (Crop inputTensor inputX inputY croppedInput);
      grads ←
        forA_range (elems (Filters layer)) (fun z filter grads =>
          sumPartial ← pure (Get downstreamTensor x y z);
          filterGrad ← pure (index filterGrads z);
          _ ← update_opt filterGrad (axpy_into sumPartial croppedInput);
          _ ← update_opt biasGrad (add_at z sumPartial);
          match grads with
          | Some (tempInputGrad, inputGrad) =>
              temp ← pure (Axpy (Z.of_nat (length (Data tempInputGrad)))
                                sumPartial (Data filter) (Data tempInputGrad));
              mret (Some (mkTensor3 (Width tempInputGrad) (Height tempInputGrad)
                            (Depth tempInputGrad) temp, inputGrad))
          | None => mret None
          end) grads;
      grads ←
        match grads with
        | Some (tempInputGrad, inputGrad) =>
            inputGrad ← pure (MulAdd beyond inputGrad inputX inputY
                                     tempInputGrad 1%float);
            mret (Some (tempInputGrad, inputGrad))
        | None => mret None
        end;
      mret (croppedInput, grads)) st)
    locals.

Definition convLayerResult_PropagateGradient (beyond : MulAdd_unspecified)
  (c : convLayerResult) (upstream : Vec) : Acc VarMap unit :=
  let layer := Layer c in
  let inputTensor := inputToTensor layer (Output (Input c)) in
  downstreamTensor ← pure (outputToTensor layer upstream);
  grad ← get_state;
  let '(biasGrad, filterGrads) := gradsFromMap layer grad in
  grads ←
    (if Constant (Input c) grad then mret None
     else
       inputGrad ← pure (NewTensor3 (InputWidth layer) (InputHeight layer)
                                    (InputDepth layer));
       tempInputGrad ← pure (NewTensor3 (FilterWidth layer) (FilterHeight layer)
                                        (InputDepth layer));
       mret (Some (tempInputGrad, inputGrad)));
  croppedInput ← pure (NewTensor3 (FilterWidth layer) (FilterHeight layer)
                                  (InputDepth layer));
  '(_, grads) ← propagate_loops beyond layer (OutputTensor c) inputTensor
                  downstreamTensor biasGrad filterGrads (croppedInput, grads);
  match grads with
  | Some (_, inputGrad) => PropagateGradient (Input c) (Data inputGrad)
  | None => mret tt
  end.

(** The loop nest of [convLayerRResult.PropagateRGradient], against the pair
    of [rgrad] and [grad].  Its locals are [inputGrad] and [inputGradR],
    which the code allocates together. *)
Definition propagateR_loops (beyond : MulAdd_unspecified) (layer : ConvLayer)
  (outputTensor inputTensor inputTensorR downstreamTensor downstreamTensorR
   : Tensor3)
  (biasGrad : option positive) (filterGrads : list (option positive))
  (biasGradR : option positive) (filterGradsR : list (option positive))
  (filtersR : list (option Tensor3)) (locals : option (Tensor3 * Tensor3))
  : Acc (VarMap * VarMap) (option (Tensor3 * Tensor3)) :=
  forA_upto (Height outputTensor) (fun y st =>
    let inputY := int_mul y (Stride layer) in
    forA_upto (Width outputTensor) (fun x st =>
      let inputX := int_mul x (Stride layer) in
      forA_range (elems (Filters layer)) (fun z filter grads =>
        sumPartial ← pure (Get downstreamTensor x y z);
        sumPartialR ← pure (Get downstreamTensorR x y z);
        filterGrad ← pure (index filterGrads z);
        _ ← on_grad (update_opt filterGrad
                       (muladd_into beyond layer inputX inputY inputTensor
                          sumPartial));
        filterGradR ← pure (index filterGradsR z);
        _ ← on_rgrad (update_opt filterGradR
                        (muladd_into beyond layer inputX inputY inputTensor
                           sumPartialR));
        _ ← on_rgrad (update_opt filterGradR
                        (muladd_into beyond layer inputX inputY inputTensorR
                           sumPartial));
        _ ← on_grad (update_opt biasGrad (add_at z sumPartial));
        _ ← on_rgrad (update_opt biasGradR (add_at z sumPartialR));
        match grads with
        | Some (inputGrad, inputGradR) =>
            inputGrad ← pure (MulAdd beyond inputGrad inputX inputY filter
                                     sumPartial);
            inputGradR ← pure (MulAdd beyond inputGradR inputX inputY filter
                                      sumPartialR);
            rfilter ← pure (index filtersR z);
            inputGradR ←
              match rfilter with
              | Some rfilter =>
                  pure (MulAdd beyond inputGradR inputX inputY rfilter
                          sumPartial)
              | None => mret inputGradR
              end;
            mret (Some (inputGrad, inputGradR))
        | None => mret None
        end) st) st)
    locals.

Definition convLayerRResult_PropagateRGradient (beyond : MulAdd_unspecified)
  (c : convLayerRResult) (upstream upstreamR : Vec)
  : Acc (VarMap * VarMap) unit :=
  let layer := R_Layer c in
  let inputTensor := inputToTensor layer (RResult_Output (R_Input c)) in
  let inputTensorR := inputToTensor layer (ROutput (R_Input c)) in
  downstreamTensor ← pure (outputToTensor layer upstream);
  downstreamTensorR ← pure (outputToTensor layer upstreamR);
  '(rgrad, grad) ← get_state;
  let '(biasGrad, filterGrads) := gradsFromMap layer grad in
  let '(biasGradR, filterGradsR) := gradsFromMap layer rgrad in
  grads ←
    (if RResult_Constant (R_Input c) rgrad grad then mret None
     else
       inputGrad ← pure (NewTensor3 (InputWidth layer) (InputHeight layer)
                                    (InputDepth layer));
       inputGradR ← pure (NewTensor3 (InputWidth layer) (InputHeight layer)
                                     (InputDepth layer));
       mret (Some (inputGrad, inputGradR)));
  let filtersR := filtersR layer (RV c) in
  grads ← propagateR_loops beyond layer (R_OutputTensor c) inputTensor
            inputTensorR downstreamTensor downstreamTensorR biasGrad
            filterGrads biasGradR filterGradsR filtersR grads;
  match grads with
  | Some (inputGrad, inputGradR) =>
      PropagateRGradient (R_Input c) (Data inputGrad) (Data inputGradR)
  | None => mret tt
  end.

(** ** The nodes of the convolution as results

    [Output], [ROutput] and [Constant] of [convLayerResult] and
    [convLayerRResult], and the nodes as the [autofunc.Result] and
    [autofunc.RResult] they implement. *)

(** [Constant(g)] of autofunc's [Variable]: [_, ok := g[v]; return !ok]. *)
Definition Variable_Constant (v : option autofunc_Variable) (g : VarMap) : bool :=
  negb (bool_decide (is_Some (map_index g v))).

Definition convLayerResult_Output (c : convLayerResult) : Vec :=
  Data (OutputTensor c).

(** [for _, x := range vars { if !x.Constant(g) { return false } }] and the
    [return true] that follows it. *)
Fixpoint all_Constant (vars : list autofunc_Variable) (g : VarMap) : bool :=
  match vars with
  | [] => true
  | x :: vars' =>
      if negb (Variable_Constant (Some x) g) then false
      else all_Constant vars' g
  end.

Definition convLayerResult_Constant (c : convLayerResult) (g : VarMap) : bool :=
  if negb (Variable_Constant (Biases (Layer c)) g) then false
  else if negb (Constant (Input c) g) then false
  else all_Constant (elems (FilterVars (Layer c))) g.

Definition convLayerRResult_Output (c : convLayerRResult) : Vec :=
  Data (R_OutputTensor c).

Definition convLayerRResult_ROutput (c : convLayerRResult) : Vec :=
  Data (ROutputTensor c).

(** The loop of [convLayerRResult.Constant]: a filter variable that is a key
    of [g] or of [rg] ends it with false. *)
Fixpoint all_RConstant (vars : list autofunc_Variable) (rg g : VarMap) : bool :=
  match vars with
  | [] => true
  | x :: vars' =>
      if negb (Variable_Constant (Some x) g) then false
      else if bool_decide (is_Some (map_index rg (Some x))) then false
      else all_RConstant vars' rg g
  end.

Definition convLayerRResult_Constant (c : convLayerRResult) (rg g : VarMap)
  : bool :=
  if negb (RResult_Constant (R_Input c) rg g) then false
  else if negb (Variable_Constant (Biases (R_Layer c)) g) then false
  else if bool_decide (is_Some (map_index rg (Biases (R_Layer c)))) then false
  else all_RConstant (elems (FilterVars (R_Layer c))) rg g.

Definition convLayerResult_Result (beyond : MulAdd_unspecified)
  (c : convLayerResult) : Result :=
  mkResult (convLayerResult_Output c) (convLayerResult_Constant c)
           (convLayerResult_PropagateGradient beyond c).

Definition convLayerRResult_RResult (beyond : MulAdd_unspecified)
  (c : convLayerRResult) : RResult :=
  mkRResult (convLayerRResult_Output c) (convLayerRResult_ROutput c)
            (convLayerRResult_Constant c)
            (convLayerRResult_PropagateRGradient beyond c).

(** ** autofunc: what the block checker calls *)

(** [autofunc.NewGradient(vars)] and [autofunc.NewRGradient(vars)]: a fresh
    map with one zero vector per variable, of the variable's length. *)
Definition NewGradient (vars : list autofunc_Variable) : VarMap :=
  Some (foldl (fun m v => <[addr v := zeros (length (Vector v))]> m) ∅ vars).

Definition NewRGradient (vars : list autofunc_Variable) : VarMap :=
  Some (foldl (fun m v => <[addr v := zeros (length (Vector v))]> m) ∅ vars).

(** [linalg.Vector.Add]: [v[i] += x] for every element [x] of [v1]. *)
Definition vec_add (v1 v : Vec) : Res Vec :=
  if (length v <? length v1)%nat then Panic index_out_of_range
  else Ok (zip_with (fun a x => (a + x)%float) (take (length v1) v) v1
           ++ drop (length v1) v).

(** A variable used as a graph node ([*autofunc.Variable] is a Result). *)
Definition Variable_Result (v : autofunc_Variable) : Result :=
  mkResult (Vector v)
           (fun g => negb (bool_decide (is_Some (map_index g (Some v)))))
           (fun upstream => update_entry (addr v) (vec_add upstream)).

(** [autofunc.NewRVariable(v, rv)]: the variable with its direction in [rv],
    a zero direction when [rv] has none. *)
Definition NewRVariable (v : autofunc_Variable) (rv : VarMap) : RResult :=
  mkRResult (Vector v)
            (match map_index rv (Some v) with
             | Some vec => vec
             | None => zeros (length (Vector v))
             end)
            (fun rg g => negb (bool_decide (is_Some (map_index g (Some v))))
                         && negb (bool_decide (is_Some (map_index rg (Some v)))))
            (fun upstream upstreamR =>
               _ ← on_grad (update_entry (addr v) (vec_add upstream));
               on_rgrad (update_entry (addr v) (vec_add upstreamR))).

(** The state a call leaves behind, or its panic. *)
Definition exec {S A} (m : Acc S A) (s : S) : Res S :=
  match m s with
  | (s', Ok _) => Ok s'
  | (_, Panic p) => Panic p
  end.

(** ** rnntest: the block checker *)

Section BlockChecker.

(** The block-defined state types of package [rnn], opaque to the checker,
    and the default tolerance [functest.DefaultPrec]. *)
Variables State StateGrad RState RStateGrad : Type.
Variable DefaultPrec : float.

(** [rnn.BlockOutput] *)
Record BlockOutput : Type := mkBlockOutput {
  Outputs : list Vec;
  States : list State;
  BlockOutput_PropagateGradient :
    option (list Vec) -> option (list (option StateGrad)) -> Acc VarMap unit
}.

(** [rnn.BlockROutput]; the state of [PropagateRGradient] is the pair of its
    [rg] and [g] arguments. *)
Record BlockROutput : Type := mkBlockROutput {
  R_Outputs : list Vec;
  ROutputs : list Vec;
  RStates : list RState;
  BlockROutput_PropagateRGradient :
    option (list Vec) -> option (list Vec) -> option (list (option RStateGrad))
    -> Acc (VarMap * VarMap) unit
}.

(** [rnn.Block] *)
Record Block : Type := mkBlock {
  StartState : State;
  StartRState : VarMap -> RState;
  ApplyBlock : list State -> list Result -> Res BlockOutput;
  ApplyBlockR : VarMap -> list RState -> list RResult -> Res BlockROutput
}.

Record BlockChecker : Type := mkBlockChecker {
  B : Block;
  BlockChecker_Input : list (list autofunc_Variable);
  Vars : list autofunc_Variable;
  BlockChecker_RV : VarMap;
  Delta : float;
  Prec : float
}.

(** The loop of [vecsEqual], over two vectors of one length. *)
Fixpoint vecsEqual_loop (prec : float) (v1 v2 : Vec) : bool :=
  match v1, v2 with
  | x :: v1', y :: v2' =>
      if xorb (is_nan x) (is_nan y) || (prec <? abs (x - y))%float then false
      else vecsEqual_loop prec v1' v2'
  | _, _ => true
  end.

Definition vecsEqual (b : BlockChecker) (v1 v2 : Vec) : bool :=
  if negb (length v1 =? length v2)%nat then false
  else
    let prec := if (Prec b =? 0)%float then DefaultPrec else Prec b in
    vecsEqual_loop prec v1 v2.

(** What [t.Errorf] reports, by call site. *)
Inductive failure : Type :=
  | all_nil_gradient_length_changed (from to : Z)
  | all_nil_r_gradient_length_changed (from to : Z)
  | non_nil_gradient_length_changed (from to : Z)
  | non_nil_r_gradient_length_changed (from to : Z)
  | gradients_dont_match (i : nat) (val1 val2 : Vec)
  | r_gradients_dont_match (i : nat) (val1 val2 : Vec).

(** [if cond { t.Errorf(...) }] *)
Definition errorf_if (cond : bool) (f : failure) : list failure :=
  if cond then [f] else [].

(** [b.Input[0][0]] *)
Definition first_input (b : BlockChecker) : Res autofunc_Variable :=
  row ← index (BlockChecker_Input b) 0;
  index row 0.

(** [g[variable]] as a vector: nil, the empty vector, when absent. *)
Definition entry (g : VarMap) (v : autofunc_Variable) : Vec :=
  default [] (map_index g (Some v)).

Definition testNilUpstream (b : BlockChecker) : Res (list failure) :=
  in00 ← first_input b;
  out ← ApplyBlock (B b) [StartState (B b)] [Variable_Result in00];
  let g1 := NewGradient (Vars b) in
  let initLen1 := map_len g1 in
  g1 ← exec (BlockOutput_PropagateGradient out None None) g1;
  let g2 := NewGradient (Vars b) in
  let initLen2 := map_len g2 in
  let zeroUpstream := (fun x => zeros (length x)) <$> Outputs out in
  let nilStateUpstream := replicate (length (States out)) None in
  g2 ← exec (BlockOutput_PropagateGradient out (Some zeroUpstream)
               (Some nilStateUpstream)) g2;
  Ok (errorf_if (negb (map_len g1 =? initLen1))
        (all_nil_gradient_length_changed initLen1 (map_len g1))
      ++ errorf_if (negb (map_len g2 =? initLen2))
           (non_nil_gradient_length_changed initLen2 (map_len g2))
      ++ concat (imap (fun i variable =>
           let val1 := entry g1 variable in
           let val2 := entry g2 variable in
           errorf_if (negb (vecsEqual b val1 val2))
             (gradients_dont_match i val1 val2)) (Vars b))).

Definition testNilUpstreamR (b : BlockChecker) : Res (list failure) :=
  in00 ← first_input b;
  out ← ApplyBlockR (B b) (BlockChecker_RV b)
          [StartRState (B b) (BlockChecker_RV b)]
          [NewRVariable in00 (BlockChecker_RV b)];
  let g1 := NewGradient (Vars b) in
  let rg1 := NewRGradient (Vars b) in
  let initLen1 := map_len g1 in
  '(rg1, g1) ← exec (BlockROutput_PropagateRGradient out None None None)
                 (rg1, g1);
  let g2 := NewGradient (Vars b) in
  let rg2 := NewRGradient (Vars b) in
  let initLen2 := map_len g2 in
  let zeroUpstream := (fun x => zeros (length x)) <$> R_Outputs out in
  let nilStateUpstream := replicate (length (RStates out)) None in
  '(rg2, g2) ← exec (BlockROutput_PropagateRGradient out (Some zeroUpstream)
                       (Some zeroUpstream) (Some nilStateUpstream)) (rg2, g2);
  Ok (errorf_if (negb (map_len g1 =? initLen1))
        (all_nil_gradient_length_changed initLen1 (map_len g1))
      ++ errorf_if (negb (map_len rg1 =? initLen1))
           (all_nil_r_gradient_length_changed initLen1 (map_len rg1))
      ++ errorf_if (negb (map_len g2 =? initLen2))
           (non_nil_gradient_length_changed initLen2 (map_len g2))
      ++ errorf_if (negb (map_len rg2 =? initLen2))
           (non_nil_r_gradient_length_changed initLen2 (map_len rg2))
      ++ concat (imap (fun i variable =>
           let val1 := entry g1 variable in
           let val2 := entry g2 variable in
           let val1R := entry rg1 variable in
           let val2R := entry rg2 variable in
           errorf_if (negb (vecsEqual b val1 val2))
             (gradients_dont_match i val1 val2)
           ++ errorf_if (negb (vecsEqual b val1R val2R))
                (r_gradients_dont_match i val1R val2R)) (Vars b))).

(** The two subtests [FullCheck] runs after the sequence checker. *)
Definition nil_upstream_subtests (b : BlockChecker) : Res (list failure) :=
  fs ← testNilUpstream b;
  fsR ← testNilUpstreamR b;
  Ok (fs ++ fsR).

(** [FullCheck]; [seqCheck] is what [functest.SeqRFuncChecker.FullCheck]
    reports for the block. *)
Definition FullCheck (seqCheck : BlockChecker -> Res (list failure))
  (b : BlockChecker) : Res (list failure) :=
  fs ← seqCheck b;
  fsNil ← nil_upstream_subtests b;
  Ok (fs ++ fsNil).

End BlockChecker.

Arguments mkBlockOutput {State StateGrad}.
Arguments Outputs {State StateGrad}.
Arguments States {State StateGrad}.
Arguments BlockOutput_PropagateGradient {State StateGrad}.
Arguments mkBlockROutput {RState RStateGrad}.
Arguments R_Outputs {RState RStateGrad}.
Arguments ROutputs {RState RStateGrad}.
Arguments RStates {RState RStateGrad}.
Arguments BlockROutput_PropagateRGradient {RState RStateGrad}.
Arguments mkBlock {State StateGrad RState RStateGrad}.
Arguments StartState {State StateGrad RState RStateGrad}.
Arguments StartRState {State StateGrad RState RStateGrad}.
Arguments ApplyBlock {State StateGrad RState RStateGrad}.
Arguments ApplyBlockR {State StateGrad RState RStateGrad}.
Arguments mkBlockChecker {State StateGrad RState RStateGrad}.
Arguments B {State StateGrad RState RStateGrad}.
Arguments BlockChecker_Input {State StateGrad RState RStateGrad}.
Arguments Vars {State StateGrad RState RStateGrad}.
Arguments BlockChecker_RV {State StateGrad RState RStateGrad}.
Arguments Delta {State StateGrad RState RStateGrad}.
Arguments Prec {State StateGrad RState RStateGrad}.
Arguments vecsEqual {State StateGrad RState RStateGrad}.
Arguments first_input {State StateGrad RState RStateGrad}.
Arguments testNilUpstream {State StateGrad RState RStateGrad}.
Arguments testNilUpstreamR {State StateGrad RState RStateGrad}.
Arguments nil_upstream_subtests {State StateGrad RState RStateGrad}.
Arguments FullCheck {State StateGrad RState RStateGrad}.

(** ** The parameters of a layer as pointers

    Above, a layer is read as a value.  [DeserializeConvLayer] and
    [Parameters] allocate, and what they promise is about sharing; for them
    the same structs are modelled with their pointers: a slice of [float64]
    is the location of its backing array, a [*autofunc.Variable] the location
    of the struct, a [[]*autofunc.Variable] the location of its backing
    array, and [Store] holds what the locations point to. *)

Module Mem.

Abbreviation loc := positive.

Record Tensor3 : Type := mkTensor3 {
  Width : Z;
  Height : Z;
  Depth : Z;
  Data : option loc        (* []float64: its backing array, [None] for nil *)
}.

Record autofunc_Variable : Type := mkVariable {
  Vector : option loc      (* linalg.Vector: its backing array *)
}.

Record ConvLayer : Type := mkConvLayer {
  FilterCount : Z;
  FilterWidth : Z;
  FilterHeight : Z;
  Stride : Z;
  InputWidth : Z;
  InputHeight : Z;
  InputDepth : Z;
  Filters : option (list (option Tensor3));   (* []*Tensor3, nil elements included *)
  FilterVars : option loc;                    (* []*autofunc.Variable *)
  Biases : option loc                         (* *autofunc.Variable *)
}.

Record Store : Type := mkStore {
  vectors : gmap loc Vec;
  variables : gmap loc autofunc_Variable;
  pointers : gmap loc (list (option loc))
}.

(** [var c ConvLayer] *)
Definition zero_ConvLayer : ConvLayer :=
  mkConvLayer 0 0 0 0 0 0 0 None None None.

Definition with_FilterVars (c : ConvLayer) (fv : option loc) : ConvLayer :=
  mkConvLayer (FilterCount c) (FilterWidth c) (FilterHeight c) (Stride c)
    (InputWidth c) (InputHeight c) (InputDepth c) (Filters c) fv (Biases c).

(** The elements of a slice of pointers. *)
Definition ptr_elems (st : Store) (s : option loc) : list (option loc) :=
  match s with
  | Some l => default [] (pointers st !! l)
  | None => []
  end.

(** [&autofunc.Variable{...}]: a new struct at an unused location. *)
Definition new_Variable (v : autofunc_Variable) : Acc Store loc :=
  fun st =>
    let p := fresh (dom (variables st)) in
    (mkStore (vectors st) (<[p := v]> (variables st)) (pointers st), Ok p).

(** [append(s, p)]: a slice of the elements of [s] followed by [p].  The
    slice appended to is referenced by nothing but the variable assigned to,
    so whether Go reuses spare capacity cannot be observed; the model takes
    a new backing array each time. *)
Definition append_ptr (s : option loc) (p : loc) : Acc Store (option loc) :=
  fun st =>
    let l := fresh (dom (pointers st)) in
    (mkStore (vectors st) (variables st)
       (<[l := ptr_elems st s ++ [Some p]]> (pointers st)), Ok (Some l)).

(** [make([]*autofunc.Variable, n)] *)
Definition make_ptrs (n : nat) : Acc Store loc :=
  fun st =>
    let l := fresh (dom (pointers st)) in
    (mkStore (vectors st) (variables st)
       (<[l := replicate n None]> (pointers st)), Ok l).

(** An in-place write to the backing array at [l]. *)
Definition update_ptrs (l : loc)
  (f : list (option loc) -> Res (list (option loc))) : Acc Store unit :=
  fun st =>
    match f (ptr_elems st (Some l)) with
    | Ok arr => (mkStore (vectors st) (variables st) (<[l := arr]> (pointers st)),
                 Ok tt)
    | Panic p => (st, Panic p)
    end.

(** [v[i] = x] and [v[i]] through a slice of [float64]. *)
Definition write_vec (v : option loc) (i : Z) (x : float) : Acc Store unit :=
  fun st =>
    match v with
    | Some l =>
        match assign (default [] (vectors st !! l)) i x with
        | Ok arr => (mkStore (<[l := arr]> (vectors st)) (variables st)
                       (pointers st), Ok tt)
        | Panic p => (st, Panic p)
        end
    | None => (st, Panic index_out_of_range)
    end.

Definition read_vec (v : option loc) (i : Z) : Acc Store float :=
  fun st =>
    match v with
    | Some l => (st, index (default [] (vectors st !! l)) i)
    | None => (st, Panic index_out_of_range)
    end.

Section Deserialize.

(** [json.Unmarshal(data, &c)]: the error, or the struct it filled, with
    whatever it allocated added to the store. *)
Variable error : Type.
Variable json_Unmarshal : list Byte.byte -> ConvLayer -> Acc Store (error + ConvLayer).

Definition DeserializeConvLayer (data : list Byte.byte)
  : Acc Store (error + ConvLayer) :=
  r ← json_Unmarshal data zero_ConvLayer;
  match r with
  | inl err => mret (inl err)
  | inr c =>
      filterVars ←
        forA_range (elems (Filters c)) (fun _ x filterVars =>
          match x with
          | None => pure (Panic nil_dereference)
          | Some x =>
              v ← new_Variable (mkVariable (Data x));
              append_ptr filterVars v
          end) (FilterVars c);
      mret (inr (with_FilterVars c filterVars))
  end.

(** The field tag [json:"-"] of [FilterVars]: Unmarshal leaves the field as
    it found it. *)
Definition skips_FilterVars : Prop :=
  forall data c st st' c',
    json_Unmarshal data c st = (st', Ok (inr c')) -> FilterVars c' = FilterVars c.

End Deserialize.

Arguments DeserializeConvLayer {error}.
Arguments skips_FilterVars {error}.

Definition uninitialized (c : ConvLayer) : bool :=
  negb (bool_decide (is_Some (Filters c)))
  || negb (bool_decide (is_Some (Biases c)))
  || negb (bool_decide (is_Some (FilterVars c))).

Definition Parameters (c : ConvLayer) : Acc Store loc :=
  if uninitialized c then pure (Panic uninitPanicMessage)
  else
    st ← get_state;
    let filterVars := ptr_elems st (FilterVars c) in
    res ← make_ptrs (S (length filterVars));
    _ ← update_ptrs res (fun arr => assign arr 0 (Biases c));
    _ ← update_ptrs res (fun arr =>
          Ok (take 1 arr ++ copy_into (drop 1 arr) filterVars));
    mret res.

(** *** Randomize *)

Definition with_Filters (c : ConvLayer) (fs : option (list (option Tensor3)))
  : ConvLayer :=
  mkConvLayer (FilterCount c) (FilterWidth c) (FilterHeight c) (Stride c)
    (InputWidth c) (InputHeight c) (InputDepth c) fs (FilterVars c) (Biases c).

Definition with_Biases (c : ConvLayer) (b : option loc) : ConvLayer :=
  mkConvLayer (FilterCount c) (FilterWidth c) (FilterHeight c) (Stride c)
    (InputWidth c) (InputHeight c) (InputDepth c) (Filters c) (FilterVars c) b.

(** [make(linalg.Vector, n)]: a zeroed backing array at an unused location;
    a negative length panics. *)
Definition make_Vector (n : Z) : Acc Store (option loc) :=
  fun st =>
    if n <? 0 then (st, Panic makeslice_len)
    else
      let l := fresh (dom (vectors st)) in
      (mkStore (<[l := zeros (Z.to_nat n)]> (vectors st)) (variables st)
         (pointers st), Ok (Some l)).

(** Modelled from the spec: NewTensor3, a tensor of the given dimensions over
    a zeroed backing vector of length width x height x depth, which it
    allocates. *)
Definition NewTensor3 (width height depth : Z) : Acc Store Tensor3 :=
  data ← make_Vector (width * height * depth);
  mret (mkTensor3 width height depth data).

(** [p.Vector] for a pointer [p] to a variable. *)
Definition Variable_Vector (p : option loc) : Acc Store (option loc) :=
  fun st =>
    match p ≫= (variables st !!.) with
    | Some v => (st, Ok (Vector v))
    | None => (st, Panic nil_dereference)
    end.

Section Randomize.

(** [Randomize] draws from the source of [math/rand], whose state is a
    [Rand], through [rand.Float64] and through [Tensor3.Randomize]; the
    latter is declared with [Tensor3], outside the sources, and is given its
    receiver as it is, nil included.  Both are parameters here. *)
Variable Rand : Type.
Variable rand_Float64 : Acc Rand float.
Variable Tensor3_Randomize : option Tensor3 -> Acc (Store * Rand) unit.

Definition on_store {A} (m : Acc Store A) : Acc (Store * Rand) A :=
  fun s => let '(st, r) := m (fst s) in ((st, snd s), r).

Definition on_rand {A} (m : Acc Rand A) : Acc (Store * Rand) A :=
  fun s => let '(g, r) := m (snd s) in ((fst s, g), r).

(** The receiver is a pointer to the layer; the layer it points to when
    the call returns is the result. *)
Definition Randomize (c : ConvLayer) : Acc (Store * Rand) ConvLayer :=
  c ← (if bool_decide (is_Some (Filters c)) then mret c
       else
         forA_upto (FilterCount c) (fun _ c =>
           filter ← on_store (NewTensor3 (FilterWidth c) (FilterHeight c)
                                         (InputDepth c));
           filterVar ← on_store (new_Variable (mkVariable (Data filter)));
           let c := with_Filters c (Some (elems (Filters c) ++ [Some filter])) in
           filterVars ← on_store (append_ptr (FilterVars c) filterVar);
           mret (with_FilterVars c filterVars)) c);
  c ← (if bool_decide (is_Some (Biases c)) then mret c
       else
         biasVec ← on_store (make_Vector (FilterCount c));
         biases ← on_store (new_Variable (mkVariable biasVec));
         mret (with_Biases c (Some biases)));
  _ ← forA_range (elems (Filters c)) (fun i filter _ =>
        _ ← Tensor3_Randomize filter;
        x ← on_rand rand_Float64;
        vector ← on_store (Variable_Vector (Biases c));
        on_store (write_vec vector i (x * 2 - 1)%float)) tt;
  mret c.

(** What the proofs assume of [Tensor3.Randomize] on an allocated tensor:
    it returns, and it writes into backing arrays only, whose lengths it
    keeps. *)
Definition Randomize_fills : Prop :=
  forall t s, exists s',
    Tensor3_Randomize (Some t) s = (s', Ok tt)
    /\ variables (fst s') = variables (fst s)
    /\ pointers (fst s') = pointers (fst s)
    /\ forall l, length <$> (vectors (fst s') !! l)
                 = length <$> (vectors (fst s) !! l).

(** [rand.Float64] returns. *)
Definition Float64_returns : Prop :=
  forall g, exists g' x, rand_Float64 g = (g', Ok x).

End Randomize.

Arguments on_store {Rand A}.
Arguments on_rand {Rand A}.
Arguments Randomize {Rand}.
Arguments Randomize_fills {Rand}.
Arguments Float64_returns {Rand}.

End Mem.

(** The value a pointer-level layer denotes in a store: every pointer
    replaced by what it points to. *)
Definition load_vec (st : Mem.Store) (v : option Mem.loc) : Vec :=
  match v with
  | Some l => default [] (Mem.vectors st !! l)
  | None => []
  end.

Definition load_Tensor3 (st : Mem.Store) (t : Mem.Tensor3) : Tensor3 :=
  mkTensor3 (Mem.Width t) (Mem.Height t) (Mem.Depth t) (load_vec st (Mem.Data t)).

Definition load_Variable (st : Mem.Store) (p : Mem.loc) : option autofunc_Variable :=
  v ← Mem.variables st !! p;
  Some (mkVariable p (load_vec st (Mem.Vector v))).

Definition load_ConvLayer (st : Mem.Store) (c : Mem.ConvLayer) : option ConvLayer :=
  filters ← match Mem.Filters c with
            | None => Some None
            | Some fs => Some <$> mapM (fun x => load_Tensor3 st <$> x) fs
            end;
  filterVars ← match Mem.FilterVars c with
               | None => Some None
               | Some l =>
                   Some <$> mapM (fun p => p ≫= load_Variable st)
                                 (Mem.ptr_elems st (Some l))
               end;
  biases ← match Mem.Biases c with
           | None => Some None
           | Some p => Some <$> load_Variable st p
           end;
  Some (mkConvLayer (Mem.FilterCount c) (Mem.FilterWidth c) (Mem.FilterHeight c)
          (Mem.Stride c) (Mem.InputWidth c) (Mem.InputHeight c)
          (Mem.InputDepth c) filters filterVars biases).

(** ** The specification's formulas, as it words them *)

(** Section 4.4: "outputWidth = max(0, 1 + floor((inputWidth-filterWidth)/stride))". *)
Definition shape_law (W Fw S : Z) : Z := Z.max 0 (1 + (W - Fw) / S).

(** Section 4.6, as claim C6 words it: equal length, and at every index
    both values NaN, or neither NaN and their absolute difference at most
    the tolerance. *)
Definition claimed_equal (prec : float) (v1 v2 : Vec) : Prop :=
  length v1 = length v2
  /\ forall (i : nat) x y, v1 !! i = Some x -> v2 !! i = Some y ->
       (is_nan x = true /\ is_nan y = true)
       \/ (is_nan x = false /\ is_nan y = false
           /\ (abs (x - y) <=? prec)%float = true).

(** Section 4.6, item 2, as claim C3 words it. *)

(** The accumulators left by propagating all-nil upstream, and by
    propagating zero vectors of the outputs' shapes with nil state
    gradients. *)
Definition nil_run {State StateGrad} (out : BlockOutput State StateGrad)
  (vars : list autofunc_Variable) : Res VarMap :=
  exec (BlockOutput_PropagateGradient out None None) (NewGradient vars).

Definition zero_run {State StateGrad} (out : BlockOutput State StateGrad)
  (vars : list autofunc_Variable) : Res VarMap :=
  exec (BlockOutput_PropagateGradient out
          (Some ((fun x => zeros (length x)) <$> Outputs out))
          (Some (replicate (length (States out)) None)))
       (NewGradient vars).

Definition nil_runR {RState RStateGrad} (out : BlockROutput RState RStateGrad)
  (vars : list autofunc_Variable) : Res (VarMap * VarMap) :=
  exec (BlockROutput_PropagateRGradient out None None None)
       (NewRGradient vars, NewGradient vars).

Definition zero_runR {RState RStateGrad} (out : BlockROutput RState RStateGrad)
  (vars : list autofunc_Variable) : Res (VarMap * VarMap) :=
  exec (BlockROutput_PropagateRGradient out
          (Some ((fun x => zeros (length x)) <$> R_Outputs out))
          (Some ((fun x => zeros (length x)) <$> R_Outputs out))
          (Some (replicate (length (RStates out)) None)))
       (NewRGradient vars, NewGradient vars).

(** The steps of the plain subtest and of the dual one: the first variable
    of the first input sequence, the block applied to it from the start
    state, and the two runs of the backward pass. *)
Definition plain_steps {State StateGrad RState RStateGrad}
  (b : BlockChecker State StateGrad RState RStateGrad)
  (in00 : autofunc_Variable) (out : BlockOutput State StateGrad)
  (g1 g2 : VarMap) : Prop :=
  (exists row, BlockChecker_Input b !! 0%nat = Some row
               /\ row !! 0%nat = Some in00)
  /\ ApplyBlock (B b) [StartState (B b)] [Variable_Result in00] = Ok out
  /\ nil_run out (Vars b) = Ok g1
  /\ zero_run out (Vars b) = Ok g2.

Definition dual_steps {State StateGrad RState RStateGrad}
  (b : BlockChecker State StateGrad RState RStateGrad)
  (in00 : autofunc_Variable) (out : BlockROutput RState RStateGrad)
  (rg1 g1 rg2 g2 : VarMap) : Prop :=
  (exists row, BlockChecker_Input b !! 0%nat = Some row
               /\ row !! 0%nat = Some in00)
  /\ ApplyBlockR (B b) (BlockChecker_RV b)
       [StartRState (B b) (BlockChecker_RV b)]
       [NewRVariable in00 (BlockChecker_RV b)] = Ok out
  /\ nil_runR out (Vars b) = Ok (rg1, g1)
  /\ zero_runR out (Vars b) = Ok (rg2, g2).

(** (a): the accumulator of a variable in a map is the vector the map holds
    for it, the empty vector when it holds none.  Two accumulators differ,
    at a tolerance, when their lengths differ, or at some index one value is
    NaN and the other is not, or the absolute difference of the two values
    is greater than the tolerance. *)
Definition accumulator (g : VarMap) (v : autofunc_Variable) : Vec :=
  match g with
  | Some m => default [] (m !! addr v)
  | None => []
  end.

Definition differ (prec : float) (v1 v2 : Vec) : Prop :=
  length v1 <> length v2
  \/ exists (i : nat) x y, v1 !! i = Some x /\ v2 !! i = Some y
       /\ (is_nan x <> is_nan y \/ (prec <? abs (x - y))%float = true).

Definition accumulators_differ (prec : float) (vars : list autofunc_Variable)
  (g1 g2 : VarMap) : Prop :=
  exists v, v ∈ vars /\ differ prec (accumulator g1 v) (accumulator g2 v).

(** (b): the run changed the number of entries of the map, counted as the
    size of its key set. *)
Definition entry_count (m : VarMap) : nat := size (keys m).

Definition entries_changed (before after : VarMap) : Prop :=
  entry_count after <> entry_count before.

(** Section 4.4, Forward, as claim C5 words it: the input patch cropped at
    (x*stride, y*stride) to the filter's size ... *)
Definition patch_at (c : ConvLayer) (input : Vec) (x y : Z) : Res Tensor3 :=
  croppedInput ← NewTensor3 (FilterWidth c) (FilterHeight c) (InputDepth c);
  Crop (inputToTensor c input) (x * Stride c) (y * Stride c) croppedInput.

(** ... and its dot product with filter z, plus bias[z]. *)
Definition forward_cell (c : ConvLayer) (input : Vec) (x y z : Z) : Res float :=
  patch ← patch_at c input x y;
  filter ← index (elems (Filters c)) z;
  dot ← Dot (Z.of_nat (length (Data filter))) (Data filter) (Data patch);
  b ← bias_at c z;
  Ok (dot + b)%float.

(** A sum with a term that may be absent. *)
Definition add_term (acc : float) (t : option float) : float :=
  match t with
  | Some t => (acc + t)%float
  | None => acc
  end.

(** Section 4.4, dual forward, as claim C4 words it: dot(filter, cropped
    input derivative) + dot(filter derivative, cropped input) + bias
    derivative at z, a term whose derivative is absent left out. *)
Definition dual_cell (c : ConvLayer) (v : VarMap) (input inputR : Vec)
  (x y z : Z) : Res float :=
  patch ← patch_at c input x y;
  patchR ← patch_at c inputR x y;
  filter ← index (elems (Filters c)) z;
  filterVar ← index (elems (FilterVars c)) z;
  d ← Dot (Z.of_nat (length (Data filter))) (Data filter) (Data patchR);
  dR ← match map_index v (Some filterVar) with
       | Some rfilter =>
           t ← Dot (Z.of_nat (length rfilter)) rfilter (Data patch); Ok (Some t)
       | None => Ok None
       end;
  bR ← match map_index v (Biases c) with
       | Some biasR => t ← index biasR z; Ok (Some t)
       | None => Ok None
       end;
  Ok (add_term (add_term d dR) bR).


(** ** Definitions used by the proofs *)

(** A result other than the panic of an uninitialized layer. *)
Definition never_uninit {A} (r : Res A) : Prop := r <> Panic uninitPanicMessage.

(** [m] leaves the observation [f] of the state as it found it, whether it
    returns or panics. *)
Definition preserves {S X A} (f : S -> X) (m : Acc S A) : Prop :=
  forall s, f (fst (m s)) = f s.

(** The key sets of the two maps of a dual backward pass. *)
Definition keys2 (s : VarMap * VarMap) : gset positive * gset positive :=
  (keys (fst s), keys (snd s)).

(** The tolerance [vecsEqual] compares with. *)
Definition effective_prec {State StateGrad RState RStateGrad}
  (DefaultPrec : float) (b : BlockChecker State StateGrad RState RStateGrad)
  : float :=
  if (Prec b =? 0)%float then DefaultPrec else Prec b.

(** The filter [x] and the pointer [p] to a variable made after the store
    [st1], whose vector is the data of [x]. *)
Definition wraps (st1 st : Mem.Store) (x : option Mem.Tensor3)
  (p : option Mem.loc) : Prop :=
  exists t q, x = Some t /\ p = Some q /\ (q ∉ dom (Mem.variables st1))
    /\ Mem.variables st !! q = Some (Mem.mkVariable (Mem.Data t)).

(** The invariant of the loop of [DeserializeConvLayer]. *)
Definition deserialize_inv (st1 : Mem.Store) (done : list (option Mem.Tensor3))
  (fv : option Mem.loc) (st : Mem.Store) : Prop :=
  Forall2 (wraps st1 st) done (Mem.ptr_elems st fv)
  /\ NoDup (Mem.ptr_elems st fv)
  /\ dom (Mem.variables st1) ⊆ dom (Mem.variables st).

(** An initialized layer of a valid shape: the stride is positive; along
    each axis the filter either fits into the input or exceeds it by a
    stride or more, in which case the output is empty along that axis;
    the dimensions are those of allocated tensors; and the parameters
    are what Randomize allocates for the dimensions: FilterCount filters
    of FilterWidth x FilterHeight x InputDepth values, one variable per
    filter, and FilterCount biases. *)
Record valid_layer (c : ConvLayer) (filters : list Tensor3)
  (filterVars : list autofunc_Variable) (biases : autofunc_Variable) : Prop := {
  valid_Filters : Filters c = Some filters;
  valid_FilterVars : FilterVars c = Some filterVars;
  valid_Biases : Biases c = Some biases;
  valid_Stride : 0 < Stride c;
  valid_Width :
    0 <= FilterWidth c <= max_int /\ 0 <= InputWidth c < max_int
    /\ (FilterWidth c <= InputWidth c
        \/ InputWidth c + Stride c <= FilterWidth c);
  valid_Height :
    0 <= FilterHeight c <= max_int /\ 0 <= InputHeight c < max_int
    /\ (FilterHeight c <= InputHeight c
        \/ InputHeight c + Stride c <= FilterHeight c);
  valid_Depth : 0 <= InputDepth c;
  valid_count : Z.of_nat (length filters) = FilterCount c;
  valid_vars : length filterVars = length filters;
  valid_bias_len : Z.of_nat (length (Vector biases)) = FilterCount c;
  valid_filter_len :
    Forall (fun f => Z.of_nat (length (Data f))
                     = FilterWidth c * FilterHeight c * InputDepth c) filters
}.

(** Directions of the shapes of their variables. *)
Definition valid_directions (c : ConvLayer) (filterVars : list autofunc_Variable)
  (biases : autofunc_Variable) (v : VarMap) : Prop :=
  (forall fv r, fv ∈ filterVars -> map_index v (Some fv) = Some r ->
     Z.of_nat (length r) = FilterWidth c * FilterHeight c * InputDepth c)
  /\ (forall r, map_index v (Some biases) = Some r ->
        Z.of_nat (length r) = FilterCount c).

(** Position (x', y', z') is written before (x, y, z) by loops over y, then
    x, then z. *)
Definition before (x y z x' y' z' : Z) : Prop :=
  y' < y \/ (y' = y /\ (x' < x \/ (x' = x /\ z' < z))).

(** The tensor [o] has the dimensions [ow] x [oh] x [od], and holds the
    value of [cell] at every position for which [done] holds. *)
Definition filled (ow oh od : Z) (cell : Z -> Z -> Z -> Res float)
  (done : Z -> Z -> Z -> Prop) (o : Tensor3) : Prop :=
  Width o = ow /\ Height o = oh /\ Depth o = od
  /\ Z.of_nat (length (Data o)) = ow * oh * od
  /\ forall x y z, 0 <= x < ow -> 0 <= y < oh -> 0 <= z < od -> done x y z ->
       exists v, cell x y z = Ok v /\ Get o x y z = Ok v.

(** A tensor of the filters' shape. *)
Definition filter_shaped (c : ConvLayer) (t : Tensor3) : Prop :=
  Width t = FilterWidth c /\ Height t = FilterHeight c
  /\ Depth t = InputDepth c
  /\ Z.of_nat (length (Data t)) = FilterWidth c * FilterHeight c * InputDepth c.


(** The vector a map holds under the key [k]. *)
Definition at_key (k : positive) (m : VarMap) : option Vec := m ≫= (.!! k).

Definition at_key2 (k : positive) (s : VarMap * VarMap)
  : option Vec * option Vec :=
  (at_key k (fst s), at_key k (snd s)).

(** Whether a map is nil. *)
Definition is_nil (m : VarMap) : bool := negb (bool_decide (is_Some m)).

Definition is_nil2 (s : VarMap * VarMap) : bool * bool :=
  (is_nil (fst s), is_nil (snd s)).

(** The step of the loop of [DeserializeConvLayer]. *)
Definition deserialize_body (x : option Mem.Tensor3) (filterVars : option Mem.loc)
  : Acc Mem.Store (option Mem.loc) :=
  match x with
  | None => pure (Panic nil_dereference)
  | Some x =>
      v ← Mem.new_Variable (Mem.mkVariable (Mem.Data x));
      Mem.append_ptr filterVars v
  end.

(** The filter [x] of a layer of the dimensions of [c] and the pointer [p]
    to the variable over its data, both allocated in [st]. *)
Definition allocated (c : Mem.ConvLayer) (st : Mem.Store)
  (x : option Mem.Tensor3) (p : option Mem.loc) : Prop :=
  exists t q l,
    x = Some t /\ p = Some q
    /\ Mem.Width t = Mem.FilterWidth c /\ Mem.Height t = Mem.FilterHeight c
    /\ Mem.Depth t = Mem.InputDepth c /\ Mem.Data t = Some l
    /\ length <$> (Mem.vectors st !! l)
       = Some (Z.to_nat (Mem.FilterWidth c * Mem.FilterHeight c * Mem.InputDepth c))
    /\ Mem.variables st !! q = Some (Mem.mkVariable (Mem.Data t)).

(** The configuration of a layer: the fields that are not parameters. *)
Definition same_config (c c' : Mem.ConvLayer) : Prop :=
  Mem.FilterCount c' = Mem.FilterCount c
  /\ Mem.FilterWidth c' = Mem.FilterWidth c
  /\ Mem.FilterHeight c' = Mem.FilterHeight c
  /\ Mem.Stride c' = Mem.Stride c
  /\ Mem.InputWidth c' = Mem.InputWidth c
  /\ Mem.InputHeight c' = Mem.InputHeight c
  /\ Mem.InputDepth c' = Mem.InputDepth c.

(** The lengths of the vectors of a map. *)
Definition shape (m : VarMap) : option (gmap positive nat) :=
  match m with
  | Some m' => Some (length <$> m')
  | None => None
  end.

(** A tensor of the input's shape. *)
Definition input_shaped (c : ConvLayer) (t : Tensor3) : Prop :=
  Width t = InputWidth c /\ Height t = InputHeight c /\ Depth t = InputDepth c
  /\ Z.of_nat (length (Data t)) = InputWidth c * InputHeight c * InputDepth c.

(** The locals of the loops of [PropagateGradient], of their shapes; the
    pair for the gradient of the input is there only when the input is not
    constant. *)
Definition locals_shaped (c : ConvLayer) (constant : bool)
  (l : Tensor3 * option (Tensor3 * Tensor3)) : Prop :=
  filter_shaped c (fst l)
  /\ match snd l with
     | Some (tempInputGrad, inputGrad) =>
         constant = false
         /\ filter_shaped c tempInputGrad /\ input_shaped c inputGrad
     | None => True
     end.

(** The output positions (x, y) in the order in which the loops of the
    backward passes visit them: row by row, each row from x = 0. *)
Definition positions (ow oh : Z) : list (Z * Z) :=
  y ← seqZ 0 oh; (fun x => (x, y)) <$> seqZ 0 ow.

(** The value of a tensor at (x, y, z). *)
Definition cell_at (t : Tensor3) (x y z : Z) : float :=
  data_at (Data t) (flat_index t x y z).

(** The upstream vector as the tensor that [outputToTensor] makes of it on
    a valid layer. *)
Definition upstream_tensor (c : ConvLayer) (upstream : Vec) : Tensor3 :=
  mkTensor3 (shape_law (InputWidth c) (FilterWidth c) (Stride c))
            (shape_law (InputHeight c) (FilterHeight c) (Stride c))
            (OutputDepth c) upstream.

(** The values of the input patch at an output position. *)
Definition patch_data (c : ConvLayer) (input : Vec) (p : Z * Z) : Vec :=
  match patch_at c input (fst p) (snd p) with
  | Ok patch => Data patch
  | Panic _ => []
  end.

(** What the visit of one output position adds to the accumulator of the
    biases: the upstream value of every filter [z] at the position, to
    element [z]. *)
Definition bias_step (down : Tensor3) (g : Vec) (p : Z * Z) : Vec :=
  imap (fun z b => (b + cell_at down (fst p) (snd p) (Z.of_nat z))%float) g.

(** What it adds to the accumulator of filter [z]: the input patch at the
    position, scaled by the upstream value of [z] there. *)
Definition filter_step (c : ConvLayer) (input : Vec) (down : Tensor3) (z : nat)
  (g : Vec) (p : Z * Z) : Vec :=
  axpy_elems (cell_at down (fst p) (snd p) (Z.of_nat z)) (patch_data c input p) g.

(** The accumulator of the biases when the filters before [kz] have been
    visited at a position. *)
Definition bias_partial (down : Tensor3) (p : Z * Z) (kz : nat) (g : Vec) : Vec :=
  imap (fun z b => if (z <? kz)%nat
                   then (b + cell_at down (fst p) (snd p) (Z.of_nat z))%float
                   else b) g.

(** The accumulators of the parameters in [s'] are those in [s] changed by
    [fb] (the biases) and by [ff j] (filter variable [j]); an accumulator
    that [s] does not have, [s'] does not have. *)
Definition stepped (filterVars : list autofunc_Variable)
  (biases : autofunc_Variable) (fb : Vec -> Vec) (ff : nat -> Vec -> Vec)
  (s s' : VarMap) : Prop :=
  at_key (addr biases) s' = fb <$> at_key (addr biases) s
  /\ forall (j : nat) fv, filterVars !! j = Some fv ->
       at_key (addr fv) s' = ff j <$> at_key (addr fv) s.

(** The locals of the loops of [PropagateRGradient], of their shapes; the
    pair is there only when the input is not constant. *)
Definition localsR_shaped (c : ConvLayer) (constant : bool)
  (l : option (Tensor3 * Tensor3)) : Prop :=
  match l with
  | Some (inputGrad, inputGradR) =>
      constant = false
      /\ input_shaped c inputGrad /\ input_shaped c inputGradR
  | None => True
  end.

(** What the visit of one output position adds to the accumulator of
    filter [z] in the RGradient: the input patch scaled by the upstream
    R-value of [z] at the position, then the patch of the input's
    R-output scaled by the upstream value. *)
Definition filter_stepR (c : ConvLayer) (input inputR : Vec)
  (down downR : Tensor3) (z : nat) (g : Vec) (p : Z * Z) : Vec :=
  axpy_elems (cell_at down (fst p) (snd p) (Z.of_nat z)) (patch_data c inputR p)
    (axpy_elems (cell_at downR (fst p) (snd p) (Z.of_nat z))
       (patch_data c input p) g).

(** Three answers to what MulAdd does where its specification is silent.
    They agree wherever the specification speaks, since [MulAdd] asks them
    only elsewhere.  [MulAdd_refuses] panics.  [MulAdd_clips] adds the part
    of the scaled source that falls inside the receiver and leaves the rest
    out, whatever the offset.  [MulAdd_clamps] takes a negative offset for
    0 and then does the same. *)
Definition MulAdd_refuses : MulAdd_unspecified :=
  fun _ _ _ _ _ => Panic tensor_precondition.

Definition MulAdd_clips : MulAdd_unspecified := fun t x y t1 s =>
  if tensor_ok t && tensor_ok t1 && (Depth t =? Depth t1)
  then Ok (mkTensor3 (Width t) (Height t) (Depth t)
             (tabulate (length (Data t)) (fun n =>
                let '(i, j, k) := coords (Width t) (Depth t) n in
                let v := data_at (Data t) n in
                if (0 <=? i - x) && (i - x <? Width t1)
                   && (0 <=? j - y) && (j - y <? Height t1)
                then (v + s * data_at (Data t1) (flat_index t1 (i - x) (j - y) k))%float
                else v)))
  else Panic tensor_precondition.

Definition MulAdd_clamps : MulAdd_unspecified := fun t x y t1 s =>
  MulAdd_clips t (Z.max 0 x) (Z.max 0 y) t1 s.

(** [beyond] answers as [MulAdd_clips] does. *)
Definition clipping (beyond : MulAdd_unspecified) : Prop :=
  forall t x y t1 s, beyond t x y t1 s = MulAdd_clips t x y t1 s.

(** ** Sample values *)

(** A layer narrower than its filter by less than a stride. *)
Definition narrow_layer : ConvLayer :=
  mkConvLayer 1 3 3 2 2 2 1 None None None.

(** A checker of a block without outputs, with tolerance [prec]. *)
Definition unit_checker (prec : float) : BlockChecker unit unit unit unit :=
  mkBlockChecker
    (mkBlock tt (fun _ => tt)
       (fun _ _ => Ok (mkBlockOutput [] [] (fun _ _ => mret tt)))
       (fun _ _ _ => Ok (mkBlockROutput [] [] [] (fun _ _ _ => mret tt))))
    [] [] None 0%float prec.

(** [functest.DefaultPrec], 1e-5, as the binary64 value nearest to it. *)
Definition sample_DefaultPrec : float := 0x1.4f8b588e368f1p-17%float.

(** A pointer-level layer with two filter variables at 5 and 6, the bias at
    7, and the store that holds its slice of filter variables at 1. *)
Definition sample_mem_layer : Mem.ConvLayer :=
  Mem.mkConvLayer 2 1 1 1 1 1 1
    (Some [Some (Mem.mkTensor3 1 1 1 (Some 3%positive));
           Some (Mem.mkTensor3 1 1 1 (Some 4%positive))])
    (Some 1%positive) (Some 7%positive).

Definition sample_store : Mem.Store :=
  Mem.mkStore
    (<[3%positive := [1%float]]> (<[4%positive := [2%float]]> ∅))
    (<[5%positive := Mem.mkVariable (Some 3%positive)]>
       (<[6%positive := Mem.mkVariable (Some 4%positive)]>
          (<[7%positive := Mem.mkVariable None]> ∅)))
    (<[1%positive := [Some 5%positive; Some 6%positive]]> ∅).

(** A decoder that, whatever the bytes, fills in two 1x1x1 filters over the
    backing arrays 3 and 4 of [sample_store] and leaves FilterVars alone. *)
Definition sample_Unmarshal (data : list Byte.byte) (c : Mem.ConvLayer)
  : Acc Mem.Store (unit + Mem.ConvLayer) :=
  fun st =>
    (st, Ok (inr (Mem.mkConvLayer 2 1 1 1 1 1 1
                    (Some [Some (Mem.mkTensor3 1 1 1 (Some 3%positive));
                           Some (Mem.mkTensor3 1 1 1 (Some 4%positive))])
                    (Mem.FilterVars c) (Some 7%positive)))).

(** A 3x3x1 input held by the variable at 9, and a layer of two 2x2x1
    filters with stride 1 applied to it. *)
Definition sample_input : autofunc_Variable :=
  mkVariable 9 [1; 2; 3; 4; 5; 6; 7; 8; 9]%float.

Definition sample_layer : ConvLayer :=
  mkConvLayer 2 2 2 1 3 3 1
    (Some [mkTensor3 2 2 1 [1; 2; 3; 4]%float; mkTensor3 2 2 1 [0; 1; 0; 1]%float])
    (Some [mkVariable 2 [1; 2; 3; 4]%float; mkVariable 3 [0; 1; 0; 1]%float])
    (Some (mkVariable 1 [10; 20]%float)).

(** The nodes [Apply] and [ApplyR] return for them. *)
Definition sample_result : convLayerResult :=
  mkConvLayerResult
    (mkTensor3 2 2 2 [47; 27; 57; 29; 77; 33; 87; 35]%float)
    (Variable_Result sample_input) sample_layer.

Definition sample_rresult : convLayerRResult :=
  mkConvLayerRResult
    (mkTensor3 2 2 2 [47; 27; 57; 29; 77; 33; 87; 35]%float)
    (mkTensor3 2 2 2 [0; 0; 0; 0; 0; 0; 0; 0]%float)
    (NewRVariable sample_input None) sample_layer None.

(** What [DeserializeConvLayer] makes of [sample_Unmarshal] over
    [sample_store]: two new variables, at 8 and 9, and the slice of them. *)
Definition sample_store_loaded : Mem.Store :=
  Mem.mkStore
    (<[3%positive := [1%float]]> (<[4%positive := [2%float]]> ∅))
    (<[8%positive := Mem.mkVariable (Some 3%positive)]>
       (<[9%positive := Mem.mkVariable (Some 4%positive)]>
          (<[5%positive := Mem.mkVariable (Some 3%positive)]>
             (<[6%positive := Mem.mkVariable (Some 4%positive)]>
                (<[7%positive := Mem.mkVariable None]> ∅)))))
    (<[3%positive := [Some 8%positive; Some 9%positive]]>
       (<[2%positive := [Some 8%positive]]>
          (<[1%positive := [Some 5%positive; Some 6%positive]]> ∅))).

Definition sample_mem_layer_loaded : Mem.ConvLayer :=
  Mem.with_FilterVars sample_mem_layer (Some 3%positive).

(** A block of one output that ignores its input and propagates nothing,
    and a checker of it over [sample_input]. *)
Definition sample_block : Block unit unit unit unit :=
  mkBlock tt (fun _ => tt)
    (fun _ _ => Ok (mkBlockOutput [[1%float]] [tt] (fun _ _ => mret tt)))
    (fun _ _ _ => Ok (mkBlockROutput [[1%float]] [[0%float]] [tt]
                        (fun _ _ _ => mret tt))).

Definition sample_checker : BlockChecker unit unit unit unit :=
  mkBlockChecker sample_block [[sample_input]] [sample_input] None 0%float
    0%float.

(** A block whose backward pass treats nil upstream unlike zero upstream:
    given nil, the plain pass adds 1 to every element of the accumulator at
    key 9 and the dual pass replaces the gradient map by an empty one; and a
    checker of it over [sample_input]. *)
Definition uneven_block : Block unit unit unit unit :=
  mkBlock tt (fun _ => tt)
    (fun _ _ => Ok (mkBlockOutput [[1%float]] [tt]
       (fun upstream _ =>
          match upstream with
          | None =>
              update_entry 9 (fun v => Ok ((fun x => (x + 1)%float) <$> v))
          | Some _ => mret tt
          end)))
    (fun _ _ _ => Ok (mkBlockROutput [[1%float]] [[0%float]] [tt]
       (fun upstream _ _ =>
          match upstream with
          | None => fun s => ((fst s, Some ∅), Ok tt)
          | Some _ => mret tt
          end))).

Definition uneven_checker : BlockChecker unit unit unit unit :=
  mkBlockChecker uneven_block [[sample_input]] [sample_input] None 0%float
    0%float.


Definition sample_direction : VarMap :=
  Some (<[2%positive := [1; 1; 1; 1]%float]> ∅).


(** An initialized layer whose stride was left at zero. *)
Definition zero_stride_layer : ConvLayer :=
  mkConvLayer 1 1 1 0 1 1 1 (Some [mkTensor3 1 1 1 [1%float]])
    (Some [mkVariable 2 [1%float]]) (Some (mkVariable 1 [0%float])).

(** An initialized layer whose filter is wider and higher than its input by
    less than a stride, and one whose stride is negative. *)
Definition narrow_filled_layer : ConvLayer :=
  mkConvLayer 1 3 3 2 2 2 1
    (Some [mkTensor3 3 3 1 [1; 1; 1; 1; 1; 1; 1; 1; 1]%float])
    (Some [mkVariable 2 [1; 1; 1; 1; 1; 1; 1; 1; 1]%float])
    (Some (mkVariable 1 [0%float])).

Definition backward_stride_layer : ConvLayer :=
  mkConvLayer 1 2 2 (-1) 1 1 1
    (Some [mkTensor3 2 2 1 [1; 1; 1; 1]%float])
    (Some [mkVariable 2 [1; 1; 1; 1]%float])
    (Some (mkVariable 1 [0%float])).

(** A direction for the first filter variable of [sample_layer] that is
    longer than the filter. *)
Definition long_direction : VarMap :=
  Some (<[2%positive := [1; 1; 1; 1; 1]%float]> ∅).

(** A gradient map that tracks one variable, at 5, which is none of
    [sample_layer] and not [sample_input]. *)
Definition sample_untracked : VarMap :=
  Some (<[5%positive := [0; 0]%float]> ∅).

(** A decoder that fills in one allocated filter and one nil pointer, as
    for a JSON array with a null element. *)
Definition sample_Unmarshal_null (data : list Byte.byte) (c : Mem.ConvLayer)
  : Acc Mem.Store (unit + Mem.ConvLayer) :=
  fun st =>
    (st, Ok (inr (Mem.mkConvLayer 2 1 1 1 1 1 1
                    (Some [Some (Mem.mkTensor3 1 1 1 (Some 3%positive)); None])
                    (Mem.FilterVars c) (Some 7%positive)))).

(** A source of random numbers that always answers 0.5, and a
    [Tensor3.Randomize] that writes 0.25 all over the data of its
    receiver. *)
Definition sample_Float64 : Acc unit float :=
  fun g => (g, Ok 0x1p-1%float).

Definition sample_Tensor3_Randomize (t : option Mem.Tensor3)
  : Acc (Mem.Store * unit) unit :=
  fun s =>
    match t with
    | Some t =>
        ((Mem.mkStore
            (match Mem.Data t with
             | Some l =>
                 alter (fmap (fun _ => 0x1p-2%float)) l (Mem.vectors (fst s))
             | None => Mem.vectors (fst s)
             end)
            (Mem.variables (fst s)) (Mem.pointers (fst s)), snd s), Ok tt)
    | None => (s, Panic nil_dereference)
    end.

(** A layer of two 1x1x1 filters that has nothing allocated, the same
    with no filter to allocate, and a layer whose Filters were set without
    FilterVars; the empty store; and what [Randomize] leaves of the last
    layer there. *)
Definition blank_layer : Mem.ConvLayer :=
  Mem.mkConvLayer 2 1 1 1 1 1 1 None None None.

Definition filterless_layer : Mem.ConvLayer :=
  Mem.mkConvLayer 0 1 1 1 1 1 1 None None None.

Definition decoded_layer : Mem.ConvLayer :=
  Mem.mkConvLayer 0 1 1 1 1 1 1 (Some []) None None.

Definition empty_store : Mem.Store := Mem.mkStore ∅ ∅ ∅.

Definition decoded_layer_randomized : Mem.ConvLayer :=
  Mem.mkConvLayer 0 1 1 1 1 1 1 (Some []) None (Some 1%positive).

Definition decoded_store_randomized : Mem.Store :=
  Mem.mkStore (<[1%positive := []]> ∅)
    (<[1%positive := Mem.mkVariable (Some 1%positive)]> ∅) ∅.

(** A gradient that tracks the parameters of [sample_layer] and
    [sample_input], all zero. *)
Definition sample_grad_all : VarMap :=
  Some (<[1%positive := [0; 0]%float]>
          (<[2%positive := [0; 0; 0; 0]%float]>
             (<[3%positive := [0; 0; 0; 0]%float]>
                (<[9%positive := [0; 0; 0; 0; 0; 0; 0; 0; 0]%float]> ∅)))).

(** * Properties *)

(** ** Results and loops *)

Lemma bind_Ok {A B} (m : Res A) (k : A -> Res B) (b : B) :
  m ≫= k = Ok b <-> exists a, m = Ok a /\ k a = Ok b.
Proof.
  destruct m as [a|p]; simpl; split.
  - intros H. exists a. auto.
  - intros (a' & Ha & Hk). inversion Ha. subst. exact Hk.
  - discriminate.
  - intros (a' & Ha & _). discriminate.
Qed.

Lemma nu_bind {A B} (m : Res A) (k : A -> Res B) :
  never_uninit m -> (forall a, never_uninit (k a)) -> never_uninit (m ≫= k).
Proof.
  intros Hm Hk. destruct m as [a|p]; [apply Hk|].
  intros E. apply Hm. inversion E. reflexivity.
Qed.

Lemma nu_Ok {A} (a : A) : never_uninit (Ok a).
Proof. discriminate. Qed.

Lemma nu_for_from {S} (body : Z -> S -> Res S) n :
  (forall i s, never_uninit (body i s)) ->
  forall i s, never_uninit (for_from i n body s).
Proof.
  intros Hb. induction n as [|n IH]; intros i s; simpl.
  - apply nu_Ok.
  - apply nu_bind; [apply Hb|intros; apply IH].
Qed.

Lemma nu_for_range_from {A S} (body : Z -> A -> S -> Res S) l :
  (forall i a s, never_uninit (body i a s)) ->
  forall i s, never_uninit (for_range_from i l body s).
Proof.
  intros Hb. induction l as [|a l IH]; intros i s; simpl.
  - apply nu_Ok.
  - apply nu_bind; [apply Hb|intros; apply IH].
Qed.

Lemma nu_index {A} (l : list A) i : never_uninit (index l i).
Proof. unfold index. destruct (_ <? _); [discriminate|]. destruct (_ !! _); discriminate. Qed.

Lemma nu_assign {A} (l : list A) i a : never_uninit (assign l i a).
Proof. unfold assign. destruct (_ && _); discriminate. Qed.

Lemma nu_NewTensor3 w h d : never_uninit (NewTensor3 w h d).
Proof. unfold NewTensor3, make_vec. destruct (_ <? _); discriminate. Qed.

Lemma nu_OutputWidth c : never_uninit (OutputWidth c).
Proof.
  unfold OutputWidth, int_quo. destruct (_ =? _); simpl; [discriminate|].
  destruct (_ <? _); discriminate.
Qed.

Lemma nu_OutputHeight c : never_uninit (OutputHeight c).
Proof.
  unfold OutputHeight, int_quo. destruct (_ =? _); simpl; [discriminate|].
  destruct (_ <? _); discriminate.
Qed.

Lemma nu_Crop t x y t1 : never_uninit (Crop t x y t1).
Proof. unfold Crop. destruct (_ && _); discriminate. Qed.

Lemma nu_Dot n x y : never_uninit (Dot n x y).
Proof. unfold Dot. destruct (_ || _); discriminate. Qed.

Lemma nu_bias_at c z : never_uninit (bias_at c z).
Proof. unfold bias_at. destruct (Biases c); [apply nu_index|discriminate]. Qed.

Lemma nu_SetAt t x y z v : never_uninit (SetAt t x y z v).
Proof. unfold SetAt. apply nu_bind; [apply nu_assign|intros; apply nu_Ok]. Qed.

Create HintDb nu.
#[local] Hint Resolve nu_Ok nu_index nu_assign nu_NewTensor3 nu_OutputWidth
  nu_OutputHeight nu_Crop nu_Dot nu_bias_at nu_SetAt : nu.

Ltac nu_step :=
  first
    [ solve [auto with nu]
    | apply nu_for_from; intros
    | apply nu_for_range_from; intros
    | apply nu_bind; [|intros]
    | match goal with
      | |- never_uninit (match ?x with _ => _ end) => destruct x
      | |- never_uninit (let '(_, _) := ?x in _) => destruct x
      end ].

Lemma nu_convolve c input : never_uninit (convolve c input).
Proof. unfold convolve, for_upto, for_range. repeat nu_step. Qed.

Lemma nu_convolveR c v input inputR : never_uninit (convolveR c v input inputR).
Proof. unfold convolveR, for_upto, for_range. repeat nu_step. Qed.

(** ** Go's [int] inside its range *)

Lemma wrap_id z : is_int z -> wrap z = z.
Proof.
  unfold is_int, min_int, max_int, wrap. intros H.
  rewrite Z.mod_small by lia. lia.
Qed.

(** ** The shape of the output *)

(** Where the filter is no wider than the input the code computes the
    specification's formula. *)
Lemma OutputWidth_filter_fits c :
  0 < Stride c -> 0 <= FilterWidth c <= InputWidth c -> InputWidth c < max_int ->
  OutputWidth c = Ok (shape_law (InputWidth c) (FilterWidth c) (Stride c)).
Proof.
  intros HS HF HW. unfold OutputWidth, int_quo, int_sub, int_add, shape_law.
  assert (Hm : max_int = 2 ^ 63 - 1) by reflexivity.
  destruct (Z.eqb_spec (Stride c) 0) as [E|_]; [lia|].
  rewrite (wrap_id (InputWidth c - FilterWidth c))
    by (unfold is_int, min_int; lia).
  assert (Hq : 0 <= (InputWidth c - FilterWidth c) / Stride c <= InputWidth c).
  { split; [apply Z.div_pos; lia|].
    transitivity (InputWidth c - FilterWidth c); [|lia].
    apply Z.div_le_upper_bound; [lia|]. nia. }
  rewrite Z.quot_div_nonneg by lia.
  rewrite (wrap_id (_ / _)) by (unfold is_int, min_int; lia).
  simpl. rewrite wrap_id by (unfold is_int, min_int; lia).
  destruct (Z.ltb_spec (1 + (InputWidth c - FilterWidth c) / Stride c) 0); [lia|].
  f_equal. lia.
Qed.

Lemma OutputHeight_filter_fits c :
  0 < Stride c -> 0 <= FilterHeight c <= InputHeight c -> InputHeight c < max_int ->
  OutputHeight c = Ok (shape_law (InputHeight c) (FilterHeight c) (Stride c)).
Proof.
  intros HS HF HW. unfold OutputHeight, int_quo, int_sub, int_add, shape_law.
  assert (Hm : max_int = 2 ^ 63 - 1) by reflexivity.
  destruct (Z.eqb_spec (Stride c) 0) as [E|_]; [lia|].
  rewrite (wrap_id (InputHeight c - FilterHeight c))
    by (unfold is_int, min_int; lia).
  assert (Hq : 0 <= (InputHeight c - FilterHeight c) / Stride c <= InputHeight c).
  { split; [apply Z.div_pos; lia|].
    transitivity (InputHeight c - FilterHeight c); [|lia].
    apply Z.div_le_upper_bound; [lia|]. nia. }
  rewrite Z.quot_div_nonneg by lia.
  rewrite (wrap_id (_ / _)) by (unfold is_int, min_int; lia).
  simpl. rewrite wrap_id by (unfold is_int, min_int; lia).
  destruct (Z.ltb_spec (1 + (InputHeight c - FilterHeight c) / Stride c) 0); [lia|].
  f_equal. lia.
Qed.

(** Where the filter exceeds the input by a stride or more the code answers
    0, as the formula does. *)
Lemma shape_law_zero W Fw S :
  0 < S -> W + S <= Fw -> shape_law W Fw S = 0.
Proof.
  intros HS H. unfold shape_law.
  assert ((W - Fw) / S < 0) by (apply Z.div_lt_upper_bound; lia).
  lia.
Qed.

Lemma quot_nonpos a S : 0 < S -> a <= 0 -> Z.quot a S = - (- a / S).
Proof.
  intros HS Ha. rewrite <- (Z.opp_involutive a) at 1.
  rewrite Z.quot_opp_l by lia. rewrite Z.quot_div_nonneg by lia. reflexivity.
Qed.

Lemma quot_far_negative a S :
  0 < S -> a <= - S -> Z.quot a S <= -1.
Proof.
  intros HS Ha. rewrite quot_nonpos by lia.
  assert (1 <= - a / S) by (apply Z.div_le_lower_bound; lia).
  lia.
Qed.

Lemma quot_bounds a S : 0 < S -> a <= 0 -> a <= Z.quot a S <= 0.
Proof.
  intros HS Ha. rewrite quot_nonpos by lia.
  assert (0 <= - a / S) by (apply Z.div_pos; lia).
  assert (- a / S <= - a).
  { apply Z.div_le_upper_bound; [lia|]. nia. }
  lia.
Qed.

Lemma OutputWidth_filter_exceeds c :
  0 < Stride c -> 0 <= InputWidth c < max_int -> 0 <= FilterWidth c <= max_int ->
  InputWidth c + Stride c <= FilterWidth c ->
  OutputWidth c = Ok (shape_law (InputWidth c) (FilterWidth c) (Stride c)).
Proof.
  intros HS HW HF Hex. rewrite shape_law_zero by lia.
  unfold OutputWidth, int_quo, int_sub, int_add.
  assert (Hm : max_int = 2 ^ 63 - 1) by reflexivity.
  destruct (Z.eqb_spec (Stride c) 0) as [E|_]; [lia|].
  rewrite (wrap_id (InputWidth c - FilterWidth c))
    by (unfold is_int, min_int; lia).
  pose proof (quot_far_negative (InputWidth c - FilterWidth c) (Stride c) HS
                ltac:(lia)).
  pose proof (quot_bounds (InputWidth c - FilterWidth c) (Stride c) HS
                ltac:(lia)).
  rewrite (wrap_id (Z.quot _ _)) by (unfold is_int, min_int; lia).
  simpl. rewrite wrap_id by (unfold is_int, min_int; lia).
  destruct (Z.ltb_spec (1 + Z.quot (InputWidth c - FilterWidth c) (Stride c)) 0);
    [reflexivity|]. f_equal. lia.
Qed.

Lemma OutputHeight_filter_exceeds c :
  0 < Stride c -> 0 <= InputHeight c < max_int ->
  0 <= FilterHeight c <= max_int ->
  InputHeight c + Stride c <= FilterHeight c ->
  OutputHeight c = Ok (shape_law (InputHeight c) (FilterHeight c) (Stride c)).
Proof.
  intros HS HW HF Hex. rewrite shape_law_zero by lia.
  unfold OutputHeight, int_quo, int_sub, int_add.
  assert (Hm : max_int = 2 ^ 63 - 1) by reflexivity.
  destruct (Z.eqb_spec (Stride c) 0) as [E|_]; [lia|].
  rewrite (wrap_id (InputHeight c - FilterHeight c))
    by (unfold is_int, min_int; lia).
  pose proof (quot_far_negative (InputHeight c - FilterHeight c) (Stride c) HS
                ltac:(lia)).
  pose proof (quot_bounds (InputHeight c - FilterHeight c) (Stride c) HS
                ltac:(lia)).
  rewrite (wrap_id (Z.quot _ _)) by (unfold is_int, min_int; lia).
  simpl. rewrite wrap_id by (unfold is_int, min_int; lia).
  destruct (Z.ltb_spec (1 + Z.quot (InputHeight c - FilterHeight c) (Stride c)) 0);
    [reflexivity|]. f_equal. lia.
Qed.

(** C1.  The claim: for every layer with stride S > 0, OutputWidth returns
    max(0, 1 + floor((W-Fw)/S)), and OutputHeight likewise.  The code divides
    as Go does, towards zero: for an input narrower than the filter by less
    than a stride the quotient is 0, not -1, and the code answers 1 where the
    formula gives 0.  Here W = H = 2, Fw = Fh = 3, S = 2.  The two examples
    of the claim (5, 3, 1 gives 3; 2, 3, 1 gives 0) do hold. *)
Theorem OutputWidth_narrow_input :
  OutputWidth narrow_layer = Ok 1 /\ shape_law 2 3 2 = 0
  /\ OutputHeight narrow_layer = Ok 1
  /\ OutputWidth (mkConvLayer 1 3 3 1 5 5 1 None None None) = Ok 3
  /\ OutputWidth (mkConvLayer 1 3 3 1 2 2 1 None None None) = Ok 0.
Proof. repeat split; vm_compute; reflexivity. Qed.

(** ** Use before the parameters are allocated *)

Lemma uninitialized_true c :
  Filters c = None \/ Biases c = None \/ FilterVars c = None ->
  uninitialized c = true.
Proof.
  unfold uninitialized. intros [H|[H|H]]; rewrite H; simpl;
    rewrite ?orb_true_r; reflexivity.
Qed.

Lemma uninitialized_false c :
  Filters c <> None -> Biases c <> None -> FilterVars c <> None ->
  uninitialized c = false.
Proof.
  unfold uninitialized. intros H1 H2 H3.
  destruct (Filters c); [|congruence]. destruct (Biases c); [|congruence].
  destruct (FilterVars c); [|congruence]. reflexivity.
Qed.

(** C8.  With Filters, Biases or FilterVars nil, each of Parameters, Apply
    and ApplyR panics with uninitPanicMessage and returns nothing; with all
    three allocated none of them panics with it (whatever else the
    convolution may then run into). *)
Theorem uninitialized_layer_panics (c : ConvLayer) (input : Result)
  (v : VarMap) (inputR : RResult) :
  (Filters c = None \/ Biases c = None \/ FilterVars c = None ->
   Parameters c = Panic uninitPanicMessage
   /\ Apply c input = Panic uninitPanicMessage
   /\ ApplyR c v inputR = Panic uninitPanicMessage)
  /\ (Filters c <> None /\ Biases c <> None /\ FilterVars c <> None ->
      Parameters c <> Panic uninitPanicMessage
      /\ Apply c input <> Panic uninitPanicMessage
      /\ ApplyR c v inputR <> Panic uninitPanicMessage).
Proof.
  split.
  - intros H. apply uninitialized_true in H.
    unfold Parameters, Apply, ApplyR. rewrite H. auto.
  - intros (H1 & H2 & H3).
    pose proof (uninitialized_false c H1 H2 H3) as H.
    unfold Parameters, Apply, ApplyR. rewrite H.
    split; [|split].
    + apply nu_bind; [apply nu_assign|intros; apply nu_Ok].
    + apply nu_bind; [apply nu_convolve|intros; apply nu_Ok].
    + apply nu_bind; [apply nu_convolve|intros].
      apply nu_bind; [apply nu_convolveR|intros; apply nu_Ok].
Qed.

(** ** Lists read and written at integer positions *)

Lemma index_Ok {A} (l : list A) i a :
  index l i = Ok a <-> 0 <= i /\ l !! Z.to_nat i = Some a.
Proof.
  unfold index. destruct (Z.ltb_spec i 0).
  - split; [discriminate|lia].
  - destruct (l !! Z.to_nat i) eqn:E; split; intros H'; try discriminate.
    + inversion H'; subst. auto.
    + destruct H' as [_ H']. inversion H'. reflexivity.
    + destruct H' as [_ H']. discriminate.
Qed.

Lemma index_lookup {A} (l : list A) (k : nat) a :
  l !! k = Some a -> index l (Z.of_nat k) = Ok a.
Proof. intros H. apply index_Ok. rewrite Nat2Z.id. split; [lia|exact H]. Qed.

Lemma index_in_range {A} (l : list A) i :
  0 <= i < Z.of_nat (length l) -> exists a, index l i = Ok a.
Proof.
  intros H. destruct (lookup_lt_is_Some_2 l (Z.to_nat i)) as [a Ha]; [lia|].
  exists a. apply index_Ok. split; [lia|exact Ha].
Qed.

Lemma assign_Ok {A} (l : list A) i a :
  0 <= i < Z.of_nat (length l) -> assign l i a = Ok (<[Z.to_nat i := a]> l).
Proof.
  intros H. unfold assign.
  destruct (Z.leb_spec 0 i); [|lia].
  destruct (Z.ltb_spec i (Z.of_nat (length l))); [|lia].
  reflexivity.
Qed.

Lemma index_assign {A} (l l' : list A) i a :
  assign l i a = Ok l' -> index l' i = Ok a.
Proof.
  unfold assign, index. destruct (Z.leb_spec 0 i); simpl; [|discriminate].
  destruct (Z.ltb_spec i (Z.of_nat (length l))); [|discriminate].
  intros E. inversion E; subst. clear E.
  destruct (Z.ltb_spec i 0); [lia|].
  rewrite list_lookup_insert_eq by lia. reflexivity.
Qed.

Lemma tabulate_length n f : length (tabulate n f) = n.
Proof. unfold tabulate. rewrite length_fmap, length_seq. reflexivity. Qed.

Lemma tabulate_lookup n f (k : nat) :
  (k < n)%nat -> tabulate n f !! k = Some (f (Z.of_nat k)).
Proof.
  intros H. unfold tabulate. rewrite list_lookup_fmap, lookup_seq_lt by exact H.
  reflexivity.
Qed.

Lemma data_at_lookup (l : Vec) (k : nat) v :
  l !! k = Some v -> data_at l (Z.of_nat k) = v.
Proof.
  intros H. unfold data_at. destruct (Z.ltb_spec (Z.of_nat k) 0); [lia|].
  rewrite Nat2Z.id, H. reflexivity.
Qed.

Lemma copy_into_all {A} (src : list A) (dst : list A) :
  length dst = length src -> copy_into dst src = src.
Proof.
  intros H. unfold copy_into. rewrite H, firstn_all.
  rewrite drop_ge by lia. apply app_nil_r.
Qed.

(** ** Flat indices *)

Lemma flat_index_bounds t x y z :
  0 <= x < Width t -> 0 <= y < Height t -> 0 <= z < Depth t ->
  0 <= flat_index t x y z < Width t * Height t * Depth t.
Proof.
  unfold flat_index. intros Hx Hy Hz.
  assert (H1 : 0 <= y * Width t + x) by nia.
  assert (H2 : y * Width t + x <= Height t * Width t - 1) by nia.
  assert (H3 : Depth t * (y * Width t + x) <= Depth t * (Height t * Width t - 1))
    by (apply Z.mul_le_mono_nonneg_l; lia).
  split; [nia|]. nia.
Qed.

Lemma coords_flat w d x y z :
  0 <= x < w -> 0 <= y -> 0 <= z < d ->
  coords w d (d * (y * w + x) + z) = (x, y, z).
Proof.
  intros Hx Hy Hz. unfold coords.
  assert (E1 : (d * (y * w + x) + z) / d = y * w + x).
  { symmetry. apply (Z.div_unique_pos _ _ _ z); lia. }
  assert (E2 : (d * (y * w + x) + z) mod d = z).
  { symmetry. apply (Z.mod_unique_pos _ _ (y * w + x)); lia. }
  rewrite E1, E2.
  assert (E3 : (y * w + x) / w = y).
  { symmetry. apply (Z.div_unique_pos _ _ _ x); lia. }
  assert (E4 : (y * w + x) mod w = x).
  { symmetry. apply (Z.mod_unique_pos _ _ y); lia. }
  rewrite E3, E4. reflexivity.
Qed.

Lemma flat_index_inj t x y z x' y' z' :
  0 <= x < Width t -> 0 <= y -> 0 <= z < Depth t ->
  0 <= x' < Width t -> 0 <= y' -> 0 <= z' < Depth t ->
  flat_index t x y z = flat_index t x' y' z' -> x = x' /\ y = y' /\ z = z'.
Proof.
  intros Hx Hy Hz Hx' Hy' Hz' E. unfold flat_index in E.
  pose proof (coords_flat (Width t) (Depth t) x y z Hx Hy Hz) as C1.
  pose proof (coords_flat (Width t) (Depth t) x' y' z' Hx' Hy' Hz') as C2.
  rewrite E in C1. rewrite C1 in C2. inversion C2. auto.
Qed.

Lemma coords_bounds w d n :
  0 < w -> 0 < d -> 0 <= n ->
  let '(x, y, z) := coords w d n in
  0 <= x < w /\ 0 <= y /\ 0 <= z < d /\ n = d * (y * w + x) + z.
Proof.
  intros Hw Hd Hn. unfold coords.
  pose proof (Z.mod_pos_bound n d Hd).
  pose proof (Z.div_pos n d Hn Hd).
  pose proof (Z.mod_pos_bound (n / d) w Hw).
  assert (0 <= n / d / w) by (apply Z.div_pos; lia).
  pose proof (Z.div_mod n d ltac:(lia)).
  pose proof (Z.div_mod (n / d) w ltac:(lia)).
  repeat split; lia.
Qed.

(** ** Get and SetAt *)

Lemma Get_SetAt_same t x y z v t' :
  SetAt t x y z v = Ok t' -> Get t' x y z = Ok v.
Proof.
  unfold SetAt, Get. intros H. apply bind_Ok in H as (data & Ha & E).
  inversion E; subst; clear E. unfold flat_index in *. simpl.
  eapply index_assign; eauto.
Qed.

Lemma Get_SetAt_other t x y z v t' x' y' z' :
  SetAt t x y z v = Ok t' ->
  flat_index t x' y' z' <> flat_index t x y z ->
  Get t' x' y' z' = Get t x' y' z'.
Proof.
  unfold SetAt, Get. intros H Hne. apply bind_Ok in H as (data & Ha & E).
  inversion E; subst; clear E. unfold flat_index in *. simpl.
  unfold assign in Ha. destruct (_ && _) eqn:Hb; [|discriminate].
  inversion Ha; subst. apply andb_prop in Hb as [H1 H2].
  unfold index. destruct (_ <? 0) eqn:E0; [reflexivity|].
  rewrite list_lookup_insert_ne; [reflexivity|]. lia.
Qed.

Lemma SetAt_Ok t x y z v :
  0 <= x < Width t -> 0 <= y < Height t -> 0 <= z < Depth t ->
  Z.of_nat (length (Data t)) = Width t * Height t * Depth t ->
  exists t', SetAt t x y z v = Ok t'
    /\ Width t' = Width t /\ Height t' = Height t /\ Depth t' = Depth t
    /\ length (Data t') = length (Data t).
Proof.
  intros Hx Hy Hz Hl. unfold SetAt.
  pose proof (flat_index_bounds t x y z Hx Hy Hz).
  rewrite assign_Ok by lia. simpl. eexists. split; [reflexivity|].
  simpl. rewrite length_insert. auto.
Qed.

(** ** Parameters, with its allocation *)

(** C10.  For an initialized layer Parameters returns a slice that did not
    exist before the call, of length len(FilterVars)+1, whose element 0 is
    the bias variable and whose elements 1.. are the filter variables in
    their stored order; every slice and variable that existed before the
    call, those of the layer among them, is as it was. *)
Theorem Parameters_bias_then_filters (c : Mem.ConvLayer) (st : Mem.Store) :
  Mem.uninitialized c = false ->
  exists res st',
    Mem.Parameters c st = (st', Ok res)
    /\ (res ∉ dom (Mem.pointers st))
    /\ Mem.pointers st' !! res
       = Some (Mem.Biases c :: Mem.ptr_elems st (Mem.FilterVars c))
    /\ length (Mem.ptr_elems st' (Some res))
       = S (length (Mem.ptr_elems st (Mem.FilterVars c)))
    /\ Mem.ptr_elems st' (Some res) !! 0%nat = Some (Mem.Biases c)
    /\ (forall i, Mem.ptr_elems st' (Some res) !! S i
                  = Mem.ptr_elems st (Mem.FilterVars c) !! i)
    /\ (forall l, l <> res -> Mem.pointers st' !! l = Mem.pointers st !! l)
    /\ Mem.vectors st' = Mem.vectors st
    /\ Mem.variables st' = Mem.variables st.
Proof.
  intros Hinit. unfold Mem.Parameters. rewrite Hinit.
  set (fvs := Mem.ptr_elems st (Mem.FilterVars c)).
  set (res := fresh (dom (Mem.pointers st))).
  assert (Hfresh : res ∉ dom (Mem.pointers st)) by apply is_fresh.
  eexists res, _.
  split.
  { unfold mbind, acc_bind, get_state, Mem.make_ptrs, Mem.update_ptrs, mret,
      acc_ret. simpl.
    fold res. fold fvs. rewrite !lookup_insert_eq. simpl.
    rewrite !lookup_insert_eq. simpl. rewrite insert_insert_eq.
    rewrite insert_insert_eq. reflexivity. }
  assert (E : copy_into (drop 0 (replicate (length fvs) None)) fvs = fvs).
  { apply copy_into_all. rewrite drop_0. apply length_replicate. }
  simpl. rewrite !lookup_insert_eq. simpl. rewrite E.
  repeat split; try reflexivity.
  - exact Hfresh.
  - intros l Hl. rewrite lookup_insert_ne by congruence. reflexivity.
Qed.

Lemma Parameters_bias_then_filters_witness :
  exists res st',
    Mem.Parameters sample_mem_layer sample_store = (st', Ok res)
    /\ (res ∉ dom (Mem.pointers sample_store))
    /\ Mem.pointers st' !! res
       = Some (Some 7%positive :: [Some 5%positive; Some 6%positive])
    /\ length (Mem.ptr_elems st' (Some res)) = 3%nat
    /\ Mem.ptr_elems st' (Some res) !! 0%nat = Some (Some 7%positive)
    /\ (forall i, Mem.ptr_elems st' (Some res) !! S i
                  = [Some 5%positive; Some 6%positive] !! i)
    /\ (forall l, l <> res ->
          Mem.pointers st' !! l = Mem.pointers sample_store !! l)
    /\ Mem.vectors st' = Mem.vectors sample_store
    /\ Mem.variables st' = Mem.variables sample_store.
Proof.
  exact (Parameters_bias_then_filters sample_mem_layer sample_store eq_refl).
Defined.

(** ** The layer with pointers and the layer of values *)

(** A layer with pointers is initialized exactly when the layer of values
    it denotes is. *)
Lemma load_uninitialized (st : Mem.Store) (c : Mem.ConvLayer) (cv : ConvLayer) :
  load_ConvLayer st c = Some cv ->
  uninitialized cv = Mem.uninitialized c.
Proof.
  unfold load_ConvLayer, uninitialized, Mem.uninitialized. intros H.
  destruct (Mem.Filters c) as [fs|], (Mem.FilterVars c) as [l|],
    (Mem.Biases c) as [p|]; simplify_option_eq; reflexivity.
Qed.

Lemma mapM_fmap_Some {A B} (f : A -> option B) l k :
  mapM f l = Some k -> f <$> l = Some <$> k.
Proof.
  rewrite mapM_Some. induction 1 as [|x y l k E _ IH]; [reflexivity|].
  rewrite !fmap_cons, E, IH. reflexivity.
Qed.

(** Parameters with its allocation returns the slice whose elements denote
    what Parameters on the layer of values returns. *)
Lemma Parameters_load (st : Mem.Store) (c : Mem.ConvLayer) (cv : ConvLayer) :
  load_ConvLayer st c = Some cv ->
  Mem.uninitialized c = false ->
  exists res st' params,
    Mem.Parameters c st = (st', Ok res)
    /\ Parameters cv = Ok params
    /\ (fun p => p ≫= load_Variable st') <$> Mem.ptr_elems st' (Some res)
       = params.
Proof.
  intros Hl Hinit.
  pose proof (load_uninitialized st c cv Hl) as Hu. rewrite Hinit in Hu.
  unfold Mem.Parameters, Parameters. rewrite Hinit, Hu.
  set (fvs := Mem.ptr_elems st (Mem.FilterVars c)).
  set (res := fresh (dom (Mem.pointers st))).
  eexists res, _, _. split; [|split].
  - unfold mbind, acc_bind, get_state, Mem.make_ptrs, Mem.update_ptrs, mret,
      acc_ret. simpl.
    fold res. fold fvs. rewrite !lookup_insert_eq. simpl.
    rewrite !lookup_insert_eq. simpl. rewrite !insert_insert_eq. reflexivity.
  - simpl. reflexivity.
  - simpl. rewrite !lookup_insert_eq. simpl.
    rewrite !copy_into_all
      by (rewrite ?drop_0, ?length_replicate, ?length_fmap; reflexivity).
    unfold load_ConvLayer in Hl. unfold Mem.uninitialized in Hinit.
    destruct (Mem.Filters c) as [fs|], (Mem.FilterVars c) as [l|] eqn:EF,
      (Mem.Biases c) as [p|]; try discriminate Hinit.
    simplify_option_eq.
    match goal with H : mapM _ (default _ _) = Some _ |- _ =>
      apply mapM_fmap_Some in H; rewrite <- H end.
    match goal with H : load_Variable st p = Some _ |- _ => rewrite <- H end.
    reflexivity.
Qed.

(** ** Loops against state *)

(** What holds before a [range] loop and survives every iteration that
    returns holds after a loop that returns. *)
Lemma forA_range_from_Ok_inv {S A L} (I : list A -> L -> S -> Prop)
  (body : Z -> A -> L -> Acc S L) :
  (forall done a i l s l' s',
      I done l s -> body i a l s = (s', Ok l') -> I (done ++ [a]) l' s') ->
  forall xs done i l s l' s',
    I done l s -> forA_range_from i xs body l s = (s', Ok l') ->
    I (done ++ xs) l' s'.
Proof.
  intros Hstep. induction xs as [|a xs IH]; intros done i l s l' s' HI Hrun.
  - simpl in Hrun. inversion Hrun; subst. rewrite app_nil_r. exact HI.
  - simpl in Hrun. unfold mbind, acc_bind in Hrun.
    destruct (body i a l s) as [s1 [l1|p]] eqn:Hb; [|discriminate].
    replace (done ++ a :: xs) with ((done ++ [a]) ++ xs)
      by (rewrite <- app_assoc; reflexivity).
    eapply IH; [|exact Hrun]. eapply Hstep; eauto.
Qed.

(** ** DeserializeConvLayer *)

Lemma write_then_read (v : option Mem.loc) j y s s' :
  Mem.write_vec v j y s = (s', Ok tt) -> Mem.read_vec v j s' = (s', Ok y).
Proof.
  unfold Mem.write_vec, Mem.read_vec. destruct v as [l|]; [|discriminate].
  destruct (assign _ j y) as [arr|p] eqn:Ha; [|discriminate].
  intros E. inversion E; subst. clear E. simpl.
  rewrite lookup_insert_eq. simpl. f_equal. eapply index_assign; eauto.
Qed.

Lemma deserialize_step st1 done x fv st fv' st' :
  deserialize_inv st1 done fv st ->
  match x with
  | None => pure (Panic nil_dereference)
  | Some x =>
      v ← Mem.new_Variable (Mem.mkVariable (Mem.Data x)); Mem.append_ptr fv v
  end st = (st', Ok fv') ->
  deserialize_inv st1 (done ++ [x]) fv' st'.
Proof.
  intros (HF & HN & HD). destruct x as [t|]; [|discriminate].
  unfold mbind, acc_bind, Mem.new_Variable, Mem.append_ptr. simpl.
  set (q := fresh (dom (Mem.variables st))).
  set (l := fresh (dom (Mem.pointers st))).
  intros E. inversion E; subst; clear E.
  assert (Hq : q ∉ dom (Mem.variables st)) by apply is_fresh.
  unfold deserialize_inv. simpl. rewrite lookup_insert_eq. simpl.
  assert (Hold : Forall (fun p => p ≠ Some q) (Mem.ptr_elems st fv)).
  { clear -HF Hq.
    induction HF as [|x p xs ps (t' & q' & -> & -> & _ & Hv) _ IH];
      constructor; auto.
    intros E. inversion E; subst. apply Hq. apply elem_of_dom. eauto. }
  split; [|split].
  - apply Forall2_app.
    + eapply Forall2_impl; [exact HF|].
      intros x p (t' & q' & -> & -> & H1 & Hv). exists t', q'.
      repeat split; auto.
      simpl. rewrite lookup_insert_ne; [exact Hv|].
      intros ->. apply Hq. apply elem_of_dom. eauto.
    + constructor; [|constructor]. exists t, q. repeat split.
      * intros Hin. apply Hq. apply HD. exact Hin.
      * simpl. apply lookup_insert_eq.
  - apply NoDup_app. split; [exact HN|]. split; [|apply NoDup_singleton].
    intros p Hp Hp'. apply list_elem_of_singleton in Hp'. subst.
    rewrite Forall_forall in Hold. apply (Hold _ Hp). reflexivity.
  - rewrite dom_insert_L. set_solver.
Qed.

(** A [range] loop whose body returns on every element returns. *)
Lemma forA_range_from_returns {S A L} (body : Z -> A -> L -> Acc S L) xs :
  (forall i a l s, a ∈ xs -> exists l' s', body i a l s = (s', Ok l')) ->
  forall i l s, exists l' s', forA_range_from i xs body l s = (s', Ok l').
Proof.
  induction xs as [|a xs IH]; intros Hbody i l s.
  - exists l, s. reflexivity.
  - destruct (Hbody i a l s) as (l1 & s1 & Hb); [left|].
    destruct (IH (fun i a l s Ha => Hbody i a l s (list_elem_of_further _ _ _ Ha))
                 (i + 1) l1 s1) as (l' & s' & Hrun).
    exists l', s'. simpl. unfold mbind, acc_bind. rewrite Hb. exact Hrun.
Qed.

(** DeserializeConvLayer returns a layer whenever Unmarshal returns one
    whose filters are all allocated. *)
Lemma DeserializeConvLayer_returns {error : Type}
  (json_Unmarshal : list Byte.byte -> Mem.ConvLayer ->
                    Acc Mem.Store (error + Mem.ConvLayer))
  (data : list Byte.byte) (st st1 : Mem.Store) (c1 : Mem.ConvLayer) :
  json_Unmarshal data Mem.zero_ConvLayer st = (st1, Ok (inr c1)) ->
  Forall is_Some (elems (Mem.Filters c1)) ->
  exists st' c, Mem.DeserializeConvLayer json_Unmarshal data st = (st', Ok (inr c)).
Proof.
  intros Hu Hall. unfold Mem.DeserializeConvLayer, mbind, acc_bind.
  rewrite Hu. unfold forA_range.
  match goal with |- context [forA_range_from 0 ?xs ?body ?l0 ?s0] =>
    assert (Hbody : forall i a l s, a ∈ xs ->
                      exists l' s', body i a l s = (s', Ok l'));
    [|destruct (forA_range_from_returns body xs Hbody 0 l0 s0)
        as (fv & st' & Hrun)]
  end.
  - intros i a l s Ha. rewrite Forall_forall in Hall.
    destruct (Hall a Ha) as [t ->]. eexists _, _. reflexivity.
  - exists st', (Mem.with_FilterVars c1 fv). rewrite Hrun. reflexivity.
Qed.

(** C9.  When DeserializeConvLayer returns a layer, Unmarshal having left
    the untagged field FilterVars alone, the layer's FilterVars has one
    variable per persisted filter, in the filters' order; the variables are
    distinct and were allocated after Unmarshal returned; and the vector of
    variable i is the slice that is the data of filter i, so that a write
    through the one is read through the other. *)
Theorem Deserialize_shares_storage {error : Type}
  (json_Unmarshal : list Byte.byte -> Mem.ConvLayer ->
                    Acc Mem.Store (error + Mem.ConvLayer))
  (data : list Byte.byte) (st st' : Mem.Store) (c : Mem.ConvLayer) :
  Mem.skips_FilterVars json_Unmarshal ->
  Mem.DeserializeConvLayer json_Unmarshal data st = (st', Ok (inr c)) ->
  exists st1 c1,
    json_Unmarshal data Mem.zero_ConvLayer st = (st1, Ok (inr c1))
    /\ Mem.Filters c = Mem.Filters c1
    /\ length (Mem.ptr_elems st' (Mem.FilterVars c))
       = length (elems (Mem.Filters c))
    /\ NoDup (Mem.ptr_elems st' (Mem.FilterVars c))
    /\ forall i x, elems (Mem.Filters c) !! i = Some x ->
         exists t p v,
           x = Some t
           /\ Mem.ptr_elems st' (Mem.FilterVars c) !! i = Some (Some p)
           /\ (p ∉ dom (Mem.variables st1))
           /\ Mem.variables st' !! p = Some v
           /\ Mem.Vector v = Mem.Data t
           /\ forall j y s s',
                Mem.write_vec (Mem.Vector v) j y s = (s', Ok tt) ->
                Mem.read_vec (Mem.Data t) j s' = (s', Ok y).
Proof.
  intros Hskip. unfold Mem.DeserializeConvLayer, mbind, acc_bind.
  destruct (json_Unmarshal data Mem.zero_ConvLayer st) as [st1 [[e|c1]|p]] eqn:Hu;
    try discriminate.
  pose proof (Hskip _ _ _ _ _ Hu) as Hfv. simpl in Hfv.
  unfold forA_range.
  destruct (forA_range_from 0 (elems (Mem.Filters c1)) _ (Mem.FilterVars c1) st1)
    as [st2 [fv|p]] eqn:Hloop; [|discriminate].
  unfold mret, acc_ret. intros E. inversion E; subst; clear E.
  exists st1, c1. split; [reflexivity|]. split; [reflexivity|]. simpl.
  assert (Hinv : deserialize_inv st1 ([] ++ elems (Mem.Filters c1)) fv st').
  { eapply (forA_range_from_Ok_inv (deserialize_inv st1)); [| |exact Hloop].
    - intros done a i l s l' s' HI Hb. eapply deserialize_step; eauto.
    - rewrite Hfv. unfold deserialize_inv. simpl.
      split; [constructor|]. split; [constructor|]. reflexivity. }
  simpl in Hinv. destruct Hinv as (HF & HN & HD).
  split; [symmetry; eapply Forall2_length; eauto|]. split; [exact HN|].
  intros i x Hx.
  destruct (Forall2_lookup_l _ _ _ _ _ HF Hx)
    as (p & Hp & (t & q & -> & -> & Hq & Hv)).
  exists t, q, (Mem.mkVariable (Mem.Data t)). repeat split; auto.
  simpl. intros j y s s'. apply write_then_read.
Qed.

Lemma Deserialize_shares_storage_witness :
  exists st1 c1,
    sample_Unmarshal [] Mem.zero_ConvLayer sample_store = (st1, Ok (inr c1))
    /\ Mem.Filters sample_mem_layer_loaded = Mem.Filters c1
    /\ length (Mem.ptr_elems sample_store_loaded
                 (Mem.FilterVars sample_mem_layer_loaded))
       = length (elems (Mem.Filters sample_mem_layer_loaded))
    /\ NoDup (Mem.ptr_elems sample_store_loaded
                (Mem.FilterVars sample_mem_layer_loaded))
    /\ forall i x, elems (Mem.Filters sample_mem_layer_loaded) !! i = Some x ->
         exists t p v,
           x = Some t
           /\ Mem.ptr_elems sample_store_loaded
                (Mem.FilterVars sample_mem_layer_loaded) !! i = Some (Some p)
           /\ (p ∉ dom (Mem.variables st1))
           /\ Mem.variables sample_store_loaded !! p = Some v
           /\ Mem.Vector v = Mem.Data t
           /\ forall j y s s',
                Mem.write_vec (Mem.Vector v) j y s = (s', Ok tt) ->
                Mem.read_vec (Mem.Data t) j s' = (s', Ok y).
Proof.
  apply (Deserialize_shares_storage sample_Unmarshal [] sample_store).
  - intros data c st st' c' E. inversion E. reflexivity.
  - vm_compute. reflexivity.
Defined.

(** ** vecsEqual *)

Lemma nan_unique x : is_nan x = true -> x = nan.
Proof.
  intros H. apply Prim2SF_inj. unfold is_nan in H.
  rewrite FloatAxioms.eqb_spec in H.
  change (Prim2SF nan) with S754_nan.
  destruct (Prim2SF x) as [s|s| |s m e]; try reflexivity; simpl in H.
  - destruct s; discriminate.
  - destruct s; discriminate.
  - unfold SFeqb, SFcompare in H.
    destruct s; rewrite Z.compare_refl, Pos.compare_cont_refl in H;
      discriminate.
Qed.

Lemma ltb_nan_r x : (x <? nan)%float = false.
Proof.
  rewrite FloatAxioms.ltb_spec. unfold SFltb, SFcompare.
  change (Prim2SF nan) with S754_nan.
  destruct (Prim2SF x); reflexivity.
Qed.

Lemma vecsEqual_loop_iff prec v1 : forall v2, length v1 = length v2 ->
  vecsEqual_loop prec v1 v2 = true <->
  forall (i : nat) x y, v1 !! i = Some x -> v2 !! i = Some y ->
    is_nan x = is_nan y /\ (prec <? abs (x - y))%float = false.
Proof.
  induction v1 as [|x v1 IH]; intros [|y v2] Hlen; simpl in *; try discriminate.
  - split; [|reflexivity]. intros _ i x y H. rewrite lookup_nil in H.
    discriminate.
  - injection Hlen as Hlen. specialize (IH v2 Hlen).
    destruct (xorb (is_nan x) (is_nan y) || (prec <? abs (x - y))%float) eqn:E.
    + split; [discriminate|]. intros H.
      destruct (H O x y eq_refl eq_refl) as [H1 H2].
      rewrite H1, xorb_nilpotent, H2 in E. discriminate.
    + apply orb_false_elim in E as [E1 E2]. rewrite IH. split.
      * intros H [|i] x' y' Hx Hy; simpl in *.
        -- inversion Hx; inversion Hy; subst. split; [|exact E2].
           destruct (is_nan x'), (is_nan y'); simpl in E1; congruence.
        -- eapply H; eauto.
      * intros H i x' y' Hx Hy. apply (H (S i)); assumption.
Qed.

(** C6, as the code has it.  vecsEqual returns true exactly when the vectors
    have one length and at every index the two values are both NaN or both
    not, and their absolute difference is not greater than the tolerance; the
    tolerance is Prec, or functest.DefaultPrec when Prec is 0.  Two NaN
    values compare equal, and a NaN never compares equal to a value that is
    not one. *)
Theorem vecsEqual_iff {State StateGrad RState RStateGrad : Type}
  (DefaultPrec : float) (b : BlockChecker State StateGrad RState RStateGrad)
  (v1 v2 : Vec) :
  (vecsEqual DefaultPrec b v1 v2 = true <->
   length v1 = length v2
   /\ forall (i : nat) x y, v1 !! i = Some x -> v2 !! i = Some y ->
        is_nan x = is_nan y
        /\ (effective_prec DefaultPrec b <? abs (x - y))%float = false)
  /\ (forall x y, is_nan x = true -> is_nan y = true ->
        vecsEqual DefaultPrec b [x] [y] = true)
  /\ (forall x y, is_nan x = true -> is_nan y = false ->
        vecsEqual DefaultPrec b [x] [y] = false
        /\ vecsEqual DefaultPrec b [y] [x] = false).
Proof.
  split; [|split].
  - unfold vecsEqual. fold (effective_prec DefaultPrec b).
    destruct (Nat.eqb_spec (length v1) (length v2)) as [E|E]; simpl.
    + rewrite (vecsEqual_loop_iff _ _ _ E). tauto.
    + split; [discriminate|]. intros [H _]. contradiction.
  - intros x y Hx Hy. apply nan_unique in Hx, Hy. subst.
    unfold vecsEqual. simpl. change (abs (nan - nan)) with nan.
    rewrite ltb_nan_r. reflexivity.
  - intros x y Hx Hy. unfold vecsEqual. simpl. rewrite Hx, Hy. simpl. auto.
Qed.

(** C6, as the claim has it, fails on two equal infinities: their difference
    is NaN, which is not "at most" any tolerance, and vecsEqual, which only
    asks that the difference be not greater, returns true. *)
Lemma vecsEqual_infinities :
  ~ (vecsEqual sample_DefaultPrec (unit_checker 1) [infinity] [infinity] = true
     <-> claimed_equal 1 [infinity] [infinity]).
Proof.
  intros [H _]. destruct (H eq_refl) as [_ Hc].
  destruct (Hc O infinity infinity eq_refl eq_refl) as [[H1 _]|(_ & _ & H3)];
    vm_compute in H1 || vm_compute in H3; discriminate.
Qed.

(** ** The key set of a gradient map *)

Lemma preserves_ret {S X A} (f : S -> X) (a : A) : preserves f (mret a).
Proof. intros s. reflexivity. Qed.

Lemma preserves_pure {S X A} (f : S -> X) (r : Res A) : preserves f (pure r).
Proof. intros s. reflexivity. Qed.

Lemma preserves_get_state {S X} (f : S -> X) : preserves f get_state.
Proof. intros s. reflexivity. Qed.

Lemma preserves_bind {S X A B} (f : S -> X) (m : Acc S A) (k : A -> Acc S B) :
  preserves f m -> (forall a, preserves f (k a)) -> preserves f (m ≫= k).
Proof.
  intros Hm Hk s. unfold mbind, acc_bind. specialize (Hm s).
  destruct (m s) as [s' [a|p]]; simpl in *; [|exact Hm].
  rewrite Hk. exact Hm.
Qed.

Lemma preserves_forA_from {S X L} (f : S -> X) (body : Z -> L -> Acc S L) n :
  (forall i l, preserves f (body i l)) ->
  forall i l, preserves f (forA_from i n body l).
Proof.
  intros Hb. induction n as [|n IH]; intros i l; simpl.
  - apply preserves_ret.
  - apply preserves_bind; [apply Hb|intros; apply IH].
Qed.

Lemma preserves_forA_range_from {S X A L} (f : S -> X)
  (body : Z -> A -> L -> Acc S L) xs :
  (forall i a l, preserves f (body i a l)) ->
  forall i l, preserves f (forA_range_from i xs body l).
Proof.
  intros Hb. induction xs as [|a xs IH]; intros i l; simpl.
  - apply preserves_ret.
  - apply preserves_bind; [apply Hb|intros; apply IH].
Qed.

Lemma update_entry_keys k f : preserves keys (update_entry k f).
Proof.
  intros [m|]; simpl; [|reflexivity].
  destruct (m !! k) as [v|] eqn:E; [|reflexivity].
  destruct (f v); simpl; [|reflexivity].
  apply dom_insert_lookup_L. rewrite E. eauto.
Qed.

Lemma update_opt_keys k f : preserves keys (update_opt k f).
Proof. destruct k; [apply update_entry_keys|apply preserves_ret]. Qed.

Lemma on_grad_keys {A} (m : Acc VarMap A) :
  preserves keys m -> preserves keys2 (on_grad m).
Proof.
  intros H [rg g]. unfold on_grad, keys2. simpl. specialize (H g).
  destruct (m g) as [g' r]. simpl in *. rewrite H. reflexivity.
Qed.

Lemma on_rgrad_keys {A} (m : Acc VarMap A) :
  preserves keys m -> preserves keys2 (on_rgrad m).
Proof.
  intros H [rg g]. unfold on_rgrad, keys2. simpl. specialize (H rg).
  destruct (m rg) as [rg' r]. simpl in *. rewrite H. reflexivity.
Qed.

Create HintDb keys.
#[local] Hint Resolve preserves_ret preserves_pure preserves_get_state
  update_entry_keys update_opt_keys on_grad_keys on_rgrad_keys : keys.

Ltac keys_step :=
  first
    [ solve [auto with keys]
    | apply preserves_forA_from; intros
    | apply preserves_forA_range_from; intros
    | apply preserves_bind; [|intros]
    | match goal with
      | |- preserves _ (match ?x with _ => _ end) => destruct x
      | |- preserves _ (let '(_, _) := ?x in _) => destruct x
      | |- preserves _ (if ?x then _ else _) => destruct x
      end ].

(** The loops of the two backward passes add in place: they leave the key
    sets alone whether they return or panic. *)
Lemma propagate_loops_keys beyond layer outT inT downT biasGrad filterGrads locals :
  preserves keys
    (propagate_loops beyond layer outT inT downT biasGrad filterGrads locals).
Proof. unfold propagate_loops, forA_upto, forA_range. repeat keys_step. Qed.

Lemma propagateR_loops_keys beyond layer outT inT inTR downT downTR biasGrad
  filterGrads biasGradR filterGradsR fR locals :
  preserves keys2
    (propagateR_loops beyond layer outT inT inTR downT downTR biasGrad filterGrads
       biasGradR filterGradsR fR locals).
Proof. unfold propagateR_loops, forA_upto, forA_range. repeat keys_step. Qed.

(** C7.  Whatever the map (nil included), the upstream vectors and the
    outcome (return or panic), convLayerResult.PropagateGradient and
    convLayerRResult.PropagateRGradient leave every map with the key set it
    had, provided the input node they propagate into does. *)
Theorem propagation_keeps_the_key_set (beyond : MulAdd_unspecified)
  (c : convLayerResult)
  (cR : convLayerRResult) (upstream upstreamR : Vec) :
  (forall u, preserves keys (PropagateGradient (Input c) u)) ->
  (forall u uR, preserves keys2 (PropagateRGradient (R_Input cR) u uR)) ->
  (forall grad,
      keys (fst (convLayerResult_PropagateGradient beyond c upstream grad)) = keys grad)
  /\ (forall rgrad grad,
        keys (fst (fst (convLayerRResult_PropagateRGradient beyond cR upstream upstreamR
                          (rgrad, grad)))) = keys rgrad
        /\ keys (snd (fst (convLayerRResult_PropagateRGradient beyond cR upstream
                             upstreamR (rgrad, grad)))) = keys grad).
Proof.
  intros Hin HinR. split.
  - assert (H : preserves keys (convLayerResult_PropagateGradient beyond c upstream)).
    { unfold convLayerResult_PropagateGradient. repeat keys_step. }
    exact H.
  - assert (H : preserves keys2
                  (convLayerRResult_PropagateRGradient beyond cR upstream upstreamR)).
    { unfold convLayerRResult_PropagateRGradient. repeat keys_step. }
    intros rgrad grad. specialize (H (rgrad, grad)). unfold keys2 in H.
    simpl in H. inversion H. auto.
Qed.

Lemma propagation_keeps_the_key_set_witness :
  (forall grad,
      keys (fst (convLayerResult_PropagateGradient MulAdd_refuses sample_result
                   [1; 1; 1; 1; 1; 1; 1; 1]%float grad)) = keys grad)
  /\ (forall rgrad grad,
        keys (fst (fst (convLayerRResult_PropagateRGradient MulAdd_refuses sample_rresult
                          [1; 1; 1; 1; 1; 1; 1; 1]%float
                          [0; 0; 0; 0; 0; 0; 0; 0]%float (rgrad, grad))))
        = keys rgrad
        /\ keys (snd (fst (convLayerRResult_PropagateRGradient MulAdd_refuses sample_rresult
                             [1; 1; 1; 1; 1; 1; 1; 1]%float
                             [0; 0; 0; 0; 0; 0; 0; 0]%float (rgrad, grad))))
           = keys grad).
Proof.
  apply (propagation_keeps_the_key_set MulAdd_refuses sample_result
           sample_rresult).
  - intros u. simpl. apply update_entry_keys.
  - intros u uR. simpl. repeat keys_step.
Defined.

(** ** The nil-upstream subtests *)

Lemma errorf_if_nonempty c f : errorf_if c f <> [] <-> c = true.
Proof. destruct c; simpl; split; congruence. Qed.

Lemma app_nonempty {A} (l1 l2 : list A) : l1 ++ l2 <> [] <-> l1 <> [] \/ l2 <> [].
Proof.
  destruct l1 as [|a l1]; simpl.
  - split; [auto|]. intros [H|H]; [congruence|exact H].
  - split; [intros _; left; discriminate|intros _; discriminate].
Qed.

Lemma concat_nonempty {A} (ls : list (list A)) :
  concat ls <> [] <-> exists (i : nat) l, ls !! i = Some l /\ l <> [].
Proof.
  induction ls as [|l ls IH]; simpl.
  - split; [congruence|]. intros (i & l & H & _). rewrite lookup_nil in H. discriminate.
  - rewrite app_nonempty, IH. split.
    + intros [H|(i & l' & H & Hne)]; [exists O, l; auto|exists (S i), l'; auto].
    + intros ([|i] & l' & H & Hne); simpl in H.
      * inversion H; subst. auto.
      * right. eauto.
Qed.

Lemma concat_imap_nonempty {A B} (f : nat -> A -> list B) (l : list A) :
  concat (imap f l) <> [] <-> exists (i : nat) a, l !! i = Some a /\ f i a <> [].
Proof.
  rewrite concat_nonempty. split.
  - intros (i & l' & H & Hne). rewrite list_lookup_imap in H.
    destruct (l !! i) as [a|] eqn:E; simpl in H; [|discriminate].
    inversion H; subst. eauto.
  - intros (i & a & H & Hne). exists i, (f i a). rewrite list_lookup_imap, H. auto.
Qed.

Lemma negb_eqb_true (a b : Z) : negb (a =? b) = true <-> a <> b.
Proof. destruct (Z.eqb_spec a b); simpl; split; congruence. Qed.

Lemma negb_true (b : bool) : negb b = true <-> b = false.
Proof. destruct b; simpl; split; congruence. Qed.

Lemma bind_Ok_l {A B} (m : Res A) (a : A) (k : A -> Res B) :
  m = Ok a -> m ≫= k = k a.
Proof. intros ->. reflexivity. Qed.

Lemma Ok_eq {A} (a : A) : Ok a = Ok a.
Proof. reflexivity. Qed.

Lemma bind_Ok_inv {A B} (m : Res A) (k : A -> Res B) (r : B) :
  m ≫= k = Ok r -> exists a, m = Ok a /\ k a = Ok r.
Proof. destruct m as [a|p]; simpl; [eauto|discriminate]. Qed.

Lemma first_input_Ok {State StateGrad RState RStateGrad : Type}
  (b : BlockChecker State StateGrad RState RStateGrad) in00 :
  first_input b = Ok in00
  <-> exists row, BlockChecker_Input b !! 0%nat = Some row
                  /\ row !! 0%nat = Some in00.
Proof.
  unfold first_input. split.
  - intros H. apply bind_Ok_inv in H as (row & Hr & H).
    apply index_Ok in Hr as [_ Hr]. apply index_Ok in H as [_ H]. eauto.
  - intros (row & Hr & H).
    change 0 with (Z.of_nat O). rewrite (index_lookup _ O _ Hr). simpl.
    exact (index_lookup _ O _ H).
Qed.

Lemma entry_accumulator g v : entry g v = accumulator g v.
Proof. destruct g; reflexivity. Qed.

Lemma map_len_entry_count m : map_len m = Z.of_nat (entry_count m).
Proof.
  destruct m as [m|]; unfold entry_count, keys, map_len.
  - rewrite size_dom. reflexivity.
  - rewrite size_empty. reflexivity.
Qed.

Lemma map_len_changed before after :
  map_len after <> map_len before <-> entries_changed before after.
Proof. unfold entries_changed. rewrite !map_len_entry_count. lia. Qed.

Lemma vecsEqual_loop_false prec v1 : forall v2, length v1 = length v2 ->
  vecsEqual_loop prec v1 v2 = false <->
  exists (i : nat) x y, v1 !! i = Some x /\ v2 !! i = Some y
    /\ (is_nan x <> is_nan y \/ (prec <? abs (x - y))%float = true).
Proof.
  induction v1 as [|x v1 IH]; intros [|y v2] Hlen; simpl in *; try discriminate.
  - split; [discriminate|]. intros (i & x & y & H & _).
    rewrite lookup_nil in H. discriminate.
  - injection Hlen as Hlen. specialize (IH v2 Hlen).
    destruct (xorb (is_nan x) (is_nan y) || (prec <? abs (x - y))%float) eqn:E.
    + split; [intros _|reflexivity]. exists O, x, y. repeat split.
      apply orb_true_iff in E as [E|E]; [left|right; exact E].
      destruct (is_nan x), (is_nan y); simpl in E; congruence.
    + apply orb_false_elim in E as [E1 E2]. rewrite IH. split.
      * intros (i & x' & y' & Hx & Hy & H). exists (S i), x', y'. auto.
      * intros ([|i] & x' & y' & Hx & Hy & H); simpl in *.
        -- inversion Hx; inversion Hy; subst. exfalso. destruct H as [H|H].
           ++ destruct (is_nan x'), (is_nan y'); simpl in E1; congruence.
           ++ congruence.
        -- exists i, x', y'. auto.
Qed.

Lemma vecsEqual_false_differ {State StateGrad RState RStateGrad : Type}
  (DefaultPrec : float) (b : BlockChecker State StateGrad RState RStateGrad)
  v1 v2 :
  vecsEqual DefaultPrec b v1 v2 = false
  <-> differ (effective_prec DefaultPrec b) v1 v2.
Proof.
  unfold vecsEqual, differ, effective_prec.
  destruct (Nat.eqb_spec (length v1) (length v2)) as [E|E]; simpl.
  - rewrite (vecsEqual_loop_false _ _ _ E). split; [auto|].
    intros [H|H]; [contradiction|exact H].
  - split; auto.
Qed.

Section NilUpstream.
Context {State StateGrad RState RStateGrad : Type}.
Variable DefaultPrec : float.
Variable b : BlockChecker State StateGrad RState RStateGrad.

Lemma testNilUpstream_returns fs :
  testNilUpstream DefaultPrec b = Ok fs ->
  exists in00 out g1 g2, plain_steps b in00 out g1 g2.
Proof.
  unfold testNilUpstream, plain_steps, nil_run, zero_run. intros H.
  apply bind_Ok_inv in H as (in00 & Hin & H). apply first_input_Ok in Hin.
  apply bind_Ok_inv in H as (out & Hout & H). cbv zeta in H.
  apply bind_Ok_inv in H as (g1 & H1 & H).
  apply bind_Ok_inv in H as (g2 & H2 & H).
  exists in00, out, g1, g2. auto.
Qed.

Lemma testNilUpstream_reports in00 out g1 g2 :
  plain_steps b in00 out g1 g2 ->
  exists fs, testNilUpstream DefaultPrec b = Ok fs
    /\ (fs <> [] <->
        accumulators_differ (effective_prec DefaultPrec b) (Vars b) g1 g2
        \/ entries_changed (NewGradient (Vars b)) g1
        \/ entries_changed (NewGradient (Vars b)) g2).
Proof.
  unfold plain_steps, nil_run, zero_run. intros (Hin & Hout & H1 & H2).
  apply first_input_Ok in Hin. unfold testNilUpstream.
  rewrite (bind_Ok_l _ _ _ Hin); cbv beta zeta.
  rewrite (bind_Ok_l _ _ _ Hout); cbv beta zeta.
  rewrite (bind_Ok_l _ _ _ H1); cbv beta zeta.
  rewrite (bind_Ok_l _ _ _ H2); cbv beta zeta.
  eexists. split; [reflexivity|].
  unfold accumulators_differ.
  rewrite !app_nonempty, !errorf_if_nonempty, !concat_imap_nonempty,
    !negb_eqb_true, !map_len_changed.
  setoid_rewrite errorf_if_nonempty. setoid_rewrite negb_true.
  setoid_rewrite vecsEqual_false_differ. setoid_rewrite entry_accumulator.
  setoid_rewrite list_elem_of_lookup. clear. split.
  - intros [H|[H|(i & v & Hv & H)]]; eauto 8.
  - intros [(v & (i & Hv) & H)|[H|H]]; eauto 8.
Qed.

Lemma testNilUpstreamR_returns fs :
  testNilUpstreamR DefaultPrec b = Ok fs ->
  exists in00 out rg1 g1 rg2 g2, dual_steps b in00 out rg1 g1 rg2 g2.
Proof.
  unfold testNilUpstreamR, dual_steps, nil_runR, zero_runR. intros H.
  apply bind_Ok_inv in H as (in00 & Hin & H). apply first_input_Ok in Hin.
  apply bind_Ok_inv in H as (out & Hout & H). cbv zeta in H.
  apply bind_Ok_inv in H as ([rg1 g1] & H1 & H).
  apply bind_Ok_inv in H as ([rg2 g2] & H2 & H).
  exists in00, out, rg1, g1, rg2, g2. auto.
Qed.

Lemma testNilUpstreamR_reports in00 out rg1 g1 rg2 g2 :
  dual_steps b in00 out rg1 g1 rg2 g2 ->
  exists fs, testNilUpstreamR DefaultPrec b = Ok fs
    /\ (fs <> [] <->
        (accumulators_differ (effective_prec DefaultPrec b) (Vars b) g1 g2
         \/ accumulators_differ (effective_prec DefaultPrec b) (Vars b)
              rg1 rg2)
        \/ (entries_changed (NewGradient (Vars b)) g1
            \/ entries_changed (NewRGradient (Vars b)) rg1
            \/ entries_changed (NewGradient (Vars b)) g2
            \/ entries_changed (NewRGradient (Vars b)) rg2)).
Proof.
  unfold dual_steps, nil_runR, zero_runR. intros (Hin & Hout & H1 & H2).
  apply first_input_Ok in Hin. unfold testNilUpstreamR.
  rewrite (bind_Ok_l _ _ _ Hin); cbv beta zeta.
  rewrite (bind_Ok_l _ _ _ Hout); cbv beta zeta.
  rewrite (bind_Ok_l _ _ _ H1); cbv beta iota zeta.
  rewrite (bind_Ok_l _ _ _ H2); cbv beta iota zeta.
  eexists. split; [reflexivity|].
  unfold accumulators_differ.
  change (NewRGradient (Vars b)) with (NewGradient (Vars b)).
  rewrite !app_nonempty, !errorf_if_nonempty, !concat_imap_nonempty,
    !negb_eqb_true, !map_len_changed.
  setoid_rewrite app_nonempty.
  setoid_rewrite errorf_if_nonempty. setoid_rewrite negb_true.
  setoid_rewrite vecsEqual_false_differ. setoid_rewrite entry_accumulator.
  setoid_rewrite list_elem_of_lookup. clear. split.
  - intros [H|[H|[H|[H|(i & v & Hv & [H|H])]]]]; eauto 10.
  - intros [[(v & (i & Hv) & H)|(v & (i & Hv) & H)]|[H|[H|[H|H]]]]; eauto 10.
Qed.

End NilUpstream.

(** C3.  For every Block, input set and tracked-variable set: the plain
    nil-upstream subtest of FullCheck reports a failure exactly when its
    steps run (the first input exists, the block applies to it, and both
    runs of the backward pass return) and either (a) for some tracked
    variable the accumulator of the all-nil run differs from that of the
    all-zero run, or (b) one of the two runs changed the number of entries of
    the Gradient; the dual subtest reports a failure exactly when its steps
    run and (a) holds of the gradients or of the r-gradients, or (b) holds of
    one of the four maps.  A subtest returns exactly when its steps run (when
    one of them panics the subtest ends in the panic and reports nothing),
    and the two subtests report, one after the other, what each reports. *)
Theorem nil_upstream_failure_iff {State StateGrad RState RStateGrad : Type}
  (DefaultPrec : float) (b : BlockChecker State StateGrad RState RStateGrad) :
  ((exists fs, testNilUpstream DefaultPrec b = Ok fs /\ fs <> []) <->
   exists in00 out g1 g2,
     plain_steps b in00 out g1 g2
     /\ (accumulators_differ (effective_prec DefaultPrec b) (Vars b) g1 g2
         \/ entries_changed (NewGradient (Vars b)) g1
         \/ entries_changed (NewGradient (Vars b)) g2))
  /\ ((exists fs, testNilUpstreamR DefaultPrec b = Ok fs /\ fs <> []) <->
      exists in00 out rg1 g1 rg2 g2,
        dual_steps b in00 out rg1 g1 rg2 g2
        /\ ((accumulators_differ (effective_prec DefaultPrec b) (Vars b)
               g1 g2
             \/ accumulators_differ (effective_prec DefaultPrec b) (Vars b)
                  rg1 rg2)
            \/ (entries_changed (NewGradient (Vars b)) g1
                \/ entries_changed (NewRGradient (Vars b)) rg1
                \/ entries_changed (NewGradient (Vars b)) g2
                \/ entries_changed (NewRGradient (Vars b)) rg2)))
  /\ ((exists fs, testNilUpstream DefaultPrec b = Ok fs) <->
      exists in00 out g1 g2, plain_steps b in00 out g1 g2)
  /\ ((exists fs, testNilUpstreamR DefaultPrec b = Ok fs) <->
      exists in00 out rg1 g1 rg2 g2, dual_steps b in00 out rg1 g1 rg2 g2)
  /\ (forall fs, nil_upstream_subtests DefaultPrec b = Ok fs <->
      exists fs1 fs2, testNilUpstream DefaultPrec b = Ok fs1
        /\ testNilUpstreamR DefaultPrec b = Ok fs2 /\ fs = fs1 ++ fs2).
Proof.
  split; [|split; [|split; [|split]]].
  - split.
    + intros (fs & Hfs & Hne).
      destruct (testNilUpstream_returns _ _ _ Hfs) as (in00 & out & g1 & g2 & S).
      destruct (testNilUpstream_reports DefaultPrec b _ _ _ _ S)
        as (fs' & Hfs' & Hiff).
      exists in00, out, g1, g2. split; [exact S|]. apply Hiff. congruence.
    + intros (in00 & out & g1 & g2 & S & H).
      destruct (testNilUpstream_reports DefaultPrec b _ _ _ _ S)
        as (fs & Hfs & Hiff).
      exists fs. split; [exact Hfs|]. apply Hiff, H.
  - split.
    + intros (fs & Hfs & Hne).
      destruct (testNilUpstreamR_returns _ _ _ Hfs)
        as (in00 & out & rg1 & g1 & rg2 & g2 & S).
      destruct (testNilUpstreamR_reports DefaultPrec b _ _ _ _ _ _ S)
        as (fs' & Hfs' & Hiff).
      exists in00, out, rg1, g1, rg2, g2. split; [exact S|]. apply Hiff.
      congruence.
    + intros (in00 & out & rg1 & g1 & rg2 & g2 & S & H).
      destruct (testNilUpstreamR_reports DefaultPrec b _ _ _ _ _ _ S)
        as (fs & Hfs & Hiff).
      exists fs. split; [exact Hfs|]. apply Hiff, H.
  - split.
    + intros (fs & Hfs). exact (testNilUpstream_returns _ _ _ Hfs).
    + intros (in00 & out & g1 & g2 & S).
      destruct (testNilUpstream_reports DefaultPrec b _ _ _ _ S)
        as (fs & Hfs & _). eauto.
  - split.
    + intros (fs & Hfs). exact (testNilUpstreamR_returns _ _ _ Hfs).
    + intros (in00 & out & rg1 & g1 & rg2 & g2 & S).
      destruct (testNilUpstreamR_reports DefaultPrec b _ _ _ _ _ _ S)
        as (fs & Hfs & _). eauto.
  - intros fs. unfold nil_upstream_subtests. split.
    + intros H. apply bind_Ok_inv in H as (fs1 & H1 & H).
      apply bind_Ok_inv in H as (fs2 & H2 & H). inversion H. eauto.
    + intros (fs1 & fs2 & H1 & H2 & ->). rewrite H1, H2. reflexivity.
Qed.

Lemma nil_upstream_failure_iff_witness :
  (exists fs, testNilUpstream sample_DefaultPrec uneven_checker = Ok fs
     /\ fs <> [])
  /\ (exists fs, testNilUpstreamR sample_DefaultPrec uneven_checker = Ok fs
        /\ fs <> [])
  /\ ~ (exists fs, testNilUpstream sample_DefaultPrec sample_checker = Ok fs
          /\ fs <> [])
  /\ ~ (exists fs, testNilUpstream sample_DefaultPrec (unit_checker 1) = Ok fs).
Proof.
  split; [|split; [|split]].
  - apply (proj1 (nil_upstream_failure_iff sample_DefaultPrec uneven_checker)).
    exists sample_input.
    eexists. exists (Some {[ 9%positive := replicate 9 1%float ]}),
      (NewGradient [sample_input]).
    split; [split; [exists [sample_input]|]; repeat apply conj; reflexivity|].
    left. exists sample_input. split; [apply list_elem_of_here|].
    right. exists O, 1%float, 0%float. repeat split. right. reflexivity.
  - apply (proj1 (proj2 (nil_upstream_failure_iff sample_DefaultPrec
                           uneven_checker))).
    exists sample_input. eexists.
    exists (NewRGradient [sample_input]), (Some ∅),
      (NewRGradient [sample_input]), (NewGradient [sample_input]).
    split; [split; [exists [sample_input]|]; repeat apply conj; reflexivity|].
    right. left. unfold entries_changed, entry_count. vm_compute. lia.
  - intros H.
    apply (proj1 (nil_upstream_failure_iff sample_DefaultPrec sample_checker))
      in H as (in00 & out & g1 & g2 & ((row & Hr & Hin) & Hout & H1 & H2) & H).
    injection Hr as <-. injection Hin as <-. injection Hout as <-.
    injection H1 as <-. injection H2 as <-.
    destruct H as [(v & Hv & H)|[H|H]]; try (apply H; reflexivity).
    apply list_elem_of_singleton in Hv as ->.
    destruct H as [H|(i & x & y & Hx & Hy & H)]; [apply H; reflexivity|].
    change (accumulator _ _) with (replicate 9 0%float) in Hx, Hy.
    apply lookup_replicate in Hx as [-> _]. apply lookup_replicate in Hy as [-> _].
    destruct H as [H|H]; [apply H; reflexivity|]. vm_compute in H. discriminate.
  - intros H.
    apply (proj1 (proj2 (proj2 (nil_upstream_failure_iff sample_DefaultPrec
                                  (unit_checker 1)))))
      in H as (in00 & out & g1 & g2 & ((row & Hr & _) & _)).
    discriminate.
Defined.

(** ** Loops that return *)

Lemma for_from_inv {S} (I : nat -> S -> Prop) (body : Z -> S -> Res S) n :
  forall i0 s,
  I O s ->
  (forall (k : nat) s, (k < n)%nat -> I k s ->
     exists s', body (i0 + Z.of_nat k) s = Ok s' /\ I (Datatypes.S k) s') ->
  exists s', for_from i0 n body s = Ok s' /\ I n s'.
Proof.
  revert I. induction n as [|n IH]; intros I i0 s H0 Hstep.
  - exists s. split; [reflexivity|exact H0].
  - simpl. destruct (Hstep O s ltac:(lia) H0) as (s1 & Hb & H1).
    rewrite Z.add_0_r in Hb. rewrite Hb. simpl.
    destruct (IH (fun k => I (Datatypes.S k)) (i0 + 1) s1 H1) as (s' & Hr & Hn).
    + intros k s2 Hk Hk'. destruct (Hstep (Datatypes.S k) s2 ltac:(lia) Hk') as (s3 & Hb3 & H3).
      exists s3. split; [|exact H3]. rewrite <- Hb3. f_equal. lia.
    + exists s'. auto.
Qed.

Lemma for_range_from_inv {A S} (I : nat -> S -> Prop)
  (body : Z -> A -> S -> Res S) (xs : list A) :
  forall i0 s,
  I O s ->
  (forall (k : nat) a s, xs !! k = Some a -> I k s ->
     exists s', body (i0 + Z.of_nat k) a s = Ok s' /\ I (Datatypes.S k) s') ->
  exists s', for_range_from i0 xs body s = Ok s' /\ I (length xs) s'.
Proof.
  revert I. induction xs as [|a xs IH]; intros I i0 s H0 Hstep.
  - exists s. split; [reflexivity|exact H0].
  - simpl. destruct (Hstep O a s eq_refl H0) as (s1 & Hb & H1).
    rewrite Z.add_0_r in Hb. rewrite Hb. simpl.
    destruct (IH (fun k => I (Datatypes.S k)) (i0 + 1) s1 H1) as (s' & Hr & Hn).
    + intros k a' s2 Hk Hk'. destruct (Hstep (Datatypes.S k) a' s2 Hk Hk') as (s3 & Hb3 & H3).
      exists s3. split; [|exact H3]. rewrite <- Hb3. f_equal. lia.
    + exists s'. auto.
Qed.

Lemma filled_weaken ow oh od cell (done done' : Z -> Z -> Z -> Prop) o :
  (forall x y z, 0 <= x < ow -> 0 <= y < oh -> 0 <= z < od ->
     done' x y z -> done x y z) ->
  filled ow oh od cell done o -> filled ow oh od cell done' o.
Proof.
  intros Himp (Hw & Hh & Hd & Hl & Hc). repeat split; auto.
Qed.

Lemma filled_SetAt ow oh od cell done o x y z v :
  filled ow oh od cell done o ->
  0 <= x < ow -> 0 <= y < oh -> 0 <= z < od ->
  cell x y z = Ok v ->
  exists o', SetAt o x y z v = Ok o'
    /\ filled ow oh od cell
         (fun x' y' z' => done x' y' z' \/ (x' = x /\ y' = y /\ z' = z)) o'.
Proof.
  intros (Hw & Hh & Hd & Hl & Hc) Hx Hy Hz Hv. subst ow oh od.
  destruct (SetAt_Ok o x y z v Hx Hy Hz Hl) as (o' & Hs & Hw' & Hh' & Hd' & Hl').
  exists o'. split; [exact Hs|].
  repeat split; try congruence.
  intros x' y' z' Hx' Hy' Hz' Hdone.
  destruct (Z.eq_dec (flat_index o x' y' z') (flat_index o x y z)) as [E|E].
  - apply flat_index_inj in E as (-> & -> & ->); try lia.
    exists v. split; [exact Hv|]. eapply Get_SetAt_same; eauto.
  - destruct Hdone as [Hdone|(-> & -> & ->)]; [|contradiction].
    destruct (Hc x' y' z' Hx' Hy' Hz' Hdone) as (v' & Hv' & Hg).
    exists v'. split; [exact Hv'|].
    rewrite (Get_SetAt_other _ _ _ _ _ _ _ _ _ Hs E). exact Hg.
Qed.

(** ** Tensors of a valid layer *)

Lemma NewTensor3_Ok w h d :
  0 <= w * h * d ->
  NewTensor3 w h d = Ok (mkTensor3 w h d (zeros (Z.to_nat (w * h * d)))).
Proof.
  intros H. unfold NewTensor3, make_vec.
  destruct (Z.ltb_spec (w * h * d) 0); [lia|]. reflexivity.
Qed.

Lemma zeros_length n : length (zeros n) = n.
Proof. apply length_replicate. Qed.

Lemma tensor_ok_true t :
  0 <= Width t -> 0 <= Height t -> 0 <= Depth t ->
  Z.of_nat (length (Data t)) = Width t * Height t * Depth t ->
  tensor_ok t = true.
Proof.
  intros Hw Hh Hd Hl. unfold tensor_ok.
  destruct (Z.leb_spec 0 (Width t)); [|lia].
  destruct (Z.leb_spec 0 (Height t)); [|lia].
  destruct (Z.leb_spec 0 (Depth t)); [|lia].
  destruct (Z.eqb_spec (Z.of_nat (length (Data t))) (Width t * Height t * Depth t));
    [reflexivity|lia].
Qed.

Lemma Crop_dest t x y t1 t1' :
  Width t1 = Width t1' -> Height t1 = Height t1' -> Depth t1 = Depth t1' ->
  length (Data t1) = length (Data t1') ->
  Crop t x y t1 = Crop t x y t1'.
Proof.
  intros Hw Hh Hd Hl. unfold Crop, tensor_ok. rewrite Hw, Hh, Hd, Hl. reflexivity.
Qed.

Lemma Crop_Ok t x y t1 :
  tensor_ok t = true -> tensor_ok t1 = true -> Depth t1 = Depth t ->
  0 <= x -> x + Width t1 <= Width t -> 0 <= y -> y + Height t1 <= Height t ->
  exists t', Crop t x y t1 = Ok t'
    /\ Width t' = Width t1 /\ Height t' = Height t1 /\ Depth t' = Depth t1
    /\ length (Data t') = length (Data t1).
Proof.
  intros Ht Ht1 Hd Hx Hx' Hy Hy'. unfold Crop. rewrite Ht, Ht1. simpl.
  destruct (Z.eqb_spec (Depth t1) (Depth t)); [|lia].
  destruct (Z.leb_spec 0 x); [|lia].
  destruct (Z.leb_spec (x + Width t1) (Width t)); [|lia].
  destruct (Z.leb_spec 0 y); [|lia].
  destruct (Z.leb_spec (y + Height t1) (Height t)); [|lia].
  simpl. eexists. split; [reflexivity|]. simpl. rewrite tabulate_length. auto.
Qed.

Lemma Dot_Ok (x y : Vec) :
  length x = length y ->
  Dot (Z.of_nat (length x)) x y = Ok (dot_sum x y).
Proof.
  intros H. unfold Dot.
  destruct (Z.ltb_spec (Z.of_nat (length x)) 0); [lia|].
  destruct (Z.ltb_spec (Z.of_nat (length x)) (Z.of_nat (length x))); [lia|].
  destruct (Z.ltb_spec (Z.of_nat (length y)) (Z.of_nat (length x))); [lia|].
  simpl. rewrite Nat2Z.id, firstn_all. rewrite H, firstn_all. reflexivity.
Qed.

Lemma int_mul_small a b : is_int (a * b) -> int_mul a b = a * b.
Proof. apply wrap_id. Qed.

(** The output positions of a valid layer have their windows inside the
    input. *)
Lemma window_fits W Fw S x :
  0 < S -> 0 <= x < shape_law W Fw S ->
  0 <= x * S /\ x * S + Fw <= W.
Proof.
  intros HS Hx. unfold shape_law in Hx.
  assert (Hq : 0 <= (W - Fw) / S) by lia.
  assert (HF : 0 <= W - Fw).
  { destruct (Z.lt_ge_cases (W - Fw) 0) as [Hneg|Hpos]; [|exact Hpos].
    assert ((W - Fw) / S < 0) by (apply Z.div_lt_upper_bound; lia). lia. }
  assert (Hm : S * ((W - Fw) / S) <= W - Fw) by (apply Z.mul_div_le; lia).
  split; [nia|]. nia.
Qed.

Lemma shape_law_nonneg W Fw S : 0 <= shape_law W Fw S.
Proof. unfold shape_law. lia. Qed.

Lemma shape_law_le W Fw S : 0 < S -> 0 <= Fw <= W -> shape_law W Fw S <= W + 1.
Proof.
  intros HS HF. unfold shape_law.
  assert (0 <= (W - Fw) / S) by (apply Z.div_pos; lia).
  assert ((W - Fw) / S <= W - Fw).
  { apply Z.div_le_upper_bound; [lia|]. nia. }
  lia.
Qed.

Lemma tensor_ok_inv t :
  tensor_ok t = true ->
  0 <= Width t /\ 0 <= Height t /\ 0 <= Depth t
  /\ Z.of_nat (length (Data t)) = Width t * Height t * Depth t.
Proof.
  unfold tensor_ok. intros H.
  apply andb_prop in H as [H H4]. apply andb_prop in H as [H H3].
  apply andb_prop in H as [H1 H2]. lia.
Qed.

Lemma index_data_at (l : Vec) n :
  0 <= n < Z.of_nat (length l) -> index l n = Ok (data_at l n).
Proof.
  intros H. destruct (index_in_range l n H) as (a & Ha). rewrite Ha.
  apply index_Ok in Ha as [_ Ha]. unfold data_at.
  destruct (Z.ltb_spec n 0); [lia|]. rewrite Ha. reflexivity.
Qed.

Lemma Crop_inv t x y t1 t' :
  Crop t x y t1 = Ok t' ->
  tensor_ok t = true /\ tensor_ok t1 = true /\ Depth t1 = Depth t
  /\ 0 <= x /\ x + Width t1 <= Width t /\ 0 <= y /\ y + Height t1 <= Height t
  /\ t' = mkTensor3 (Width t1) (Height t1) (Depth t1)
            (tabulate (length (Data t1)) (fun n =>
               let '(i, j, k) := coords (Width t1) (Depth t1) n in
               data_at (Data t) (flat_index t (x + i) (y + j) k))).
Proof.
  unfold Crop. intros H. destruct (_ && _) eqn:E; [|discriminate].
  inversion H; subst; clear H.
  do 6 (apply andb_prop in E as [E ?]).
  rewrite ?Z.leb_le, ?Z.eqb_eq in *. repeat split; auto; lia.
Qed.

(** What Crop copies: the window of the source at the given origin. *)
Lemma Crop_Get t x y t1 t' i j k :
  Crop t x y t1 = Ok t' ->
  0 <= i < Width t1 -> 0 <= j < Height t1 -> 0 <= k < Depth t1 ->
  Get t' i j k = Get t (x + i) (y + j) k.
Proof.
  intros H Hi Hj Hk.
  apply Crop_inv in H as (Ht & Ht1 & Hd & Hx & Hx' & Hy & Hy' & ->).
  apply tensor_ok_inv in Ht as (Tw & Th & Td & Tl).
  apply tensor_ok_inv in Ht1 as (T1w & T1h & T1d & T1l).
  unfold Get. simpl.
  pose proof (flat_index_bounds t1 i j k Hi Hj Hk) as Hb.
  pose proof (flat_index_bounds t (x + i) (y + j) k ltac:(lia) ltac:(lia) ltac:(lia))
    as Hb'.
  rewrite (index_data_at (Data t)) by lia.
  apply index_Ok. unfold flat_index in *. simpl. split; [lia|].
  rewrite tabulate_lookup by lia. rewrite Z2Nat.id by lia. cbv beta.
  pose proof (coords_flat (Width t1) (Depth t1) i j k Hi ltac:(lia) Hk) as C.
  unfold coords in C. injection C as C1 C2 C3. rewrite C1, C2, C3.
  reflexivity.
Qed.

Lemma int_neg_small a : is_int (- a) -> int_neg a = - a.
Proof. apply wrap_id. Qed.

Lemma Axpy_Ok (alpha : float) (x y : Vec) :
  length x = length y ->
  Axpy (Z.of_nat (length y)) alpha x y = Ok (axpy_elems alpha x y).
Proof.
  intros H. unfold Axpy.
  destruct (Z.ltb_spec (Z.of_nat (length y)) 0); [lia|].
  destruct (Z.ltb_spec (Z.of_nat (length x)) (Z.of_nat (length y))); [lia|].
  destruct (Z.ltb_spec (Z.of_nat (length y)) (Z.of_nat (length y))); [lia|].
  simpl. rewrite Nat2Z.id, firstn_all, <- H, firstn_all.
  rewrite drop_ge by lia. rewrite app_nil_r. reflexivity.
Qed.

(** ** The forward convolution *)

Lemma forward_cell_Ok c filters filterVars biases input x y z filter patch cr :
  valid_layer c filters filterVars biases ->
  filter_shaped c cr ->
  Crop (inputToTensor c input) (x * Stride c) (y * Stride c) cr = Ok patch ->
  filters !! Z.to_nat z = Some filter -> 0 <= z ->
  exists b,
    Dot (Z.of_nat (length (Data filter))) (Data filter) (Data patch)
      = Ok (dot_sum (Data filter) (Data patch))
    /\ bias_at c z = Ok b
    /\ forward_cell c input x y z = Ok (dot_sum (Data filter) (Data patch) + b)%float.
Proof.
  intros V (Cw & Ch & Cd & Cl) Hcrop Hf Hz.
  pose proof V as [VF VV VB VS VW VH VD Vc Vv Vb Vl].
  assert (Hzlt : z < FilterCount c).
  { apply lookup_lt_Some in Hf. lia. }
  assert (Hfl : Z.of_nat (length (Data filter))
                = FilterWidth c * FilterHeight c * InputDepth c).
  { rewrite Forall_forall in Vl. apply Vl.
    eapply list_elem_of_lookup_2; eauto. }
  assert (Hpl : length (Data patch) = length (Data cr)).
  { unfold Crop in Hcrop. destruct (_ && _); [|discriminate].
    inversion Hcrop; subst. simpl. apply tabulate_length. }
  assert (HD : Dot (Z.of_nat (length (Data filter))) (Data filter) (Data patch)
               = Ok (dot_sum (Data filter) (Data patch))).
  { apply Dot_Ok. lia. }
  destruct (index_in_range (Vector biases) z ltac:(lia)) as (b & Hb).
  assert (HB : bias_at c z = Ok b).
  { unfold bias_at. rewrite VB. exact Hb. }
  exists b. split; [exact HD|]. split; [exact HB|].
  unfold forward_cell, patch_at.
  assert (H0 : 0 <= FilterWidth c * FilterHeight c * InputDepth c) by nia.
  rewrite (NewTensor3_Ok _ _ _ H0). simpl.
  erewrite Crop_dest; [rewrite Hcrop| | | |]; simpl; try congruence.
  - rewrite VF. simpl.
    assert (Hi : index filters z = Ok filter) by (apply index_Ok; auto).
    rewrite Hi. simpl. rewrite HD. simpl. rewrite HB. reflexivity.
  - rewrite zeros_length. lia.
Qed.

Lemma valid_output_shape c filters filterVars biases :
  valid_layer c filters filterVars biases ->
  OutputWidth c = Ok (shape_law (InputWidth c) (FilterWidth c) (Stride c))
  /\ OutputHeight c = Ok (shape_law (InputHeight c) (FilterHeight c) (Stride c)).
Proof.
  intros [VF VV VB VS VW VH VD Vc Vv Vb Vl]. split.
  - destruct VW as (HF & HW & [Hfit|Hex]).
    + apply OutputWidth_filter_fits; lia.
    + apply OutputWidth_filter_exceeds; lia.
  - destruct VH as (HF & HW & [Hfit|Hex]).
    + apply OutputHeight_filter_fits; lia.
    + apply OutputHeight_filter_exceeds; lia.
Qed.

Lemma valid_crop c filters filterVars biases input x y cr :
  valid_layer c filters filterVars biases ->
  Z.of_nat (length input) = InputWidth c * InputHeight c * InputDepth c ->
  0 <= x < shape_law (InputWidth c) (FilterWidth c) (Stride c) ->
  0 <= y < shape_law (InputHeight c) (FilterHeight c) (Stride c) ->
  filter_shaped c cr ->
  int_mul x (Stride c) = x * Stride c /\ int_mul y (Stride c) = y * Stride c
  /\ exists patch,
       Crop (inputToTensor c input) (x * Stride c) (y * Stride c) cr = Ok patch
       /\ filter_shaped c patch.
Proof.
  intros [VF VV VB VS VW VH VD Vc Vv Vb Vl] Hin Hx Hy (Cw & Ch & Cd & Cl).
  destruct (window_fits _ _ _ x VS Hx) as [Hx0 Hx1].
  destruct (window_fits _ _ _ y VS Hy) as [Hy0 Hy1].
  assert (Hm : max_int = 2 ^ 63 - 1) by reflexivity.
  split; [apply int_mul_small; unfold is_int, min_int; lia|].
  split; [apply int_mul_small; unfold is_int, min_int; lia|].
  assert (T1 : tensor_ok (inputToTensor c input) = true)
    by (apply tensor_ok_true; simpl; lia).
  assert (T2 : tensor_ok cr = true).
  { apply tensor_ok_true; try lia. }
  destruct (Crop_Ok (inputToTensor c input) (x * Stride c) (y * Stride c) cr
              T1 T2)
    as (patch & Hc & Pw & Ph & Pd & Pl); simpl; try lia.
  exists patch. split; [exact Hc|]. unfold filter_shaped.
  repeat split; congruence.
Qed.

Lemma convolve_fills_output (c : ConvLayer) (filters : list Tensor3)
  (filterVars : list autofunc_Variable) (biases : autofunc_Variable)
  (input : Vec) :
  valid_layer c filters filterVars biases ->
  Z.of_nat (length input) = InputWidth c * InputHeight c * InputDepth c ->
  exists ow oh out,
    OutputWidth c = Ok ow /\ OutputHeight c = Ok oh
    /\ convolve c input = Ok out
    /\ Width out = ow /\ Height out = oh /\ Depth out = FilterCount c
    /\ Z.of_nat (length (Data out)) = ow * oh * FilterCount c
    /\ forall x y z, 0 <= x < ow -> 0 <= y < oh -> 0 <= z < FilterCount c ->
         exists v, forward_cell c input x y z = Ok v /\ Get out x y z = Ok v.
Proof.
  intros V Hin.
  destruct (valid_output_shape _ _ _ _ V) as [HW HH].
  pose proof V as [VF VV VB VS VW VH VD Vc Vv Vb Vl].
  set (ow := shape_law (InputWidth c) (FilterWidth c) (Stride c)) in *.
  set (oh := shape_law (InputHeight c) (FilterHeight c) (Stride c)) in *.
  assert (How : 0 <= ow) by apply shape_law_nonneg.
  assert (Hoh : 0 <= oh) by apply shape_law_nonneg.
  assert (Hfc : 0 <= FilterCount c) by lia.
  assert (H0 : 0 <= FilterWidth c * FilterHeight c * InputDepth c) by nia.
  assert (H1 : 0 <= ow * oh * FilterCount c) by nia.
  exists ow, oh.
  unfold convolve. rewrite (NewTensor3_Ok _ _ _ H0), HW, HH. simpl.
  unfold OutputDepth. rewrite (NewTensor3_Ok _ _ _ H1). simpl.
  set (cell := forward_cell c input).
  unfold for_upto.
  destruct (for_from_inv
              (fun k st => filter_shaped c (fst st)
                           /\ filled ow oh (FilterCount c) cell
                                (before 0 (Z.of_nat k) 0) (snd st))
              (fun y st =>
                 for_from 0 (Z.to_nat ow)
                   (fun x '(croppedInput, outTensor) =>
                      croppedInput ← Crop (inputToTensor c input)
                                      (int_mul x (Stride c))
                                      (int_mul y (Stride c)) croppedInput;
                      outTensor ← for_range (elems (Filters c))
                        (fun z filter outTensor =>
                           dot ← Dot (Z.of_nat (length (Data filter)))
                                   (Data filter) (Data croppedInput);
                           b ← bias_at c z;
                           SetAt outTensor x y z (dot + b)%float) outTensor;
                      Ok (croppedInput, outTensor)) st)
              (Z.to_nat oh) 0
              (mkTensor3 (FilterWidth c) (FilterHeight c) (InputDepth c)
                 (zeros (Z.to_nat (FilterWidth c * FilterHeight c * InputDepth c))),
               mkTensor3 ow oh (FilterCount c)
                 (zeros (Z.to_nat (ow * oh * FilterCount c)))))
    as ([cr out] & Hrun & Hcr & Hfill).
  - (* before the loops *)
    simpl. split.
    + unfold filter_shaped. simpl. rewrite zeros_length. repeat split; lia.
    + unfold filled. simpl. rewrite zeros_length. repeat split; try lia.
      unfold before. intros; lia.
  - (* one row *)
    intros ky [cr o] Hky [Hcr Hfill]. simpl in Hcr, Hfill.
    rewrite Z.add_0_l. set (y := Z.of_nat ky) in *.
    destruct (for_from_inv
                (fun k st => filter_shaped c (fst st)
                             /\ filled ow oh (FilterCount c) cell
                                  (before (Z.of_nat k) y 0) (snd st))
                (fun x '(croppedInput, outTensor) =>
                   croppedInput ← Crop (inputToTensor c input)
                                   (int_mul x (Stride c))
                                   (int_mul y (Stride c)) croppedInput;
                   outTensor ← for_range (elems (Filters c))
                     (fun z filter outTensor =>
                        dot ← Dot (Z.of_nat (length (Data filter)))
                                (Data filter) (Data croppedInput);
                        b ← bias_at c z;
                        SetAt outTensor x y z (dot + b)%float) outTensor;
                   Ok (croppedInput, outTensor))
                (Z.to_nat ow) 0 (cr, o))
      as ([cr' o'] & Hrun & Hcr' & Hfill').
    + simpl. split; [exact Hcr|]. exact Hfill.
    + (* one position *)
      intros kx [cr1 o1] Hkx [Hcr1 Hfill1]. simpl in Hcr1, Hfill1.
      rewrite Z.add_0_l. set (x := Z.of_nat kx) in *.
      destruct (valid_crop c _ _ _ input x y cr1 V Hin ltac:(lia) ltac:(lia) Hcr1)
        as (Ex & Ey & patch & Hcrop & Hpatch).
      rewrite Ex, Ey, Hcrop. simpl.
      unfold for_range.
      destruct (for_range_from_inv
                  (fun k o => filled ow oh (FilterCount c) cell
                                (before x y (Z.of_nat k)) o)
                  (fun z filter outTensor =>
                     dot ← Dot (Z.of_nat (length (Data filter)))
                             (Data filter) (Data patch);
                     b ← bias_at c z;
                     SetAt outTensor x y z (dot + b)%float)
                  (elems (Filters c)) 0 o1)
        as (o2 & Hrun2 & Hfill2).
      * exact Hfill1.
      * (* one filter *)
        intros kz filter o3 Hfilter Hfill3. rewrite Z.add_0_l.
        rewrite VF in Hfilter. simpl in Hfilter.
        assert (Hkz : Z.of_nat kz < FilterCount c).
        { apply lookup_lt_Some in Hfilter. lia. }
        destruct (forward_cell_Ok c _ _ _ input x y (Z.of_nat kz) filter patch cr1
                    V Hcr1 Hcrop) as (b & HD & HB & Hcell).
        { rewrite Nat2Z.id. exact Hfilter. }
        { lia. }
        rewrite HD. simpl. rewrite HB. simpl.
        destruct (filled_SetAt _ _ _ _ _ o3 x y (Z.of_nat kz) _ Hfill3
                    ltac:(lia) ltac:(lia) ltac:(lia) Hcell) as (o4 & Hset & Hfill4).
        exists o4. split; [exact Hset|].
        eapply filled_weaken; [|exact Hfill4].
        unfold before. intros; lia.
      * rewrite Hrun2. simpl. eexists. split; [reflexivity|]. simpl.
        split; [exact Hpatch|].
        eapply filled_weaken; [|exact Hfill2].
        rewrite VF. simpl. unfold before. intros; lia.
    + exists (cr', o'). split; [exact Hrun|]. simpl. split; [exact Hcr'|].
      eapply filled_weaken; [|exact Hfill'].
      unfold before. intros; lia.
  - (* after the loops *)
    simpl in Hrun. rewrite Hrun. simpl. exists out.
    destruct Hfill as (Fw & Fh & Fd & Fl & Fc). simpl in *.
    repeat split; auto.
    intros x y z Hx Hy Hz. apply Fc; auto. unfold before. lia.
Qed.

Lemma patch_at_Crop c input x y cr patch :
  0 <= InputDepth c -> 0 <= FilterWidth c -> 0 <= FilterHeight c ->
  filter_shaped c cr ->
  Crop (inputToTensor c input) (x * Stride c) (y * Stride c) cr = Ok patch ->
  patch_at c input x y = Ok patch.
Proof.
  intros HD HW HH (Cw & Ch & Cd & Cl) Hcrop. unfold patch_at.
  assert (H0 : 0 <= FilterWidth c * FilterHeight c * InputDepth c) by nia.
  rewrite (NewTensor3_Ok _ _ _ H0). simpl.
  erewrite Crop_dest; [exact Hcrop| | | |]; simpl; try congruence.
  rewrite zeros_length. lia.
Qed.

Lemma patch_shape c cr t x y patch :
  filter_shaped c cr -> Crop t x y cr = Ok patch -> filter_shaped c patch.
Proof.
  intros (Cw & Ch & Cd & Cl) H. unfold Crop in H.
  destruct (_ && _); [|discriminate]. inversion H; subst.
  unfold filter_shaped. simpl. rewrite tabulate_length. auto.
Qed.

Lemma dual_cell_Ok c filters filterVars biases v input inputR x y z filter
  patch patchR cr crR :
  valid_layer c filters filterVars biases ->
  valid_directions c filterVars biases v ->
  filter_shaped c cr -> filter_shaped c crR ->
  Crop (inputToTensor c input) (x * Stride c) (y * Stride c) cr = Ok patch ->
  Crop (inputToTensor c inputR) (x * Stride c) (y * Stride c) crR = Ok patchR ->
  filters !! Z.to_nat z = Some filter -> 0 <= z ->
  exists filterVar dR bR,
    filterVars !! Z.to_nat z = Some filterVar
    /\ Dot (Z.of_nat (length (Data filter))) (Data filter) (Data patchR)
       = Ok (dot_sum (Data filter) (Data patchR))
    /\ index (filtersR c v) z
       = Ok (filterToTensor c <$> map_index v (Some filterVar))
    /\ match map_index v (Some filterVar) with
       | Some rfilter =>
           Dot (Z.of_nat (length rfilter)) rfilter (Data patch)
             = Ok (dot_sum rfilter (Data patch))
           /\ dR = Some (dot_sum rfilter (Data patch))
       | None => dR = None
       end
    /\ match map_index v (Biases c) with
       | Some biasR => exists t, index biasR z = Ok t /\ bR = Some t
       | None => bR = None
       end
    /\ dual_cell c v input inputR x y z
       = Ok (add_term (add_term (dot_sum (Data filter) (Data patchR)) dR) bR).
Proof.
  intros V [Vdf Vdb] Hcr HcrR Hcrop HcropR Hf Hz.
  pose proof V as [VF VV VB VS VW VH VD Vc Vv Vb Vl].
  assert (Hzlt : z < FilterCount c).
  { apply lookup_lt_Some in Hf. lia. }
  destruct (lookup_lt_is_Some_2 filterVars (Z.to_nat z)) as [filterVar Hfv].
  { apply lookup_lt_Some in Hf. lia. }
  assert (Hfl : Z.of_nat (length (Data filter))
                = FilterWidth c * FilterHeight c * InputDepth c).
  { rewrite Forall_forall in Vl. apply Vl. eapply list_elem_of_lookup_2; eauto. }
  pose proof (patch_shape _ _ _ _ _ _ Hcr Hcrop) as (Pw & Ph & Pd & Pl).
  pose proof (patch_shape _ _ _ _ _ _ HcrR HcropR) as (Rw & Rh & Rd & Rl).
  assert (HD : Dot (Z.of_nat (length (Data filter))) (Data filter) (Data patchR)
               = Ok (dot_sum (Data filter) (Data patchR))).
  { apply Dot_Ok. lia. }
  assert (HfR : index (filtersR c v) z
                = Ok (filterToTensor c <$> map_index v (Some filterVar))).
  { apply index_Ok. split; [exact Hz|]. unfold filtersR. rewrite VV. simpl.
    rewrite list_lookup_fmap, Hfv. simpl.
    destruct (map_index v (Some filterVar)); reflexivity. }
  assert (HdR : exists dR,
             match map_index v (Some filterVar) with
             | Some rfilter =>
                 Dot (Z.of_nat (length rfilter)) rfilter (Data patch)
                   = Ok (dot_sum rfilter (Data patch))
                 /\ dR = Some (dot_sum rfilter (Data patch))
             | None => dR = None
             end).
  { destruct (map_index v (Some filterVar)) as [r|] eqn:Er.
    - eexists. split; [|reflexivity]. apply Dot_Ok.
      specialize (Vdf filterVar r (list_elem_of_lookup_2 _ _ _ Hfv) Er). lia.
    - eexists. reflexivity. }
  destruct HdR as (dR & HdR).
  assert (HbR : exists bR,
             match map_index v (Biases c) with
             | Some biasR => exists t, index biasR z = Ok t /\ bR = Some t
             | None => bR = None
             end).
  { rewrite VB. destruct (map_index v (Some biases)) as [r|] eqn:Er.
    - specialize (Vdb r eq_refl).
      destruct (index_in_range r z ltac:(lia)) as (t & Ht).
      exists (Some t), t. auto.
    - eexists. reflexivity. }
  destruct HbR as (bR & HbR).
  exists filterVar, dR, bR. repeat (split; [assumption|]).
  unfold dual_cell.
  rewrite (patch_at_Crop c input x y cr patch) by (auto; lia).
  rewrite (patch_at_Crop c inputR x y crR patchR) by (auto; lia).
  simpl. rewrite VF, VV. simpl.
  assert (Hi : index filters z = Ok filter) by (apply index_Ok; auto).
  assert (Hi' : index filterVars z = Ok filterVar) by (apply index_Ok; auto).
  rewrite Hi, Hi'. simpl. rewrite HD. simpl.
  destruct (map_index v (Some filterVar)) as [r|].
  - destruct HdR as [HdR ->]. rewrite HdR. simpl.
    destruct (map_index v (Biases c)) as [bv|].
    + destruct HbR as (t & Ht & ->). rewrite Ht. reflexivity.
    + subst bR. reflexivity.
  - subst dR. simpl.
    destruct (map_index v (Biases c)) as [bv|].
    + destruct HbR as (t & Ht & ->). rewrite Ht. reflexivity.
    + subst bR. reflexivity.
Qed.

Ltac invariant_of_for I :=
  match goal with
  | |- context [for_from ?i ?n ?body ?s] =>
      let Hrun := fresh "Hrun" in
      let s' := fresh "st" in
      destruct (for_from_inv I body n i s) as (s' & Hrun & ?);
      [ | | rewrite Hrun ]
  end.

Ltac invariant_of_range I :=
  match goal with
  | |- context [for_range_from ?i ?xs ?body ?s] =>
      let Hrun := fresh "Hrun" in
      let s' := fresh "st" in
      destruct (for_range_from_inv I body xs i s) as (s' & Hrun & ?);
      [ | | rewrite Hrun ]
  end.

Lemma convolveR_fills_output (c : ConvLayer) (filters : list Tensor3)
  (filterVars : list autofunc_Variable) (biases : autofunc_Variable)
  (v : VarMap) (input inputR : Vec) :
  valid_layer c filters filterVars biases ->
  valid_directions c filterVars biases v ->
  Z.of_nat (length input) = InputWidth c * InputHeight c * InputDepth c ->
  Z.of_nat (length inputR) = InputWidth c * InputHeight c * InputDepth c ->
  exists ow oh outR,
    OutputWidth c = Ok ow /\ OutputHeight c = Ok oh
    /\ convolveR c v input inputR = Ok outR
    /\ Width outR = ow /\ Height outR = oh /\ Depth outR = FilterCount c
    /\ Z.of_nat (length (Data outR)) = ow * oh * FilterCount c
    /\ forall x y z, 0 <= x < ow -> 0 <= y < oh -> 0 <= z < FilterCount c ->
         exists r, dual_cell c v input inputR x y z = Ok r
                   /\ Get outR x y z = Ok r.
Proof.
  intros V Vd Hin HinR.
  destruct (valid_output_shape _ _ _ _ V) as [HW HH].
  pose proof V as [VF VV VB VS VW VH VD Vc Vv Vb Vl].
  set (ow := shape_law (InputWidth c) (FilterWidth c) (Stride c)) in *.
  set (oh := shape_law (InputHeight c) (FilterHeight c) (Stride c)) in *.
  assert (How : 0 <= ow) by apply shape_law_nonneg.
  assert (Hoh : 0 <= oh) by apply shape_law_nonneg.
  assert (Hfc : 0 <= FilterCount c) by lia.
  assert (H0 : 0 <= FilterWidth c * FilterHeight c * InputDepth c) by nia.
  assert (H1 : 0 <= ow * oh * FilterCount c) by nia.
  exists ow, oh.
  unfold convolveR. rewrite (NewTensor3_Ok _ _ _ H0), HW, HH. simpl.
  unfold OutputDepth. rewrite (NewTensor3_Ok _ _ _ H1). simpl.
  set (cell := dual_cell c v input inputR).
  unfold for_upto.
  invariant_of_for
    (fun (k : nat) (st : Tensor3 * Tensor3 * Tensor3) =>
       filter_shaped c (fst (fst st)) /\ filter_shaped c (snd (fst st))
       /\ filled ow oh (FilterCount c) cell (before 0 (Z.of_nat k) 0) (snd st)).
  - (* before the loops *)
    simpl. unfold filter_shaped, filled. simpl. rewrite !zeros_length.
    repeat split; try lia. unfold before. intros; lia.
  - (* one row *)
    intros ky [[cr crR] o] Hky (Hcr & HcrR & Hfill). simpl in Hcr, HcrR, Hfill.
    rewrite Z.add_0_l. set (y := Z.of_nat ky) in *.
    invariant_of_for
      (fun (k : nat) (st : Tensor3 * Tensor3 * Tensor3) =>
         filter_shaped c (fst (fst st)) /\ filter_shaped c (snd (fst st))
         /\ filled ow oh (FilterCount c) cell (before (Z.of_nat k) y 0) (snd st)).
    + simpl. auto.
    + (* one position *)
      intros kx [[cr1 crR1] o1] Hkx (Hcr1 & HcrR1 & Hfill1).
      simpl in Hcr1, HcrR1, Hfill1.
      rewrite Z.add_0_l. set (x := Z.of_nat kx) in *.
      destruct (valid_crop c _ _ _ input x y cr1 V Hin ltac:(lia) ltac:(lia) Hcr1)
        as (Ex & Ey & patch & Hcrop & Hpatch).
      destruct (valid_crop c _ _ _ inputR x y crR1 V HinR ltac:(lia) ltac:(lia)
                  HcrR1) as (_ & _ & patchR & HcropR & HpatchR).
      rewrite Ex, Ey, Hcrop. simpl. rewrite HcropR. simpl.
      unfold for_range.
      invariant_of_range
        (fun (k : nat) (o : Tensor3) =>
           filled ow oh (FilterCount c) cell (before x y (Z.of_nat k)) o).
      * exact Hfill1.
      * (* one filter *)
        intros kz filter o3 Hfilter Hfill3. rewrite Z.add_0_l.
        rewrite VF in Hfilter. simpl in Hfilter.
        assert (Hkz : Z.of_nat kz < FilterCount c).
        { apply lookup_lt_Some in Hfilter. lia. }
        destruct (dual_cell_Ok c _ _ _ v input inputR x y (Z.of_nat kz) filter
                    patch patchR cr1 crR1 V Vd Hcr1 HcrR1 Hcrop HcropR)
          as (filterVar & dR & bR & Hfv & HD & HfR & HdR & HbR & Hcell).
        { rewrite Nat2Z.id. exact Hfilter. }
        { lia. }
        rewrite HD. simpl. rewrite HfR. simpl.
        assert (Hval :
          (convolution ←
             match filterToTensor c <$> map_index v (Some filterVar) with
             | Some rfilter =>
                 d ← Dot (Z.of_nat (length (Data rfilter))) (Data rfilter)
                         (Data patch);
                 Ok (dot_sum (Data filter) (Data patchR) + d)%float
             | None => Ok (dot_sum (Data filter) (Data patchR))
             end;
           convolution ←
             match map_index v (Biases c) with
             | Some biasR =>
                 b ← index biasR (Z.of_nat kz); Ok (convolution + b)%float
             | None => Ok convolution
             end;
           SetAt o3 x y (Z.of_nat kz) convolution)
          = SetAt o3 x y (Z.of_nat kz)
              (add_term (add_term (dot_sum (Data filter) (Data patchR)) dR) bR)).
        { destruct (map_index v (Some filterVar)) as [r|]; simpl.
          - destruct HdR as [HdR ->]. rewrite HdR. simpl.
            destruct (map_index v (Biases c)) as [bv|].
            + destruct HbR as (t & Ht & ->). rewrite Ht. reflexivity.
            + subst bR. reflexivity.
          - subst dR. simpl.
            destruct (map_index v (Biases c)) as [bv|].
            + destruct HbR as (t & Ht & ->). rewrite Ht. reflexivity.
            + subst bR. reflexivity. }
        rewrite Hval.
        destruct (filled_SetAt _ _ _ _ _ o3 x y (Z.of_nat kz) _ Hfill3
                    ltac:(lia) ltac:(lia) ltac:(lia) Hcell) as (o4 & Hset & Hfill4).
        exists o4. split; [exact Hset|].
        eapply filled_weaken; [|exact Hfill4].
        unfold before. intros; lia.
      * simpl. eexists. split; [reflexivity|]. simpl.
        split; [exact Hpatch|]. split; [exact HpatchR|].
        eapply filled_weaken; [|eassumption].
        rewrite VF. simpl. unfold before. intros; lia.
    + eexists. split; [reflexivity|].
      destruct st as [[cr' crR'] o']. simpl in *.
      destruct H as (A1 & A2 & A3).
      split; [exact A1|]. split; [exact A2|].
      eapply filled_weaken; [|exact A3].
      unfold before. intros; lia.
  - (* after the loops *)
    destruct st as [[cr' crR'] out]. simpl.
    destruct H as (_ & _ & (Fw & Fh & Fd & Fl & Fc)). simpl in *.
    exists out. repeat split; auto.
    intros x y z Hx Hy Hz. apply Fc; auto. unfold before. lia.
Qed.

Lemma zero_tensor_shaped c :
  0 <= FilterWidth c -> 0 <= FilterHeight c -> 0 <= InputDepth c ->
  filter_shaped c
    (mkTensor3 (FilterWidth c) (FilterHeight c) (InputDepth c)
       (zeros (Z.to_nat (FilterWidth c * FilterHeight c * InputDepth c)))).
Proof.
  intros. unfold filter_shaped. simpl. rewrite zeros_length.
  repeat split; try reflexivity. nia.
Qed.

(** The patch of a valid layer at an output position: it exists, has the
    filters' shape and holds the window of the input at (x*stride,
    y*stride). *)
Lemma patch_at_window c filters filterVars biases input x y :
  valid_layer c filters filterVars biases ->
  Z.of_nat (length input) = InputWidth c * InputHeight c * InputDepth c ->
  0 <= x < shape_law (InputWidth c) (FilterWidth c) (Stride c) ->
  0 <= y < shape_law (InputHeight c) (FilterHeight c) (Stride c) ->
  exists patch,
    patch_at c input x y = Ok patch
    /\ filter_shaped c patch
    /\ forall i j k,
         0 <= i < FilterWidth c -> 0 <= j < FilterHeight c ->
         0 <= k < InputDepth c ->
         Get patch i j k
         = Get (inputToTensor c input) (x * Stride c + i) (y * Stride c + j) k.
Proof.
  intros V Hin Hx Hy.
  pose proof V as [VF VV VB VS VW VH VD Vc Vv Vb Vl].
  pose proof (zero_tensor_shaped c ltac:(lia) ltac:(lia) ltac:(lia)) as Hz.
  destruct (valid_crop c _ _ _ input x y _ V Hin Hx Hy Hz)
    as (_ & _ & patch & Hcrop & Hpatch).
  exists patch. split; [|split; [exact Hpatch|]].
  - apply (patch_at_Crop c input x y _ patch VD ltac:(lia) ltac:(lia) Hz Hcrop).
  - intros i j k Hi Hj Hk. eapply Crop_Get; eauto.
Qed.

(** The same window, by the flat indices of the patch and of the input
    vector. *)
Lemma patch_window_raw c filters filterVars biases input x y :
  valid_layer c filters filterVars biases ->
  Z.of_nat (length input) = InputWidth c * InputHeight c * InputDepth c ->
  0 <= x < shape_law (InputWidth c) (FilterWidth c) (Stride c) ->
  0 <= y < shape_law (InputHeight c) (FilterHeight c) (Stride c) ->
  exists patch,
    patch_at c input x y = Ok patch
    /\ filter_shaped c patch
    /\ forall i j k,
         0 <= i < FilterWidth c -> 0 <= j < FilterHeight c ->
         0 <= k < InputDepth c ->
         exists a,
           input !! Z.to_nat (InputDepth c
                              * ((y * Stride c + j) * InputWidth c
                                 + (x * Stride c + i)) + k) = Some a
           /\ Data patch !! Z.to_nat (InputDepth c * (j * FilterWidth c + i) + k)
              = Some a.
Proof.
  intros V Hin Hx Hy.
  destruct (patch_at_window c _ _ _ input x y V Hin Hx Hy)
    as (patch & Hpatch & Hshape & Hwin).
  exists patch. split; [exact Hpatch|]. split; [exact Hshape|].
  intros i j k Hi Hj Hk. specialize (Hwin i j k Hi Hj Hk).
  pose proof V as [VF VV VB VS VW VH VD Vc Vv Vb Vl].
  destruct (window_fits _ _ _ x VS Hx) as [Hx0 Hx1].
  destruct (window_fits _ _ _ y VS Hy) as [Hy0 Hy1].
  pose proof (flat_index_bounds (inputToTensor c input)
                (x * Stride c + i) (y * Stride c + j) k) as Hb.
  simpl in Hb. specialize (Hb ltac:(lia) ltac:(lia) Hk).
  unfold Get in Hwin. destruct Hshape as (Sw & Sh & Sd & Sl).
  unfold flat_index in Hwin, Hb. rewrite Sw, Sd in Hwin. simpl in Hwin, Hb.
  destruct (lookup_lt_is_Some_2 input
              (Z.to_nat (InputDepth c
                         * ((y * Stride c + j) * InputWidth c
                            + (x * Stride c + i)) + k)) ltac:(lia)) as [a Ha].
  exists a. split; [exact Ha|].
  assert (Hi' : index input (InputDepth c
                         * ((y * Stride c + j) * InputWidth c
                            + (x * Stride c + i)) + k) = Ok a).
  { apply index_Ok. split; [lia|exact Ha]. }
  rewrite Hi' in Hwin. apply index_Ok in Hwin. tauto.
Qed.

(** A read through [Get], as a lookup at the flat index. *)
Lemma Get_raw t x y z v :
  Get t x y z = Ok v ->
  Data t !! Z.to_nat (Depth t * (y * Width t + x) + z) = Some v.
Proof. unfold Get, flat_index. intros H. apply index_Ok in H. tauto. Qed.

(** C5, amended.  For an initialized layer of a valid configuration (a
    positive stride; along each axis a filter no larger than the input, or
    larger by a stride or more; filters and biases of the configured sizes)
    and an input vector of length InputWidth * InputHeight * InputDepth,
    convolve returns a tensor of dimensions OutputWidth x OutputHeight x
    FilterCount, which are those of the shape law, and Apply returns the node
    over it.  At every output position (x, y) and filter z the element of the
    output at the flat index FilterCount * (y * OutputWidth + x) + z is the
    dot product of filter z with the patch cropped at (x*stride, y*stride),
    plus bias[z]; the patch is of the filter's size, and its element at
    (i, j, k), at the flat index InputDepth * (j * FilterWidth + i) + k, is
    the element of the input vector at the flat index InputDepth *
    ((y*stride + j) * InputWidth + (x*stride + i)) + k. *)
Theorem convolve_forward (c : ConvLayer) (filters : list Tensor3)
  (filterVars : list autofunc_Variable) (biases : autofunc_Variable)
  (input : Vec) :
  valid_layer c filters filterVars biases ->
  Z.of_nat (length input) = InputWidth c * InputHeight c * InputDepth c ->
  exists ow oh out,
    OutputWidth c = Ok ow /\ OutputHeight c = Ok oh
    /\ ow = shape_law (InputWidth c) (FilterWidth c) (Stride c)
    /\ oh = shape_law (InputHeight c) (FilterHeight c) (Stride c)
    /\ convolve c input = Ok out
    /\ Width out = ow /\ Height out = oh /\ Depth out = FilterCount c
    /\ Z.of_nat (length (Data out)) = ow * oh * FilterCount c
    /\ (forall node : Result, Output node = input ->
          Apply c node = Ok (mkConvLayerResult out node c))
    /\ forall x y z, 0 <= x < ow -> 0 <= y < oh -> 0 <= z < FilterCount c ->
         exists patch filter b,
           patch_at c input x y = Ok patch
           /\ Z.of_nat (length (Data patch))
              = FilterWidth c * FilterHeight c * InputDepth c
           /\ (forall i j k,
                 0 <= i < FilterWidth c -> 0 <= j < FilterHeight c ->
                 0 <= k < InputDepth c ->
                 exists a,
                   input !! Z.to_nat (InputDepth c
                                      * ((y * Stride c + j) * InputWidth c
                                         + (x * Stride c + i)) + k) = Some a
                   /\ Data patch !! Z.to_nat (InputDepth c
                                              * (j * FilterWidth c + i) + k)
                      = Some a)
           /\ filters !! Z.to_nat z = Some filter
           /\ Vector biases !! Z.to_nat z = Some b
           /\ Data out !! Z.to_nat (FilterCount c * (y * ow + x) + z)
              = Some (dot_sum (Data filter) (Data patch) + b)%float.
Proof.
  intros V Hin.
  destruct (convolve_fills_output c _ _ _ input V Hin)
    as (ow & oh & out & HW & HH & Hrun & Ow & Oh & Od & Ol & Hcells).
  destruct (valid_output_shape _ _ _ _ V) as [HW' HH'].
  assert (Eow : ow = shape_law (InputWidth c) (FilterWidth c) (Stride c))
    by congruence.
  assert (Eoh : oh = shape_law (InputHeight c) (FilterHeight c) (Stride c))
    by congruence.
  pose proof V as [VF VV VB VS VW VH VD Vc Vv Vb Vl].
  exists ow, oh, out. repeat (split; [assumption|]). split.
  { intros node <-. unfold Apply.
    rewrite (uninitialized_false c) by congruence.
    rewrite Hrun. reflexivity. }
  intros x y z Hx Hy Hz. rewrite Eow in Hx. rewrite Eoh in Hy.
  destruct (patch_window_raw c _ _ _ input x y V Hin Hx Hy)
    as (patch & Hpatch & Hshape & Hwin).
  destruct (lookup_lt_is_Some_2 filters (Z.to_nat z) ltac:(lia)) as [filter Hf].
  pose proof (zero_tensor_shaped c ltac:(lia) ltac:(lia) ltac:(lia)) as Hzs.
  destruct (valid_crop c _ _ _ input x y _ V Hin Hx Hy Hzs)
    as (_ & _ & patch' & Hcrop & _).
  assert (patch' = patch).
  { pose proof (patch_at_Crop c input x y _ patch' VD ltac:(lia) ltac:(lia)
                  Hzs Hcrop).
    congruence. }
  subst patch'.
  destruct (forward_cell_Ok c _ _ _ input x y z filter patch _ V Hzs Hcrop Hf
              ltac:(lia)) as (b & HD & HB & Hcell).
  destruct (Hcells x y z ltac:(lia) ltac:(lia) Hz) as (v & Hv & Hg).
  exists patch, filter, b. split; [exact Hpatch|].
  split; [apply Hshape|]. split; [exact Hwin|].
  split; [exact Hf|]. split.
  - unfold bias_at in HB. rewrite VB in HB. apply index_Ok in HB. tauto.
  - apply Get_raw in Hg. rewrite Od, Ow in Hg. congruence.
Qed.

(** C5, as the claim has it, fails on initialized layers, with filters and
    biases of the configured sizes and an input of the configured length:
    with a stride of zero OutputWidth divides by zero; with a filter larger
    than the input by less than the stride OutputWidth is 1 and the crop at
    (0, 0) leaves the input; with a negative stride and a filter larger
    than the input OutputWidth is 2 and the crop leaves the input.  In each
    case convolve panics and there is no output tensor. *)
Lemma initialized_layers_without_forward_output :
  (uninitialized zero_stride_layer = false
   /\ Z.of_nat (length [5%float])
      = InputWidth zero_stride_layer * InputHeight zero_stride_layer
        * InputDepth zero_stride_layer
   /\ OutputWidth zero_stride_layer = Panic integer_divide_by_zero
   /\ convolve zero_stride_layer [5%float] = Panic integer_divide_by_zero)
  /\ (uninitialized narrow_filled_layer = false
      /\ Z.of_nat (length [1; 2; 3; 4]%float)
         = InputWidth narrow_filled_layer * InputHeight narrow_filled_layer
           * InputDepth narrow_filled_layer
      /\ OutputWidth narrow_filled_layer = Ok 1
      /\ convolve narrow_filled_layer [1; 2; 3; 4]%float
         = Panic tensor_precondition)
  /\ (uninitialized backward_stride_layer = false
      /\ Z.of_nat (length [5%float])
         = InputWidth backward_stride_layer * InputHeight backward_stride_layer
           * InputDepth backward_stride_layer
      /\ OutputWidth backward_stride_layer = Ok 2
      /\ convolve backward_stride_layer [5%float] = Panic tensor_precondition).
Proof. vm_compute. repeat split. Qed.

Lemma map_index_at_key (v : VarMap) (x : autofunc_Variable) :
  map_index v (Some x) = at_key (addr x) v.
Proof. destruct v; reflexivity. Qed.

(** C4, amended.  For an initialized layer of a valid configuration (as
    for C5), a direction map [v] whose vectors have the lengths of their
    variables, and an input and an input derivative of length InputWidth *
    InputHeight * InputDepth, convolveR returns a tensor of the output's
    dimensions, and ApplyR returns a node whose dual output is that tensor.
    At every output position (x, y) and filter z its element at the flat
    index FilterCount * (y * OutputWidth + x) + z is dot(filter z, patch of
    the input derivative), plus dot(direction of filter z, patch of the
    input) when [v] holds a direction for the filter's variable, plus the
    element z of the direction of the biases when [v] holds one; a term
    whose variable is absent from [v] is not added.  Both patches are
    cropped at (x*stride, y*stride): element (i, j, k) of each, at the flat
    index InputDepth * (j * FilterWidth + i) + k, is the element of its
    vector at the flat index InputDepth * ((y*stride + j) * InputWidth +
    (x*stride + i)) + k. *)
Theorem convolveR_dual (c : ConvLayer) (filters : list Tensor3)
  (filterVars : list autofunc_Variable) (biases : autofunc_Variable)
  (v : VarMap) (input inputR : Vec) :
  valid_layer c filters filterVars biases ->
  valid_directions c filterVars biases v ->
  Z.of_nat (length input) = InputWidth c * InputHeight c * InputDepth c ->
  Z.of_nat (length inputR) = InputWidth c * InputHeight c * InputDepth c ->
  exists ow oh outR,
    OutputWidth c = Ok ow /\ OutputHeight c = Ok oh
    /\ ow = shape_law (InputWidth c) (FilterWidth c) (Stride c)
    /\ oh = shape_law (InputHeight c) (FilterHeight c) (Stride c)
    /\ convolveR c v input inputR = Ok outR
    /\ Width outR = ow /\ Height outR = oh /\ Depth outR = FilterCount c
    /\ Z.of_nat (length (Data outR)) = ow * oh * FilterCount c
    /\ (forall node : RResult,
          RResult_Output node = input -> ROutput node = inputR ->
          exists res, ApplyR c v node = Ok res /\ ROutputTensor res = outR)
    /\ forall x y z, 0 <= x < ow -> 0 <= y < oh -> 0 <= z < FilterCount c ->
         exists patch patchR filter filterVar,
           patch_at c input x y = Ok patch
           /\ patch_at c inputR x y = Ok patchR
           /\ Z.of_nat (length (Data patch))
              = FilterWidth c * FilterHeight c * InputDepth c
           /\ Z.of_nat (length (Data patchR))
              = FilterWidth c * FilterHeight c * InputDepth c
           /\ (forall i j k,
                 0 <= i < FilterWidth c -> 0 <= j < FilterHeight c ->
                 0 <= k < InputDepth c ->
                 exists a aR,
                   input !! Z.to_nat (InputDepth c
                                      * ((y * Stride c + j) * InputWidth c
                                         + (x * Stride c + i)) + k) = Some a
                   /\ inputR !! Z.to_nat (InputDepth c
                                          * ((y * Stride c + j) * InputWidth c
                                             + (x * Stride c + i)) + k)
                      = Some aR
                   /\ Data patch !! Z.to_nat (InputDepth c
                                              * (j * FilterWidth c + i) + k)
                      = Some a
                   /\ Data patchR !! Z.to_nat (InputDepth c
                                               * (j * FilterWidth c + i) + k)
                      = Some aR)
           /\ filters !! Z.to_nat z = Some filter
           /\ filterVars !! Z.to_nat z = Some filterVar
           /\ Data outR !! Z.to_nat (FilterCount c * (y * ow + x) + z)
              = Some (add_term
                        (add_term (dot_sum (Data filter) (Data patchR))
                           ((fun rfilter => dot_sum rfilter (Data patch))
                              <$> at_key (addr filterVar) v))
                        (at_key (addr biases) v
                           ≫= (fun biasR => biasR !! Z.to_nat z))).
Proof.
  intros V Vd Hin HinR.
  destruct (convolveR_fills_output c _ _ _ v input inputR V Vd Hin HinR)
    as (ow & oh & out & HW & HH & Hrun & Ow & Oh & Od & Ol & Hcells).
  destruct (valid_output_shape _ _ _ _ V) as [HW' HH'].
  assert (Eow : ow = shape_law (InputWidth c) (FilterWidth c) (Stride c))
    by congruence.
  assert (Eoh : oh = shape_law (InputHeight c) (FilterHeight c) (Stride c))
    by congruence.
  pose proof V as [VF VV VB VS VW VH VD Vc Vv Vb Vl].
  exists ow, oh, out. repeat (split; [assumption|]). split.
  { intros node <- <-. unfold ApplyR.
    rewrite (uninitialized_false c) by congruence.
    destruct (convolve_fills_output c _ _ _ (RResult_Output node) V Hin)
      as (_ & _ & o & _ & _ & Ho & _).
    rewrite Ho, Hrun. simpl. eexists. split; reflexivity. }
  intros x y z Hx Hy Hz. rewrite Eow in Hx. rewrite Eoh in Hy.
  destruct (patch_window_raw c _ _ _ input x y V Hin Hx Hy)
    as (patch & Hpatch & Hshape & Hwin).
  destruct (patch_window_raw c _ _ _ inputR x y V HinR Hx Hy)
    as (patchR & HpatchR & HshapeR & HwinR).
  destruct (lookup_lt_is_Some_2 filters (Z.to_nat z) ltac:(lia)) as [filter Hf].
  pose proof (zero_tensor_shaped c ltac:(lia) ltac:(lia) ltac:(lia)) as Hzs.
  destruct (valid_crop c _ _ _ input x y _ V Hin Hx Hy Hzs)
    as (_ & _ & patch' & Hcrop & _).
  destruct (valid_crop c _ _ _ inputR x y _ V HinR Hx Hy Hzs)
    as (_ & _ & patchR' & HcropR & _).
  assert (patch' = patch).
  { pose proof (patch_at_Crop c input x y _ patch' VD ltac:(lia) ltac:(lia)
                  Hzs Hcrop).
    congruence. }
  assert (patchR' = patchR).
  { pose proof (patch_at_Crop c inputR x y _ patchR' VD ltac:(lia) ltac:(lia)
                  Hzs HcropR).
    congruence. }
  subst patch' patchR'.
  destruct (dual_cell_Ok c _ _ _ v input inputR x y z filter patch patchR _ _
              V Vd Hzs Hzs Hcrop HcropR Hf ltac:(lia))
    as (filterVar & dR & bR & Hfv & HD & HfR & HdR & HbR & Hcell).
  destruct (Hcells x y z ltac:(lia) ltac:(lia) Hz) as (r & Hr & Hg).
  exists patch, patchR, filter, filterVar.
  split; [exact Hpatch|]. split; [exact HpatchR|].
  split; [apply Hshape|]. split; [apply HshapeR|]. split.
  { intros i j k Hi Hj Hk.
    destruct (Hwin i j k Hi Hj Hk) as (a & Ha1 & Ha2).
    destruct (HwinR i j k Hi Hj Hk) as (aR & Hb1 & Hb2).
    exists a, aR. auto. }
  split; [exact Hf|]. split; [exact Hfv|].
  apply Get_raw in Hg. rewrite Od, Ow in Hg. rewrite Hg.
  rewrite Hcell in Hr. inversion Hr; subst r.
  rewrite <- !map_index_at_key. do 3 f_equal.
  - destruct (map_index v (Some filterVar)); simpl.
    + destruct HdR as [_ ->]. reflexivity.
    + exact HdR.
  - rewrite VB in HbR. destruct (map_index v (Some biases)) as [bv|]; simpl.
    + destruct HbR as (t & Ht & ->). apply index_Ok in Ht as [_ Ht]. congruence.
    + exact HbR.
Qed.

(** C4, as the claim has it, fails on initialized layers: with a stride of
    zero convolveR, and ApplyR with it, divide by zero; with a filter larger
    than the input by less than the stride the crop at (0, 0) leaves the
    input; and with a direction longer than its filter the dot product with
    the patch is refused.  In each case there is no dual output. *)
Lemma initialized_layers_without_dual_output :
  (uninitialized zero_stride_layer = false
   /\ convolveR zero_stride_layer None [5%float] [1%float]
      = Panic integer_divide_by_zero
   /\ ApplyR zero_stride_layer None
        (NewRVariable (mkVariable 9 [5%float]) None)
      = Panic integer_divide_by_zero)
  /\ (uninitialized narrow_filled_layer = false
      /\ convolveR narrow_filled_layer None [1; 2; 3; 4]%float
           [1; 0; 0; 0]%float = Panic tensor_precondition)
  /\ (uninitialized sample_layer = false
      /\ convolveR sample_layer long_direction (Vector sample_input)
           [1; 0; 0; 0; 0; 0; 0; 0; 0]%float = Panic blas_panic).
Proof. vm_compute. repeat split. Qed.

(** ** The theorems at the sample layer *)

Lemma sample_layer_valid :
  valid_layer sample_layer
    [mkTensor3 2 2 1 [1; 2; 3; 4]%float; mkTensor3 2 2 1 [0; 1; 0; 1]%float]
    [mkVariable 2 [1; 2; 3; 4]%float; mkVariable 3 [0; 1; 0; 1]%float]
    (mkVariable 1 [10; 20]%float).
Proof.
  constructor; try reflexivity; simpl; try (unfold max_int; lia).
  repeat constructor.
Qed.

Lemma sample_direction_valid :
  valid_directions sample_layer
    [mkVariable 2 [1; 2; 3; 4]%float; mkVariable 3 [0; 1; 0; 1]%float]
    (mkVariable 1 [10; 20]%float) sample_direction.
Proof.
  split.
  - intros fv r Hfv Hr. simpl in Hr.
    apply list_elem_of_In in Hfv. simpl in Hfv.
    destruct Hfv as [<-|[<-|[]]]; simpl in Hr.
    + vm_compute in Hr. inversion Hr. reflexivity.
    + vm_compute in Hr. discriminate.
  - intros r Hr. vm_compute in Hr. discriminate.
Qed.

Lemma convolve_forward_witness :
  let c := sample_layer in
  let input := Vector sample_input in
  exists ow oh out,
    OutputWidth c = Ok ow /\ OutputHeight c = Ok oh
    /\ ow = shape_law (InputWidth c) (FilterWidth c) (Stride c)
    /\ oh = shape_law (InputHeight c) (FilterHeight c) (Stride c)
    /\ convolve c input = Ok out
    /\ Width out = ow /\ Height out = oh /\ Depth out = FilterCount c
    /\ Z.of_nat (length (Data out)) = ow * oh * FilterCount c
    /\ (forall node : Result, Output node = input ->
          Apply c node = Ok (mkConvLayerResult out node c))
    /\ forall x y z, 0 <= x < ow -> 0 <= y < oh -> 0 <= z < FilterCount c ->
         exists patch filter b,
           patch_at c input x y = Ok patch
           /\ Z.of_nat (length (Data patch))
              = FilterWidth c * FilterHeight c * InputDepth c
           /\ (forall i j k,
                 0 <= i < FilterWidth c -> 0 <= j < FilterHeight c ->
                 0 <= k < InputDepth c ->
                 exists a,
                   input !! Z.to_nat (InputDepth c
                                      * ((y * Stride c + j) * InputWidth c
                                         + (x * Stride c + i)) + k) = Some a
                   /\ Data patch !! Z.to_nat (InputDepth c
                                              * (j * FilterWidth c + i) + k)
                      = Some a)
           /\ [mkTensor3 2 2 1 [1; 2; 3; 4]%float;
               mkTensor3 2 2 1 [0; 1; 0; 1]%float] !! Z.to_nat z = Some filter
           /\ [10; 20]%float !! Z.to_nat z = Some b
           /\ Data out !! Z.to_nat (FilterCount c * (y * ow + x) + z)
              = Some (dot_sum (Data filter) (Data patch) + b)%float.
Proof.
  exact (convolve_forward sample_layer _ _ _ (Vector sample_input)
           sample_layer_valid eq_refl).
Defined.

Lemma convolveR_dual_witness :
  let c := sample_layer in
  let v := sample_direction in
  let input := Vector sample_input in
  let inputR := [1; 0; 0; 0; 0; 0; 0; 0; 0]%float in
  exists ow oh outR,
    OutputWidth c = Ok ow /\ OutputHeight c = Ok oh
    /\ ow = shape_law (InputWidth c) (FilterWidth c) (Stride c)
    /\ oh = shape_law (InputHeight c) (FilterHeight c) (Stride c)
    /\ convolveR c v input inputR = Ok outR
    /\ Width outR = ow /\ Height outR = oh /\ Depth outR = FilterCount c
    /\ Z.of_nat (length (Data outR)) = ow * oh * FilterCount c
    /\ (forall node : RResult,
          RResult_Output node = input -> ROutput node = inputR ->
          exists res, ApplyR c v node = Ok res /\ ROutputTensor res = outR)
    /\ forall x y z, 0 <= x < ow -> 0 <= y < oh -> 0 <= z < FilterCount c ->
         exists patch patchR filter filterVar,
           patch_at c input x y = Ok patch
           /\ patch_at c inputR x y = Ok patchR
           /\ Z.of_nat (length (Data patch))
              = FilterWidth c * FilterHeight c * InputDepth c
           /\ Z.of_nat (length (Data patchR))
              = FilterWidth c * FilterHeight c * InputDepth c
           /\ (forall i j k,
                 0 <= i < FilterWidth c -> 0 <= j < FilterHeight c ->
                 0 <= k < InputDepth c ->
                 exists a aR,
                   input !! Z.to_nat (InputDepth c
                                      * ((y * Stride c + j) * InputWidth c
                                         + (x * Stride c + i)) + k) = Some a
                   /\ inputR !! Z.to_nat (InputDepth c
                                          * ((y * Stride c + j) * InputWidth c
                                             + (x * Stride c + i)) + k)
                      = Some aR
                   /\ Data patch !! Z.to_nat (InputDepth c
                                              * (j * FilterWidth c + i) + k)
                      = Some a
                   /\ Data patchR !! Z.to_nat (InputDepth c
                                               * (j * FilterWidth c + i) + k)
                      = Some aR)
           /\ [mkTensor3 2 2 1 [1; 2; 3; 4]%float;
               mkTensor3 2 2 1 [0; 1; 0; 1]%float] !! Z.to_nat z = Some filter
           /\ [mkVariable 2 [1; 2; 3; 4]%float;
               mkVariable 3 [0; 1; 0; 1]%float] !! Z.to_nat z = Some filterVar
           /\ Data outR !! Z.to_nat (FilterCount c * (y * ow + x) + z)
              = Some (add_term
                        (add_term (dot_sum (Data filter) (Data patchR))
                           ((fun rfilter => dot_sum rfilter (Data patch))
                              <$> at_key (addr filterVar) v))
                        (at_key (addr (mkVariable 1 [10; 20]%float)) v
                           ≫= (fun biasR => biasR !! Z.to_nat z))).
Proof.
  exact (convolveR_dual sample_layer _ _ _ sample_direction
           (Vector sample_input) [1; 0; 0; 0; 0; 0; 0; 0; 0]%float
           sample_layer_valid sample_direction_valid eq_refl eq_refl).
Defined.

(** * Further properties *)

(** ** The output size, case by case *)

Lemma shape_law_counts W Fw S x :
  0 < S -> Fw <= W -> 0 <= x ->
  x < shape_law W Fw S <-> x * S + Fw <= W.
Proof.
  intros HS HF Hx. unfold shape_law.
  assert (0 <= (W - Fw) / S) by (apply Z.div_pos; lia).
  rewrite Z.max_r by lia. split; intros H1.
  - assert (x <= (W - Fw) / S) by lia.
    assert (S * ((W - Fw) / S) <= W - Fw) by (apply Z.mul_div_le; lia).
    nia.
  - assert (x <= (W - Fw) / S); [|lia].
    apply Z.div_le_lower_bound; lia.
Qed.

(** X1.  For a positive stride and a filter no larger than the input,
    OutputWidth and OutputHeight count the positions of the filter inside
    the input: position x is below OutputWidth exactly when the window
    that starts at x*Stride, FilterWidth wide, ends inside the input; and
    likewise for the rows. *)
Theorem output_counts_window_positions (c : ConvLayer) :
  0 < Stride c ->
  0 <= FilterWidth c <= InputWidth c -> InputWidth c < max_int ->
  0 <= FilterHeight c <= InputHeight c -> InputHeight c < max_int ->
  exists w h,
    OutputWidth c = Ok w /\ OutputHeight c = Ok h
    /\ (forall x, 0 <= x ->
          x < w <-> x * Stride c + FilterWidth c <= InputWidth c)
    /\ (forall y, 0 <= y ->
          y < h <-> y * Stride c + FilterHeight c <= InputHeight c).
Proof.
  intros HS HFw HW HFh HH.
  exists (shape_law (InputWidth c) (FilterWidth c) (Stride c)),
    (shape_law (InputHeight c) (FilterHeight c) (Stride c)).
  split; [apply OutputWidth_filter_fits; assumption|].
  split; [apply OutputHeight_filter_fits; assumption|].
  split; intros x Hx; apply shape_law_counts; lia.
Qed.

Lemma output_counts_window_positions_witness :
  exists w h,
    OutputWidth sample_layer = Ok w /\ OutputHeight sample_layer = Ok h
    /\ (forall x, 0 <= x -> x < w <-> x * 1 + 2 <= 3)
    /\ (forall y, 0 <= y -> y < h <-> y * 1 + 2 <= 3).
Proof.
  apply (output_counts_window_positions sample_layer); simpl;
    unfold max_int; lia.
Defined.

Lemma quot_near_zero a S : 0 < S -> - S < a <= 0 -> Z.quot a S = 0.
Proof.
  intros HS Ha. rewrite quot_nonpos by lia.
  rewrite Z.div_small by lia. reflexivity.
Qed.

(** The computation of OutputWidth and OutputHeight for a filter larger
    than the input. *)
Lemma oversized_quot (W Fw S : Z) :
  0 < S -> 0 <= W < Fw -> Fw <= max_int ->
  (q ← int_quo (int_sub W Fw) S;
   let w := int_add 1 q in if w <? 0 then Ok 0 else Ok w)
  = Ok (if W + S <=? Fw then 0 else 1).
Proof.
  intros HS HW HF. unfold int_quo, int_sub, int_add.
  assert (Hm : max_int = 2 ^ 63 - 1) by reflexivity.
  destruct (Z.eqb_spec S 0) as [E|_]; [lia|].
  rewrite (wrap_id (W - Fw)) by (unfold is_int, min_int; lia).
  pose proof (quot_bounds (W - Fw) S HS ltac:(lia)) as Hb.
  rewrite (wrap_id (Z.quot _ _)) by (unfold is_int, min_int; lia).
  simpl. rewrite wrap_id by (unfold is_int, min_int; lia).
  destruct (Z.leb_spec (W + S) Fw) as [Hfar|Hnear].
  - pose proof (quot_far_negative (W - Fw) S HS ltac:(lia)).
    destruct (Z.ltb_spec (1 + Z.quot (W - Fw) S) 0); [reflexivity|].
    f_equal. lia.
  - rewrite quot_near_zero by lia. reflexivity.
Qed.

Lemma shape_law_fits W Fw S :
  0 < S -> Fw <= W -> shape_law W Fw S = 1 + (W - Fw) / S.
Proof.
  intros HS HF. unfold shape_law.
  assert (0 <= (W - Fw) / S) by (apply Z.div_pos; lia). lia.
Qed.

(** X2.  For a positive stride and dimensions that are not negative,
    OutputWidth returns 1 + floor((InputWidth - FilterWidth) / Stride) when
    the filter is no wider than the input; when it is wider, 0 if it
    exceeds the input by a stride or more and 1 if by less than a stride.
    OutputHeight does the same with the heights. *)
Theorem output_size_by_cases (c : ConvLayer) :
  0 < Stride c ->
  0 <= InputWidth c < max_int -> 0 <= FilterWidth c <= max_int ->
  0 <= InputHeight c < max_int -> 0 <= FilterHeight c <= max_int ->
  OutputWidth c
  = Ok (if FilterWidth c <=? InputWidth c
        then 1 + (InputWidth c - FilterWidth c) / Stride c
        else if InputWidth c + Stride c <=? FilterWidth c then 0 else 1)
  /\ OutputHeight c
     = Ok (if FilterHeight c <=? InputHeight c
           then 1 + (InputHeight c - FilterHeight c) / Stride c
           else if InputHeight c + Stride c <=? FilterHeight c then 0 else 1).
Proof.
  intros HS HW HFw HH HFh. split.
  - destruct (Z.leb_spec (FilterWidth c) (InputWidth c)).
    + rewrite OutputWidth_filter_fits by lia. f_equal.
      apply shape_law_fits; lia.
    + apply oversized_quot; lia.
  - destruct (Z.leb_spec (FilterHeight c) (InputHeight c)).
    + rewrite OutputHeight_filter_fits by lia. f_equal.
      apply shape_law_fits; lia.
    + apply oversized_quot; lia.
Qed.

Lemma output_size_by_cases_witness :
  OutputWidth narrow_layer = Ok (if 3 <=? 2 then 1 + (2 - 3) / 2
                                 else if 2 + 2 <=? 3 then 0 else 1)
  /\ OutputHeight narrow_layer = Ok (if 3 <=? 2 then 1 + (2 - 3) / 2
                                     else if 2 + 2 <=? 3 then 0 else 1).
Proof.
  apply (output_size_by_cases narrow_layer); simpl; unfold max_int; lia.
Defined.

(** ** A stride of zero *)

(** X3.  On a layer whose Stride is 0, with its parameters allocated and a
    filter size that is not negative, OutputWidth and OutputHeight panic
    with Go's integer division by zero, and so do Apply and ApplyR,
    whatever the input: the check for an uninitialized layer does not look
    at the stride. *)
Theorem zero_stride_divides_by_zero (c : ConvLayer) (input : Result)
  (v : VarMap) (inputR : RResult) :
  Stride c = 0 -> uninitialized c = false ->
  0 <= FilterWidth c * FilterHeight c * InputDepth c ->
  OutputWidth c = Panic integer_divide_by_zero
  /\ OutputHeight c = Panic integer_divide_by_zero
  /\ Apply c input = Panic integer_divide_by_zero
  /\ ApplyR c v inputR = Panic integer_divide_by_zero.
Proof.
  intros HS Hinit Hsize.
  assert (HW : OutputWidth c = Panic integer_divide_by_zero).
  { unfold OutputWidth, int_quo. rewrite HS. reflexivity. }
  assert (HC : forall input, convolve c input = Panic integer_divide_by_zero).
  { intros i. unfold convolve. rewrite NewTensor3_Ok by exact Hsize.
    simpl. rewrite HW. reflexivity. }
  split; [exact HW|]. split.
  { unfold OutputHeight, int_quo. rewrite HS. reflexivity. }
  unfold Apply, ApplyR. rewrite Hinit, !HC. auto.
Qed.

Lemma zero_stride_divides_by_zero_witness :
  OutputWidth zero_stride_layer = Panic integer_divide_by_zero
  /\ OutputHeight zero_stride_layer = Panic integer_divide_by_zero
  /\ Apply zero_stride_layer (Variable_Result sample_input)
     = Panic integer_divide_by_zero
  /\ ApplyR zero_stride_layer None (NewRVariable sample_input None)
     = Panic integer_divide_by_zero.
Proof.
  apply (zero_stride_divides_by_zero zero_stride_layer).
  - reflexivity.
  - reflexivity.
  - simpl. lia.
Defined.

(** ** Apply and ApplyR on a valid layer *)

(** X4.  On a valid layer, for inputs of the configured size, Apply and
    ApplyR both return; the nodes keep the input, the layer and the
    directions they were made from; Output of the node of ApplyR is Output
    of the node of Apply on the same input values; it has OutputWidth x
    OutputHeight x FilterCount values, and ROutput has as many. *)
Theorem ApplyR_agrees_with_Apply (c : ConvLayer) (filters : list Tensor3)
  (filterVars : list autofunc_Variable) (biases : autofunc_Variable)
  (v : VarMap) (input : Result) (inputR : RResult) :
  valid_layer c filters filterVars biases ->
  valid_directions c filterVars biases v ->
  RResult_Output inputR = Output input ->
  Z.of_nat (length (Output input)) = InputWidth c * InputHeight c * InputDepth c ->
  Z.of_nat (length (ROutput inputR)) = InputWidth c * InputHeight c * InputDepth c ->
  exists r rR,
    Apply c input = Ok r /\ ApplyR c v inputR = Ok rR
    /\ Input r = input /\ Layer r = c
    /\ R_Input rR = inputR /\ R_Layer rR = c /\ RV rR = v
    /\ convLayerRResult_Output rR = convLayerResult_Output r
    /\ Z.of_nat (length (convLayerResult_Output r))
       = shape_law (InputWidth c) (FilterWidth c) (Stride c)
         * shape_law (InputHeight c) (FilterHeight c) (Stride c) * FilterCount c
    /\ length (convLayerRResult_ROutput rR) = length (convLayerResult_Output r).
Proof.
  intros V Vd Hout Hin HinR.
  destruct (valid_output_shape _ _ _ _ V) as [HW HH].
  destruct (convolve_fills_output c filters filterVars biases (Output input) V Hin)
    as (ow & oh & out & HW' & HH' & Hc & _ & _ & _ & Hlen & _).
  rewrite <- Hout in Hin.
  destruct (convolveR_fills_output c filters filterVars biases v
              (RResult_Output inputR) (ROutput inputR) V Vd Hin HinR)
    as (ow' & oh' & outR & HW'' & HH'' & HcR & _ & _ & _ & HlenR & _).
  rewrite HW in HW', HW''. rewrite HH in HH', HH''.
  inversion HW'; inversion HW''; inversion HH'; inversion HH''; subst.
  pose proof V as [VF VV VB _ _ _ _ _ _ _ _].
  assert (Hinit : uninitialized c = false).
  { apply uninitialized_false; congruence. }
  unfold Apply, ApplyR. rewrite Hinit, Hout, Hc. rewrite Hout in HcR.
  rewrite HcR. simpl.
  eexists _, _. split; [reflexivity|]. split; [reflexivity|].
  unfold convLayerRResult_Output, convLayerResult_Output,
    convLayerRResult_ROutput. simpl.
  repeat (split; [reflexivity|]). split; [exact Hlen|]. lia.
Qed.

Lemma ApplyR_agrees_with_Apply_witness :
  exists r rR,
    Apply sample_layer (Variable_Result sample_input) = Ok r
    /\ ApplyR sample_layer sample_direction (NewRVariable sample_input None)
       = Ok rR
    /\ Input r = Variable_Result sample_input /\ Layer r = sample_layer
    /\ R_Input rR = NewRVariable sample_input None
    /\ R_Layer rR = sample_layer /\ RV rR = sample_direction
    /\ convLayerRResult_Output rR = convLayerResult_Output r
    /\ Z.of_nat (length (convLayerResult_Output r))
       = shape_law 3 2 1 * shape_law 3 2 1 * 2
    /\ length (convLayerRResult_ROutput rR) = length (convLayerResult_Output r).
Proof.
  exact (ApplyR_agrees_with_Apply sample_layer _ _ _ sample_direction
           (Variable_Result sample_input) (NewRVariable sample_input None)
           sample_layer_valid sample_direction_valid eq_refl eq_refl eq_refl).
Defined.

(** ** Runs against state, step by step *)

Lemma acc_bind_run {S A B} (m : Acc S A) (k : A -> Acc S B) s :
  (m ≫= k) s = match m s with
               | (s', Ok a) => k a s'
               | (s', Panic p) => (s', Panic p)
               end.
Proof. reflexivity. Qed.

Lemma acc_bind_Ok {S A B} (m : Acc S A) (k : A -> Acc S B) s s' b :
  (m ≫= k) s = (s', Ok b) ->
  exists a s1, m s = (s1, Ok a) /\ k a s1 = (s', Ok b).
Proof.
  unfold mbind, acc_bind. destruct (m s) as [s1 [a|p]]; [|discriminate].
  intros H. eauto.
Qed.

Lemma acc_bind_returns {S A B} (m : Acc S A) (k : A -> Acc S B) s s1 a :
  m s = (s1, Ok a) -> (m ≫= k) s = k a s1.
Proof. intros H. unfold mbind, acc_bind. rewrite H. reflexivity. Qed.

Lemma run_pure_bind {S A B} (r : Res A) (k : A -> Acc S B) s :
  (pure r ≫= k) s = match r with
                     | Ok a => k a s
                     | Panic p => (s, Panic p)
                     end.
Proof. unfold mbind, acc_bind, pure. destruct r; reflexivity. Qed.

Lemma run_ret_bind {S A B} (a : A) (k : A -> Acc S B) s :
  (mret a ≫= k) s = k a s.
Proof. reflexivity. Qed.

Lemma run_get_state_bind {S B} (k : S -> Acc S B) s :
  (get_state ≫= k) s = k s s.
Proof. reflexivity. Qed.

Lemma preserves_at {S X A} (f : S -> X) (m : Acc S A) s :
  preserves f m -> f (fst (m s)) = f s.
Proof. intros H. apply H. Qed.

Lemma preserves_bind_pure {S X A B} (f : S -> X) (r : Res A) (k : A -> Acc S B) :
  (forall a, r = Ok a -> preserves f (k a)) -> preserves f (pure r ≫= k).
Proof.
  intros Hk s. unfold mbind, acc_bind, pure. destruct r as [a|p]; [|reflexivity].
  apply Hk. reflexivity.
Qed.

(** What holds of the locals before a loop and survives every round that
    returns holds of them after a loop that returns. *)
Lemma forA_from_result {S L} (P : L -> Prop) (body : Z -> L -> Acc S L) n :
  (forall i l s s' l', P l -> body i l s = (s', Ok l') -> P l') ->
  forall i l s s' l', P l -> forA_from i n body l s = (s', Ok l') -> P l'.
Proof.
  intros Hb. induction n as [|n IH]; intros i l s s' l' Hl Hrun; simpl in Hrun.
  - inversion Hrun; subst. exact Hl.
  - apply acc_bind_Ok in Hrun as (l1 & s1 & H1 & H2).
    eapply IH; [|exact H2]. eapply Hb; eauto.
Qed.

Lemma forA_range_from_result {S A L} (P : L -> Prop)
  (body : Z -> A -> L -> Acc S L) xs :
  (forall i a l s s' l', P l -> body i a l s = (s', Ok l') -> P l') ->
  forall i l s s' l', P l -> forA_range_from i xs body l s = (s', Ok l') -> P l'.
Proof.
  intros Hb. induction xs as [|a xs IH]; intros i l s s' l' Hl Hrun;
    simpl in Hrun.
  - inversion Hrun; subst. exact Hl.
  - apply acc_bind_Ok in Hrun as (l1 & s1 & H1 & H2).
    eapply IH; [|exact H2]. eapply Hb; eauto.
Qed.

(** A loop whose every round returns and carries the invariant returns,
    with the invariant. *)
Lemma forA_from_inv {S L} (I : nat -> L -> S -> Prop)
  (body : Z -> L -> Acc S L) n :
  forall i0 l s,
  I O l s ->
  (forall (k : nat) l s, (k < n)%nat -> I k l s ->
     exists l' s', body (i0 + Z.of_nat k) l s = (s', Ok l')
                   /\ I (Datatypes.S k) l' s') ->
  exists l' s', forA_from i0 n body l s = (s', Ok l') /\ I n l' s'.
Proof.
  revert I. induction n as [|n IH]; intros I i0 l s H0 Hstep.
  - exists l, s. split; [reflexivity|exact H0].
  - destruct (Hstep O l s ltac:(lia) H0) as (l1 & s1 & Hb & H1).
    rewrite Z.add_0_r in Hb.
    destruct (IH (fun k => I (Datatypes.S k)) (i0 + 1) l1 s1 H1)
      as (l' & s' & Hrun & Hn).
    { intros k l2 s2 Hk HI.
      destruct (Hstep (Datatypes.S k) l2 s2 ltac:(lia) HI) as (l3 & s3 & Hb3 & H3).
      exists l3, s3. split; [|exact H3].
      rewrite <- Hb3. f_equal. lia. }
    exists l', s'. split; [|exact Hn].
    simpl. rewrite (acc_bind_returns _ _ _ _ _ Hb). exact Hrun.
Qed.

Lemma forA_range_from_inv {S A L} (I : nat -> L -> S -> Prop)
  (body : Z -> A -> L -> Acc S L) (xs : list A) :
  forall i0 l s,
  I O l s ->
  (forall (k : nat) a l s, xs !! k = Some a -> I k l s ->
     exists l' s', body (i0 + Z.of_nat k) a l s = (s', Ok l')
                   /\ I (Datatypes.S k) l' s') ->
  exists l' s', forA_range_from i0 xs body l s = (s', Ok l')
                /\ I (length xs) l' s'.
Proof.
  revert I. induction xs as [|a xs IH]; intros I i0 l s H0 Hstep.
  - exists l, s. split; [reflexivity|exact H0].
  - destruct (Hstep O a l s eq_refl H0) as (l1 & s1 & Hb & H1).
    rewrite Z.add_0_r in Hb.
    destruct (IH (fun k => I (Datatypes.S k)) (i0 + 1) l1 s1 H1)
      as (l' & s' & Hrun & Hn).
    { intros k a2 l2 s2 Hk HI.
      destruct (Hstep (Datatypes.S k) a2 l2 s2 Hk HI) as (l3 & s3 & Hb3 & H3).
      exists l3, s3. split; [|exact H3].
      rewrite <- Hb3. f_equal. lia. }
    exists l', s'. split; [|exact Hn].
    simpl. rewrite (acc_bind_returns _ _ _ _ _ Hb). exact Hrun.
Qed.

(** ** What a backward pass writes *)

Lemma update_entry_at_key k k' f :
  k' <> k -> preserves (at_key k) (update_entry k' f).
Proof.
  intros Hne [m|]; simpl; [|reflexivity].
  destruct (m !! k') as [v|] eqn:E; [|reflexivity].
  destruct (f v); simpl; [|reflexivity].
  apply lookup_insert_ne. exact Hne.
Qed.

Lemma update_opt_at_key k h f :
  h <> Some k -> preserves (at_key k) (update_opt h f).
Proof.
  intros Hne. destruct h as [k'|]; [|apply preserves_ret].
  apply update_entry_at_key. congruence.
Qed.

Lemma update_opt_is_nil h f : preserves is_nil (update_opt h f).
Proof.
  destruct h as [k|]; [|apply preserves_ret].
  intros [m|]; simpl; [|reflexivity].
  destruct (m !! k) as [v|]; [|reflexivity]. destruct (f v); reflexivity.
Qed.

Lemma index_elem {A} (l : list A) i a : index l i = Ok a -> a ∈ l.
Proof.
  unfold index. destruct (i <? 0); [discriminate|].
  destruct (l !! Z.to_nat i) as [a'|] eqn:E; [|discriminate].
  intros H. inversion H; subst. eapply list_elem_of_lookup_2; eauto.
Qed.

Lemma on_grad_both {X A} (f : VarMap -> X) (m : Acc VarMap A) :
  preserves f m -> preserves (fun s => (f (fst s), f (snd s))) (on_grad m).
Proof.
  intros H [rg g]. unfold on_grad. simpl. specialize (H g).
  destruct (m g) as [g' r]. simpl in *. rewrite H. reflexivity.
Qed.

Lemma on_rgrad_both {X A} (f : VarMap -> X) (m : Acc VarMap A) :
  preserves f m -> preserves (fun s => (f (fst s), f (snd s))) (on_rgrad m).
Proof.
  intros H [rg g]. unfold on_rgrad. simpl. specialize (H rg).
  destruct (m rg) as [rg' r]. simpl in *. rewrite H. reflexivity.
Qed.

Create HintDb frame.
#[local] Hint Resolve preserves_ret preserves_pure preserves_get_state
  update_opt_is_nil : frame.

Ltac frame_step :=
  first
    [ solve [auto with frame]
    | apply preserves_forA_from; intros
    | apply preserves_forA_range_from; intros
    | apply preserves_bind_pure; intros
    | apply preserves_bind; [|intros]
    | match goal with
      | |- preserves _ (match ?x with _ => _ end) => destruct x
      | |- preserves _ (let '(_, _) := ?x in _) => destruct x
      | |- preserves _ (if ?x then _ else _) => destruct x
      end ].

(** The loops write through the handles they were given, and through
    nothing else. *)
Lemma propagate_loops_at_key beyond k layer outT inT downT biasGrad filterGrads locals :
  biasGrad <> Some k -> Some k ∉ filterGrads ->
  preserves (at_key k)
    (propagate_loops beyond layer outT inT downT biasGrad filterGrads locals).
Proof.
  intros Hb Hf. unfold propagate_loops, forA_upto, forA_range.
  repeat first
    [ match goal with
      | H : index filterGrads _ = Ok ?h |- preserves _ (update_opt ?h _) =>
          apply update_opt_at_key; intros ->; apply Hf;
          exact (index_elem _ _ _ H)
      | |- preserves _ (update_opt biasGrad _) =>
          apply update_opt_at_key; exact Hb
      end
    | frame_step ].
Qed.

Lemma propagate_loops_is_nil beyond layer outT inT downT biasGrad filterGrads locals :
  preserves is_nil
    (propagate_loops beyond layer outT inT downT biasGrad filterGrads locals).
Proof. unfold propagate_loops, forA_upto, forA_range. repeat frame_step. Qed.

Lemma propagateR_loops_at_key beyond k layer outT inT inTR downT downTR biasGrad
  filterGrads biasGradR filterGradsR fR locals :
  biasGrad <> Some k -> Some k ∉ filterGrads ->
  biasGradR <> Some k -> Some k ∉ filterGradsR ->
  preserves (at_key2 k)
    (propagateR_loops beyond layer outT inT inTR downT downTR biasGrad filterGrads
       biasGradR filterGradsR fR locals).
Proof.
  intros Hb Hf HbR HfR. unfold propagateR_loops, forA_upto, forA_range.
  repeat first
    [ match goal with
      | |- preserves _ (on_grad _) => apply (on_grad_both (at_key k))
      | |- preserves _ (on_rgrad _) => apply (on_rgrad_both (at_key k))
      | H : index filterGrads _ = Ok ?h |- preserves _ (update_opt ?h _) =>
          apply update_opt_at_key; intros ->; apply Hf;
          exact (index_elem _ _ _ H)
      | H : index filterGradsR _ = Ok ?h |- preserves _ (update_opt ?h _) =>
          apply update_opt_at_key; intros ->; apply HfR;
          exact (index_elem _ _ _ H)
      | |- preserves _ (update_opt biasGrad _) =>
          apply update_opt_at_key; exact Hb
      | |- preserves _ (update_opt biasGradR _) =>
          apply update_opt_at_key; exact HbR
      end
    | frame_step ].
Qed.

Lemma propagateR_loops_is_nil beyond layer outT inT inTR downT downTR biasGrad
  filterGrads biasGradR filterGradsR fR locals :
  preserves is_nil2
    (propagateR_loops beyond layer outT inT inTR downT downTR biasGrad filterGrads
       biasGradR filterGradsR fR locals).
Proof.
  unfold propagateR_loops, forA_upto, forA_range.
  repeat first
    [ match goal with
      | |- preserves _ (on_grad _) => apply (on_grad_both is_nil)
      | |- preserves _ (on_rgrad _) => apply (on_rgrad_both is_nil)
      end
    | frame_step ].
Qed.

(** The handles [gradsFromMap] hands out are keys of the layer's own
    parameters. *)
Lemma gradsFromMap_own c m k :
  (forall v, Biases c = Some v -> addr v <> k) ->
  (forall v, v ∈ elems (FilterVars c) -> addr v <> k) ->
  fst (gradsFromMap c m) <> Some k /\ Some k ∉ snd (gradsFromMap c m).
Proof.
  intros Hb Hf. unfold gradsFromMap. destruct m as [m|]; simpl; split.
  - destruct (Biases c) as [b|]; simpl; [|discriminate].
    destruct (m !! addr b); simpl; [|discriminate].
    intros E. inversion E. eapply Hb; eauto.
  - intros Hin. apply list_elem_of_fmap in Hin as (v & E & Hv).
    destruct (m !! addr v); [|discriminate]. inversion E.
    eapply Hf; eauto.
  - discriminate.
  - intros Hin. apply list_elem_of_fmap in Hin as (v & E & Hv). discriminate.
Qed.

(** X5.  Whether they return or panic, convLayerResult.PropagateGradient
    and convLayerRResult.PropagateRGradient leave the vector of every key
    that is not the address of the layer's Biases or of one of its
    FilterVars as it was (or absent), in the Gradient and in the RGradient,
    provided the input node they propagate into leaves it. *)
Theorem backward_pass_writes_own_parameters (beyond : MulAdd_unspecified)
  (c : convLayerResult)
  (cR : convLayerRResult) (upstream upstreamR : Vec) (k : positive) :
  (forall u, preserves (at_key k) (PropagateGradient (Input c) u)) ->
  (forall u uR, preserves (at_key2 k) (PropagateRGradient (R_Input cR) u uR)) ->
  (forall v, Biases (Layer c) = Some v -> addr v <> k) ->
  (forall v, v ∈ elems (FilterVars (Layer c)) -> addr v <> k) ->
  (forall v, Biases (R_Layer cR) = Some v -> addr v <> k) ->
  (forall v, v ∈ elems (FilterVars (R_Layer cR)) -> addr v <> k) ->
  (forall grad,
     at_key k (fst (convLayerResult_PropagateGradient beyond c upstream grad))
     = at_key k grad)
  /\ (forall rgrad grad,
        at_key2 k (fst (convLayerRResult_PropagateRGradient beyond cR upstream upstreamR
                          (rgrad, grad)))
        = (at_key k rgrad, at_key k grad)).
Proof.
  intros Hin HinR Hb Hf HbR HfR. split.
  - intros grad. unfold convLayerResult_PropagateGradient.
    rewrite run_pure_bind.
    destruct (outputToTensor (Layer c) upstream) as [down|p]; [|reflexivity].
    rewrite run_get_state_bind.
    destruct (gradsFromMap_own (Layer c) grad k Hb Hf) as [H1 H2].
    destruct (gradsFromMap (Layer c) grad) as [biasGrad filterGrads].
    simpl in H1, H2. cbv beta iota.
    apply (preserves_at (at_key k)).
    repeat first
      [ apply propagate_loops_at_key; assumption
      | apply Hin
      | frame_step ].
  - intros rgrad grad. unfold convLayerRResult_PropagateRGradient.
    rewrite run_pure_bind.
    destruct (outputToTensor (R_Layer cR) upstream) as [down|p]; [|reflexivity].
    rewrite run_pure_bind.
    destruct (outputToTensor (R_Layer cR) upstreamR) as [downR|p]; [|reflexivity].
    rewrite run_get_state_bind.
    destruct (gradsFromMap_own (R_Layer cR) grad k HbR HfR) as [H1 H2].
    destruct (gradsFromMap_own (R_Layer cR) rgrad k HbR HfR) as [H3 H4].
    destruct (gradsFromMap (R_Layer cR) grad) as [biasGrad filterGrads].
    destruct (gradsFromMap (R_Layer cR) rgrad) as [biasGradR filterGradsR].
    simpl in H1, H2, H3, H4.
    change (at_key k rgrad, at_key k grad) with (at_key2 k (rgrad, grad)).
    cbv beta iota.
    apply (preserves_at (at_key2 k)).
    repeat first
      [ apply propagateR_loops_at_key; assumption
      | apply HinR
      | frame_step ].
Qed.

Lemma sample_layer_keys k v :
  (k = 5%positive) ->
  Biases sample_layer = Some v \/ v ∈ elems (FilterVars sample_layer) ->
  addr v <> k.
Proof.
  intros -> [H|H].
  - inversion H. discriminate.
  - simpl in H. repeat (apply elem_of_cons in H as [->|H]; [discriminate|]).
    inversion H.
Qed.

Lemma backward_pass_writes_own_parameters_witness :
  (forall grad,
     at_key 5 (fst (convLayerResult_PropagateGradient MulAdd_refuses sample_result
                      [1; 1; 1; 1; 1; 1; 1; 1]%float grad))
     = at_key 5 grad)
  /\ (forall rgrad grad,
        at_key2 5 (fst (convLayerRResult_PropagateRGradient MulAdd_refuses sample_rresult
                          [1; 1; 1; 1; 1; 1; 1; 1]%float
                          [0; 0; 0; 0; 0; 0; 0; 0]%float (rgrad, grad)))
        = (at_key 5 rgrad, at_key 5 grad)).
Proof.
  apply (backward_pass_writes_own_parameters MulAdd_refuses sample_result
           sample_rresult).
  - intros u. simpl. apply update_entry_at_key. discriminate.
  - intros u uR. simpl. apply preserves_bind; [|intros _].
    + apply (on_grad_both (at_key 5)). apply update_entry_at_key. discriminate.
    + apply (on_rgrad_both (at_key 5)). apply update_entry_at_key. discriminate.
  - intros v H. apply (sample_layer_keys 5 v eq_refl). left. exact H.
  - intros v H. apply (sample_layer_keys 5 v eq_refl). right. exact H.
  - intros v H. apply (sample_layer_keys 5 v eq_refl). left. exact H.
  - intros v H. apply (sample_layer_keys 5 v eq_refl). right. exact H.
Defined.

(** ** Constant nodes *)

Lemma Variable_Constant_spec v g :
  Variable_Constant v g = true -> map_index g v = None.
Proof.
  unfold Variable_Constant. destruct (map_index g v) as [r|]; [|reflexivity].
  rewrite bool_decide_eq_true_2 by eauto. discriminate.
Qed.

Lemma Variable_Constant_iff v g :
  Variable_Constant v g = true <-> map_index g v = None.
Proof.
  split; [apply Variable_Constant_spec|].
  intros H. unfold Variable_Constant. rewrite H.
  rewrite bool_decide_eq_false_2 by (intros [? ?]; discriminate). reflexivity.
Qed.

Lemma not_is_Some_iff {A} (o : option A) :
  bool_decide (is_Some o) = false <-> o = None.
Proof.
  destruct o as [a|].
  - rewrite bool_decide_eq_true_2 by eauto. split; discriminate.
  - rewrite bool_decide_eq_false_2 by (intros [? ?]; discriminate). tauto.
Qed.

Lemma all_Constant_iff vars g :
  all_Constant vars g = true <->
  forall v, v ∈ vars -> map_index g (Some v) = None.
Proof.
  split.
  - induction vars as [|x vars IH]; simpl; intros H v Hv.
    + inversion Hv.
    + destruct (Variable_Constant (Some x) g) eqn:E; [|discriminate].
      simpl in H. apply Variable_Constant_spec in E.
      apply elem_of_cons in Hv as [->|Hv]; [exact E|]. apply IH; assumption.
  - induction vars as [|x vars IH]; intros H; simpl; [reflexivity|].
    rewrite (proj2 (Variable_Constant_iff (Some x) g)) by (apply H; left).
    simpl. apply IH. intros v Hv. apply H. right. exact Hv.
Qed.

Lemma all_RConstant_iff vars rg g :
  all_RConstant vars rg g = true <->
  forall v, v ∈ vars ->
    map_index g (Some v) = None /\ map_index rg (Some v) = None.
Proof.
  split.
  - induction vars as [|x vars IH]; simpl; intros H v Hv.
    + inversion Hv.
    + destruct (Variable_Constant (Some x) g) eqn:E1; [|discriminate].
      simpl in H. apply Variable_Constant_spec in E1.
      destruct (bool_decide (is_Some (map_index rg (Some x)))) eqn:E2;
        [discriminate|].
      apply not_is_Some_iff in E2.
      apply elem_of_cons in Hv as [->|Hv]; [auto|]. apply IH; assumption.
  - induction vars as [|x vars IH]; intros H; simpl; [reflexivity|].
    destruct (H x ltac:(left)) as [H1 H2].
    rewrite (proj2 (Variable_Constant_iff (Some x) g)) by exact H1.
    rewrite (proj2 (not_is_Some_iff _)) by exact H2.
    simpl. apply IH. intros v Hv. apply H. right. exact Hv.
Qed.

Lemma convLayerResult_Constant_iff (c : convLayerResult) (g : VarMap) :
  convLayerResult_Constant c g = true <->
  Constant (Input c) g = true
  /\ map_index g (Biases (Layer c)) = None
  /\ forall v, v ∈ elems (FilterVars (Layer c)) -> map_index g (Some v) = None.
Proof.
  unfold convLayerResult_Constant.
  rewrite <- all_Constant_iff, <- Variable_Constant_iff.
  destruct (Variable_Constant _ g), (Constant (Input c) g),
    (all_Constant _ g); simpl; intuition congruence.
Qed.

Lemma convLayerRResult_Constant_iff (c : convLayerRResult) (rg g : VarMap) :
  convLayerRResult_Constant c rg g = true <->
  RResult_Constant (R_Input c) rg g = true
  /\ map_index g (Biases (R_Layer c)) = None
  /\ map_index rg (Biases (R_Layer c)) = None
  /\ forall v, v ∈ elems (FilterVars (R_Layer c)) ->
       map_index g (Some v) = None /\ map_index rg (Some v) = None.
Proof.
  unfold convLayerRResult_Constant.
  rewrite <- all_RConstant_iff, <- Variable_Constant_iff, <- not_is_Some_iff.
  destruct (RResult_Constant _ rg g), (Variable_Constant _ g),
    (bool_decide _), (all_RConstant _ rg g); simpl; intuition congruence.
Qed.

(** X6.  convLayerResult.Constant returns true exactly when the input node
    is constant and neither the Biases nor any of the FilterVars of the
    layer is a key of the gradient; convLayerRResult.Constant, exactly when
    the input node is constant and none of them is a key of the gradient
    or of the r-gradient. *)
Theorem Constant_iff (c : convLayerResult) (cR : convLayerRResult)
  (rg g : VarMap) :
  (convLayerResult_Constant c g = true <->
   Constant (Input c) g = true
   /\ map_index g (Biases (Layer c)) = None
   /\ forall v, v ∈ elems (FilterVars (Layer c)) -> map_index g (Some v) = None)
  /\ (convLayerRResult_Constant cR rg g = true <->
      RResult_Constant (R_Input cR) rg g = true
      /\ map_index g (Biases (R_Layer cR)) = None
      /\ map_index rg (Biases (R_Layer cR)) = None
      /\ forall v, v ∈ elems (FilterVars (R_Layer cR)) ->
           map_index g (Some v) = None /\ map_index rg (Some v) = None).
Proof.
  split.
  - apply convLayerResult_Constant_iff.
  - apply convLayerRResult_Constant_iff.
Qed.

(** Without an input gradient to start with, the loops end without one. *)
Lemma propagate_loops_no_input_grad beyond layer outT inT downT biasGrad filterGrads
  cr s s' cr' g :
  propagate_loops beyond layer outT inT downT biasGrad filterGrads (cr, None) s
  = (s', Ok (cr', g)) -> g = None.
Proof.
  unfold propagate_loops, forA_upto. intros H.
  apply (forA_from_result (fun l => snd l = None)) in H; [exact H| |reflexivity].
  clear. intros y l s s' l' Hl H.
  apply (forA_from_result (fun l => snd l = None)) in H; [exact H| |exact Hl].
  clear. intros x [cr g] s s' l' Hl H. simpl in Hl. subst g.
  apply acc_bind_Ok in H as (cr1 & s1 & _ & H).
  apply acc_bind_Ok in H as (g1 & s2 & Hz & H).
  unfold forA_range in Hz.
  apply (forA_range_from_result (fun l => l = None)) in Hz; [|clear|reflexivity].
  - subst g1. apply acc_bind_Ok in H as (g2 & s3 & Hg & H).
    inversion Hg; subst. inversion H; subst. reflexivity.
  - intros z filter g s s' g' -> H.
    apply acc_bind_Ok in H as (sp & s1 & _ & H).
    apply acc_bind_Ok in H as (fg & s2 & _ & H).
    apply acc_bind_Ok in H as (u1 & s3 & _ & H).
    apply acc_bind_Ok in H as (u2 & s4 & _ & H).
    inversion H; subst. reflexivity.
Qed.

Lemma propagateR_loops_no_input_grad beyond layer outT inT inTR downT downTR biasGrad
  filterGrads biasGradR filterGradsR fR s s' g :
  propagateR_loops beyond layer outT inT inTR downT downTR biasGrad filterGrads
    biasGradR filterGradsR fR None s = (s', Ok g) -> g = None.
Proof.
  unfold propagateR_loops, forA_upto, forA_range. intros H.
  apply (forA_from_result (fun l => l = None)) in H; [exact H| |reflexivity].
  clear. intros y l s s' l' Hl H.
  apply (forA_from_result (fun l => l = None)) in H; [exact H| |exact Hl].
  clear. intros x l s s' l' Hl H.
  apply (forA_range_from_result (fun l => l = None)) in H; [exact H| |exact Hl].
  clear. intros z filter g s s' g' -> H.
  do 9 (let a := fresh "a" in let s := fresh "s" in
        apply acc_bind_Ok in H as (a & s & _ & H)).
  inversion H; subst. reflexivity.
Qed.

Lemma VarMap_eq (m m' : VarMap) :
  is_nil m = is_nil m' -> (forall k, at_key k m = at_key k m') -> m = m'.
Proof.
  destruct m as [m|], m' as [m'|]; simpl; try discriminate; [|reflexivity].
  intros _ H. f_equal. apply map_eq. exact H.
Qed.

(** With no handle into the map the loops leave it as it is. *)
Lemma propagate_loops_untouched beyond layer outT inT downT filterGrads locals s :
  Forall (fun h => h = None) filterGrads ->
  fst (propagate_loops beyond layer outT inT downT None filterGrads locals s) = s.
Proof.
  intros Hf. apply VarMap_eq.
  - apply (preserves_at is_nil). apply propagate_loops_is_nil.
  - intros k. apply (preserves_at (at_key k)).
    apply propagate_loops_at_key; [discriminate|].
    intros Hin. rewrite Forall_forall in Hf. specialize (Hf _ Hin). discriminate.
Qed.

Lemma propagateR_loops_untouched beyond layer outT inT inTR downT downTR filterGrads
  filterGradsR fR locals s :
  Forall (fun h => h = None) filterGrads ->
  Forall (fun h => h = None) filterGradsR ->
  fst (propagateR_loops beyond layer outT inT inTR downT downTR None filterGrads None
         filterGradsR fR locals s) = s.
Proof.
  intros Hf HfR.
  assert (Hn : forall k, Some k ∉ filterGrads).
  { intros k Hin. rewrite Forall_forall in Hf. specialize (Hf _ Hin). discriminate. }
  assert (HnR : forall k, Some k ∉ filterGradsR).
  { intros k Hin. rewrite Forall_forall in HfR. specialize (HfR _ Hin). discriminate. }
  pose proof (preserves_at is_nil2 _ s
                (propagateR_loops_is_nil beyond layer outT inT inTR downT downTR None
                   filterGrads None filterGradsR fR locals)) as Hnil.
  assert (Hk : forall k,
             at_key2 k (fst (propagateR_loops beyond layer outT inT inTR downT downTR
                               None filterGrads None filterGradsR fR locals s))
             = at_key2 k s).
  { intros k. apply (preserves_at (at_key2 k)).
    apply propagateR_loops_at_key; auto; discriminate. }
  destruct (fst _) as [rg' g'], s as [rg g].
  unfold is_nil2, at_key2 in *. simpl in *. inversion Hnil.
  f_equal; apply VarMap_eq; auto; intros k; specialize (Hk k); inversion Hk; auto.
Qed.

Lemma gradsFromMap_untracked c m :
  map_index m (Biases c) = None ->
  (forall v, v ∈ elems (FilterVars c) -> map_index m (Some v) = None) ->
  fst (gradsFromMap c m) = None
  /\ Forall (fun h => h = None) (snd (gradsFromMap c m)).
Proof.
  intros Hb Hf. unfold gradsFromMap. destruct m as [m|]; cbn [fst snd].
  - split; [rewrite Hb; reflexivity|].
    apply Forall_fmap, Forall_forall. intros v Hv. cbn [compose].
    rewrite (Hf v Hv). reflexivity.
  - split; [reflexivity|]. apply Forall_fmap, Forall_forall. reflexivity.
Qed.

(** X7.  When convLayerResult.Constant answers true for a gradient,
    PropagateGradient leaves that gradient exactly as it was, whatever the
    upstream vector and whether it returns or panics: nothing is added to
    an accumulator, and the input node is not propagated into. *)
Theorem constant_result_leaves_gradient (beyond : MulAdd_unspecified)
  (c : convLayerResult) (upstream : Vec)
  (grad : VarMap) :
  convLayerResult_Constant c grad = true ->
  fst (convLayerResult_PropagateGradient beyond c upstream grad) = grad.
Proof.
  intros H. apply convLayerResult_Constant_iff in H as (Hi & Hb & Hf).
  destruct (gradsFromMap_untracked (Layer c) grad Hb Hf) as [H1 H2].
  unfold convLayerResult_PropagateGradient.
  rewrite run_pure_bind.
  destruct (outputToTensor (Layer c) upstream) as [down|p]; [|reflexivity].
  rewrite run_get_state_bind.
  destruct (gradsFromMap (Layer c) grad) as [biasGrad filterGrads].
  simpl in H1, H2. subst biasGrad. cbv beta iota. rewrite Hi.
  rewrite run_ret_bind.
  rewrite run_pure_bind.
  destruct (NewTensor3 _ _ _) as [cr|p]; [|reflexivity].
  unfold mbind at 1, acc_bind at 1.
  pose proof (propagate_loops_untouched beyond (Layer c) (OutputTensor c)
                (inputToTensor (Layer c) (Output (Input c))) down filterGrads
                (cr, None) grad H2) as Hs.
  destruct (propagate_loops beyond _ _ _ _ _ _ _ grad) as [s' [[cr' g]|p]] eqn:E;
    simpl in Hs; subst s'; [|reflexivity].
  apply propagate_loops_no_input_grad in E. subst g. reflexivity.
Qed.

Lemma constant_result_leaves_gradient_witness :
  fst (convLayerResult_PropagateGradient MulAdd_refuses sample_result
         [1; 1; 1; 1; 1; 1; 1; 1]%float sample_untracked)
  = sample_untracked.
Proof.
  exact (constant_result_leaves_gradient MulAdd_refuses sample_result
           [1; 1; 1; 1; 1; 1; 1; 1]%float sample_untracked eq_refl).
Defined.

(** X8.  When convLayerRResult.Constant answers true for an r-gradient and
    a gradient, PropagateRGradient leaves both maps exactly as they were,
    whatever the upstream vectors and whether it returns or panics. *)
Theorem constant_rresult_leaves_gradients (beyond : MulAdd_unspecified)
  (c : convLayerRResult)
  (upstream upstreamR : Vec) (rgrad grad : VarMap) :
  convLayerRResult_Constant c rgrad grad = true ->
  fst (convLayerRResult_PropagateRGradient beyond c upstream upstreamR (rgrad, grad))
  = (rgrad, grad).
Proof.
  intros H.
  apply convLayerRResult_Constant_iff in H as (Hi & Hb & HbR & Hf).
  destruct (gradsFromMap_untracked (R_Layer c) grad Hb
              (fun v Hv => proj1 (Hf v Hv))) as [H1 H2].
  destruct (gradsFromMap_untracked (R_Layer c) rgrad HbR
              (fun v Hv => proj2 (Hf v Hv))) as [H3 H4].
  unfold convLayerRResult_PropagateRGradient.
  rewrite run_pure_bind.
  destruct (outputToTensor (R_Layer c) upstream) as [down|p]; [|reflexivity].
  rewrite run_pure_bind.
  destruct (outputToTensor (R_Layer c) upstreamR) as [downR|p]; [|reflexivity].
  rewrite run_get_state_bind.
  destruct (gradsFromMap (R_Layer c) grad) as [biasGrad filterGrads].
  destruct (gradsFromMap (R_Layer c) rgrad) as [biasGradR filterGradsR].
  simpl in H1, H2, H3, H4. subst biasGrad biasGradR. cbv beta iota. rewrite Hi.
  rewrite run_ret_bind.
  unfold mbind at 1, acc_bind at 1.
  pose proof (propagateR_loops_untouched beyond (R_Layer c) (R_OutputTensor c)
                (inputToTensor (R_Layer c) (RResult_Output (R_Input c)))
                (inputToTensor (R_Layer c) (ROutput (R_Input c))) down downR
                filterGrads filterGradsR (filtersR (R_Layer c) (RV c)) None
                (rgrad, grad) H2 H4) as Hs.
  destruct (propagateR_loops beyond _ _ _ _ _ _ _ _ _ _ _ _ (rgrad, grad))
    as [s' [g|p]] eqn:E; simpl in Hs; subst s'; [|reflexivity].
  apply propagateR_loops_no_input_grad in E. subst g. reflexivity.
Qed.

Lemma constant_rresult_leaves_gradients_witness :
  fst (convLayerRResult_PropagateRGradient MulAdd_refuses sample_rresult
         [1; 1; 1; 1; 1; 1; 1; 1]%float [0; 0; 0; 0; 0; 0; 0; 0]%float
         (sample_untracked, sample_untracked))
  = (sample_untracked, sample_untracked).
Proof.
  exact (constant_rresult_leaves_gradients MulAdd_refuses sample_rresult
           [1; 1; 1; 1; 1; 1; 1; 1]%float [0; 0; 0; 0; 0; 0; 0; 0]%float
           sample_untracked sample_untracked eq_refl).
Defined.

(** ** DeserializeConvLayer: a nil filter, no filter, and Parameters *)

Lemma deserialize_loop_nil xs :
  None ∈ xs ->
  forall i fv st, exists st',
    forA_range_from i xs (fun _ => deserialize_body) fv st
    = (st', Panic nil_dereference).
Proof.
  induction xs as [|x xs IH]; intros Hin i fv st.
  - inversion Hin.
  - simpl. unfold mbind, acc_bind. destruct x as [t|].
    + apply elem_of_cons in Hin as [Hin|Hin]; [discriminate|].
      simpl. apply IH. exact Hin.
    + simpl. eauto.
Qed.

(** X9.  When Unmarshal returns a layer with a nil pointer among its
    Filters (a null in the JSON array), DeserializeConvLayer panics with a
    nil dereference, at [x.Data], instead of returning an error. *)
Theorem Deserialize_nil_filter_panics {error : Type}
  (json_Unmarshal : list Byte.byte -> Mem.ConvLayer ->
                    Acc Mem.Store (error + Mem.ConvLayer))
  (data : list Byte.byte) (st st1 : Mem.Store) (c1 : Mem.ConvLayer) :
  json_Unmarshal data Mem.zero_ConvLayer st = (st1, Ok (inr c1)) ->
  None ∈ elems (Mem.Filters c1) ->
  exists st',
    Mem.DeserializeConvLayer json_Unmarshal data st
    = (st', Panic nil_dereference).
Proof.
  intros Hu Hnil. unfold Mem.DeserializeConvLayer.
  rewrite acc_bind_run, Hu, acc_bind_run. unfold forA_range.
  destruct (deserialize_loop_nil _ Hnil 0 (Mem.FilterVars c1) st1) as (st' & H).
  exists st'. unfold deserialize_body in H. rewrite H. reflexivity.
Qed.

Lemma Deserialize_nil_filter_panics_witness :
  exists st',
    Mem.DeserializeConvLayer sample_Unmarshal_null [] sample_store
    = (st', Panic nil_dereference).
Proof.
  apply (Deserialize_nil_filter_panics sample_Unmarshal_null [] sample_store
           sample_store _ eq_refl).
  simpl. apply elem_of_cons. right. apply elem_of_cons. left. reflexivity.
Defined.

(** What a returning [DeserializeConvLayer] went through. *)
Lemma DeserializeConvLayer_inv {error : Type}
  (json_Unmarshal : list Byte.byte -> Mem.ConvLayer ->
                    Acc Mem.Store (error + Mem.ConvLayer))
  (data : list Byte.byte) (st st' : Mem.Store) (c : Mem.ConvLayer) :
  Mem.skips_FilterVars json_Unmarshal ->
  Mem.DeserializeConvLayer json_Unmarshal data st = (st', Ok (inr c)) ->
  exists st1 c1,
    json_Unmarshal data Mem.zero_ConvLayer st = (st1, Ok (inr c1))
    /\ c = Mem.with_FilterVars c1 (Mem.FilterVars c)
    /\ deserialize_inv st1 (elems (Mem.Filters c1)) (Mem.FilterVars c) st'
    /\ (elems (Mem.Filters c1) = [] -> Mem.FilterVars c = None)
    /\ (elems (Mem.Filters c1) <> [] -> Mem.FilterVars c <> None).
Proof.
  intros Hskip. unfold Mem.DeserializeConvLayer, mbind, acc_bind.
  destruct (json_Unmarshal data Mem.zero_ConvLayer st) as [st1 [[e|c1]|p]] eqn:Hu;
    try discriminate.
  pose proof (Hskip _ _ _ _ _ Hu) as Hfv. simpl in Hfv.
  unfold forA_range.
  destruct (forA_range_from 0 (elems (Mem.Filters c1)) _ (Mem.FilterVars c1) st1)
    as [st2 [fv|p]] eqn:Hloop; [|discriminate].
  unfold mret, acc_ret. intros E. inversion E; subst; clear E.
  exists st1, c1. split; [reflexivity|]. split; [reflexivity|]. simpl.
  assert (Hinv : deserialize_inv st1 ([] ++ elems (Mem.Filters c1)) fv st').
  { eapply (forA_range_from_Ok_inv (deserialize_inv st1)); [| |exact Hloop].
    - intros done a i l s l' s' HI Hb. eapply deserialize_step; eauto.
    - rewrite Hfv. unfold deserialize_inv. simpl.
      split; [constructor|]. split; [constructor|]. reflexivity. }
  simpl in Hinv. split; [exact Hinv|]. split.
  - intros Hnil. rewrite Hnil in Hloop. simpl in Hloop.
    inversion Hloop; subst. exact Hfv.
  - intros Hne Hfvn. subst fv. destruct Hinv as (HF & _ & _).
    simpl in HF. apply Forall2_nil_inv_r in HF. contradiction.
Qed.

Lemma Parameters_run (c : Mem.ConvLayer) (st : Mem.Store) :
  Mem.uninitialized c = false ->
  Mem.Parameters c st
  = (Mem.mkStore (Mem.vectors st) (Mem.variables st)
       (<[fresh (dom (Mem.pointers st))
          := Mem.Biases c :: Mem.ptr_elems st (Mem.FilterVars c)]>
          (Mem.pointers st)),
     Ok (fresh (dom (Mem.pointers st)))).
Proof.
  intros Hinit. unfold Mem.Parameters. rewrite Hinit.
  set (fvs := Mem.ptr_elems st (Mem.FilterVars c)).
  set (res := fresh (dom (Mem.pointers st))).
  unfold mbind, acc_bind, get_state, Mem.make_ptrs, Mem.update_ptrs, mret,
    acc_ret. simpl.
  fold res. fold fvs. rewrite !lookup_insert_eq. simpl.
  rewrite !lookup_insert_eq. simpl. rewrite !insert_insert_eq.
  rewrite copy_into_all by (rewrite drop_0; apply length_replicate).
  reflexivity.
Qed.

(** X10.  The layer DeserializeConvLayer returns is initialized, in the
    sense of the check that opens Parameters, Apply and ApplyR, exactly
    when it has at least one filter and its Biases are not nil: with no
    filter the loop appends nothing and FilterVars stays nil. *)
Theorem deserialized_layer_initialized_iff {error : Type}
  (json_Unmarshal : list Byte.byte -> Mem.ConvLayer ->
                    Acc Mem.Store (error + Mem.ConvLayer))
  (data : list Byte.byte) (st st' : Mem.Store) (c : Mem.ConvLayer) :
  Mem.skips_FilterVars json_Unmarshal ->
  Mem.DeserializeConvLayer json_Unmarshal data st = (st', Ok (inr c)) ->
  Mem.uninitialized c = false
  <-> elems (Mem.Filters c) <> [] /\ Mem.Biases c <> None.
Proof.
  intros Hskip Hrun.
  destruct (DeserializeConvLayer_inv _ _ _ _ _ Hskip Hrun)
    as (st1 & c1 & _ & Hc & _ & Hempty & Hne).
  assert (HF : Mem.Filters c = Mem.Filters c1) by (rewrite Hc; reflexivity).
  rewrite <- HF in Hempty, Hne.
  unfold Mem.uninitialized. split.
  - intros H. apply orb_false_elim in H as [H H3].
    apply orb_false_elim in H as [H1 H2].
    split.
    + intros E. rewrite (Hempty E) in H3. discriminate.
    + intros E. rewrite E in H2. discriminate.
  - intros [H1 H2]. specialize (Hne H1).
    destruct (Mem.Filters c); [|contradiction].
    destruct (Mem.Biases c); [|contradiction].
    destruct (Mem.FilterVars c); [|contradiction]. reflexivity.
Qed.

Lemma sample_Unmarshal_skips : Mem.skips_FilterVars sample_Unmarshal.
Proof. intros data c st st' c' E. inversion E. reflexivity. Qed.

Lemma sample_Deserialize :
  Mem.DeserializeConvLayer sample_Unmarshal [] sample_store
  = (sample_store_loaded, Ok (inr sample_mem_layer_loaded)).
Proof. vm_compute. reflexivity. Qed.

Lemma deserialized_layer_initialized_iff_witness :
  Mem.uninitialized sample_mem_layer_loaded = false
  <-> elems (Mem.Filters sample_mem_layer_loaded) <> []
      /\ Mem.Biases sample_mem_layer_loaded <> None.
Proof.
  exact (deserialized_layer_initialized_iff sample_Unmarshal [] sample_store
           sample_store_loaded sample_mem_layer_loaded sample_Unmarshal_skips
           sample_Deserialize).
Defined.

(** X11.  Parameters of an initialized layer that DeserializeConvLayer
    returned gives the Biases followed by one variable per filter, in the
    filters' order, and the vector of the variable at i+1 is the slice that
    is the data of filter i. *)
Theorem Parameters_of_deserialized_layer {error : Type}
  (json_Unmarshal : list Byte.byte -> Mem.ConvLayer ->
                    Acc Mem.Store (error + Mem.ConvLayer))
  (data : list Byte.byte) (st st' : Mem.Store) (c : Mem.ConvLayer) :
  Mem.skips_FilterVars json_Unmarshal ->
  Mem.DeserializeConvLayer json_Unmarshal data st = (st', Ok (inr c)) ->
  Mem.uninitialized c = false ->
  exists res st'',
    Mem.Parameters c st' = (st'', Ok res)
    /\ length (Mem.ptr_elems st'' (Some res))
       = S (length (elems (Mem.Filters c)))
    /\ Mem.ptr_elems st'' (Some res) !! 0%nat = Some (Mem.Biases c)
    /\ forall i x, elems (Mem.Filters c) !! i = Some x ->
         exists t p v,
           x = Some t
           /\ Mem.ptr_elems st'' (Some res) !! S i = Some (Some p)
           /\ Mem.variables st'' !! p = Some v
           /\ Mem.Vector v = Mem.Data t.
Proof.
  intros Hskip Hrun Hinit.
  destruct (DeserializeConvLayer_inv _ _ _ _ _ Hskip Hrun)
    as (st1 & c1 & _ & Hc & (HF & _ & _) & _ & _).
  assert (HFl : Mem.Filters c = Mem.Filters c1) by (rewrite Hc; reflexivity).
  rewrite <- HFl in HF.
  eexists _, _. split; [apply Parameters_run; exact Hinit|].
  simpl. rewrite lookup_insert_eq. simpl.
  split; [f_equal; symmetry; eapply Forall2_length; eauto|].
  split; [reflexivity|].
  intros i x Hx.
  destruct (Forall2_lookup_l _ _ _ _ _ HF Hx)
    as (p & Hp & (t & q & -> & -> & _ & Hv)).
  exists t, q, (Mem.mkVariable (Mem.Data t)). auto.
Qed.

Lemma Parameters_of_deserialized_layer_witness :
  exists res st'',
    Mem.Parameters sample_mem_layer_loaded sample_store_loaded = (st'', Ok res)
    /\ length (Mem.ptr_elems st'' (Some res))
       = S (length (elems (Mem.Filters sample_mem_layer_loaded)))
    /\ Mem.ptr_elems st'' (Some res) !! 0%nat
       = Some (Mem.Biases sample_mem_layer_loaded)
    /\ forall i x, elems (Mem.Filters sample_mem_layer_loaded) !! i = Some x ->
         exists t p v,
           x = Some t
           /\ Mem.ptr_elems st'' (Some res) !! S i = Some (Some p)
           /\ Mem.variables st'' !! p = Some v
           /\ Mem.Vector v = Mem.Data t.
Proof.
  exact (Parameters_of_deserialized_layer sample_Unmarshal [] sample_store
           sample_store_loaded sample_mem_layer_loaded sample_Unmarshal_skips
           sample_Deserialize eq_refl).
Defined.

(** ** vecsEqual as a relation *)

(** The value of [|x - x|]: zero for a finite [x], NaN for an infinity or
    a NaN. *)
Lemma abs_sub_diag x :
  Prim2SF (abs (x - x))
  = if is_finite x then S754_zero false else S754_nan.
Proof.
  rewrite FloatAxioms.abs_spec, FloatAxioms.sub_spec.
  unfold is_finite, is_nan, is_infinity.
  rewrite !FloatAxioms.eqb_spec, FloatAxioms.abs_spec.
  change (Prim2SF infinity) with (S754_infinity false).
  unfold SF64sub, SFsub.
  destruct (Prim2SF x) as [s|s| |s m e]; simpl.
  - destruct s; reflexivity.
  - destruct s; reflexivity.
  - reflexivity.
  - rewrite Z.sub_diag. simpl.
    unfold SFeqb, SFcompare.
    rewrite Z.compare_refl, Pos.compare_cont_refl.
    destruct s; reflexivity.
Qed.

Lemma ltb_abs_sub_diag prec x :
  (prec <? abs (x - x))%float = (prec <? 0)%float && is_finite x.
Proof.
  rewrite !FloatAxioms.ltb_spec, abs_sub_diag.
  change (Prim2SF 0) with (S754_zero false).
  destruct (is_finite x).
  - rewrite andb_true_r. reflexivity.
  - rewrite andb_false_r. unfold SFltb, SFcompare.
    destruct (Prim2SF prec); reflexivity.
Qed.

Lemma vecsEqual_loop_self prec v :
  vecsEqual_loop prec v v = negb ((prec <? 0)%float && existsb is_finite v).
Proof.
  induction v as [|x v IH]; simpl.
  - rewrite andb_false_r. reflexivity.
  - rewrite xorb_nilpotent, ltb_abs_sub_diag. simpl.
    destruct (prec <? 0)%float; simpl in *; [|exact IH].
    destruct (is_finite x); simpl; [reflexivity|exact IH].
Qed.

(** X12.  vecsEqual finds a vector equal to itself, infinities and NaNs
    included, unless the tolerance (Prec, or DefaultPrec when Prec is 0) is
    negative and the vector holds a finite number: then it finds the
    vector different from itself. *)
Theorem vecsEqual_self {State StateGrad RState RStateGrad : Type}
  (DefaultPrec : float) (b : BlockChecker State StateGrad RState RStateGrad)
  (v : Vec) :
  vecsEqual DefaultPrec b v v
  = negb ((effective_prec DefaultPrec b <? 0)%float && existsb is_finite v).
Proof.
  unfold vecsEqual. fold (effective_prec DefaultPrec b).
  rewrite Nat.eqb_refl. simpl. apply vecsEqual_loop_self.
Qed.

Lemma SFabs_binary_round_aux p e sx sy m ex l :
  SFabs (binary_round_aux p e sx m ex l) = SFabs (binary_round_aux p e sy m ex l).
Proof.
  unfold binary_round_aux.
  destruct (shr_fexp p e m ex l) as [mrs' e'].
  destruct (shr_fexp p e _ e' loc_Exact) as [mrs'' e''].
  destruct (shr_m mrs''); try reflexivity.
  destruct (_ <=? _); reflexivity.
Qed.

Lemma SFabs_binary_normalize p e m ex :
  SFabs (binary_normalize p e m ex false)
  = SFabs (binary_normalize p e (- m) ex false).
Proof.
  unfold binary_normalize, binary_round.
  destruct m as [|m|m]; simpl; try reflexivity;
    destruct (shl_align m ex _) as [mz ez]; apply SFabs_binary_round_aux.
Qed.

(** [|x - y|] and [|y - x|] are one value, in binary64 as in the reals. *)
Lemma SFabs_SFsub_comm p e x y :
  SFabs (SFsub p e x y) = SFabs (SFsub p e y x).
Proof.
  destruct x as [sx|sx| |sx mx ex], y as [sy|sy| |sy my ey]; simpl;
    try reflexivity;
    try (destruct sx, sy; reflexivity).
  rewrite (Z.min_comm ey ex).
  rewrite SFabs_binary_normalize. f_equal. f_equal. lia.
Qed.

Lemma ltb_abs_sub_comm prec x y :
  (prec <? abs (x - y))%float = (prec <? abs (y - x))%float.
Proof.
  rewrite !FloatAxioms.ltb_spec, !FloatAxioms.abs_spec, !FloatAxioms.sub_spec.
  unfold SF64sub. rewrite SFabs_SFsub_comm. reflexivity.
Qed.

Lemma vecsEqual_loop_comm prec v1 : forall v2,
  vecsEqual_loop prec v1 v2 = vecsEqual_loop prec v2 v1.
Proof.
  induction v1 as [|x v1 IH]; intros [|y v2]; simpl; try reflexivity.
  rewrite xorb_comm, ltb_abs_sub_comm, IH. reflexivity.
Qed.

(** X13.  vecsEqual is symmetric: it answers the same for (v1, v2) and for
    (v2, v1), whatever the vectors and the tolerance. *)
Theorem vecsEqual_symmetric {State StateGrad RState RStateGrad : Type}
  (DefaultPrec : float) (b : BlockChecker State StateGrad RState RStateGrad)
  (v1 v2 : Vec) :
  vecsEqual DefaultPrec b v1 v2 = vecsEqual DefaultPrec b v2 v1.
Proof.
  unfold vecsEqual. rewrite (Nat.eqb_sym (length v2)).
  destruct (length v1 =? length v2)%nat; simpl; [|reflexivity].
  apply vecsEqual_loop_comm.
Qed.

(** ** Runs that agree *)

Lemma concat_imap_nil {A B} (f : nat -> A -> list B) (l : list A) :
  (forall i a, l !! i = Some a -> f i a = []) -> concat (imap f l) = [].
Proof.
  revert f. induction l as [|a l IH]; intros f H; simpl; [reflexivity|].
  rewrite (H O a eq_refl). simpl. apply IH.
  intros i a' Hi. apply (H (S i)). exact Hi.
Qed.

(** X14.  When the single steps run, the all-nil run and the all-zero run
    leave the same gradient (and, in the dual test, the same r-gradient),
    with as many entries as NewGradient made, and the tolerance is not
    negative, the two nil-upstream subtests report no failure. *)
Theorem agreeing_runs_pass {State StateGrad RState RStateGrad : Type}
  (DefaultPrec : float) (b : BlockChecker State StateGrad RState RStateGrad)
  (in00 : autofunc_Variable) (out : BlockOutput State StateGrad)
  (outR : BlockROutput RState RStateGrad) (g rg gR : VarMap) :
  first_input b = Ok in00 ->
  ApplyBlock (B b) [StartState (B b)] [Variable_Result in00] = Ok out ->
  ApplyBlockR (B b) (BlockChecker_RV b) [StartRState (B b) (BlockChecker_RV b)]
    [NewRVariable in00 (BlockChecker_RV b)] = Ok outR ->
  nil_run out (Vars b) = Ok g ->
  zero_run out (Vars b) = Ok g ->
  nil_runR outR (Vars b) = Ok (rg, gR) ->
  zero_runR outR (Vars b) = Ok (rg, gR) ->
  map_len g = map_len (NewGradient (Vars b)) ->
  map_len gR = map_len (NewGradient (Vars b)) ->
  map_len rg = map_len (NewGradient (Vars b)) ->
  (effective_prec DefaultPrec b <? 0)%float = false ->
  testNilUpstream DefaultPrec b = Ok []
  /\ testNilUpstreamR DefaultPrec b = Ok []
  /\ nil_upstream_subtests DefaultPrec b = Ok [].
Proof.
  unfold nil_run, zero_run, nil_runR, zero_runR.
  intros Hin Hout HoutR H1 H2 H3 H4 Hg HgR Hrg Hprec.
  assert (Heq : forall v, vecsEqual DefaultPrec b v v = true).
  { intros v. unfold vecsEqual. fold (effective_prec DefaultPrec b).
    rewrite Nat.eqb_refl. simpl. rewrite vecsEqual_loop_self, Hprec.
    reflexivity. }
  assert (T1 : testNilUpstream DefaultPrec b = Ok []).
  { unfold testNilUpstream.
    rewrite (bind_Ok_l _ _ _ Hin); cbv beta zeta.
    rewrite (bind_Ok_l _ _ _ Hout); cbv beta zeta.
    rewrite (bind_Ok_l _ _ _ H1); cbv beta zeta.
    rewrite (bind_Ok_l _ _ _ H2); cbv beta zeta.
    rewrite Hg, Z.eqb_refl. simpl. f_equal.
    apply concat_imap_nil. intros i a _. rewrite Heq. reflexivity. }
  assert (T2 : testNilUpstreamR DefaultPrec b = Ok []).
  { unfold testNilUpstreamR.
    rewrite (bind_Ok_l _ _ _ Hin); cbv beta zeta.
    rewrite (bind_Ok_l _ _ _ HoutR); cbv beta zeta.
    rewrite (bind_Ok_l _ _ _ H3); cbv beta iota zeta.
    rewrite (bind_Ok_l _ _ _ H4); cbv beta iota zeta.
    rewrite HgR, Hrg, Z.eqb_refl. simpl. f_equal.
    apply concat_imap_nil. intros i a _. rewrite !Heq. reflexivity. }
  split; [exact T1|]. split; [exact T2|].
  unfold nil_upstream_subtests. rewrite T1, T2. reflexivity.
Qed.

Lemma agreeing_runs_pass_witness :
  testNilUpstream sample_DefaultPrec sample_checker = Ok []
  /\ testNilUpstreamR sample_DefaultPrec sample_checker = Ok []
  /\ nil_upstream_subtests sample_DefaultPrec sample_checker = Ok [].
Proof.
  apply (agreeing_runs_pass sample_DefaultPrec sample_checker sample_input
           (mkBlockOutput [[1%float]] [tt] (fun _ _ => mret tt))
           (mkBlockROutput [[1%float]] [[0%float]] [tt] (fun _ _ _ => mret tt))
           (NewGradient [sample_input]) (NewRGradient [sample_input])
           (NewGradient [sample_input]));
    reflexivity.
Defined.

(** ** Randomize *)

Lemma Randomize_keeps_Filters {Rand : Type} (rand_Float64 : Acc Rand float)
  (Tensor3_Randomize : option Mem.Tensor3 -> Acc (Mem.Store * Rand) unit)
  (c c' : Mem.ConvLayer) s s' :
  is_Some (Mem.Filters c) ->
  Mem.Randomize rand_Float64 Tensor3_Randomize c s = (s', Ok c') ->
  Mem.Filters c' = Mem.Filters c /\ Mem.FilterVars c' = Mem.FilterVars c.
Proof.
  intros HF. unfold Mem.Randomize.
  rewrite bool_decide_eq_true_2 by exact HF.
  intros H. apply acc_bind_Ok in H as (c1 & s1 & H1 & H).
  inversion H1; subst c1 s1; clear H1.
  apply acc_bind_Ok in H as (c2 & s2 & H2 & H).
  apply acc_bind_Ok in H as (u & s3 & _ & H).
  inversion H; subst; clear H.
  destruct (bool_decide (is_Some (Mem.Biases c))).
  - inversion H2; subst. auto.
  - apply acc_bind_Ok in H2 as (bv & s4 & _ & H2).
    apply acc_bind_Ok in H2 as (b & s5 & _ & H2).
    inversion H2; subst. auto.
Qed.

(** X15.  On a layer whose Filters are not nil, a Randomize that returns
    leaves the Filters and the FilterVars fields as they were, whatever
    Tensor3.Randomize and the random source do: it allocates filter
    variables only together with the filters, so a layer whose Filters were
    set without FilterVars stays uninitialized. *)
Theorem Randomize_keeps_existing_filters {Rand : Type}
  (rand_Float64 : Acc Rand float)
  (Tensor3_Randomize : option Mem.Tensor3 -> Acc (Mem.Store * Rand) unit)
  (c c' : Mem.ConvLayer) (s s' : Mem.Store * Rand) :
  Mem.Filters c <> None ->
  Mem.Randomize rand_Float64 Tensor3_Randomize c s = (s', Ok c') ->
  Mem.Filters c' = Mem.Filters c
  /\ Mem.FilterVars c' = Mem.FilterVars c
  /\ (Mem.FilterVars c = None -> Mem.uninitialized c' = true).
Proof.
  intros HF Hrun.
  destruct (Randomize_keeps_Filters rand_Float64 Tensor3_Randomize c c' s s')
    as [H1 H2]; [|exact Hrun|].
  { destruct (Mem.Filters c); [eauto|contradiction]. }
  split; [exact H1|]. split; [exact H2|].
  intros Hnil. unfold Mem.uninitialized. rewrite H2, Hnil. simpl.
  apply orb_true_r.
Qed.

Lemma Randomize_keeps_existing_filters_witness :
  Mem.Filters decoded_layer_randomized = Mem.Filters decoded_layer
  /\ Mem.FilterVars decoded_layer_randomized = Mem.FilterVars decoded_layer
  /\ (Mem.FilterVars decoded_layer = None ->
      Mem.uninitialized decoded_layer_randomized = true).
Proof.
  apply (Randomize_keeps_existing_filters sample_Float64
           sample_Tensor3_Randomize decoded_layer decoded_layer_randomized
           (empty_store, tt) (decoded_store_randomized, tt)).
  - discriminate.
  - vm_compute. reflexivity.
Defined.

(** X16.  On a layer with nil Filters and a FilterCount of 0, Randomize
    returns with the Filters still nil and the FilterVars as they were:
    its loop over FilterCount never appends.  It has allocated the Biases,
    but the layer stays uninitialized, and Parameters panics on it. *)
Theorem Randomize_without_filters {Rand : Type}
  (rand_Float64 : Acc Rand float)
  (Tensor3_Randomize : option Mem.Tensor3 -> Acc (Mem.Store * Rand) unit)
  (c : Mem.ConvLayer) (s : Mem.Store * Rand) :
  Mem.Filters c = None -> Mem.FilterCount c = 0 ->
  exists s' c',
    Mem.Randomize rand_Float64 Tensor3_Randomize c s = (s', Ok c')
    /\ Mem.Filters c' = None /\ Mem.FilterVars c' = Mem.FilterVars c
    /\ Mem.Biases c' <> None
    /\ Mem.Parameters c' (fst s') = (fst s', Panic uninitPanicMessage).
Proof.
  intros HF Hn. unfold Mem.Randomize. rewrite HF.
  rewrite bool_decide_eq_false_2 by (intros [? ?]; discriminate).
  unfold forA_upto. rewrite Hn. simpl forA_from.
  rewrite run_ret_bind.
  destruct (Mem.Biases c) as [b|] eqn:Hb.
  - rewrite bool_decide_eq_true_2 by eauto.
    rewrite run_ret_bind. rewrite HF. simpl.
    exists s, c. repeat split; auto.
    + rewrite Hb. discriminate.
    + unfold Mem.Parameters, Mem.uninitialized. rewrite HF. reflexivity.
  - rewrite bool_decide_eq_false_2 by (intros [? ?]; discriminate).
    rewrite Hn. destruct s as [st g].
    unfold mbind, acc_bind, Mem.on_store, Mem.make_Vector, Mem.new_Variable.
    simpl. rewrite HF. simpl. eexists _, _. split; [reflexivity|].
    simpl. split; [exact HF|]. split; [reflexivity|].
    split; [discriminate|].
    unfold Mem.Parameters, Mem.uninitialized. simpl. rewrite HF. reflexivity.
Qed.

Lemma Randomize_without_filters_witness :
  exists s' c',
    Mem.Randomize sample_Float64 sample_Tensor3_Randomize filterless_layer
      (empty_store, tt) = (s', Ok c')
    /\ Mem.Filters c' = None
    /\ Mem.FilterVars c' = Mem.FilterVars filterless_layer
    /\ Mem.Biases c' <> None
    /\ Mem.Parameters c' (fst s') = (fst s', Panic uninitPanicMessage).
Proof.
  exact (Randomize_without_filters sample_Float64 sample_Tensor3_Randomize
           filterless_layer (empty_store, tt) eq_refl eq_refl).
Defined.

Lemma allocated_frame c st st' x p :
  Mem.variables st' = Mem.variables st ->
  (forall l, length <$> (Mem.vectors st' !! l) = length <$> (Mem.vectors st !! l)) ->
  allocated c st x p -> allocated c st' x p.
Proof.
  intros Hv Hl (t & q & l & -> & -> & H1 & H2 & H3 & H4 & H5 & H6).
  exists t, q, l. rewrite Hv, Hl. auto 10.
Qed.

Lemma allocated_grow c st st' x p :
  (forall l v, Mem.vectors st !! l = Some v -> Mem.vectors st' !! l = Some v) ->
  (forall q v, Mem.variables st !! q = Some v -> Mem.variables st' !! q = Some v) ->
  allocated c st x p -> allocated c st' x p.
Proof.
  intros Hvec Hvar (t & q & l & -> & -> & H1 & H2 & H3 & H4 & H5 & H6).
  exists t, q, l. repeat (split; [assumption || reflexivity|]).
  split; [|apply Hvar; exact H6].
  destruct (Mem.vectors st !! l) as [v|] eqn:E; [|discriminate].
  rewrite (Hvec _ _ E). exact H5.
Qed.

Lemma insert_fresh_grows `{Countable K} {V} (m : gmap K V) k v k0 v0 :
  k ∉ dom m -> m !! k0 = Some v0 -> <[k := v]> m !! k0 = Some v0.
Proof.
  intros Hk H0. rewrite lookup_insert_ne; [exact H0|].
  intros ->. apply Hk. apply elem_of_dom. eauto.
Qed.

(** One round of the loop that allocates the filters. *)
Lemma Randomize_allocates_one {Rand : Type} (c ck : Mem.ConvLayer)
  (st : Mem.Store) (g : Rand) :
  same_config c ck ->
  0 <= Mem.FilterWidth c * Mem.FilterHeight c * Mem.InputDepth c ->
  Forall2 (allocated c st) (elems (Mem.Filters ck))
    (Mem.ptr_elems st (Mem.FilterVars ck)) ->
  NoDup (elems (Mem.Filters ck)) ->
  exists ck' st' t p,
    (filter ← Mem.on_store (Mem.NewTensor3 (Mem.FilterWidth ck)
                              (Mem.FilterHeight ck) (Mem.InputDepth ck));
     filterVar ← Mem.on_store
                   (Mem.new_Variable (Mem.mkVariable (Mem.Data filter)));
     let c := Mem.with_Filters ck
                (Some (elems (Mem.Filters ck) ++ [Some filter])) in
     filterVars ← Mem.on_store (Mem.append_ptr (Mem.FilterVars c) filterVar);
     mret (Mem.with_FilterVars c filterVars)) (st, g)
    = ((st', g), Ok ck')
    /\ same_config c ck'
    /\ Mem.Biases ck' = Mem.Biases ck
    /\ Mem.Filters ck' = Some (elems (Mem.Filters ck) ++ [Some t])
    /\ Mem.FilterVars ck' = Some p
    /\ Forall2 (allocated c st') (elems (Mem.Filters ck'))
         (Mem.ptr_elems st' (Mem.FilterVars ck'))
    /\ NoDup (elems (Mem.Filters ck')).
Proof.
  intros (C1 & C2 & C3 & C4 & C5 & C6 & C7) Hsize HF HN.
  rewrite C2, C3, C7.
  set (N := Mem.FilterWidth c * Mem.FilterHeight c * Mem.InputDepth c) in *.
  set (l := fresh (dom (Mem.vectors st))).
  set (q := fresh (dom (Mem.variables st))).
  set (lp := fresh (dom (Mem.pointers st))).
  set (t := Mem.mkTensor3 (Mem.FilterWidth c) (Mem.FilterHeight c)
              (Mem.InputDepth c) (Some l)).
  set (st' := Mem.mkStore (<[l := zeros (Z.to_nat N)]> (Mem.vectors st))
                (<[q := Mem.mkVariable (Some l)]> (Mem.variables st))
                (<[lp := Mem.ptr_elems st (Mem.FilterVars ck) ++ [Some q]]>
                   (Mem.pointers st))).
  exists (Mem.with_FilterVars
            (Mem.with_Filters ck (Some (elems (Mem.Filters ck) ++ [Some t])))
            (Some lp)), st', t, lp.
  assert (Hl : l ∉ dom (Mem.vectors st)) by apply is_fresh.
  assert (Hq : q ∉ dom (Mem.variables st)) by apply is_fresh.
  split.
  { unfold Mem.NewTensor3, Mem.on_store, Mem.make_Vector, Mem.new_Variable,
      Mem.append_ptr, mbind, acc_bind, mret, acc_ret. cbn [fst snd]. fold N.
    destruct (Z.ltb_spec N 0); [lia|]. reflexivity. }
  split; [unfold same_config; simpl; auto 10|].
  split; [reflexivity|]. split; [reflexivity|]. split; [reflexivity|].
  simpl. rewrite lookup_insert_eq. simpl. split.
  - apply Forall2_app.
    + eapply Forall2_impl; [exact HF|]. intros x p. apply allocated_grow; simpl.
      * intros l0 v0. apply insert_fresh_grows. exact Hl.
      * intros q0 v0. apply insert_fresh_grows. exact Hq.
    + constructor; [|constructor].
      exists t, q, l. simpl. rewrite !lookup_insert_eq. simpl.
      unfold zeros. rewrite length_replicate. auto 10.
  - apply NoDup_app. split; [exact HN|]. split; [|apply NoDup_singleton].
    intros x Hx Hx'. apply list_elem_of_singleton in Hx'. subst x.
    apply list_elem_of_lookup_1 in Hx as (i & Hi).
    destruct (Forall2_lookup_l _ _ _ _ _ HF Hi)
      as (p & _ & (t0 & q0 & l0 & E & _ & _ & _ & _ & Hd & Hlen & _)).
    inversion E; subst t0. simpl in Hd. inversion Hd; subst l0.
    apply Hl. apply elem_of_dom.
    destruct (Mem.vectors st !! l); [eauto|discriminate].
Qed.

(** X17.  On a layer with nothing allocated, a positive FilterCount and a
    filter size that is not negative, Randomize returns (Tensor3.Randomize
    and rand.Float64 returning, and Tensor3.Randomize writing into backing
    arrays only), and the layer is then initialized: it has FilterCount
    filters of FilterWidth x FilterHeight x InputDepth, each over a backing
    array of its own of that many values, one variable per filter, in the
    filters' order, whose vector is the filter's data, and Biases over a
    further backing array of FilterCount values; its configuration is as it
    was. *)
Theorem Randomize_allocates_layer {Rand : Type} (rand_Float64 : Acc Rand float)
  (Tensor3_Randomize : option Mem.Tensor3 -> Acc (Mem.Store * Rand) unit)
  (c : Mem.ConvLayer) (s : Mem.Store * Rand) :
  Mem.Randomize_fills Tensor3_Randomize ->
  Mem.Float64_returns rand_Float64 ->
  Mem.Filters c = None -> Mem.FilterVars c = None -> Mem.Biases c = None ->
  0 < Mem.FilterCount c ->
  0 <= Mem.FilterWidth c * Mem.FilterHeight c * Mem.InputDepth c ->
  exists s' c' b lb,
    Mem.Randomize rand_Float64 Tensor3_Randomize c s = (s', Ok c')
    /\ same_config c c'
    /\ Mem.uninitialized c' = false
    /\ Z.of_nat (length (elems (Mem.Filters c'))) = Mem.FilterCount c
    /\ Forall2 (allocated c (fst s')) (elems (Mem.Filters c'))
         (Mem.ptr_elems (fst s') (Mem.FilterVars c'))
    /\ NoDup (elems (Mem.Filters c'))
    /\ Mem.Biases c' = Some b
    /\ Mem.variables (fst s') !! b = Some (Mem.mkVariable (Some lb))
    /\ length <$> (Mem.vectors (fst s') !! lb)
       = Some (Z.to_nat (Mem.FilterCount c))
    /\ (forall t, Some t ∈ elems (Mem.Filters c') -> Mem.Data t <> Some lb).
Proof.
  intros HT HR HF HFV HB Hn Hsize. destruct s as [st g].
  unfold Mem.Randomize. rewrite HF.
  rewrite bool_decide_eq_false_2 by (intros [? ?]; discriminate).
  (* the filters *)
  destruct (forA_from_inv
    (fun k ck (s : Mem.Store * Rand) =>
       same_config c ck /\ Mem.Biases ck = None /\ snd s = g
       /\ length (elems (Mem.Filters ck)) = k
       /\ (k = O -> Mem.Filters ck = None /\ Mem.FilterVars ck = None)
       /\ (k <> O -> is_Some (Mem.Filters ck) /\ is_Some (Mem.FilterVars ck))
       /\ Forall2 (allocated c (fst s)) (elems (Mem.Filters ck))
            (Mem.ptr_elems (fst s) (Mem.FilterVars ck))
       /\ NoDup (elems (Mem.Filters ck)))
    (fun (_ : Z) (c : Mem.ConvLayer) =>
       filter ← Mem.on_store (Mem.NewTensor3 (Mem.FilterWidth c)
                                (Mem.FilterHeight c) (Mem.InputDepth c));
       filterVar ← Mem.on_store
                     (Mem.new_Variable (Mem.mkVariable (Mem.Data filter)));
       let c := Mem.with_Filters c
                  (Some (elems (Mem.Filters c) ++ [Some filter])) in
       filterVars ← Mem.on_store (Mem.append_ptr (Mem.FilterVars c) filterVar);
       mret (Mem.with_FilterVars c filterVars))
    (Z.to_nat (Mem.FilterCount c)) 0 c (st, g))
    as (cn & [st1 g1] & Hrun1 & (Hcfg & HBn & Hg & Hlen & _ & Hsome & HA & HND)).
  { rewrite HF, HFV. simpl.
    repeat split; auto; try congruence; constructor. }
  { intros k ck [stk gk] Hk (Hcfg & HBk & Hgk & Hlen & _ & _ & HA & HND).
    simpl in Hgk. subst gk. simpl in HA.
    destruct (Randomize_allocates_one c ck stk g Hcfg Hsize HA HND)
      as (ck' & st' & t & p & Hstep & Hcfg' & HB' & HF' & HFV' & HA' & HND').
    exists ck', (st', g). split; [exact Hstep|].
    split; [exact Hcfg'|]. split; [congruence|]. split; [reflexivity|].
    split; [rewrite HF'; simpl; rewrite length_app, Hlen; simpl; lia|].
    split; [discriminate|]. split; [rewrite HF', HFV'; eauto|].
    split; assumption. }
  destruct (Hsome ltac:(lia)) as [[fs HFs] [lp HFVn]].
  simpl in Hg. subst g1. simpl in HA.
  unfold forA_upto. rewrite (acc_bind_returns _ _ _ _ _ Hrun1).
  (* the biases *)
  rewrite HBn.
  rewrite bool_decide_eq_false_2 by (intros [? ?]; discriminate).
  destruct Hcfg as (C1 & C2 & C3 & C4 & C5 & C6 & C7).
  set (lb := fresh (dom (Mem.vectors st1))).
  set (b := fresh (dom (Mem.variables st1))).
  set (st2 := Mem.mkStore (<[lb := zeros (Z.to_nat (Mem.FilterCount c))]>
                             (Mem.vectors st1))
                (<[b := Mem.mkVariable (Some lb)]> (Mem.variables st1))
                (Mem.pointers st1)).
  assert (Hlb : lb ∉ dom (Mem.vectors st1)) by apply is_fresh.
  assert (Hb : b ∉ dom (Mem.variables st1)) by apply is_fresh.
  assert (Hrun2 :
    (biasVec ← Mem.on_store (Mem.make_Vector (Mem.FilterCount cn));
     biases ← Mem.on_store (Mem.new_Variable (Mem.mkVariable biasVec));
     mret (Mem.with_Biases cn (Some biases))) (st1, g)
    = ((st2, g), Ok (Mem.with_Biases cn (Some b)))).
  { unfold Mem.on_store, Mem.make_Vector, Mem.new_Variable, mbind, acc_bind,
      mret, acc_ret. cbn [fst snd]. rewrite C1.
    destruct (Z.ltb_spec (Mem.FilterCount c) 0); [lia|]. reflexivity. }
  rewrite (acc_bind_returns _ _ _ _ _ Hrun2).
  set (c' := Mem.with_Biases cn (Some b)).
  assert (HA2 : Forall2 (allocated c st2) (elems (Mem.Filters cn))
                  (Mem.ptr_elems st2 (Mem.FilterVars cn))).
  { eapply Forall2_impl; [exact HA|]. intros x p. apply allocated_grow; simpl.
    - intros l0 v0. apply insert_fresh_grows. exact Hlb.
    - intros q0 v0. apply insert_fresh_grows. exact Hb. }
  (* the random values *)
  destruct (forA_range_from_inv
    (fun (k : nat) (_ : unit) (s : Mem.Store * Rand) =>
       Mem.variables (fst s) = Mem.variables st2
       /\ Mem.pointers (fst s) = Mem.pointers st2
       /\ forall l, length <$> (Mem.vectors (fst s) !! l)
                    = length <$> (Mem.vectors st2 !! l))
    (fun (i : Z) (filter : option Mem.Tensor3) (_ : unit) =>
       _ ← Tensor3_Randomize filter;
       x ← Mem.on_rand rand_Float64;
       vector ← Mem.on_store (Mem.Variable_Vector (Mem.Biases c'));
       Mem.on_store (Mem.write_vec vector i (x * 2 - 1)%float))
    (elems (Mem.Filters c')) 0 tt (st2, g))
    as ([] & s3 & Hrun3 & (Hvar & Hptr & Hvec)).
  { simpl. auto. }
  { intros k a [] sk Hk (Hvar & Hptr & Hvec).
    assert (Hkn : (k < length (elems (Mem.Filters cn)))%nat)
      by (eapply lookup_lt_Some; exact Hk).
    destruct (Forall2_lookup_l _ _ _ _ _ HA2 Hk)
      as (p & _ & (t & q & l & -> & _)).
    destruct (HT t sk) as (s1 & Hs1 & Hv1 & Hp1 & Hl1).
    destruct (HR (snd s1)) as (g' & x & Hx).
    set (arr := <[k := (x * 2 - 1)%float]>
                  (default [] (Mem.vectors (fst s1) !! lb))).
    exists tt, (Mem.mkStore (<[lb := arr]> (Mem.vectors (fst s1)))
                  (Mem.variables (fst s1)) (Mem.pointers (fst s1)), g').
    assert (Hlenb : length (default [] (Mem.vectors (fst s1) !! lb))
                    = Z.to_nat (Mem.FilterCount c)).
    { specialize (Hl1 lb). rewrite Hvec in Hl1. simpl in Hl1.
      rewrite lookup_insert_eq in Hl1. simpl in Hl1.
      unfold zeros in Hl1. rewrite length_replicate in Hl1.
      destruct (Mem.vectors (fst s1) !! lb); simpl in *; congruence. }
    split.
    - rewrite Z.add_0_l, (acc_bind_returns _ _ _ _ _ Hs1).
      unfold Mem.on_rand, Mem.on_store, Mem.Variable_Vector, Mem.write_vec,
        mbind, acc_bind. cbn [fst snd]. rewrite Hx. cbn [fst snd].
      assert (Hbv : Mem.variables (fst s1) !! b
                    = Some (Mem.mkVariable (Some lb))).
      { rewrite Hv1, Hvar. simpl. apply lookup_insert_eq. }
      simpl. rewrite Hbv. simpl.
      rewrite assign_Ok by lia. rewrite Nat2Z.id. reflexivity.
    - cbn [fst snd Mem.variables Mem.pointers Mem.vectors].
      split; [rewrite Hv1; exact Hvar|]. split; [rewrite Hp1; exact Hptr|].
      intros l0. destruct (decide (l0 = lb)) as [->|Hne].
      + rewrite lookup_insert_eq. simpl. unfold arr.
        rewrite length_insert, Hlenb, <- Hvec, <- Hl1.
        destruct (Mem.vectors (fst s1) !! lb) eqn:E; simpl in *.
        * rewrite Hlenb. reflexivity.
        * specialize (Hl1 lb). rewrite E, Hvec in Hl1. simpl in Hl1.
          rewrite lookup_insert_eq in Hl1. discriminate.
      + rewrite lookup_insert_ne by congruence. rewrite Hl1. apply Hvec. }
  unfold forA_range. rewrite (acc_bind_returns _ _ _ _ _ Hrun3).
  exists s3, c', b, lb. split; [reflexivity|].
  split; [unfold same_config; simpl; auto 10|].
  split; [unfold Mem.uninitialized; simpl; rewrite HFs, HFVn; reflexivity|].
  split; [simpl; rewrite Hlen; lia|].
  split.
  { simpl. unfold Mem.ptr_elems. rewrite Hptr.
    eapply Forall2_impl; [exact HA2|]. intros x p.
    apply allocated_frame; assumption. }
  split; [exact HND|]. split; [reflexivity|].
  split; [rewrite Hvar; simpl; apply lookup_insert_eq|].
  split.
  { rewrite Hvec. simpl. rewrite lookup_insert_eq. simpl.
    unfold zeros. rewrite length_replicate. reflexivity. }
  intros t Ht Hd. simpl in Ht.
  apply list_elem_of_lookup_1 in Ht as (i & Hi).
  destruct (Forall2_lookup_l _ _ _ _ _ HA Hi)
    as (p & _ & (t0 & q0 & l0 & E & _ & _ & _ & _ & Hd0 & Hlen0 & _)).
  inversion E; subst t0. rewrite Hd in Hd0. inversion Hd0; subst l0.
  apply Hlb. apply elem_of_dom.
  destruct (Mem.vectors st1 !! lb); [eauto|discriminate].
Qed.

Lemma sample_Tensor3_Randomize_fills :
  Mem.Randomize_fills sample_Tensor3_Randomize.
Proof.
  intros t s. eexists. split; [reflexivity|]. simpl.
  split; [reflexivity|]. split; [reflexivity|].
  intros l. destruct (Mem.Data t) as [l0|]; [|reflexivity].
  destruct (decide (l = l0)) as [->|Hne].
  - rewrite lookup_alter_eq. destruct (Mem.vectors (fst s) !! l0); simpl;
      [|reflexivity]. rewrite length_fmap. reflexivity.
  - rewrite lookup_alter_ne by congruence. reflexivity.
Qed.

Lemma sample_Float64_returns : Mem.Float64_returns sample_Float64.
Proof. intros g. eexists _, _. reflexivity. Qed.

Lemma Randomize_allocates_layer_witness :
  exists s' c' b lb,
    Mem.Randomize sample_Float64 sample_Tensor3_Randomize blank_layer
      (empty_store, tt) = (s', Ok c')
    /\ same_config blank_layer c'
    /\ Mem.uninitialized c' = false
    /\ Z.of_nat (length (elems (Mem.Filters c'))) = 2
    /\ Forall2 (allocated blank_layer (fst s')) (elems (Mem.Filters c'))
         (Mem.ptr_elems (fst s') (Mem.FilterVars c'))
    /\ NoDup (elems (Mem.Filters c'))
    /\ Mem.Biases c' = Some b
    /\ Mem.variables (fst s') !! b = Some (Mem.mkVariable (Some lb))
    /\ length <$> (Mem.vectors (fst s') !! lb) = Some (Z.to_nat 2)
    /\ (forall t, Some t ∈ elems (Mem.Filters c') -> Mem.Data t <> Some lb).
Proof.
  apply (Randomize_allocates_layer sample_Float64 sample_Tensor3_Randomize
           blank_layer (empty_store, tt) sample_Tensor3_Randomize_fills
           sample_Float64_returns eq_refl eq_refl eq_refl).
  - simpl. lia.
  - simpl. lia.
Defined.

(** ** The backward pass on a valid layer *)

Lemma shape_at_key k s s0 v :
  shape s = shape s0 -> at_key k s = Some v ->
  exists v0, at_key k s0 = Some v0 /\ length v0 = length v.
Proof.
  unfold shape, at_key. destruct s as [m|], s0 as [m0|]; simpl; try discriminate.
  intros E H. inversion E as [E'].
  assert (Hk : (length <$> m) !! k = (length <$> m0) !! k) by (rewrite E'; reflexivity).
  rewrite !lookup_fmap, H in Hk. simpl in Hk.
  destruct (m0 !! k) as [v0|]; [|discriminate]. inversion Hk. eauto.
Qed.

Lemma shape_at_key_None k s s0 :
  shape s = shape s0 -> at_key k s0 = None -> at_key k s = None.
Proof.
  intros E H. destruct (at_key k s) as [v|] eqn:Ev; [|reflexivity].
  destruct (shape_at_key _ _ _ _ E Ev) as (v0 & Hv0 & _). congruence.
Qed.

Lemma update_entry_runs k f f' s :
  (forall v, at_key k s = Some v -> f v = Ok (f' v) /\ length (f' v) = length v) ->
  exists s', update_entry k f s = (s', Ok tt) /\ shape s' = shape s
    /\ at_key k s' = f' <$> at_key k s
    /\ forall k', k' <> k -> at_key k' s' = at_key k' s.
Proof.
  intros Hf. unfold update_entry. destruct s as [m|]; [|exists None; auto].
  simpl in Hf. destruct (m !! k) as [v|] eqn:E.
  - destruct (Hf v eq_refl) as (Hv & Hl). rewrite Hv.
    eexists. split; [reflexivity|]. split; [|split].
    + simpl. f_equal. rewrite fmap_insert. apply insert_id.
      rewrite lookup_fmap, E. simpl. f_equal. symmetry. exact Hl.
    + simpl. rewrite lookup_insert_eq, E. reflexivity.
    + intros k' Hk'. simpl. apply lookup_insert_ne. congruence.
  - exists (Some m). split; [reflexivity|]. split; [reflexivity|].
    split; [simpl; rewrite E; reflexivity|]. auto.
Qed.

Lemma update_opt_runs h k f f' s :
  h = Some k \/ (h = None /\ at_key k s = None) ->
  (forall v, at_key k s = Some v -> f v = Ok (f' v) /\ length (f' v) = length v) ->
  exists s', update_opt h f s = (s', Ok tt) /\ shape s' = shape s
    /\ at_key k s' = f' <$> at_key k s
    /\ forall k', k' <> k -> at_key k' s' = at_key k' s.
Proof.
  intros [-> | [-> Hn]] Hf; simpl.
  - apply update_entry_runs. exact Hf.
  - exists s. split; [reflexivity|]. split; [reflexivity|].
    split; [rewrite Hn; reflexivity|]. auto.
Qed.

Lemma axpy_elems_length alpha x y :
  length x = length y -> length (axpy_elems alpha x y) = length y.
Proof.
  intros H. unfold axpy_elems. rewrite length_zip_with. lia.
Qed.

Lemma axpy_into_runs sp patch v :
  length (Data patch) = length v ->
  axpy_into sp patch v = Ok (axpy_elems sp (Data patch) v)
  /\ length (axpy_elems sp (Data patch) v) = length v.
Proof.
  intros H. unfold axpy_into. rewrite Axpy_Ok by exact H.
  split; [reflexivity|]. apply axpy_elems_length. exact H.
Qed.

Lemma add_at_runs (z : nat) sp v :
  (z < length v)%nat ->
  add_at (Z.of_nat z) sp v
  = Ok (<[z := (default 0%float (v !! z) + sp)%float]> v)
  /\ length (<[z := (default 0%float (v !! z) + sp)%float]> v) = length v.
Proof.
  intros Hz. unfold add_at.
  destruct (lookup_lt_is_Some_2 v z Hz) as (old & Ho).
  rewrite (index_lookup v z old Ho). simpl.
  rewrite assign_Ok by lia. rewrite Nat2Z.id, Ho. simpl.
  split; [reflexivity|]. apply length_insert.
Qed.

Lemma gradsFromMap_handles c filterVars biases m :
  FilterVars c = Some filterVars -> Biases c = Some biases ->
  (fst (gradsFromMap c m) = Some (addr biases)
   \/ (fst (gradsFromMap c m) = None /\ at_key (addr biases) m = None))
  /\ forall (k : nat) fv, filterVars !! k = Some fv ->
       exists h, index (snd (gradsFromMap c m)) (Z.of_nat k) = Ok h
                 /\ (h = Some (addr fv)
                     \/ (h = None /\ at_key (addr fv) m = None)).
Proof.
  intros HF HB. unfold gradsFromMap. rewrite HF, HB. destruct m as [m|]; simpl.
  - split; [destruct (m !! addr biases); auto|].
    intros k fv Hk. eexists. split.
    + apply index_lookup. rewrite list_lookup_fmap, Hk. reflexivity.
    + simpl. destruct (m !! addr fv); auto.
  - split; [auto|]. intros k fv Hk. eexists. split.
    + apply index_lookup. rewrite list_lookup_fmap, Hk. reflexivity.
    + auto.
Qed.

(** MulAdd of a source that lies inside the receiver at the offset: the
    case of its specification. *)
Lemma MulAdd_Ok beyond t x y t1 s :
  tensor_ok t = true -> tensor_ok t1 = true -> Depth t = Depth t1 ->
  0 <= x -> x + Width t1 <= Width t -> 0 <= y -> y + Height t1 <= Height t ->
  exists t', MulAdd beyond t x y t1 s = Ok t'
    /\ Width t' = Width t /\ Height t' = Height t /\ Depth t' = Depth t
    /\ length (Data t') = length (Data t).
Proof.
  intros H1 H2 H3 Hx Hx' Hy Hy'. unfold MulAdd. rewrite H1, H2. simpl.
  destruct (Z.eqb_spec (Depth t) (Depth t1)); [|contradiction].
  destruct (Z.leb_spec 0 x); [|lia].
  destruct (Z.leb_spec (x + Width t1) (Width t)); [|lia].
  destruct (Z.leb_spec 0 y); [|lia].
  destruct (Z.leb_spec (y + Height t1) (Height t)); [|lia].
  simpl. eexists. split; [reflexivity|]. simpl. rewrite tabulate_length. auto.
Qed.

Lemma filter_shaped_ok c t :
  0 <= FilterWidth c -> 0 <= FilterHeight c -> 0 <= InputDepth c ->
  filter_shaped c t -> tensor_ok t = true.
Proof.
  intros H1 H2 H3 (Hw & Hh & Hd & Hl). apply tensor_ok_true; congruence.
Qed.

Lemma input_shaped_ok c t :
  0 <= InputWidth c -> 0 <= InputHeight c -> 0 <= InputDepth c ->
  input_shaped c t -> tensor_ok t = true.
Proof.
  intros H1 H2 H3 (Hw & Hh & Hd & Hl). apply tensor_ok_true; congruence.
Qed.

Lemma run_pure_Ok {S A B} (r : Res A) (a : A) (k : A -> Acc S B) s :
  r = Ok a -> (pure r ≫= k) s = k a s.
Proof. intros ->. reflexivity. Qed.

Lemma Get_cell_at t x y z sp : Get t x y z = Ok sp -> sp = cell_at t x y z.
Proof.
  unfold Get, cell_at. intros H. apply index_Ok in H as [H0 H].
  unfold data_at. destruct (Z.ltb_spec (flat_index t x y z) 0); [lia|].
  rewrite H. reflexivity.
Qed.

(** *** The order of the visits *)

Lemma positions_S ow (ky : nat) :
  positions ow (Z.of_nat (S ky))
  = positions ow (Z.of_nat ky) ++ ((fun x => (x, Z.of_nat ky)) <$> seqZ 0 ow).
Proof.
  unfold positions. rewrite seqZ_S, bind_app, bind_singleton. reflexivity.
Qed.

Lemma positions_0 ow : positions ow 0 = [].
Proof. reflexivity. Qed.

(** *** The accumulator of the biases, filter by filter *)

Lemma bias_partial_0 down p g : bias_partial down p 0 g = g.
Proof.
  unfold bias_partial. apply list_eq. intros i.
  rewrite list_lookup_imap. destruct (g !! i); reflexivity.
Qed.

Lemma bias_partial_all down p n g :
  (length g <= n)%nat -> bias_partial down p n g = bias_step down g p.
Proof.
  intros H. unfold bias_partial, bias_step. apply imap_ext.
  intros i b Hi. apply lookup_lt_Some in Hi.
  destruct (Nat.ltb_spec i n); [reflexivity|lia].
Qed.

Lemma bias_partial_S down p kz g :
  (kz < length g)%nat ->
  <[kz := (default 0%float (bias_partial down p kz g !! kz)
           + cell_at down (fst p) (snd p) (Z.of_nat kz))%float]>
    (bias_partial down p kz g)
  = bias_partial down p (S kz) g.
Proof.
  intros H. unfold bias_partial. apply list_eq. intros i.
  destruct (decide (i = kz)) as [->|Hne].
  - rewrite list_lookup_insert_eq by (rewrite length_imap; exact H).
    rewrite !list_lookup_imap.
    destruct (lookup_lt_is_Some_2 g kz H) as (b & Hb). rewrite Hb. simpl.
    rewrite Nat.ltb_irrefl.
    destruct (Nat.ltb_spec kz (S kz)); [reflexivity|lia].
  - rewrite list_lookup_insert_ne by congruence.
    rewrite !list_lookup_imap. destruct (g !! i); [|reflexivity]. simpl.
    destruct (Nat.ltb_spec i kz), (Nat.ltb_spec i (S kz)); try reflexivity; lia.
Qed.

Lemma bias_partial_length down p kz g :
  length (bias_partial down p kz g) = length g.
Proof. apply length_imap. Qed.

Lemma bias_step_length down g p : length (bias_step down g p) = length g.
Proof. apply length_imap. Qed.

Lemma foldl_bias_step_length down ps g :
  length (foldl (bias_step down) g ps) = length g.
Proof.
  revert g. induction ps as [|p ps IH]; intros g; simpl; [reflexivity|].
  rewrite IH. apply bias_step_length.
Qed.

(** *** Accumulators changed in steps *)

Lemma stepped_refl filterVars biases fb ff s :
  (forall v, at_key (addr biases) s = Some v -> fb v = v) ->
  (forall (j : nat) fv v, filterVars !! j = Some fv ->
     at_key (addr fv) s = Some v -> ff j v = v) ->
  stepped filterVars biases fb ff s s.
Proof.
  intros Hb Hf. split.
  - destruct (at_key (addr biases) s) as [v|] eqn:E; [|reflexivity].
    simpl. rewrite (Hb v eq_refl). reflexivity.
  - intros j fv Hj. destruct (at_key (addr fv) s) as [v|] eqn:E; [|reflexivity].
    simpl. rewrite (Hf j fv v Hj E). reflexivity.
Qed.

Lemma stepped_trans filterVars biases fb ff fb' ff' fb'' ff'' s0 s s' :
  stepped filterVars biases fb ff s0 s ->
  stepped filterVars biases fb' ff' s s' ->
  (forall v, at_key (addr biases) s0 = Some v -> fb' (fb v) = fb'' v) ->
  (forall (j : nat) fv v, filterVars !! j = Some fv ->
     at_key (addr fv) s0 = Some v -> ff' j (ff j v) = ff'' j v) ->
  stepped filterVars biases fb'' ff'' s0 s'.
Proof.
  intros [Hb Hf] [Hb' Hf'] Eb Ef. split.
  - rewrite Hb', Hb. destruct (at_key (addr biases) s0) as [v|]; [|reflexivity].
    simpl. rewrite (Eb v eq_refl). reflexivity.
  - intros j fv Hj. rewrite (Hf' j fv Hj), (Hf j fv Hj).
    destruct (at_key (addr fv) s0) as [v|] eqn:E; [|reflexivity].
    simpl. rewrite (Ef j fv v Hj E). reflexivity.
Qed.

Lemma param_addrs_distinct filterVars biases :
  NoDup (addr biases :: (addr <$> filterVars)) ->
  (forall (j : nat) fv, filterVars !! j = Some fv -> addr fv <> addr biases)
  /\ (forall (j k : nat) fv fv', filterVars !! j = Some fv ->
        filterVars !! k = Some fv' -> j <> k -> addr fv <> addr fv').
Proof.
  intros H. apply NoDup_cons in H as [Hb Hf]. split.
  - intros j fv Hj E. apply Hb. rewrite <- E.
    apply list_elem_of_fmap. exists fv. split; [reflexivity|].
    eapply list_elem_of_lookup_2; eauto.
  - intros j k fv fv' Hj Hk Hne E. apply Hne.
    apply (NoDup_lookup _ j k (addr fv) Hf).
    + rewrite list_lookup_fmap, Hj. reflexivity.
    + rewrite list_lookup_fmap, Hk, E. reflexivity.
Qed.

Lemma stepped_ext filterVars biases fb ff fb' ff' s s' :
  stepped filterVars biases fb ff s s' ->
  (forall v, at_key (addr biases) s = Some v -> fb v = fb' v) ->
  (forall (j : nat) fv v, filterVars !! j = Some fv ->
     at_key (addr fv) s = Some v -> ff j v = ff' j v) ->
  stepped filterVars biases fb' ff' s s'.
Proof.
  intros [Hb Hf] Eb Ef. split.
  - rewrite Hb. destruct (at_key (addr biases) s) as [v|]; [|reflexivity].
    simpl. rewrite (Eb v eq_refl). reflexivity.
  - intros j fv Hj. rewrite (Hf j fv Hj).
    destruct (at_key (addr fv) s) as [v|] eqn:E; [|reflexivity].
    simpl. rewrite (Ef j fv v Hj E). reflexivity.
Qed.

Lemma row_S (ky : Z) (kx : nat) :
  (fun x => (x, ky)) <$> seqZ 0 (Z.of_nat (S kx))
  = ((fun x => (x, ky)) <$> seqZ 0 (Z.of_nat kx)) ++ [(Z.of_nat kx, ky)].
Proof. rewrite seqZ_S, fmap_app. reflexivity. Qed.

Lemma bias_accumulator_length c filters filterVars biases grad0 s v :
  valid_layer c filters filterVars biases ->
  valid_directions c filterVars biases grad0 ->
  shape s = shape grad0 -> at_key (addr biases) s = Some v ->
  length v = length filters.
Proof.
  intros V Vg Hs Hv. destruct (shape_at_key _ _ _ _ Hs Hv) as (v0 & Hv0 & Hl0).
  destruct Vg as [_ Vgb]. specialize (Vgb v0 Hv0).
  pose proof (valid_count _ _ _ _ V). lia.
Qed.

Lemma filter_accumulator_length c filterVars biases grad0 s (j : nat) fv v :
  valid_directions c filterVars biases grad0 ->
  shape s = shape grad0 -> filterVars !! j = Some fv ->
  at_key (addr fv) s = Some v ->
  Z.of_nat (length v) = FilterWidth c * FilterHeight c * InputDepth c.
Proof.
  intros Vg Hs Hj Hv. destruct (shape_at_key _ _ _ _ Hs Hv) as (v0 & Hv0 & Hl0).
  destruct Vg as [Vgf _]. rewrite <- Hl0.
  apply (Vgf fv); [eapply list_elem_of_lookup_2; eauto|exact Hv0].
Qed.

Section Backward.

Variable beyond : MulAdd_unspecified.

Variables (layer : ConvLayer) (filters : list Tensor3)
  (filterVars : list autofunc_Variable) (biases : autofunc_Variable).
Hypothesis V : valid_layer layer filters filterVars biases.

Let ow := shape_law (InputWidth layer) (FilterWidth layer) (Stride layer).
Let oh := shape_law (InputHeight layer) (FilterHeight layer) (Stride layer).

Variables (input upstream : Vec) (grad0 : VarMap) (constant : bool).
Hypothesis Hin :
  Z.of_nat (length input) = InputWidth layer * InputHeight layer * InputDepth layer.
Hypothesis Hup : Z.of_nat (length upstream) = ow * oh * FilterCount layer.
Hypothesis Vg : valid_directions layer filterVars biases grad0.

Let down := upstream_tensor layer upstream.

(** One round of the loop over the filters. *)
Lemma propagate_filter_round x y (k : nat) filter patch grads s :
  0 <= x < ow -> 0 <= y < oh ->
  filters !! k = Some filter ->
  filter_shaped layer patch ->
  locals_shaped layer constant (patch, grads) ->
  shape s = shape grad0 ->
  exists grads' s',
    (sumPartial ← pure (Get (mkTensor3 ow oh (OutputDepth layer) upstream)
                          x y (0 + Z.of_nat k));
     filterGrad ← pure (index (snd (gradsFromMap layer grad0)) (0 + Z.of_nat k));
     _ ← update_opt filterGrad (axpy_into sumPartial patch);
     _ ← update_opt (fst (gradsFromMap layer grad0))
           (add_at (0 + Z.of_nat k) sumPartial);
     match grads with
     | Some (tempInputGrad, inputGrad) =>
         temp ← pure (Axpy (Z.of_nat (length (Data tempInputGrad)))
                           sumPartial (Data filter) (Data tempInputGrad));
         mret (Some (mkTensor3 (Width tempInputGrad) (Height tempInputGrad)
                       (Depth tempInputGrad) temp, inputGrad))
     | None => mret None
     end) s = (s', Ok grads')
    /\ locals_shaped layer constant (patch, grads') /\ shape s' = shape grad0
    /\ (NoDup (addr biases :: (addr <$> filterVars)) ->
        stepped filterVars biases
          (fun v => <[k := (default 0%float (v !! k)
                            + cell_at down x y (Z.of_nat k))%float]> v)
          (fun j v => if decide (j = k)
                      then axpy_elems (cell_at down x y (Z.of_nat k))
                             (Data patch) v
                      else v)
          s s').
Proof.
  intros Hx Hy Hk Hpatch [_ Hg] Hs. simpl in Hg.
  pose proof V as [VF VFV VB VS VW VH VD Vc Vv Vb Vl].
  rewrite Z.add_0_l.
  assert (Hkn : (k < length filters)%nat) by (eapply lookup_lt_Some; eauto).
  assert (Hz : 0 <= Z.of_nat k < FilterCount layer) by lia.
  (* sumPartial *)
  set (sp := cell_at down x y (Z.of_nat k)).
  assert (Hsp : Get (mkTensor3 ow oh (OutputDepth layer) upstream)
                  x y (Z.of_nat k) = Ok sp).
  { assert (H : exists sp', Get (mkTensor3 ow oh (OutputDepth layer) upstream)
                              x y (Z.of_nat k) = Ok sp').
    { unfold Get. apply index_in_range. simpl.
      pose proof (flat_index_bounds (mkTensor3 ow oh (OutputDepth layer) upstream)
                    x y (Z.of_nat k) Hx Hy Hz) as Hb.
      simpl in Hb. unfold OutputDepth in *. lia. }
    destruct H as (sp' & H). rewrite H. f_equal.
    apply (Get_cell_at _ _ _ _ _ H). }
  rewrite (run_pure_Ok _ _ _ _ Hsp).
  (* filterGrad *)
  destruct (lookup_lt_is_Some_2 filterVars k ltac:(lia)) as (fv & Hfv).
  destruct (gradsFromMap_handles layer filterVars biases grad0 VFV VB)
    as (Hbg & Hfg).
  destruct (Hfg k fv Hfv) as (h & Hh & Hhk).
  rewrite (run_pure_Ok _ _ _ _ Hh).
  (* the filter's accumulator *)
  destruct (update_opt_runs h (addr fv) (axpy_into sp patch)
              (axpy_elems sp (Data patch)) s)
    as (s1 & Hs1 & Hshape1 & Hf1 & Ho1).
  { destruct Hhk as [-> | [-> Hn]]; [left; reflexivity|right].
    split; [reflexivity|]. eapply shape_at_key_None; eauto. }
  { intros v Hv. apply axpy_into_runs.
    pose proof (filter_accumulator_length layer filterVars biases grad0 s k fv v
                  Vg Hs Hfv Hv).
    destruct Hpatch as (_ & _ & _ & Hpl). lia. }
  rewrite (acc_bind_returns _ _ _ _ _ Hs1).
  assert (Hs' : shape s1 = shape grad0) by congruence.
  (* the bias accumulator *)
  destruct (update_opt_runs (fst (gradsFromMap layer grad0)) (addr biases)
              (add_at (Z.of_nat k) sp)
              (fun v => <[k := (default 0%float (v !! k) + sp)%float]> v) s1)
    as (s2 & Hs2 & Hshape2 & Hb2 & Ho2).
  { destruct Hbg as [Hbg | [Hbg Hn]]; [left; exact Hbg|right].
    split; [exact Hbg|]. eapply shape_at_key_None; eauto. }
  { intros v Hv. apply add_at_runs.
    rewrite (bias_accumulator_length layer filters filterVars biases grad0 s1 v
               V Vg Hs' Hv). exact Hkn. }
  rewrite (acc_bind_returns _ _ _ _ _ Hs2).
  assert (Hshape : shape s2 = shape grad0) by congruence.
  assert (Hstep : NoDup (addr biases :: (addr <$> filterVars)) ->
    stepped filterVars biases
      (fun v => <[k := (default 0%float (v !! k) + sp)%float]> v)
      (fun j v => if decide (j = k) then axpy_elems sp (Data patch) v else v)
      s s2).
  { intros ND. destruct (param_addrs_distinct _ _ ND) as [Db Df]. split.
    - rewrite Hb2, (Ho1 (addr biases)); [reflexivity|].
      intros E. apply (Db k fv Hfv). congruence.
    - intros j fv' Hj. destruct (decide (j = k)) as [->|Hne].
      + assert (fv' = fv) by congruence. subst fv'.
        rewrite (Ho2 (addr fv)) by (apply (Db k fv Hfv)). exact Hf1.
      + rewrite (Ho2 (addr fv')) by (apply (Db j fv' Hj)).
        rewrite (Ho1 (addr fv')) by (apply (Df j k fv' fv Hj Hfv Hne)).
        destruct (at_key (addr fv') s); reflexivity. }
  destruct grads as [[temp ig]|].
  - destruct Hg as (Hc & (Tw & Th & Td & Tl) & Hig).
    assert (Hfl : length (Data filter) = length (Data temp)).
    { rewrite Forall_forall in Vl.
      specialize (Vl filter ltac:(eapply list_elem_of_lookup_2; eauto)). lia. }
    rewrite (run_pure_Ok _ _ _ _ (Axpy_Ok sp _ _ Hfl)).
    eexists _, _. split; [reflexivity|]. split; [|split; [exact Hshape|exact Hstep]].
    split; [exact Hpatch|]. simpl. split; [exact Hc|]. split; [|exact Hig].
    unfold filter_shaped. simpl. rewrite axpy_elems_length by exact Hfl. auto.
  - eexists _, _. split; [reflexivity|]. split; [|split; [exact Hshape|exact Hstep]].
    split; [exact Hpatch|exact I].
Qed.

(** One round of the loop over the columns. *)
Lemma propagate_position_round x y cr grads s :
  0 <= x < ow -> 0 <= y < oh ->
  locals_shaped layer constant (cr, grads) ->
  shape s = shape grad0 ->
  exists l' s',
    (let inputY := int_mul y (Stride layer) in
     let inputX := int_mul x (Stride layer) in
     let grads :=
       (fun '(tempInputGrad, inputGrad) => (zero_data tempInputGrad, inputGrad))
         <$> grads in
     croppedInput ← pure (Crop (inputToTensor layer input) inputX inputY cr);
     grads ←
       forA_range (elems (Filters layer)) (fun z filter grads =>
         sumPartial ← pure (Get (mkTensor3 ow oh (OutputDepth layer) upstream)
                              x y z);
         filterGrad ← pure (index (snd (gradsFromMap layer grad0)) z);
         _ ← update_opt filterGrad (axpy_into sumPartial croppedInput);
         _ ← update_opt (fst (gradsFromMap layer grad0)) (add_at z sumPartial);
         match grads with
         | Some (tempInputGrad, inputGrad) =>
             temp ← pure (Axpy (Z.of_nat (length (Data tempInputGrad)))
                               sumPartial (Data filter) (Data tempInputGrad));
             mret (Some (mkTensor3 (Width tempInputGrad) (Height tempInputGrad)
                           (Depth tempInputGrad) temp, inputGrad))
         | None => mret None
         end) grads;
     grads ←
       match grads with
       | Some (tempInputGrad, inputGrad) =>
           inputGrad ← pure (MulAdd beyond inputGrad inputX inputY tempInputGrad 1%float);
           mret (Some (tempInputGrad, inputGrad))
       | None => mret None
       end;
     mret (croppedInput, grads)) s = (s', Ok l')
    /\ locals_shaped layer constant l' /\ shape s' = shape grad0
    /\ (NoDup (addr biases :: (addr <$> filterVars)) ->
        stepped filterVars biases
          (fun g => bias_step down g (x, y))
          (fun j g => filter_step layer input down j g (x, y))
          s s').
Proof.
  intros Hx Hy [Hcr Hg] Hs. simpl in Hcr, Hg.
  pose proof V as [VF VFV VB VS VW VH VD Vc Vv Vb Vl].
  destruct (valid_crop layer filters filterVars biases input x y cr V Hin Hx Hy Hcr)
    as (Ex & Ey & patch & Hcrop & Hpatch).
  assert (Hpd : patch_data layer input (x, y) = Data patch).
  { unfold patch_data. simpl.
    rewrite (patch_at_Crop layer input x y cr patch VD ltac:(lia) ltac:(lia)
               Hcr Hcrop). reflexivity. }
  cbv zeta. rewrite Ex, Ey.
  rewrite (run_pure_Ok _ _ _ _ Hcrop).
  set (grads1 := (fun '(tempInputGrad, inputGrad) =>
                    (zero_data tempInputGrad, inputGrad)) <$> grads).
  assert (Hg1 : locals_shaped layer constant (patch, grads1)).
  { split; [exact Hpatch|]. unfold grads1. destruct grads as [[temp ig]|]; simpl;
      [|exact I].
    destruct Hg as (Hc & (Tw & Th & Td & Tl) & Hig). split; [exact Hc|].
    split; [|exact Hig].
    unfold filter_shaped, zero_data. simpl. rewrite zeros_length. auto. }
  rewrite VF. simpl elems. unfold forA_range.
  match goal with |- context [forA_range_from 0 filters ?body grads1] =>
    destruct (forA_range_from_inv
                (fun (kz : nat) g sk =>
                   locals_shaped layer constant (patch, g) /\ shape sk = shape grad0
                   /\ (NoDup (addr biases :: (addr <$> filterVars)) ->
                       stepped filterVars biases
                         (bias_partial down (x, y) kz)
                         (fun j v => if (j <? kz)%nat
                                     then axpy_elems
                                            (cell_at down x y (Z.of_nat j))
                                            (Data patch) v
                                     else v)
                         s sk))
                body filters 0 grads1 s)
      as (grads2 & s2 & Hrun & Hg2 & Hs2 & Hst2)
  end.
  { split; [assumption|]. split; [assumption|]. intros _.
    apply stepped_refl; [|reflexivity]. intros v _. apply bias_partial_0. }
  { intros k filter g sk Hk (Hgk & Hsk & Hstk).
    destruct (propagate_filter_round x y k filter patch g sk Hx Hy Hk Hpatch
                Hgk Hsk) as (g' & s' & Hstep & Hg' & Hs' & Hst').
    exists g', s'. split; [exact Hstep|]. split; [assumption|].
    split; [assumption|]. intros ND.
    eapply stepped_trans; [exact (Hstk ND)|exact (Hst' ND)| |].
    - intros v Hv. apply (bias_partial_S down (x, y) k v).
      rewrite (bias_accumulator_length layer filters filterVars biases grad0 s v
                 V Vg Hs Hv).
      eapply lookup_lt_Some; eauto.
    - intros j fv v Hj Hv. simpl.
      destruct (decide (j = k)) as [->|Hne].
      + rewrite Nat.ltb_irrefl.
        destruct (Nat.ltb_spec k (S k)); [reflexivity|lia].
      + destruct (Nat.ltb_spec j k), (Nat.ltb_spec j (S k));
          try reflexivity; lia. }
  rewrite (acc_bind_returns _ _ _ _ _ Hrun).
  assert (Hst : NoDup (addr biases :: (addr <$> filterVars)) ->
    stepped filterVars biases
      (fun g => bias_step down g (x, y))
      (fun j g => filter_step layer input down j g (x, y)) s s2).
  { intros ND. eapply stepped_ext; [exact (Hst2 ND)| |].
    - intros v Hv. apply bias_partial_all.
      rewrite (bias_accumulator_length layer filters filterVars biases grad0 s v
                 V Vg Hs Hv). lia.
    - intros j fv v Hj Hv. simpl.
      assert (j < length filters)%nat
        by (rewrite <- Vv; eapply lookup_lt_Some; eauto).
      destruct (Nat.ltb_spec j (length filters)); [|lia].
      unfold filter_step. rewrite Hpd. reflexivity. }
  destruct Hg2 as [_ Hg2]. simpl in Hg2.
  destruct grads2 as [[temp ig]|].
  - destruct Hg2 as (Hc & Ht & Hig).
    destruct (window_fits _ _ _ x VS Hx) as [Hx0 Hx1].
    destruct (window_fits _ _ _ y VS Hy) as [Hy0 Hy1].
    destruct (MulAdd_Ok beyond ig (x * Stride layer) (y * Stride layer) temp
                1%float) as (ig' & Hm & Mw & Mh & Md & Ml).
    { apply (input_shaped_ok layer); try lia; exact Hig. }
    { apply (filter_shaped_ok layer); try lia; exact Ht. }
    { destruct Hig as (_ & _ & -> & _). destruct Ht as (_ & _ & -> & _).
      reflexivity. }
    { exact Hx0. }
    { destruct Hig as (-> & _). destruct Ht as (-> & _). exact Hx1. }
    { exact Hy0. }
    { destruct Hig as (_ & -> & _). destruct Ht as (_ & -> & _). exact Hy1. }
    rewrite (acc_bind_returns _ _ (s2) s2 (Some (temp, ig'))).
    + eexists _, _. split; [reflexivity|].
      split; [|split; [exact Hs2|exact Hst]].
      split; [exact Hpatch|]. simpl. split; [exact Hc|]. split; [exact Ht|].
      destruct Hig as (Iw & Ih & Id & Il). unfold input_shaped.
      rewrite Mw, Mh, Md, Ml. auto.
    + rewrite (run_pure_Ok _ _ _ _ Hm). reflexivity.
  - rewrite run_ret_bind. eexists _, _. split; [reflexivity|].
    split; [|split; [exact Hs2|exact Hst]]. split; [exact Hpatch|exact I].
Qed.

(** The loops of [PropagateGradient] return, with the accumulators of the
    lengths they had; when the parameters are distinct variables, each
    accumulator has received the steps of all positions, in the order of
    the visits. *)
Lemma propagate_loops_returns outT cr grads s :
  Width outT = ow -> Height outT = oh ->
  locals_shaped layer constant (cr, grads) ->
  shape s = shape grad0 ->
  exists l' s',
    propagate_loops beyond layer outT (inputToTensor layer input)
      (mkTensor3 ow oh (OutputDepth layer) upstream)
      (fst (gradsFromMap layer grad0)) (snd (gradsFromMap layer grad0))
      (cr, grads) s = (s', Ok l')
    /\ locals_shaped layer constant l' /\ shape s' = shape grad0
    /\ (NoDup (addr biases :: (addr <$> filterVars)) ->
        stepped filterVars biases
          (fun g => foldl (bias_step down) g (positions ow oh))
          (fun j g => foldl (filter_step layer input down j) g (positions ow oh))
          s s').
Proof.
  intros Hw Hh Hl Hs. unfold propagate_loops, forA_upto. rewrite Hw, Hh.
  assert (Hoh : 0 <= oh) by apply shape_law_nonneg.
  assert (How : 0 <= ow) by apply shape_law_nonneg.
  set (I := fun (ps : list (Z * Z)) (l : Tensor3 * option (Tensor3 * Tensor3))
              (s1 : VarMap) =>
              locals_shaped layer constant l /\ shape s1 = shape grad0
              /\ (NoDup (addr biases :: (addr <$> filterVars)) ->
                  stepped filterVars biases
                    (fun g => foldl (bias_step down) g ps)
                    (fun j g => foldl (filter_step layer input down j) g ps)
                    s s1)).
  match goal with |- context [forA_from 0 ?n ?body (cr, grads)] =>
    destruct (forA_from_inv
                (fun (ky : nat) l s1 => I (positions ow (Z.of_nat ky)) l s1)
                body n 0 (cr, grads) s) as (l' & s' & Hrun & Hl' & Hs' & Hst')
  end.
  { split; [assumption|]. split; [assumption|]. intros _.
    apply stepped_refl; reflexivity. }
  { intros ky l sy Hky (Hly & Hsy & Hsty). rewrite Z.add_0_l.
    assert (Hy : 0 <= Z.of_nat ky < oh) by lia.
    match goal with |- context [forA_from 0 ?n ?body l] =>
      destruct (forA_from_inv
                  (fun (kx : nat) l s1 =>
                     I (positions ow (Z.of_nat ky)
                        ++ ((fun x => (x, Z.of_nat ky))
                              <$> seqZ 0 (Z.of_nat kx))) l s1)
                  body n 0 l sy) as (l1 & s1 & Hrun1 & Hl1 & Hs1 & Hst1)
    end.
    - split; [assumption|]. split; [assumption|]. simpl. rewrite app_nil_r.
      exact Hsty.
    - intros kx [crx gx] sx Hkx (Hlx & Hsx & Hstx). rewrite Z.add_0_l.
      assert (Hx : 0 <= Z.of_nat kx < ow) by lia.
      destruct (propagate_position_round (Z.of_nat kx) (Z.of_nat ky) crx gx
                  sx Hx Hy Hlx Hsx) as (l2 & s2 & Hstep & Hl2 & Hs2 & Hst2).
      exists l2, s2. split; [exact Hstep|]. split; [assumption|].
      split; [assumption|]. intros ND.
      rewrite row_S, app_assoc.
      eapply stepped_trans; [exact (Hstx ND)|exact (Hst2 ND)| |].
      + intros v _. rewrite foldl_snoc. reflexivity.
      + intros j fv v _ _. simpl. rewrite foldl_snoc. reflexivity.
    - exists l1, s1. split; [exact Hrun1|]. split; [assumption|].
      split; [assumption|]. rewrite positions_S.
      rewrite Z2Nat.id in Hst1 by exact How. exact Hst1. }
  exists l', s'. split; [exact Hrun|]. split; [assumption|].
  split; [assumption|]. rewrite Z2Nat.id in Hst' by exact Hoh. exact Hst'.
Qed.

End Backward.

Lemma Apply_node layer filters filterVars biases input c :
  valid_layer layer filters filterVars biases ->
  Z.of_nat (length (Output input))
  = InputWidth layer * InputHeight layer * InputDepth layer ->
  Apply layer input = Ok c ->
  Layer c = layer /\ Input c = input
  /\ Width (OutputTensor c)
     = shape_law (InputWidth layer) (FilterWidth layer) (Stride layer)
  /\ Height (OutputTensor c)
     = shape_law (InputHeight layer) (FilterHeight layer) (Stride layer)
  /\ Z.of_nat (length (convLayerResult_Output c))
     = shape_law (InputWidth layer) (FilterWidth layer) (Stride layer)
       * shape_law (InputHeight layer) (FilterHeight layer) (Stride layer)
       * FilterCount layer.
Proof.
  intros V Hin HA.
  destruct (valid_output_shape _ _ _ _ V) as [HW HH].
  destruct (convolve_fills_output layer filters filterVars biases (Output input)
              V Hin) as (ow & oh & out & HW' & HH' & Hc & Ew & Eh & _ & Hlen & _).
  rewrite HW in HW'. rewrite HH in HH'. inversion HW'; inversion HH'; subst.
  unfold Apply in HA. destruct (uninitialized layer); [discriminate|].
  rewrite Hc in HA. simpl in HA. inversion HA; subst c.
  unfold convLayerResult_Output. simpl.
  split; [reflexivity|]. split; [reflexivity|]. split; [congruence|].
  split; [congruence|]. rewrite Hlen. congruence.
Qed.

(** The backward pass up to its last step: the loops return, and what is
    left is the propagation into the input, when it is not constant. *)
Lemma PropagateGradient_run (beyond : MulAdd_unspecified)
  (layer : ConvLayer) (filters : list Tensor3)
  (filterVars : list autofunc_Variable) (biases : autofunc_Variable)
  (input : Result) (c : convLayerResult) (upstream : Vec) (grad : VarMap) :
  valid_layer layer filters filterVars biases ->
  Z.of_nat (length (Output input))
  = InputWidth layer * InputHeight layer * InputDepth layer ->
  Apply layer input = Ok c ->
  length upstream = length (convLayerResult_Output c) ->
  valid_directions layer filterVars biases grad ->
  exists s' (inputGrad : option Vec),
    convLayerResult_PropagateGradient beyond c upstream grad
    = match inputGrad with
      | Some u => PropagateGradient input u s'
      | None => (s', Ok tt)
      end
    /\ shape s' = shape grad
    /\ (forall u, inputGrad = Some u ->
          Constant input grad = false /\ length u = length (Output input))
    /\ (NoDup (addr biases :: (addr <$> filterVars)) ->
        stepped filterVars biases
          (fun g => foldl (bias_step (upstream_tensor layer upstream)) g
                      (positions (Width (upstream_tensor layer upstream))
                                 (Height (upstream_tensor layer upstream))))
          (fun z g => foldl (filter_step layer (Output input)
                               (upstream_tensor layer upstream) z) g
                        (positions (Width (upstream_tensor layer upstream))
                                   (Height (upstream_tensor layer upstream))))
          grad s').
Proof.
  intros V Hin HA Hup Vg.
  destruct (Apply_node _ _ _ _ _ _ V Hin HA) as (EL & EI & Ew & Eh & Elen).
  destruct (valid_output_shape _ _ _ _ V) as [HW HH].
  pose proof V as [VF VFV VB VS VW VH VD Vc Vv Vb Vl].
  unfold convLayerResult_PropagateGradient. rewrite EL, EI.
  unfold outputToTensor. rewrite HW, HH. simpl (_ ≫= _) at 1.
  rewrite run_ret_bind || rewrite (run_pure_Ok _ _ _ _ eq_refl).
  rewrite run_get_state_bind.
  assert (Hsize : 0 <= FilterWidth layer * FilterHeight layer * InputDepth layer)
    by (apply Z.mul_nonneg_nonneg; [apply Z.mul_nonneg_nonneg|]; lia).
  assert (HsizeI : 0 <= InputWidth layer * InputHeight layer * InputDepth layer)
    by (apply Z.mul_nonneg_nonneg; [apply Z.mul_nonneg_nonneg|]; lia).
  pose proof (zero_tensor_shaped layer ltac:(lia) ltac:(lia) VD) as Hzt.
  set (zt := mkTensor3 (FilterWidth layer) (FilterHeight layer) (InputDepth layer)
               (zeros (Z.to_nat (FilterWidth layer * FilterHeight layer
                                 * InputDepth layer)))) in *.
  set (zi := mkTensor3 (InputWidth layer) (InputHeight layer) (InputDepth layer)
               (zeros (Z.to_nat (InputWidth layer * InputHeight layer
                                 * InputDepth layer)))).
  assert (Hzi : input_shaped layer zi).
  { unfold input_shaped, zi. simpl. rewrite zeros_length. repeat split; lia. }
  assert (Halloc : exists grads,
    (if Constant input grad then mret None
     else
       inputGrad ← pure (NewTensor3 (InputWidth layer) (InputHeight layer)
                                    (InputDepth layer));
       tempInputGrad ← pure (NewTensor3 (FilterWidth layer) (FilterHeight layer)
                                        (InputDepth layer));
       mret (Some (tempInputGrad, inputGrad))) grad = (grad, Ok grads)
    /\ locals_shaped layer (Constant input grad) (zt, grads)).
  { destruct (Constant input grad).
    - exists None. split; [reflexivity|]. split; [exact Hzt|exact I].
    - exists (Some (zt, zi)). split.
      + rewrite (run_pure_Ok _ _ _ _ (NewTensor3_Ok _ _ _ HsizeI)).
        rewrite (run_pure_Ok _ _ _ _ (NewTensor3_Ok _ _ _ Hsize)). reflexivity.
      + split; [exact Hzt|]. simpl. split; [reflexivity|].
        split; [exact Hzt|exact Hzi]. }
  destruct Halloc as (grads & Halloc & Hgs).
  destruct (gradsFromMap layer grad) as [biasGrad filterGrads] eqn:EG.
  cbv beta iota.
  rewrite (acc_bind_returns _ _ _ _ _ Halloc).
  rewrite (run_pure_Ok _ _ _ _ (NewTensor3_Ok _ _ _ Hsize)). fold zt.
  assert (Hup' : Z.of_nat (length upstream)
                 = shape_law (InputWidth layer) (FilterWidth layer) (Stride layer)
                   * shape_law (InputHeight layer) (FilterHeight layer) (Stride layer)
                   * FilterCount layer) by (rewrite Hup; exact Elen).
  destruct (propagate_loops_returns beyond layer filters filterVars biases V
              (Output input) upstream grad (Constant input grad) Hin Hup' Vg
              (OutputTensor c) zt grads grad Ew Eh Hgs eq_refl)
    as ([cr' grads'] & s' & Hrun & Hl' & Hs' & Hst').
  rewrite EG in Hrun. simpl in Hrun.
  rewrite (acc_bind_returns _ _ _ _ _ Hrun).
  destruct Hl' as [_ Hg']. simpl in Hg'.
  exists s', (match grads' with
              | Some (_, inputGrad) => Some (Data inputGrad)
              | None => None
              end).
  split; [destruct grads' as [[temp ig]|]; reflexivity|].
  split; [exact Hs'|]. split; [|exact Hst'].
  intros u Hu. destruct grads' as [[temp ig]|]; [|discriminate].
  inversion Hu; subst u. destruct Hg' as (Hc & _ & (_ & _ & _ & Hil)).
  split; [exact Hc|lia].
Qed.

(** X18.  On a valid layer, for an input and an upstream vector of the
    sizes of the layer and a gradient whose accumulators for the layer's
    parameters have the parameters' sizes, PropagateGradient returns (no
    index, tensor or blas panic).  A constant input node is not propagated
    into; of one that is not constant, its own PropagateGradient is assumed
    to return on vectors of the input's size against gradients of the same
    keys and sizes. *)
Theorem PropagateGradient_returns (beyond : MulAdd_unspecified)
  (layer : ConvLayer) (filters : list Tensor3)
  (filterVars : list autofunc_Variable) (biases : autofunc_Variable)
  (input : Result) (c : convLayerResult) (upstream : Vec) (grad : VarMap) :
  valid_layer layer filters filterVars biases ->
  Z.of_nat (length (Output input))
  = InputWidth layer * InputHeight layer * InputDepth layer ->
  Apply layer input = Ok c ->
  length upstream = length (convLayerResult_Output c) ->
  valid_directions layer filterVars biases grad ->
  (Constant input grad = false ->
   forall u g, length u = length (Output input) -> shape g = shape grad ->
     exists g', PropagateGradient input u g = (g', Ok tt)) ->
  exists grad',
    convLayerResult_PropagateGradient beyond c upstream grad = (grad', Ok tt).
Proof.
  intros V Hin HA Hup Vg Hinput.
  destruct (PropagateGradient_run beyond _ _ _ _ _ _ _ _ V Hin HA Hup Vg)
    as (s' & ig & Hrun & Hs' & Hig & _).
  rewrite Hrun. destruct ig as [u|]; [|eexists; reflexivity].
  destruct (Hig u eq_refl) as [Hc Hu]. apply Hinput; assumption.
Qed.

(** X19.  On a valid layer whose parameters are distinct variables, a
    PropagateGradient that returns has added to the accumulator of the
    biases, position by position in the order of the loops (row by row),
    the upstream values of the position, element z receiving the value of
    filter z; and to the accumulator of filter z the input patch of each
    position scaled by the upstream value of z there.  An accumulator the
    gradient does not hold is not created.  The input node is assumed to
    leave the accumulators of the parameters alone. *)
Theorem PropagateGradient_accumulates (beyond : MulAdd_unspecified)
  (layer : ConvLayer) (filters : list Tensor3)
  (filterVars : list autofunc_Variable) (biases : autofunc_Variable)
  (input : Result) (c : convLayerResult) (upstream : Vec) (down : Tensor3)
  (grad grad' : VarMap) :
  valid_layer layer filters filterVars biases ->
  Z.of_nat (length (Output input))
  = InputWidth layer * InputHeight layer * InputDepth layer ->
  Apply layer input = Ok c ->
  length upstream = length (convLayerResult_Output c) ->
  outputToTensor layer upstream = Ok down ->
  valid_directions layer filterVars biases grad ->
  NoDup (addr biases :: (addr <$> filterVars)) ->
  (forall u k, k ∈ addr biases :: (addr <$> filterVars) ->
     preserves (at_key k) (PropagateGradient input u)) ->
  convLayerResult_PropagateGradient beyond c upstream grad = (grad', Ok tt) ->
  at_key (addr biases) grad'
  = (fun g => foldl (bias_step down) g
                (positions (Width (OutputTensor c)) (Height (OutputTensor c))))
      <$> at_key (addr biases) grad
  /\ forall (z : nat) filterVar, filterVars !! z = Some filterVar ->
       at_key (addr filterVar) grad'
       = (fun g => foldl (filter_step layer (Output input) down z) g
                     (positions (Width (OutputTensor c))
                                (Height (OutputTensor c))))
           <$> at_key (addr filterVar) grad.
Proof.
  intros V Hin HA Hup Hdown Vg ND Hframe Hret.
  destruct (Apply_node _ _ _ _ _ _ V Hin HA) as (_ & _ & Ew & Eh & _).
  destruct (valid_output_shape _ _ _ _ V) as [HW HH].
  unfold outputToTensor in Hdown. rewrite HW, HH in Hdown. simpl in Hdown.
  inversion Hdown; subst down. clear Hdown.
  destruct (PropagateGradient_run beyond _ _ _ _ _ _ _ _ V Hin HA Hup Vg)
    as (s' & ig & Hrun & _ & _ & Hst).
  destruct (Hst ND) as [Hb Hf]. rewrite Ew, Eh.
  assert (Hsame : forall k, k ∈ addr biases :: (addr <$> filterVars) ->
                    at_key k grad' = at_key k s').
  { intros k Hk. rewrite Hrun in Hret. destruct ig as [u|].
    - pose proof (Hframe u k Hk s') as Hp. rewrite Hret in Hp. exact Hp.
    - inversion Hret; reflexivity. }
  split.
  - rewrite Hsame by left. exact Hb.
  - intros z fv Hz. rewrite Hsame; [exact (Hf z fv Hz)|].
    right. apply list_elem_of_fmap. exists fv. split; [reflexivity|].
    eapply list_elem_of_lookup_2; eauto.
Qed.

Lemma Variable_backward_returns v u g :
  (forall r, at_key (addr v) g = Some r -> (length u <= length r)%nat) ->
  exists g', PropagateGradient (Variable_Result v) u g = (g', Ok tt).
Proof.
  intros H. simpl. unfold update_entry. destruct g as [m|]; [|eauto].
  simpl in H. destruct (m !! addr v) as [r|]; [|eauto].
  specialize (H r eq_refl). unfold vec_add.
  destruct (Nat.ltb_spec (length r) (length u)); [lia|]. eauto.
Qed.

Lemma sample_grad_all_valid :
  valid_directions sample_layer
    [mkVariable 2 [1; 2; 3; 4]%float; mkVariable 3 [0; 1; 0; 1]%float]
    (mkVariable 1 [10; 20]%float) sample_grad_all.
Proof.
  split.
  - intros fv r Hfv Hr. simpl in Hr.
    apply list_elem_of_In in Hfv. simpl in Hfv.
    destruct Hfv as [<-|[<-|[]]]; vm_compute in Hr; inversion Hr; reflexivity.
  - intros r Hr. vm_compute in Hr. inversion Hr. reflexivity.
Qed.

Lemma sample_params_distinct :
  NoDup (addr (mkVariable 1 [10; 20]%float)
         :: (addr <$> [mkVariable 2 [1; 2; 3; 4]%float;
                       mkVariable 3 [0; 1; 0; 1]%float])).
Proof. apply (bool_decide_unpack _). vm_compute. exact I. Qed.

Lemma PropagateGradient_returns_witness :
  exists grad',
    convLayerResult_PropagateGradient MulAdd_refuses sample_result
      [1; 1; 1; 1; 1; 1; 1; 1]%float sample_grad_all = (grad', Ok tt).
Proof.
  apply (PropagateGradient_returns MulAdd_refuses sample_layer _ _ _
           (Variable_Result sample_input) sample_result [1; 1; 1; 1; 1; 1; 1; 1]%float sample_grad_all
           sample_layer_valid eq_refl eq_refl eq_refl sample_grad_all_valid).
  intros _ u g Hu Hg. apply Variable_backward_returns.
  intros r Hr. destruct (shape_at_key _ _ _ _ Hg Hr) as (r0 & Hr0 & Hl).
  vm_compute in Hr0. inversion Hr0; subst r0. simpl in Hu, Hl. lia.
Defined.

Lemma PropagateGradient_accumulates_witness :
  at_key 1 (fst (convLayerResult_PropagateGradient MulAdd_refuses sample_result
                   [1; 2; 3; 4; 5; 6; 7; 8]%float sample_grad_all))
  = Some [16; 20]%float
  /\ at_key 2 (fst (convLayerResult_PropagateGradient MulAdd_refuses sample_result
                      [1; 2; 3; 4; 5; 6; 7; 8]%float sample_grad_all))
     = Some [62; 78; 110; 126]%float.
Proof.
  destruct (PropagateGradient_accumulates MulAdd_refuses sample_layer _ _ _
              (Variable_Result sample_input) sample_result
              [1; 2; 3; 4; 5; 6; 7; 8]%float
              (mkTensor3 2 2 2 [1; 2; 3; 4; 5; 6; 7; 8]%float)
              sample_grad_all
              (fst (convLayerResult_PropagateGradient MulAdd_refuses sample_result
                      [1; 2; 3; 4; 5; 6; 7; 8]%float sample_grad_all))
              sample_layer_valid eq_refl eq_refl eq_refl eq_refl
              sample_grad_all_valid sample_params_distinct) as [Hb Hf].
  - intros u k Hk. simpl. apply update_entry_at_key. intros <-.
    revert Hk. simpl. rewrite !elem_of_cons, elem_of_nil.
    intros [H|[H|[H|[]]]]; discriminate.
  - vm_compute. reflexivity.
  - split.
    + etransitivity; [exact Hb|]. vm_compute. reflexivity.
    + etransitivity;
        [exact (Hf 0%nat (mkVariable 2 [1; 2; 3; 4]%float) eq_refl)|].
      vm_compute. reflexivity.
Defined.

(** ** The dual backward pass on a valid layer *)

Lemma on_grad_returns {A} (m : Acc VarMap A) rg g g' (a : A) :
  m g = (g', Ok a) -> on_grad m (rg, g) = ((rg, g'), Ok a).
Proof. intros H. unfold on_grad. simpl. rewrite H. reflexivity. Qed.

Lemma on_rgrad_returns {A} (m : Acc VarMap A) rg g rg' (a : A) :
  m rg = (rg', Ok a) -> on_rgrad m (rg, g) = ((rg', g), Ok a).
Proof. intros H. unfold on_rgrad. simpl. rewrite H. reflexivity. Qed.

(** A write through the handle of filter variable [k], and one through the
    handle of the biases. *)
Lemma update_filter_runs filterVars biases h (k : nat) fv f f' s :
  filterVars !! k = Some fv ->
  h = Some (addr fv) \/ (h = None /\ at_key (addr fv) s = None) ->
  (forall v, at_key (addr fv) s = Some v ->
     f v = Ok (f' v) /\ length (f' v) = length v) ->
  exists s', update_opt h f s = (s', Ok tt) /\ shape s' = shape s
    /\ (NoDup (addr biases :: (addr <$> filterVars)) ->
        stepped filterVars biases (fun v => v)
          (fun j v => if decide (j = k) then f' v else v) s s').
Proof.
  intros Hk Hh Hf.
  destruct (update_opt_runs h (addr fv) f f' s Hh Hf) as (s' & Hr & Hs & H1 & H2).
  exists s'. split; [exact Hr|]. split; [exact Hs|]. intros ND.
  destruct (param_addrs_distinct _ _ ND) as [Db Df]. split.
  - rewrite H2 by (intros E; apply (Db k fv Hk); congruence).
    destruct (at_key (addr biases) s); reflexivity.
  - intros j fv' Hj. destruct (decide (j = k)) as [->|Hne].
    + assert (fv' = fv) by congruence. subst fv'. exact H1.
    + rewrite H2 by (apply (Df j k fv' fv Hj Hk Hne)).
      destruct (at_key (addr fv') s); reflexivity.
Qed.

Lemma update_bias_runs filterVars biases h f f' s :
  h = Some (addr biases) \/ (h = None /\ at_key (addr biases) s = None) ->
  (forall v, at_key (addr biases) s = Some v ->
     f v = Ok (f' v) /\ length (f' v) = length v) ->
  exists s', update_opt h f s = (s', Ok tt) /\ shape s' = shape s
    /\ (NoDup (addr biases :: (addr <$> filterVars)) ->
        stepped filterVars biases f' (fun _ v => v) s s').
Proof.
  intros Hh Hf.
  destruct (update_opt_runs h (addr biases) f f' s Hh Hf)
    as (s' & Hr & Hs & H1 & H2).
  exists s'. split; [exact Hr|]. split; [exact Hs|]. intros ND.
  destruct (param_addrs_distinct _ _ ND) as [Db Df]. split; [exact H1|].
  intros j fv Hj. rewrite H2 by (apply (Db j fv Hj)).
  destruct (at_key (addr fv) s); reflexivity.
Qed.

(** The accumulators filter by filter, at one position. *)
Lemma stepped_partial_0 filterVars biases dn p (fs : nat -> Vec -> Vec) s :
  stepped filterVars biases (bias_partial dn p 0)
    (fun j v => if (j <? 0)%nat then fs j v else v) s s.
Proof.
  apply stepped_refl; [|reflexivity]. intros v _. apply bias_partial_0.
Qed.

Lemma stepped_partial_S filterVars biases dn p (fs : nat -> Vec -> Vec)
  (kz : nat) s0 s s' :
  (forall v, at_key (addr biases) s0 = Some v -> (kz < length v)%nat) ->
  stepped filterVars biases (bias_partial dn p kz)
    (fun j v => if (j <? kz)%nat then fs j v else v) s0 s ->
  stepped filterVars biases
    (fun v => <[kz := (default 0%float (v !! kz)
                       + cell_at dn (fst p) (snd p) (Z.of_nat kz))%float]> v)
    (fun j v => if decide (j = kz) then fs kz v else v) s s' ->
  stepped filterVars biases (bias_partial dn p (S kz))
    (fun j v => if (j <? S kz)%nat then fs j v else v) s0 s'.
Proof.
  intros Hlen H1 H2. eapply stepped_trans; [exact H1|exact H2| |].
  - intros v Hv. apply bias_partial_S. exact (Hlen v Hv).
  - intros j fv v Hj Hv. simpl.
    destruct (decide (j = kz)) as [->|Hne].
    + rewrite Nat.ltb_irrefl.
      destruct (Nat.ltb_spec kz (S kz)); [reflexivity|lia].
    + destruct (Nat.ltb_spec j kz), (Nat.ltb_spec j (S kz));
        try reflexivity; lia.
Qed.

Lemma stepped_partial_all filterVars biases dn p (fs : nat -> Vec -> Vec)
  (n : nat) s0 s :
  length filterVars = n ->
  (forall v, at_key (addr biases) s0 = Some v -> (length v <= n)%nat) ->
  stepped filterVars biases (bias_partial dn p n)
    (fun j v => if (j <? n)%nat then fs j v else v) s0 s ->
  stepped filterVars biases (fun g => bias_step dn g p) fs s0 s.
Proof.
  intros Hn Hlen H. eapply stepped_ext; [exact H| |].
  - intros v Hv. apply bias_partial_all. exact (Hlen v Hv).
  - intros j fv v Hj Hv. simpl.
    assert (j < n)%nat by (rewrite <- Hn; eapply lookup_lt_Some; eauto).
    destruct (Nat.ltb_spec j n); [reflexivity|lia].
Qed.

(** The accumulators position by position. *)
Lemma stepped_snoc filterVars biases (B : Vec -> Z * Z -> Vec)
  (F : nat -> Vec -> Z * Z -> Vec) ps p s0 s s' :
  stepped filterVars biases (fun g => foldl B g ps)
    (fun j g => foldl (F j) g ps) s0 s ->
  stepped filterVars biases (fun g => B g p) (fun j g => F j g p) s s' ->
  stepped filterVars biases (fun g => foldl B g (ps ++ [p]))
    (fun j g => foldl (F j) g (ps ++ [p])) s0 s'.
Proof.
  intros H1 H2. eapply stepped_trans; [exact H1|exact H2| |].
  - intros v _. rewrite foldl_snoc. reflexivity.
  - intros j fv v _ _. simpl. rewrite foldl_snoc. reflexivity.
Qed.

(** A multiply-add of the whole input at a negative offset, the
    filter-gradient step of the dual backward pass, against a scaled add of
    the cropped patch, that of the plain one: with a MulAdd that clips, on
    the values they are one function. *)
Lemma MulAdd_clips_negative_offset (t : Tensor3) (x y : Z) (cr patch : Tensor3)
  (s : float) (g : Vec) :
  Crop t x y cr = Ok patch ->
  length g = length (Data cr) ->
  MulAdd_clips (mkTensor3 (Width cr) (Height cr) (Depth cr) g) (- x) (- y) t s
  = Ok (mkTensor3 (Width cr) (Height cr) (Depth cr)
          (axpy_elems s (Data patch) g)).
Proof.
  intros Hcrop Hg.
  apply Crop_inv in Hcrop as (Ht & Ht1 & Hd & Hx & Hx' & Hy & Hy' & ->).
  pose proof (tensor_ok_inv _ Ht) as (Tw & Th & Td & Tl).
  pose proof (tensor_ok_inv _ Ht1) as (T1w & T1h & T1d & T1l).
  unfold MulAdd_clips. rewrite Ht.
  rewrite tensor_ok_true by (simpl; lia). simpl.
  destruct (Z.eqb_spec (Depth cr) (Depth t)); [|lia]. simpl.
  f_equal. f_equal. apply list_eq. intros n.
  destruct (decide (n < length g)%nat) as [Hn|Hn].
  - rewrite tabulate_lookup by exact Hn.
    unfold axpy_elems. rewrite lookup_zip_with.
    rewrite tabulate_lookup by lia. simpl.
    destruct (lookup_lt_is_Some_2 g n Hn) as [v Hv]. rewrite Hv. simpl.
    rewrite (data_at_lookup g n v Hv).
    assert (Hpos : 0 < Width cr /\ 0 < Depth cr).
    { split; nia. }
    pose proof (coords_bounds (Width cr) (Depth cr) (Z.of_nat n)
                  ltac:(lia) ltac:(lia) ltac:(lia)) as Hc.
    unfold coords in Hc.
    set (i := (Z.of_nat n `div` Depth cr) `mod` Width cr) in *.
    set (j := (Z.of_nat n `div` Depth cr) `div` Width cr) in *.
    set (k := Z.of_nat n `mod` Depth cr) in *.
    destruct Hc as (Hi & Hj & Hk & En).
    assert (Hjh : j < Height cr).
    { destruct (Z.lt_ge_cases j (Height cr)) as [Hlt|Hge]; [exact Hlt|].
      assert (Height cr * Width cr <= j * Width cr + i) by nia.
      assert (Depth cr * (Height cr * Width cr) <= Depth cr * (j * Width cr + i))
        by (apply Z.mul_le_mono_nonneg_l; lia).
      nia. }
    destruct (Z.leb_spec 0 (i - - x)); [|lia].
    destruct (Z.ltb_spec (i - - x) (Width t)); [|lia].
    destruct (Z.leb_spec 0 (j - - y)); [|lia].
    destruct (Z.ltb_spec (j - - y) (Height t)); [|lia].
    simpl. unfold flat_index. do 4 f_equal; lia.
  - rewrite !lookup_ge_None_2; [reflexivity| |].
    + unfold axpy_elems. rewrite length_zip_with, tabulate_length. lia.
    + rewrite tabulate_length. lia.
Qed.

(** With a MulAdd that clips, [MulAdd] is [MulAdd_clips] everywhere. *)
Lemma MulAdd_all_clips beyond t x y t1 s :
  clipping beyond -> MulAdd beyond t x y t1 s = MulAdd_clips t x y t1 s.
Proof.
  intros H. unfold MulAdd. rewrite H. unfold MulAdd_clips.
  destruct (tensor_ok t && tensor_ok t1 && (Depth t =? Depth t1)); simpl;
    [|reflexivity].
  destruct ((0 <=? x) && (x + Width t1 <=? Width t) && (0 <=? y)
            && (y + Height t1 <=? Height t)); reflexivity.
Qed.

Lemma MulAdd_clips_Ok t x y t1 s :
  tensor_ok t = true -> tensor_ok t1 = true -> Depth t = Depth t1 ->
  exists t', MulAdd_clips t x y t1 s = Ok t'
    /\ Width t' = Width t /\ Height t' = Height t /\ Depth t' = Depth t
    /\ length (Data t') = length (Data t).
Proof.
  intros H1 H2 H3. unfold MulAdd_clips. rewrite H1, H2. simpl.
  destruct (Z.eqb_spec (Depth t) (Depth t1)); [|contradiction].
  eexists. split; [reflexivity|]. simpl. rewrite tabulate_length. auto.
Qed.

Lemma MulAdd_clipping_Ok beyond :
  clipping beyond ->
  forall t x y t1 s,
  tensor_ok t = true -> tensor_ok t1 = true -> Depth t = Depth t1 ->
  exists t', MulAdd beyond t x y t1 s = Ok t'
    /\ Width t' = Width t /\ Height t' = Height t /\ Depth t' = Depth t
    /\ length (Data t') = length (Data t).
Proof.
  intros H t x y t1 s. rewrite (MulAdd_all_clips beyond _ _ _ _ _ H).
  apply MulAdd_clips_Ok.
Qed.

(** The two filter-gradient steps on an accumulator of the filters' shape. *)
Lemma filter_gradient_steps_on_vector beyond c filters filterVars biases input
  x y s g :
  clipping beyond ->
  valid_layer c filters filterVars biases ->
  Z.of_nat (length input) = InputWidth c * InputHeight c * InputDepth c ->
  0 <= x < shape_law (InputWidth c) (FilterWidth c) (Stride c) ->
  0 <= y < shape_law (InputHeight c) (FilterHeight c) (Stride c) ->
  Z.of_nat (length g) = FilterWidth c * FilterHeight c * InputDepth c ->
  exists patch,
    patch_at c input x y = Ok patch
    /\ axpy_into s patch g = Ok (axpy_elems s (Data patch) g)
    /\ muladd_into beyond c (int_mul x (Stride c)) (int_mul y (Stride c))
         (inputToTensor c input) s g
       = Ok (axpy_elems s (Data patch) g).
Proof.
  intros Hclips V Hin Hx Hy Hg.
  pose proof V as [VF VV VB VS VW VH VD Vc Vv Vb Vl].
  pose proof (zero_tensor_shaped c ltac:(lia) ltac:(lia) ltac:(lia)) as Hzs.
  destruct (valid_crop c _ _ _ input x y _ V Hin Hx Hy Hzs)
    as (Ex & Ey & patch & Hcrop & (Pw & Ph & Pd & Pl)).
  exists patch.
  split; [apply (patch_at_Crop c input x y _ patch VD ltac:(lia) ltac:(lia)
                   Hzs Hcrop)|].
  split.
  - unfold axpy_into. apply Axpy_Ok. lia.
  - unfold muladd_into. rewrite Ex, Ey.
    destruct (window_fits _ _ _ x VS Hx) as [Hx0 Hx1].
    destruct (window_fits _ _ _ y VS Hy) as [Hy0 Hy1].
    assert (Hm : max_int = 2 ^ 63 - 1) by reflexivity.
    rewrite !int_neg_small by (unfold is_int, min_int; lia).
    pose proof (MulAdd_clips_negative_offset (inputToTensor c input)
                  (x * Stride c) (y * Stride c) _ patch s g Hcrop) as HM.
    simpl in HM. unfold filterToTensor.
    rewrite (MulAdd_all_clips beyond _ _ _ _ _ Hclips), HM; [reflexivity|].
    rewrite zeros_length. lia.
Qed.

Lemma muladd_into_runs beyond c filters filterVars biases input x y s g :
  clipping beyond ->
  valid_layer c filters filterVars biases ->
  Z.of_nat (length input) = InputWidth c * InputHeight c * InputDepth c ->
  0 <= x < shape_law (InputWidth c) (FilterWidth c) (Stride c) ->
  0 <= y < shape_law (InputHeight c) (FilterHeight c) (Stride c) ->
  Z.of_nat (length g) = FilterWidth c * FilterHeight c * InputDepth c ->
  muladd_into beyond c (int_mul x (Stride c)) (int_mul y (Stride c))
    (inputToTensor c input) s g
  = Ok (axpy_elems s (patch_data c input (x, y)) g)
  /\ length (axpy_elems s (patch_data c input (x, y)) g) = length g.
Proof.
  intros Hclips V Hin Hx Hy Hg.
  destruct (filter_gradient_steps_on_vector beyond c _ _ _ input x y s g Hclips V
              Hin Hx Hy Hg) as (patch & Hp & _ & HM).
  destruct (patch_at_window c _ _ _ input x y V Hin Hx Hy)
    as (patch' & Hp' & (_ & _ & _ & Hl) & _).
  assert (patch' = patch) by congruence. subst patch'.
  unfold patch_data. simpl. rewrite Hp. split; [exact HM|].
  apply axpy_elems_length. lia.
Qed.

Lemma filtersR_handles c filterVars biases rv (k : nat) fv :
  FilterVars c = Some filterVars ->
  valid_directions c filterVars biases rv ->
  0 <= FilterWidth c -> 0 <= FilterHeight c -> 0 <= InputDepth c ->
  filterVars !! k = Some fv ->
  exists rfilter,
    index (filtersR c rv) (Z.of_nat k) = Ok rfilter
    /\ forall t, rfilter = Some t ->
         tensor_ok t = true /\ Depth t = InputDepth c.
Proof.
  intros HF [Vf _] H1 H2 H3 Hk. unfold filtersR. rewrite HF. simpl.
  eexists. split.
  - apply index_lookup. rewrite list_lookup_fmap, Hk. reflexivity.
  - intros t Ht. simpl in Ht.
    destruct (map_index rv (Some fv)) as [data|] eqn:E; [|discriminate].
    inversion Ht; subst t. split; [|reflexivity].
    apply tensor_ok_true; simpl; try assumption.
    apply (Vf fv); [eapply list_elem_of_lookup_2; eauto|exact E].
Qed.

Section BackwardR.

Variable beyond : MulAdd_unspecified.
Hypothesis Hclips : clipping beyond.

Variables (layer : ConvLayer) (filters : list Tensor3)
  (filterVars : list autofunc_Variable) (biases : autofunc_Variable).
Hypothesis V : valid_layer layer filters filterVars biases.
Hypothesis Hfs : Forall (filter_shaped layer) filters.

Variable rv : VarMap.
Hypothesis Vrv : valid_directions layer filterVars biases rv.

Let ow := shape_law (InputWidth layer) (FilterWidth layer) (Stride layer).
Let oh := shape_law (InputHeight layer) (FilterHeight layer) (Stride layer).

Variables (input inputR upstream upstreamR : Vec) (rgrad0 grad0 : VarMap)
  (constant : bool).
Hypothesis Hin :
  Z.of_nat (length input) = InputWidth layer * InputHeight layer * InputDepth layer.
Hypothesis HinR :
  Z.of_nat (length inputR) = InputWidth layer * InputHeight layer * InputDepth layer.
Hypothesis Hup : Z.of_nat (length upstream) = ow * oh * FilterCount layer.
Hypothesis HupR : Z.of_nat (length upstreamR) = ow * oh * FilterCount layer.
Hypothesis Vg : valid_directions layer filterVars biases grad0.
Hypothesis VgR : valid_directions layer filterVars biases rgrad0.

Let down := upstream_tensor layer upstream.
Let downR := upstream_tensor layer upstreamR.

Lemma Get_upstream (u : Vec) x y (k : nat) :
  Z.of_nat (length u) = ow * oh * FilterCount layer ->
  0 <= x < ow -> 0 <= y < oh -> (k < length filters)%nat ->
  Get (mkTensor3 ow oh (OutputDepth layer) u) x y (Z.of_nat k)
  = Ok (cell_at (upstream_tensor layer u) x y (Z.of_nat k)).
Proof.
  intros Hu Hx Hy Hk. pose proof (valid_count _ _ _ _ V) as Vc.
  assert (Hz : 0 <= Z.of_nat k < FilterCount layer) by lia.
  assert (H : exists sp, Get (mkTensor3 ow oh (OutputDepth layer) u)
                           x y (Z.of_nat k) = Ok sp).
  { unfold Get. apply index_in_range. simpl.
    pose proof (flat_index_bounds (mkTensor3 ow oh (OutputDepth layer) u)
                  x y (Z.of_nat k) Hx Hy Hz) as Hb.
    simpl in Hb. unfold OutputDepth in *. lia. }
  destruct H as (sp & H). rewrite H. f_equal. apply (Get_cell_at _ _ _ _ _ H).
Qed.

(** One round of the loop over the filters. *)
Lemma propagateR_filter_round x y (k : nat) filter grads s :
  0 <= x < ow -> 0 <= y < oh ->
  filters !! k = Some filter ->
  localsR_shaped layer constant grads ->
  shape (fst s) = shape rgrad0 -> shape (snd s) = shape grad0 ->
  exists grads' s',
    (sumPartial ← pure (Get (mkTensor3 ow oh (OutputDepth layer) upstream)
                          x y (0 + Z.of_nat k));
     sumPartialR ← pure (Get (mkTensor3 ow oh (OutputDepth layer) upstreamR)
                           x y (0 + Z.of_nat k));
     filterGrad ← pure (index (snd (gradsFromMap layer grad0)) (0 + Z.of_nat k));
     _ ← on_grad (update_opt filterGrad
                    (muladd_into beyond layer (int_mul x (Stride layer))
                       (int_mul y (Stride layer)) (inputToTensor layer input)
                       sumPartial));
     filterGradR ← pure (index (snd (gradsFromMap layer rgrad0))
                           (0 + Z.of_nat k));
     _ ← on_rgrad (update_opt filterGradR
                     (muladd_into beyond layer (int_mul x (Stride layer))
                        (int_mul y (Stride layer)) (inputToTensor layer input)
                        sumPartialR));
     _ ← on_rgrad (update_opt filterGradR
                     (muladd_into beyond layer (int_mul x (Stride layer))
                        (int_mul y (Stride layer)) (inputToTensor layer inputR)
                        sumPartial));
     _ ← on_grad (update_opt (fst (gradsFromMap layer grad0))
                    (add_at (0 + Z.of_nat k) sumPartial));
     _ ← on_rgrad (update_opt (fst (gradsFromMap layer rgrad0))
                     (add_at (0 + Z.of_nat k) sumPartialR));
     match grads with
     | Some (inputGrad, inputGradR) =>
         inputGrad ← pure (MulAdd beyond inputGrad (int_mul x (Stride layer))
                             (int_mul y (Stride layer)) filter sumPartial);
         inputGradR ← pure (MulAdd beyond inputGradR (int_mul x (Stride layer))
                              (int_mul y (Stride layer)) filter sumPartialR);
         rfilter ← pure (index (filtersR layer rv) (0 + Z.of_nat k));
         inputGradR ←
           match rfilter with
           | Some rfilter =>
               pure (MulAdd beyond inputGradR (int_mul x (Stride layer))
                       (int_mul y (Stride layer)) rfilter sumPartial)
           | None => mret inputGradR
           end;
         mret (Some (inputGrad, inputGradR))
     | None => mret None
     end) s = (s', Ok grads')
    /\ localsR_shaped layer constant grads'
    /\ shape (fst s') = shape rgrad0 /\ shape (snd s') = shape grad0
    /\ (NoDup (addr biases :: (addr <$> filterVars)) ->
        stepped filterVars biases
          (fun v => <[k := (default 0%float (v !! k)
                            + cell_at downR (fst (x, y)) (snd (x, y))
                                (Z.of_nat k))%float]> v)
          (fun j v => if decide (j = k)
                      then filter_stepR layer input inputR down downR k v (x, y)
                      else v)
          (fst s) (fst s')
        /\ stepped filterVars biases
             (fun v => <[k := (default 0%float (v !! k)
                               + cell_at down (fst (x, y)) (snd (x, y))
                                   (Z.of_nat k))%float]> v)
             (fun j v => if decide (j = k)
                         then filter_step layer input down k v (x, y)
                         else v)
             (snd s) (snd s')).
Proof.
  intros Hx Hy Hk Hg Hsr Hsg. destruct s as [rg g]. simpl in Hsr, Hsg.
  pose proof V as [VF VFV VB VS VW VH VD Vc Vv Vb Vl].
  rewrite Z.add_0_l.
  assert (Hkn : (k < length filters)%nat) by (eapply lookup_lt_Some; eauto).
  set (sp := cell_at down x y (Z.of_nat k)).
  set (spR := cell_at downR x y (Z.of_nat k)).
  rewrite (run_pure_Ok _ _ _ _ (Get_upstream upstream x y k Hup Hx Hy Hkn)).
  rewrite (run_pure_Ok _ _ _ _ (Get_upstream upstreamR x y k HupR Hx Hy Hkn)).
  fold down downR. fold sp spR.
  destruct (lookup_lt_is_Some_2 filterVars k ltac:(lia)) as (fv & Hfv).
  destruct (gradsFromMap_handles layer filterVars biases grad0 VFV VB)
    as (Hbg & Hfg).
  destruct (gradsFromMap_handles layer filterVars biases rgrad0 VFV VB)
    as (HbgR & HfgR).
  destruct (Hfg k fv Hfv) as (h & Hh & Hhk).
  destruct (HfgR k fv Hfv) as (hR & HhR & HhkR).
  (* the filter's accumulator in the gradient *)
  rewrite (run_pure_Ok _ _ _ _ Hh).
  destruct (update_filter_runs filterVars biases h k fv
              (muladd_into beyond layer (int_mul x (Stride layer))
                 (int_mul y (Stride layer)) (inputToTensor layer input) sp)
              (axpy_elems sp (patch_data layer input (x, y))) g Hfv)
    as (g1 & Hg1 & Hsg1 & Hstg1).
  { destruct Hhk as [-> | [-> Hn]]; [left; reflexivity|right].
    split; [reflexivity|]. eapply shape_at_key_None; eauto. }
  { intros v Hv. apply (muladd_into_runs beyond layer filters filterVars biases); auto.
    apply (filter_accumulator_length layer filterVars biases grad0 g k fv v
             Vg Hsg Hfv Hv). }
  rewrite (acc_bind_returns _ _ _ _ _ (on_grad_returns _ rg _ _ _ Hg1)).
  assert (Hsg1' : shape g1 = shape grad0) by congruence.
  (* the filter's accumulator in the r-gradient, twice *)
  rewrite (run_pure_Ok _ _ _ _ HhR).
  destruct (update_filter_runs filterVars biases hR k fv
              (muladd_into beyond layer (int_mul x (Stride layer))
                 (int_mul y (Stride layer)) (inputToTensor layer input) spR)
              (axpy_elems spR (patch_data layer input (x, y))) rg Hfv)
    as (rg1 & Hrg1 & Hsr1 & Hstr1).
  { destruct HhkR as [-> | [-> Hn]]; [left; reflexivity|right].
    split; [reflexivity|]. eapply shape_at_key_None; eauto. }
  { intros v Hv. apply (muladd_into_runs beyond layer filters filterVars biases); auto.
    apply (filter_accumulator_length layer filterVars biases rgrad0 rg k fv v
             VgR Hsr Hfv Hv). }
  rewrite (acc_bind_returns _ _ _ _ _ (on_rgrad_returns _ _ g1 _ _ Hrg1)).
  assert (Hsr1' : shape rg1 = shape rgrad0) by congruence.
  destruct (update_filter_runs filterVars biases hR k fv
              (muladd_into beyond layer (int_mul x (Stride layer))
                 (int_mul y (Stride layer)) (inputToTensor layer inputR) sp)
              (axpy_elems sp (patch_data layer inputR (x, y))) rg1 Hfv)
    as (rg2 & Hrg2 & Hsr2 & Hstr2).
  { destruct HhkR as [-> | [-> Hn]]; [left; reflexivity|right].
    split; [reflexivity|]. eapply shape_at_key_None; eauto. }
  { intros v Hv. apply (muladd_into_runs beyond layer filters filterVars biases); auto.
    apply (filter_accumulator_length layer filterVars biases rgrad0 rg1 k fv
             v VgR Hsr1' Hfv Hv). }
  rewrite (acc_bind_returns _ _ _ _ _ (on_rgrad_returns _ _ g1 _ _ Hrg2)).
  assert (Hsr2' : shape rg2 = shape rgrad0) by congruence.
  (* the accumulators of the biases *)
  destruct (update_bias_runs filterVars biases (fst (gradsFromMap layer grad0))
              (add_at (Z.of_nat k) sp)
              (fun v => <[k := (default 0%float (v !! k) + sp)%float]> v) g1)
    as (g2 & Hg2 & Hsg2 & Hstg2).
  { destruct Hbg as [Hbg | [Hbg Hn]]; [left; exact Hbg|right].
    split; [exact Hbg|]. eapply shape_at_key_None; eauto. }
  { intros v Hv. apply add_at_runs.
    rewrite (bias_accumulator_length layer filters filterVars biases grad0
               g1 v V Vg Hsg1' Hv). exact Hkn. }
  rewrite (acc_bind_returns _ _ _ _ _ (on_grad_returns _ rg2 _ _ _ Hg2)).
  destruct (update_bias_runs filterVars biases (fst (gradsFromMap layer rgrad0))
              (add_at (Z.of_nat k) spR)
              (fun v => <[k := (default 0%float (v !! k) + spR)%float]> v) rg2)
    as (rg3 & Hrg3 & Hsr3 & Hstr3).
  { destruct HbgR as [HbgR | [HbgR Hn]]; [left; exact HbgR|right].
    split; [exact HbgR|]. eapply shape_at_key_None; eauto. }
  { intros v Hv. apply add_at_runs.
    rewrite (bias_accumulator_length layer filters filterVars biases rgrad0
               rg2 v V VgR Hsr2' Hv). exact Hkn. }
  rewrite (acc_bind_returns _ _ _ _ _ (on_rgrad_returns _ _ g2 _ _ Hrg3)).
  assert (Hshapes : shape rg3 = shape rgrad0 /\ shape g2 = shape grad0)
    by (split; congruence).
  assert (Hstep : NoDup (addr biases :: (addr <$> filterVars)) ->
    stepped filterVars biases
      (fun v => <[k := (default 0%float (v !! k) + spR)%float]> v)
      (fun j v => if decide (j = k)
                  then filter_stepR layer input inputR down downR k v (x, y)
                  else v) rg rg3
    /\ stepped filterVars biases
         (fun v => <[k := (default 0%float (v !! k) + sp)%float]> v)
         (fun j v => if decide (j = k)
                     then filter_step layer input down k v (x, y)
                     else v) g g2).
  { intros ND. split.
    - eapply stepped_trans; [|exact (Hstr3 ND)| |].
      + eapply stepped_trans; [exact (Hstr1 ND)|exact (Hstr2 ND)| |].
        * intros v _. reflexivity.
        * intros j fv' v _ _. reflexivity.
      + intros v _. reflexivity.
      + intros j fv' v _ _. simpl. destruct (decide (j = k)); reflexivity.
    - eapply stepped_trans; [exact (Hstg1 ND)|exact (Hstg2 ND)| |].
      + intros v _. reflexivity.
      + intros j fv' v _ _. simpl. destruct (decide (j = k)); reflexivity. }
  destruct Hshapes as [HsR HsG].
  destruct grads as [[ig igR]|]; simpl in Hg.
  - destruct Hg as (Hc & Hig & HigR).
    assert (Hfok : tensor_ok filter = true /\ Depth filter = InputDepth layer).
    { rewrite Forall_forall in Hfs.
      pose proof (Hfs filter ltac:(eapply list_elem_of_lookup_2; eauto)) as Hf.
      split; [apply (filter_shaped_ok layer); try lia; exact Hf|].
      destruct Hf as (_ & _ & Hd & _). exact Hd. }
    destruct Hfok as [Hfok Hfd].
    destruct (MulAdd_clipping_Ok beyond Hclips ig (int_mul x (Stride layer))
                (int_mul y (Stride layer)) filter sp) as (ig' & Hm & Mw & Mh & Md & Ml).
    { apply (input_shaped_ok layer); try lia; exact Hig. }
    { exact Hfok. }
    { destruct Hig as (_ & _ & -> & _). congruence. }
    assert (Hig' : input_shaped layer ig').
    { destruct Hig as (Iw & Ih & Id & Il). unfold input_shaped.
      rewrite Mw, Mh, Md, Ml. auto. }
    rewrite (run_pure_Ok _ _ _ _ Hm).
    destruct (MulAdd_clipping_Ok beyond Hclips igR (int_mul x (Stride layer))
                (int_mul y (Stride layer)) filter spR) as (igR' & HmR & Mw' & Mh' & Md' & Ml').
    { apply (input_shaped_ok layer); try lia; exact HigR. }
    { exact Hfok. }
    { destruct HigR as (_ & _ & -> & _). congruence. }
    assert (HigR' : input_shaped layer igR').
    { destruct HigR as (Iw & Ih & Id & Il). unfold input_shaped.
      rewrite Mw', Mh', Md', Ml'. auto. }
    rewrite (run_pure_Ok _ _ _ _ HmR).
    destruct (filtersR_handles layer filterVars biases rv k fv VFV Vrv
                ltac:(lia) ltac:(lia) VD Hfv) as (rfilter & Hrf & Hrfok).
    rewrite (run_pure_Ok _ _ _ _ Hrf).
    destruct rfilter as [rf|].
    + destruct (Hrfok rf eq_refl) as [Hrok Hrd].
      destruct (MulAdd_clipping_Ok beyond Hclips igR' (int_mul x (Stride layer))
                  (int_mul y (Stride layer)) rf sp)
        as (igR'' & HmR' & Mw'' & Mh'' & Md'' & Ml'').
      { apply (input_shaped_ok layer); try lia; exact HigR'. }
      { exact Hrok. }
      { destruct HigR' as (_ & _ & -> & _). congruence. }
      rewrite (run_pure_Ok _ _ _ _ HmR').
      eexists _, _. split; [reflexivity|].
      split; [|split; [exact HsR|split; [exact HsG|exact Hstep]]].
      simpl. split; [exact Hc|]. split; [exact Hig'|].
      destruct HigR' as (Iw & Ih & Id & Il). unfold input_shaped.
      rewrite Mw'', Mh'', Md'', Ml''. auto.
    + rewrite run_ret_bind.
      eexists _, _. split; [reflexivity|].
      split; [|split; [exact HsR|split; [exact HsG|exact Hstep]]].
      simpl. split; [exact Hc|]. split; assumption.
  - eexists _, _. split; [reflexivity|].
    split; [exact I|split; [exact HsR|split; [exact HsG|exact Hstep]]].
Qed.

(** The loops of [PropagateRGradient] return, with the accumulators of the
    lengths they had; when the parameters are distinct variables, each
    accumulator of the two maps has received the steps of all positions,
    in the order of the visits. *)
Lemma propagateR_loops_returns outT grads s :
  Width outT = ow -> Height outT = oh ->
  localsR_shaped layer constant grads ->
  shape (fst s) = shape rgrad0 -> shape (snd s) = shape grad0 ->
  exists grads' s',
    propagateR_loops beyond layer outT (inputToTensor layer input)
      (inputToTensor layer inputR)
      (mkTensor3 ow oh (OutputDepth layer) upstream)
      (mkTensor3 ow oh (OutputDepth layer) upstreamR)
      (fst (gradsFromMap layer grad0)) (snd (gradsFromMap layer grad0))
      (fst (gradsFromMap layer rgrad0)) (snd (gradsFromMap layer rgrad0))
      (filtersR layer rv) grads s = (s', Ok grads')
    /\ localsR_shaped layer constant grads'
    /\ shape (fst s') = shape rgrad0 /\ shape (snd s') = shape grad0
    /\ (NoDup (addr biases :: (addr <$> filterVars)) ->
        stepped filterVars biases
          (fun g => foldl (bias_step downR) g (positions ow oh))
          (fun j g => foldl (filter_stepR layer input inputR down downR j) g
                        (positions ow oh))
          (fst s) (fst s')
        /\ stepped filterVars biases
             (fun g => foldl (bias_step down) g (positions ow oh))
             (fun j g => foldl (filter_step layer input down j) g
                           (positions ow oh))
             (snd s) (snd s')).
Proof.
  intros Hw Hh Hl Hsr Hsg. unfold propagateR_loops, forA_upto. rewrite Hw, Hh.
  pose proof V as [VF VFV VB VS VW VH VD Vc Vv Vb Vl].
  assert (Hoh : 0 <= oh) by apply shape_law_nonneg.
  assert (How : 0 <= ow) by apply shape_law_nonneg.
  set (I := fun (ps : list (Z * Z)) (l : option (Tensor3 * Tensor3))
              (s1 : VarMap * VarMap) =>
              localsR_shaped layer constant l
              /\ shape (fst s1) = shape rgrad0 /\ shape (snd s1) = shape grad0
              /\ (NoDup (addr biases :: (addr <$> filterVars)) ->
                  stepped filterVars biases
                    (fun g => foldl (bias_step downR) g ps)
                    (fun j g => foldl (filter_stepR layer input inputR down
                                         downR j) g ps)
                    (fst s) (fst s1)
                  /\ stepped filterVars biases
                       (fun g => foldl (bias_step down) g ps)
                       (fun j g => foldl (filter_step layer input down j) g ps)
                       (snd s) (snd s1))).
  match goal with |- context [forA_from 0 ?n ?body grads] =>
    destruct (forA_from_inv
                (fun (ky : nat) l s1 => I (positions ow (Z.of_nat ky)) l s1)
                body n 0 grads s)
      as (l' & s' & Hrun & Hl' & Hsr' & Hsg' & Hst')
  end.
  { split; [assumption|]. split; [assumption|]. split; [assumption|].
    intros _. split; apply stepped_refl; reflexivity. }
  { intros ky l sy Hky (Hly & Hsry & Hsgy & Hsty). rewrite Z.add_0_l.
    assert (Hy : 0 <= Z.of_nat ky < oh) by lia.
    match goal with |- context [forA_from 0 ?n ?body l] =>
      destruct (forA_from_inv
                  (fun (kx : nat) l s1 =>
                     I (positions ow (Z.of_nat ky)
                        ++ ((fun x => (x, Z.of_nat ky))
                              <$> seqZ 0 (Z.of_nat kx))) l s1)
                  body n 0 l sy)
        as (l1 & s1 & Hrun1 & Hl1 & Hsr1 & Hsg1 & Hst1)
    end.
    - split; [assumption|]. split; [assumption|]. split; [assumption|].
      simpl. rewrite app_nil_r. exact Hsty.
    - intros kx gx sx Hkx (Hlx & Hsrx & Hsgx & Hstx). rewrite Z.add_0_l.
      assert (Hx : 0 <= Z.of_nat kx < ow) by lia.
      cbv zeta. rewrite VF. simpl elems. unfold forA_range.
      match goal with |- context [forA_range_from 0 filters ?body gx] =>
        destruct (forA_range_from_inv
                    (fun (kz : nat) g sk =>
                       localsR_shaped layer constant g
                       /\ shape (fst sk) = shape rgrad0
                       /\ shape (snd sk) = shape grad0
                       /\ (NoDup (addr biases :: (addr <$> filterVars)) ->
                           stepped filterVars biases
                             (bias_partial downR (Z.of_nat kx, Z.of_nat ky) kz)
                             (fun j v =>
                                if (j <? kz)%nat
                                then filter_stepR layer input inputR down downR
                                       j v (Z.of_nat kx, Z.of_nat ky)
                                else v)
                             (fst sx) (fst sk)
                           /\ stepped filterVars biases
                                (bias_partial down (Z.of_nat kx, Z.of_nat ky) kz)
                                (fun j v =>
                                   if (j <? kz)%nat
                                   then filter_step layer input down j v
                                          (Z.of_nat kx, Z.of_nat ky)
                                   else v)
                                (snd sx) (snd sk)))
                    body filters 0 gx sx)
          as (g2 & s2 & Hrun2 & Hg2 & Hsr2 & Hsg2 & Hst2)
      end.
      + split; [assumption|]. split; [assumption|]. split; [assumption|].
        intros _. split; apply stepped_partial_0.
      + intros k filter g sk Hk (Hgk & Hsrk & Hsgk & Hstk).
        destruct (propagateR_filter_round (Z.of_nat kx) (Z.of_nat ky) k filter
                    g sk Hx Hy Hk Hgk Hsrk Hsgk)
          as (g' & sk' & Hstep & Hg' & Hsr' & Hsg' & Hst').
        exists g', sk'. split; [exact Hstep|]. split; [assumption|].
        split; [assumption|]. split; [assumption|]. intros ND.
        destruct (Hstk ND) as [HkR HkG]. destruct (Hst' ND) as [HR HG].
        split.
        * eapply (stepped_partial_S filterVars biases downR
                    (Z.of_nat kx, Z.of_nat ky)
                    (fun j v => filter_stepR layer input inputR down downR j v
                                  (Z.of_nat kx, Z.of_nat ky)));
            [|exact HkR|exact HR].
          intros v Hv.
          rewrite (bias_accumulator_length layer filters filterVars biases
                     rgrad0 (fst sx) v V VgR Hsrx Hv).
          eapply lookup_lt_Some; eauto.
        * eapply (stepped_partial_S filterVars biases down
                    (Z.of_nat kx, Z.of_nat ky)
                    (fun j v => filter_step layer input down j v
                                  (Z.of_nat kx, Z.of_nat ky)));
            [|exact HkG|exact HG].
          intros v Hv.
          rewrite (bias_accumulator_length layer filters filterVars biases
                     grad0 (snd sx) v V Vg Hsgx Hv).
          eapply lookup_lt_Some; eauto.
      + exists g2, s2. split; [exact Hrun2|]. split; [assumption|].
        split; [assumption|]. split; [assumption|]. intros ND.
        destruct (Hstx ND) as [HxR HxG]. destruct (Hst2 ND) as [H2R H2G].
        rewrite row_S, app_assoc. split.
        * apply (stepped_snoc filterVars biases (bias_step downR)
                   (filter_stepR layer input inputR down downR) _
                   (Z.of_nat kx, Z.of_nat ky) _ (fst sx)); [exact HxR|].
          apply (stepped_partial_all filterVars biases downR _
                   (fun j v => filter_stepR layer input inputR down downR j v
                                 (Z.of_nat kx, Z.of_nat ky))
                   (length filters)); [exact Vv| |exact H2R].
          intros v Hv.
          rewrite (bias_accumulator_length layer filters filterVars biases
                     rgrad0 (fst sx) v V VgR Hsrx Hv). lia.
        * apply (stepped_snoc filterVars biases (bias_step down)
                   (filter_step layer input down) _
                   (Z.of_nat kx, Z.of_nat ky) _ (snd sx)); [exact HxG|].
          apply (stepped_partial_all filterVars biases down _
                   (fun j v => filter_step layer input down j v
                                 (Z.of_nat kx, Z.of_nat ky))
                   (length filters)); [exact Vv| |exact H2G].
          intros v Hv.
          rewrite (bias_accumulator_length layer filters filterVars biases
                     grad0 (snd sx) v V Vg Hsgx Hv). lia.
    - exists l1, s1. split; [exact Hrun1|]. split; [assumption|].
      split; [assumption|]. split; [assumption|]. rewrite positions_S.
      rewrite Z2Nat.id in Hst1 by exact How. exact Hst1. }
  exists l', s'. split; [exact Hrun|]. split; [assumption|].
  split; [assumption|]. split; [assumption|].
  rewrite Z2Nat.id in Hst' by exact Hoh. exact Hst'.
Qed.

End BackwardR.

Lemma ApplyR_node layer filters filterVars biases v input c :
  valid_layer layer filters filterVars biases ->
  Z.of_nat (length (RResult_Output input))
  = InputWidth layer * InputHeight layer * InputDepth layer ->
  ApplyR layer v input = Ok c ->
  R_Layer c = layer /\ R_Input c = input /\ RV c = v
  /\ Width (R_OutputTensor c)
     = shape_law (InputWidth layer) (FilterWidth layer) (Stride layer)
  /\ Height (R_OutputTensor c)
     = shape_law (InputHeight layer) (FilterHeight layer) (Stride layer)
  /\ Z.of_nat (length (convLayerRResult_Output c))
     = shape_law (InputWidth layer) (FilterWidth layer) (Stride layer)
       * shape_law (InputHeight layer) (FilterHeight layer) (Stride layer)
       * FilterCount layer.
Proof.
  intros V Hin HA.
  destruct (valid_output_shape _ _ _ _ V) as [HW HH].
  destruct (convolve_fills_output layer filters filterVars biases
              (RResult_Output input) V Hin)
    as (ow & oh & out & HW' & HH' & Hc & Ew & Eh & _ & Hlen & _).
  rewrite HW in HW'. rewrite HH in HH'. inversion HW'; inversion HH'; subst.
  unfold ApplyR in HA. destruct (uninitialized layer); [discriminate|].
  rewrite Hc in HA. simpl in HA.
  destruct (convolveR layer v (RResult_Output input) (ROutput input)) as [outR|];
    [|discriminate].
  simpl in HA. inversion HA; subst c.
  unfold convLayerRResult_Output. simpl.
  split; [reflexivity|]. split; [reflexivity|]. split; [reflexivity|].
  split; [congruence|]. split; [congruence|]. rewrite Hlen. congruence.
Qed.

(** The dual backward pass up to its last step: the loops return, and what
    is left is the propagation into the input, when it is not constant. *)
Lemma PropagateRGradient_run (beyond : MulAdd_unspecified)
  (layer : ConvLayer) (filters : list Tensor3)
  (filterVars : list autofunc_Variable) (biases : autofunc_Variable)
  (v : VarMap) (input : RResult) (c : convLayerRResult)
  (upstream upstreamR : Vec) (rgrad grad : VarMap) :
  clipping beyond ->
  valid_layer layer filters filterVars biases ->
  Forall (filter_shaped layer) filters ->
  valid_directions layer filterVars biases v ->
  Z.of_nat (length (RResult_Output input))
  = InputWidth layer * InputHeight layer * InputDepth layer ->
  Z.of_nat (length (ROutput input))
  = InputWidth layer * InputHeight layer * InputDepth layer ->
  ApplyR layer v input = Ok c ->
  length upstream = length (convLayerRResult_Output c) ->
  length upstreamR = length (convLayerRResult_Output c) ->
  valid_directions layer filterVars biases rgrad ->
  valid_directions layer filterVars biases grad ->
  exists s' (inputGrads : option (Vec * Vec)),
    convLayerRResult_PropagateRGradient beyond c upstream upstreamR (rgrad, grad)
    = match inputGrads with
      | Some (u, uR) => PropagateRGradient input u uR s'
      | None => (s', Ok tt)
      end
    /\ shape (fst s') = shape rgrad /\ shape (snd s') = shape grad
    /\ (forall u uR, inputGrads = Some (u, uR) ->
          RResult_Constant input rgrad grad = false
          /\ length u = length (RResult_Output input)
          /\ length uR = length (RResult_Output input))
    /\ (NoDup (addr biases :: (addr <$> filterVars)) ->
        stepped filterVars biases
          (fun g => foldl (bias_step (upstream_tensor layer upstreamR)) g
                      (positions (Width (upstream_tensor layer upstream))
                                 (Height (upstream_tensor layer upstream))))
          (fun z g => foldl (filter_stepR layer (RResult_Output input)
                               (ROutput input) (upstream_tensor layer upstream)
                               (upstream_tensor layer upstreamR) z) g
                        (positions (Width (upstream_tensor layer upstream))
                                   (Height (upstream_tensor layer upstream))))
          rgrad (fst s')
        /\ stepped filterVars biases
             (fun g => foldl (bias_step (upstream_tensor layer upstream)) g
                         (positions (Width (upstream_tensor layer upstream))
                                    (Height (upstream_tensor layer upstream))))
             (fun z g => foldl (filter_step layer (RResult_Output input)
                                  (upstream_tensor layer upstream) z) g
                           (positions (Width (upstream_tensor layer upstream))
                                      (Height (upstream_tensor layer upstream))))
             grad (snd s')).
Proof.
  intros Hclips V Hfs Vv Hin HinR HA Hup HupR VgR Vg.
  destruct (ApplyR_node _ _ _ _ _ _ _ V Hin HA)
    as (EL & EI & EV & Ew & Eh & Elen).
  destruct (valid_output_shape _ _ _ _ V) as [HW HH].
  pose proof V as [VF VFV VB VS VW VH VD Vc Vvl Vb Vl].
  unfold convLayerRResult_PropagateRGradient. rewrite EL, EI, EV.
  unfold outputToTensor. rewrite HW, HH. simpl (_ ≫= _) at 1.
  rewrite (run_pure_Ok _ _ _ _ eq_refl).
  rewrite (run_pure_Ok _ _ _ _ eq_refl).
  rewrite run_get_state_bind. cbv beta iota.
  assert (HsizeI : 0 <= InputWidth layer * InputHeight layer * InputDepth layer)
    by (apply Z.mul_nonneg_nonneg; [apply Z.mul_nonneg_nonneg|]; lia).
  set (zi := mkTensor3 (InputWidth layer) (InputHeight layer) (InputDepth layer)
               (zeros (Z.to_nat (InputWidth layer * InputHeight layer
                                 * InputDepth layer)))).
  assert (Hzi : input_shaped layer zi).
  { unfold input_shaped, zi. simpl. rewrite zeros_length. repeat split; lia. }
  assert (Halloc : exists grads,
    (if RResult_Constant input rgrad grad then mret None
     else
       inputGrad ← pure (NewTensor3 (InputWidth layer) (InputHeight layer)
                                    (InputDepth layer));
       inputGradR ← pure (NewTensor3 (InputWidth layer) (InputHeight layer)
                                     (InputDepth layer));
       mret (Some (inputGrad, inputGradR))) (rgrad, grad)
    = ((rgrad, grad), Ok grads)
    /\ localsR_shaped layer (RResult_Constant input rgrad grad) grads).
  { destruct (RResult_Constant input rgrad grad).
    - exists None. split; [reflexivity|exact I].
    - exists (Some (zi, zi)). split.
      + rewrite (run_pure_Ok _ _ _ _ (NewTensor3_Ok _ _ _ HsizeI)).
        rewrite (run_pure_Ok _ _ _ _ (NewTensor3_Ok _ _ _ HsizeI)). reflexivity.
      + split; [reflexivity|]. split; exact Hzi. }
  destruct Halloc as (grads & Halloc & Hgs).
  destruct (gradsFromMap layer grad) as [biasGrad filterGrads] eqn:EG.
  destruct (gradsFromMap layer rgrad) as [biasGradR filterGradsR] eqn:EGR.
  cbv beta iota.
  rewrite (acc_bind_returns _ _ _ _ _ Halloc).
  assert (Hup' : Z.of_nat (length upstream)
                 = shape_law (InputWidth layer) (FilterWidth layer) (Stride layer)
                   * shape_law (InputHeight layer) (FilterHeight layer) (Stride layer)
                   * FilterCount layer) by (rewrite Hup; exact Elen).
  assert (HupR' : Z.of_nat (length upstreamR)
                 = shape_law (InputWidth layer) (FilterWidth layer) (Stride layer)
                   * shape_law (InputHeight layer) (FilterHeight layer) (Stride layer)
                   * FilterCount layer) by (rewrite HupR; exact Elen).
  destruct (propagateR_loops_returns beyond Hclips layer filters filterVars
              biases V Hfs v Vv
              (RResult_Output input) (ROutput input) upstream upstreamR
              rgrad grad (RResult_Constant input rgrad grad) Hin HinR Hup' HupR'
              Vg VgR (R_OutputTensor c) grads (rgrad, grad) Ew Eh Hgs eq_refl
              eq_refl)
    as (grads' & s' & Hrun & Hl' & Hsr' & Hsg' & Hst').
  rewrite EG, EGR in Hrun. simpl in Hrun.
  rewrite (acc_bind_returns _ _ _ _ _ Hrun).
  exists s', (match grads' with
              | Some (inputGrad, inputGradR) =>
                  Some (Data inputGrad, Data inputGradR)
              | None => None
              end).
  split; [destruct grads' as [[ig igR]|]; reflexivity|].
  split; [exact Hsr'|]. split; [exact Hsg'|]. split; [|exact Hst'].
  intros u uR Hu. destruct grads' as [[ig igR]|]; [|discriminate].
  inversion Hu; subst u uR.
  destruct Hl' as (Hc & (_ & _ & _ & Hil) & (_ & _ & _ & HilR)).
  split; [exact Hc|lia].
Qed.

(** X20.  Assuming that Tensor3.MulAdd, where section 4.1 does not say what
    it does (a negative offset, a source that reaches beyond the receiver),
    adds the part of the scaled source that falls inside the receiver: on a
    valid layer whose filters are tensors of the configured size, for a
    direction map, an input, upstream vectors and two gradient maps of the
    sizes of the layer, PropagateRGradient returns.  A constant input node
    is not propagated into; of one that is not constant, its own
    PropagateRGradient is assumed to return on vectors of the input's size
    against maps of the same keys and sizes. *)
Theorem PropagateRGradient_returns (beyond : MulAdd_unspecified)
  (layer : ConvLayer) (filters : list Tensor3)
  (filterVars : list autofunc_Variable) (biases : autofunc_Variable)
  (v : VarMap) (input : RResult) (c : convLayerRResult)
  (upstream upstreamR : Vec) (rgrad grad : VarMap) :
  clipping beyond ->
  valid_layer layer filters filterVars biases ->
  Forall (filter_shaped layer) filters ->
  valid_directions layer filterVars biases v ->
  Z.of_nat (length (RResult_Output input))
  = InputWidth layer * InputHeight layer * InputDepth layer ->
  Z.of_nat (length (ROutput input))
  = InputWidth layer * InputHeight layer * InputDepth layer ->
  ApplyR layer v input = Ok c ->
  length upstream = length (convLayerRResult_Output c) ->
  length upstreamR = length (convLayerRResult_Output c) ->
  valid_directions layer filterVars biases rgrad ->
  valid_directions layer filterVars biases grad ->
  (RResult_Constant input rgrad grad = false ->
   forall u uR s,
     length u = length (RResult_Output input) ->
     length uR = length (RResult_Output input) ->
     shape (fst s) = shape rgrad -> shape (snd s) = shape grad ->
     exists s', PropagateRGradient input u uR s = (s', Ok tt)) ->
  exists s',
    convLayerRResult_PropagateRGradient beyond c upstream upstreamR (rgrad, grad)
    = (s', Ok tt).
Proof.
  intros Hclips V Hfs Vv Hin HinR HA Hup HupR VgR Vg Hinput.
  destruct (PropagateRGradient_run beyond _ _ _ _ _ _ _ _ _ _ _ Hclips V Hfs Vv
              Hin HinR HA Hup HupR VgR Vg) as (s' & ig & Hrun & Hsr & Hsg & Hig & _).
  rewrite Hrun. destruct ig as [[u uR]|]; [|eexists; reflexivity].
  destruct (Hig u uR eq_refl) as (Hc & Hu & HuR). apply Hinput; assumption.
Qed.

(** X21.  Assuming that Tensor3.MulAdd, where section 4.1 does not say what
    it does (a negative offset, a source that reaches beyond the receiver),
    adds the part of the scaled source that falls inside the receiver: on a
    valid layer whose parameters are distinct variables, a
    PropagateRGradient that returns has added to the Gradient, for the
    biases, the upstream values of every position, and for filter z the
    input patch of every position scaled by the upstream value of z there.
    To the RGradient it has added, for the biases, the upstream R-values,
    and for filter z the input patch scaled by the upstream R-value
    followed by the patch of the input's R-output scaled by the upstream
    value.  Positions are visited row by row; an accumulator a map does
    not hold is not created. *)
Theorem PropagateRGradient_accumulates (beyond : MulAdd_unspecified)
  (layer : ConvLayer)
  (filters : list Tensor3) (filterVars : list autofunc_Variable)
  (biases : autofunc_Variable) (v : VarMap) (input : RResult)
  (c : convLayerRResult) (upstream upstreamR : Vec) (down downR : Tensor3)
  (rgrad grad rgrad' grad' : VarMap) :
  clipping beyond ->
  valid_layer layer filters filterVars biases ->
  Forall (filter_shaped layer) filters ->
  valid_directions layer filterVars biases v ->
  Z.of_nat (length (RResult_Output input))
  = InputWidth layer * InputHeight layer * InputDepth layer ->
  Z.of_nat (length (ROutput input))
  = InputWidth layer * InputHeight layer * InputDepth layer ->
  ApplyR layer v input = Ok c ->
  length upstream = length (convLayerRResult_Output c) ->
  length upstreamR = length (convLayerRResult_Output c) ->
  outputToTensor layer upstream = Ok down ->
  outputToTensor layer upstreamR = Ok downR ->
  valid_directions layer filterVars biases rgrad ->
  valid_directions layer filterVars biases grad ->
  NoDup (addr biases :: (addr <$> filterVars)) ->
  (forall u uR k, k ∈ addr biases :: (addr <$> filterVars) ->
     preserves (at_key2 k) (PropagateRGradient input u uR)) ->
  convLayerRResult_PropagateRGradient beyond c upstream upstreamR (rgrad, grad)
  = ((rgrad', grad'), Ok tt) ->
  (at_key (addr biases) grad'
   = (fun g => foldl (bias_step down) g
                 (positions (Width (R_OutputTensor c))
                            (Height (R_OutputTensor c))))
       <$> at_key (addr biases) grad
   /\ at_key (addr biases) rgrad'
      = (fun g => foldl (bias_step downR) g
                    (positions (Width (R_OutputTensor c))
                               (Height (R_OutputTensor c))))
          <$> at_key (addr biases) rgrad)
  /\ forall (z : nat) filterVar, filterVars !! z = Some filterVar ->
       at_key (addr filterVar) grad'
       = (fun g => foldl (filter_step layer (RResult_Output input) down z) g
                     (positions (Width (R_OutputTensor c))
                                (Height (R_OutputTensor c))))
           <$> at_key (addr filterVar) grad
       /\ at_key (addr filterVar) rgrad'
          = (fun g => foldl (filter_stepR layer (RResult_Output input)
                               (ROutput input) down downR z) g
                        (positions (Width (R_OutputTensor c))
                                   (Height (R_OutputTensor c))))
              <$> at_key (addr filterVar) rgrad.
Proof.
  intros Hclips V Hfs Vv Hin HinR HA Hup HupR Hdown HdownR VgR Vg ND Hframe
    Hret.
  destruct (ApplyR_node _ _ _ _ _ _ _ V Hin HA) as (_ & _ & _ & Ew & Eh & _).
  destruct (valid_output_shape _ _ _ _ V) as [HW HH].
  unfold outputToTensor in Hdown, HdownR.
  rewrite HW, HH in Hdown, HdownR. simpl in Hdown, HdownR.
  inversion Hdown; subst down. inversion HdownR; subst downR.
  clear Hdown HdownR.
  destruct (PropagateRGradient_run beyond _ _ _ _ _ _ _ _ _ _ _ Hclips V Hfs Vv
              Hin HinR HA Hup HupR VgR Vg) as (s' & ig & Hrun & _ & _ & _ & Hst).
  destruct (Hst ND) as [[HbR HfR] [Hb Hf]]. rewrite Ew, Eh.
  assert (Hsame : forall k, k ∈ addr biases :: (addr <$> filterVars) ->
                    at_key k rgrad' = at_key k (fst s')
                    /\ at_key k grad' = at_key k (snd s')).
  { intros k Hk. rewrite Hrun in Hret. destruct ig as [[u uR]|].
    - pose proof (Hframe u uR k Hk s') as Hp. rewrite Hret in Hp.
      unfold at_key2 in Hp. simpl in Hp. inversion Hp. auto.
    - inversion Hret; auto. }
  split.
  - destruct (Hsame (addr biases) ltac:(left)) as [-> ->]. split; assumption.
  - intros z fv Hz.
    assert (Hin' : addr fv ∈ addr biases :: (addr <$> filterVars)).
    { right. apply list_elem_of_fmap. exists fv. split; [reflexivity|].
      eapply list_elem_of_lookup_2; eauto. }
    destruct (Hsame (addr fv) Hin') as [-> ->].
    split; [exact (Hf z fv Hz)|exact (HfR z fv Hz)].
Qed.

Lemma RVariable_backward_returns v rv u uR s :
  (forall r, at_key (addr v) (fst s) = Some r -> (length uR <= length r)%nat) ->
  (forall r, at_key (addr v) (snd s) = Some r -> (length u <= length r)%nat) ->
  exists s', PropagateRGradient (NewRVariable v rv) u uR s = (s', Ok tt).
Proof.
  intros HR HG. destruct s as [rg g]. simpl in HR, HG. simpl.
  destruct (Variable_backward_returns v u g HG) as (g' & Hg').
  destruct (Variable_backward_returns v uR rg HR) as (rg' & Hrg').
  simpl in Hg', Hrg'.
  rewrite (acc_bind_returns _ _ _ _ _ (on_grad_returns _ rg _ _ _ Hg')).
  rewrite (on_rgrad_returns _ _ g' _ _ Hrg'). eauto.
Qed.

Lemma nil_directions_valid c filterVars biases :
  valid_directions c filterVars biases None.
Proof. split; [intros fv r _ H|intros r H]; discriminate. Qed.

Lemma MulAdd_clips_clipping : clipping MulAdd_clips.
Proof. intros t x y t1 s. reflexivity. Qed.

Lemma sample_filters_shaped :
  Forall (filter_shaped sample_layer)
    [mkTensor3 2 2 1 [1; 2; 3; 4]%float; mkTensor3 2 2 1 [0; 1; 0; 1]%float].
Proof. repeat constructor. Qed.

Lemma PropagateRGradient_returns_witness :
  exists s',
    convLayerRResult_PropagateRGradient MulAdd_clips sample_rresult
      [1; 1; 1; 1; 1; 1; 1; 1]%float [0; 0; 0; 0; 0; 0; 0; 0]%float
      (sample_grad_all, sample_grad_all) = (s', Ok tt).
Proof.
  apply (PropagateRGradient_returns MulAdd_clips sample_layer _ _ _ None
           (NewRVariable sample_input None) sample_rresult
           [1; 1; 1; 1; 1; 1; 1; 1]%float [0; 0; 0; 0; 0; 0; 0; 0]%float
           sample_grad_all sample_grad_all
           MulAdd_clips_clipping sample_layer_valid sample_filters_shaped
           (nil_directions_valid _ _ _) eq_refl eq_refl eq_refl eq_refl eq_refl
           sample_grad_all_valid sample_grad_all_valid).
  intros _ u uR s Hu HuR Hsr Hsg. apply RVariable_backward_returns.
  - intros r Hr. destruct (shape_at_key _ _ _ _ Hsr Hr) as (r0 & Hr0 & Hl).
    vm_compute in Hr0. inversion Hr0; subst r0. simpl in HuR, Hl. lia.
  - intros r Hr. destruct (shape_at_key _ _ _ _ Hsg Hr) as (r0 & Hr0 & Hl).
    vm_compute in Hr0. inversion Hr0; subst r0. simpl in Hu, Hl. lia.
Defined.

Lemma PropagateRGradient_accumulates_witness :
  (at_key 1 (snd (fst (convLayerRResult_PropagateRGradient MulAdd_clips sample_rresult
                         [1; 2; 3; 4; 5; 6; 7; 8]%float
                         [1; 0; 0; 0; 0; 0; 0; 2]%float
                         (sample_grad_all, sample_grad_all))))
   = Some [16; 20]%float
   /\ at_key 1 (fst (fst (convLayerRResult_PropagateRGradient MulAdd_clips sample_rresult
                            [1; 2; 3; 4; 5; 6; 7; 8]%float
                            [1; 0; 0; 0; 0; 0; 0; 2]%float
                            (sample_grad_all, sample_grad_all))))
      = Some [1; 2]%float)
  /\ at_key 2 (snd (fst (convLayerRResult_PropagateRGradient MulAdd_clips sample_rresult
                           [1; 2; 3; 4; 5; 6; 7; 8]%float
                           [1; 0; 0; 0; 0; 0; 0; 2]%float
                           (sample_grad_all, sample_grad_all))))
     = Some [62; 78; 110; 126]%float
  /\ at_key 2 (fst (fst (convLayerRResult_PropagateRGradient MulAdd_clips sample_rresult
                           [1; 2; 3; 4; 5; 6; 7; 8]%float
                           [1; 0; 0; 0; 0; 0; 0; 2]%float
                           (sample_grad_all, sample_grad_all))))
     = Some [1; 2; 4; 5]%float.
Proof.
  destruct (PropagateRGradient_accumulates MulAdd_clips sample_layer _ _ _ None
              (NewRVariable sample_input None) sample_rresult
              [1; 2; 3; 4; 5; 6; 7; 8]%float [1; 0; 0; 0; 0; 0; 0; 2]%float
              (mkTensor3 2 2 2 [1; 2; 3; 4; 5; 6; 7; 8]%float)
              (mkTensor3 2 2 2 [1; 0; 0; 0; 0; 0; 0; 2]%float)
              sample_grad_all sample_grad_all
              (fst (fst (convLayerRResult_PropagateRGradient MulAdd_clips sample_rresult
                           [1; 2; 3; 4; 5; 6; 7; 8]%float
                           [1; 0; 0; 0; 0; 0; 0; 2]%float
                           (sample_grad_all, sample_grad_all))))
              (snd (fst (convLayerRResult_PropagateRGradient MulAdd_clips sample_rresult
                           [1; 2; 3; 4; 5; 6; 7; 8]%float
                           [1; 0; 0; 0; 0; 0; 0; 2]%float
                           (sample_grad_all, sample_grad_all))))
              MulAdd_clips_clipping sample_layer_valid sample_filters_shaped
              (nil_directions_valid _ _ _) eq_refl eq_refl eq_refl eq_refl
              eq_refl eq_refl eq_refl sample_grad_all_valid
              sample_grad_all_valid sample_params_distinct)
    as [[Hb HbR] Hf].
  - intros u uR k Hk. simpl.
    assert (Hne : 9%positive <> k).
    { intros <-. revert Hk. simpl. rewrite !elem_of_cons, elem_of_nil.
      intros [H|[H|[H|[]]]]; discriminate. }
    apply preserves_bind; [|intros _].
    + apply (on_grad_both (at_key k)). apply update_entry_at_key. exact Hne.
    + apply (on_rgrad_both (at_key k)). apply update_entry_at_key. exact Hne.
  - vm_compute. reflexivity.
  - destruct (Hf 0%nat (mkVariable 2 [1; 2; 3; 4]%float) eq_refl) as [Hf0 Hf0R].
    split; [split|split].
    + etransitivity; [exact Hb|]. vm_compute. reflexivity.
    + etransitivity; [exact HbR|]. vm_compute. reflexivity.
    + etransitivity; [exact Hf0|]. vm_compute. reflexivity.
    + etransitivity; [exact Hf0R|]. vm_compute. reflexivity.
Defined.

(** X22.  Assuming that Tensor3.MulAdd, where section 4.1 does not say what
    it does (a negative offset, a source that reaches beyond the receiver),
    adds the part of the scaled source that falls inside the receiver, the
    dual pass leaves in the Gradient what the plain pass leaves there: on a
    valid layer with distinct parameter variables, for the nodes of Apply
    and ApplyR on the same input values and the same upstream vector, a
    PropagateRGradient that returns and a PropagateGradient that returns,
    both started on the same Gradient, leave the same accumulator (or none)
    under the key of the biases and of every filter variable, bit for
    bit. *)
Theorem dual_pass_agrees_with_plain_pass (beyond : MulAdd_unspecified)
  (layer : ConvLayer)
  (filters : list Tensor3) (filterVars : list autofunc_Variable)
  (biases : autofunc_Variable) (v : VarMap) (input : Result)
  (inputR : RResult) (c : convLayerResult) (cR : convLayerRResult)
  (upstream upstreamR : Vec) (rgrad grad grad1 rgrad2 grad2 : VarMap) :
  clipping beyond ->
  valid_layer layer filters filterVars biases ->
  Forall (filter_shaped layer) filters ->
  valid_directions layer filterVars biases v ->
  RResult_Output inputR = Output input ->
  Z.of_nat (length (Output input))
  = InputWidth layer * InputHeight layer * InputDepth layer ->
  Z.of_nat (length (ROutput inputR))
  = InputWidth layer * InputHeight layer * InputDepth layer ->
  Apply layer input = Ok c ->
  ApplyR layer v inputR = Ok cR ->
  length upstream = length (convLayerResult_Output c) ->
  length upstreamR = length (convLayerResult_Output c) ->
  valid_directions layer filterVars biases rgrad ->
  valid_directions layer filterVars biases grad ->
  NoDup (addr biases :: (addr <$> filterVars)) ->
  (forall u k, k ∈ addr biases :: (addr <$> filterVars) ->
     preserves (at_key k) (PropagateGradient input u)) ->
  (forall u uR k, k ∈ addr biases :: (addr <$> filterVars) ->
     preserves (at_key2 k) (PropagateRGradient inputR u uR)) ->
  convLayerResult_PropagateGradient beyond c upstream grad = (grad1, Ok tt) ->
  convLayerRResult_PropagateRGradient beyond cR upstream upstreamR (rgrad, grad)
  = ((rgrad2, grad2), Ok tt) ->
  forall k, k ∈ addr biases :: (addr <$> filterVars) ->
    at_key k grad2 = at_key k grad1.
Proof.
  intros Hclips V Hfs Vv Hout Hin HinR HA HAR Hup HupR VgR Vg ND Hframe HframeR
    Hret HretR k Hk.
  assert (Hin' : Z.of_nat (length (RResult_Output inputR))
                 = InputWidth layer * InputHeight layer * InputDepth layer)
    by (rewrite Hout; exact Hin).
  destruct (Apply_node _ _ _ _ _ _ V Hin HA) as (_ & _ & _ & _ & El).
  destruct (ApplyR_node _ _ _ _ _ _ _ V Hin' HAR) as (_ & _ & _ & _ & _ & ElR).
  assert (Hlen : length (convLayerRResult_Output cR)
                 = length (convLayerResult_Output c)) by lia.
  destruct (PropagateGradient_run beyond _ _ _ _ _ _ _ _ V Hin HA Hup Vg)
    as (s1 & ig & Hrun & _ & _ & Hst).
  destruct (PropagateRGradient_run beyond _ _ _ _ _ _ _ _ _ _ _ Hclips V Hfs Vv
              Hin' HinR HAR
              (eq_trans Hup (eq_sym Hlen)) (eq_trans HupR (eq_sym Hlen)) VgR Vg)
    as (s2 & igR & HrunR & _ & _ & _ & HstR).
  destruct (Hst ND) as [Hb Hf]. destruct (HstR ND) as [_ [HbR HfR]].
  rewrite Hout in HfR.
  assert (H1 : at_key k grad1 = at_key k s1).
  { rewrite Hrun in Hret. destruct ig as [u|].
    - pose proof (Hframe u k Hk s1) as Hp. rewrite Hret in Hp. exact Hp.
    - inversion Hret; reflexivity. }
  assert (H2 : at_key k grad2 = at_key k (snd s2)).
  { rewrite HrunR in HretR. destruct igR as [[u uR]|].
    - pose proof (HframeR u uR k Hk s2) as Hp. rewrite HretR in Hp.
      unfold at_key2 in Hp. simpl in Hp. inversion Hp. auto.
    - inversion HretR; reflexivity. }
  rewrite H1, H2. apply elem_of_cons in Hk as [-> | Hk].
  - rewrite Hb, HbR. reflexivity.
  - apply list_elem_of_fmap in Hk as (fv & -> & Hfv).
    apply list_elem_of_lookup in Hfv as (z & Hz).
    rewrite (Hf z fv Hz), (HfR z fv Hz). reflexivity.
Qed.

Lemma dual_pass_agrees_with_plain_pass_witness :
  at_key 2 (snd (fst (convLayerRResult_PropagateRGradient MulAdd_clips sample_rresult
                        [1; 2; 3; 4; 5; 6; 7; 8]%float
                        [1; 0; 0; 0; 0; 0; 0; 2]%float
                        (sample_grad_all, sample_grad_all))))
  = at_key 2 (fst (convLayerResult_PropagateGradient MulAdd_clips sample_result
                     [1; 2; 3; 4; 5; 6; 7; 8]%float sample_grad_all)).
Proof.
  apply (dual_pass_agrees_with_plain_pass MulAdd_clips sample_layer _ _ _ None
           (Variable_Result sample_input) (NewRVariable sample_input None)
           sample_result sample_rresult
           [1; 2; 3; 4; 5; 6; 7; 8]%float [1; 0; 0; 0; 0; 0; 0; 2]%float
           sample_grad_all sample_grad_all
           (fst (convLayerResult_PropagateGradient MulAdd_clips sample_result
                   [1; 2; 3; 4; 5; 6; 7; 8]%float sample_grad_all))
           (fst (fst (convLayerRResult_PropagateRGradient MulAdd_clips sample_rresult
                        [1; 2; 3; 4; 5; 6; 7; 8]%float
                        [1; 0; 0; 0; 0; 0; 0; 2]%float
                        (sample_grad_all, sample_grad_all))))
           (snd (fst (convLayerRResult_PropagateRGradient MulAdd_clips sample_rresult
                        [1; 2; 3; 4; 5; 6; 7; 8]%float
                        [1; 0; 0; 0; 0; 0; 0; 2]%float
                        (sample_grad_all, sample_grad_all))))
           MulAdd_clips_clipping sample_layer_valid sample_filters_shaped
           (nil_directions_valid _ _ _) eq_refl eq_refl eq_refl eq_refl eq_refl
           eq_refl eq_refl sample_grad_all_valid sample_grad_all_valid
           sample_params_distinct).
  - intros u k Hk. simpl. apply update_entry_at_key. intros <-.
    revert Hk. simpl. rewrite !elem_of_cons, elem_of_nil.
    intros [H|[H|[H|[]]]]; discriminate.
  - intros u uR k Hk. simpl.
    assert (Hne : 9%positive <> k).
    { intros <-. revert Hk. simpl. rewrite !elem_of_cons, elem_of_nil.
      intros [H|[H|[H|[]]]]; discriminate. }
    apply preserves_bind; [|intros _].
    + apply (on_grad_both (at_key k)). apply update_entry_at_key. exact Hne.
    + apply (on_rgrad_both (at_key k)). apply update_entry_at_key. exact Hne.
  - vm_compute. reflexivity.
  - vm_compute. reflexivity.
  - simpl. rewrite !elem_of_cons. auto.
Defined.

(** ** The filter-gradient step of the dual pass and the specification of
    MulAdd *)



(** X24.  On a valid layer whose filter is narrower or lower than the
    input, the filter-gradient step of PropagateRGradient calls MulAdd, at
    every output position, outside what section 4.1 specifies: the offset
    is negative or the source, the whole input, reaches beyond the
    receiver, the filter's gradient.  What the step returns is what MulAdd
    answers there, whatever that is. *)
Theorem dual_filter_step_is_beyond_specification (beyond : MulAdd_unspecified)
  (c : ConvLayer) (filters : list Tensor3)
  (filterVars : list autofunc_Variable) (biases : autofunc_Variable)
  (input : Vec) (x y : Z) (sumPartial : float) (gradVec : Vec) :
  valid_layer c filters filterVars biases ->
  0 <= x < shape_law (InputWidth c) (FilterWidth c) (Stride c) ->
  0 <= y < shape_law (InputHeight c) (FilterHeight c) (Stride c) ->
  FilterWidth c < InputWidth c \/ FilterHeight c < InputHeight c ->
  muladd_into beyond c (int_mul x (Stride c)) (int_mul y (Stride c))
    (inputToTensor c input) sumPartial gradVec
  = (t ← beyond (filterToTensor c gradVec) (- (x * Stride c))
          (- (y * Stride c)) (inputToTensor c input) sumPartial;
     Ok (Data t)).
Proof.
  intros V Hx Hy Hlarger.
  pose proof V as [VF VV VB VS VW VH VD Vc Vv Vb Vl].
  destruct (window_fits _ _ _ x VS Hx) as [Hx0 Hx1].
  destruct (window_fits _ _ _ y VS Hy) as [Hy0 Hy1].
  assert (Hm : max_int = 2 ^ 63 - 1) by reflexivity.
  unfold muladd_into.
  rewrite !int_mul_small by (unfold is_int, min_int; nia).
  rewrite !int_neg_small by (unfold is_int, min_int; lia).
  unfold MulAdd. simpl.
  destruct (tensor_ok (filterToTensor c gradVec)
            && tensor_ok (inputToTensor c input)
            && (InputDepth c =? InputDepth c)); simpl; [|reflexivity].
  destruct (Z.leb_spec 0 (- (x * Stride c))); simpl; [|reflexivity].
  destruct (Z.leb_spec (- (x * Stride c) + InputWidth c) (FilterWidth c));
    simpl; [|reflexivity].
  destruct (Z.leb_spec 0 (- (y * Stride c))); simpl; [|reflexivity].
  destruct (Z.leb_spec (- (y * Stride c) + InputHeight c) (FilterHeight c));
    simpl; [|reflexivity].
  lia.
Qed.

Lemma dual_filter_step_is_beyond_specification_witness :
  muladd_into MulAdd_clamps sample_layer (int_mul 1 (Stride sample_layer))
    (int_mul 1 (Stride sample_layer))
    (inputToTensor sample_layer (Vector sample_input)) 2%float [0; 0; 0; 0]%float
  = (t ← MulAdd_clamps (filterToTensor sample_layer [0; 0; 0; 0]%float)
          (- (1 * Stride sample_layer)) (- (1 * Stride sample_layer))
          (inputToTensor sample_layer (Vector sample_input)) 2%float;
     Ok (Data t)).
Proof.
  apply (dual_filter_step_is_beyond_specification MulAdd_clamps sample_layer
           _ _ _ (Vector sample_input) 1 1 2%float [0; 0; 0; 0]%float
           sample_layer_valid).
  - vm_compute. split; [intros H; discriminate|reflexivity].
  - vm_compute. split; [intros H; discriminate|reflexivity].
  - left. vm_compute. reflexivity.
Defined.

(** X25.  What the filter-gradient step of PropagateRGradient adds depends
    on that answer.  At [sample_layer], position (1, 1), with the upstream
    value 2 and a zero accumulator, the step of PropagateGradient adds twice
    the patch [5; 6; 8; 9]; the step of PropagateRGradient adds the same
    with a MulAdd that clips, twice [1; 2; 4; 5] with one that takes a
    negative offset for 0, and panics with one that refuses. *)
Theorem dual_filter_step_depends_on_MulAdd :
  patch_at sample_layer (Vector sample_input) 1 1
  = Ok (mkTensor3 2 2 1 [5; 6; 8; 9]%float)
  /\ axpy_into 2 (mkTensor3 2 2 1 [5; 6; 8; 9]%float) [0; 0; 0; 0]%float
     = Ok [10; 12; 16; 18]%float
  /\ muladd_into MulAdd_clips sample_layer 1 1
       (inputToTensor sample_layer (Vector sample_input)) 2 [0; 0; 0; 0]%float
     = Ok [10; 12; 16; 18]%float
  /\ muladd_into MulAdd_clamps sample_layer 1 1
       (inputToTensor sample_layer (Vector sample_input)) 2 [0; 0; 0; 0]%float
     = Ok [2; 4; 8; 10]%float
  /\ muladd_into MulAdd_refuses sample_layer 1 1
       (inputToTensor sample_layer (Vector sample_input)) 2 [0; 0; 0; 0]%float
     = Panic tensor_precondition.
Proof. vm_compute. repeat split. Qed.
